(** * D2RSG zone filling engine: a shallow embedding and its properties

    The development follows [TemplateZone] (templatezone.cpp / templatezone.h),
    [Map] / [Tile] (scenario/map.h), [Decoration::getMapElementArea]
    (decoration.cpp) and the settings, contents and diplomacy readers of
    maptemplatereader.cpp.

    Conventions.
    - C++ [int] / [std::size_t] coordinates, values and counters are [Z]; the
      quantities involved (map size at most 144, unit and item values) stay far
      from the 32-bit range, so no wrap-around is written out, except for the
      tile index [posToIndex], whose [int] arithmetic is written out to make
      the bound on the map size explicit.
    - C++ [float] is IEEE-754 binary32, modelled with the Standard Library's
      [SpecFloat] at precision 24 and maximal exponent 128.
    - [std::set<Position>] is a [gset Position] where only membership matters
      and a [list Position] (the set in iteration order) where the code
      iterates and the order can be observed. *)

From Stdlib Require Import ZArith Bool List Lia.
From Stdlib Require Import Floats.SpecFloat.
From stdpp Require Import base decidable option list gmap sets.

Import ListNotations.
Local Open Scope Z_scope.

(** ** Binary32 arithmetic *)

Module F32.

Definition prec : Z := 24.
Definition emax : Z := 128.

Abbreviation f32 := spec_float.

Definition add : f32 -> f32 -> f32 := SFadd prec emax.
Definition sub : f32 -> f32 -> f32 := SFsub prec emax.
Definition mul : f32 -> f32 -> f32 := SFmul prec emax.
Definition div : f32 -> f32 -> f32 := SFdiv prec emax.
Definition sqrt : f32 -> f32 := SFsqrt prec emax.
Definition abs : f32 -> f32 := SFabs.
Definition ltb : f32 -> f32 -> bool := SFltb.
Definition leb : f32 -> f32 -> bool := SFleb.

(** [static_cast<float>(z)] for an integer [z]: round to nearest even. *)
Definition of_Z (z : Z) : f32 := binary_normalize prec emax z 0 false.

Definition zero : f32 := S754_zero false.
Definition one : f32 := of_Z 1.
Definition infinity : f32 := S754_infinity false.

(** A decimal literal [n / d] written in the source with an [f] suffix: the
    binary32 number nearest to the quotient. *)
Definition literal (n d : Z) : f32 := div (of_Z n) (of_Z d).

(** [a > b] and [a >= b] as C++ evaluates them. *)
Definition gtb (a b : f32) : bool := ltb b a.
Definition geb (a b : f32) : bool := leb b a.

(** [std::min(a, b)] is [(b < a) ? b : a]; [std::max(a, b)] is
    [(a < b) ? b : a]. *)
Definition min (a b : f32) : f32 := if ltb b a then b else a.
Definition max (a b : f32) : f32 := if ltb a b then b else a.

(** [std::fmod(x, 1)]: the remainder of the truncating division by one. The
    operation is exact, its result has the sign of [x]; an infinite or NaN
    argument gives NaN. *)
Definition fmod1 (x : f32) : f32 :=
  match x with
  | S754_nan => S754_nan
  | S754_infinity _ => S754_nan
  | S754_zero s => S754_zero s
  | S754_finite s m e =>
      if 0 <=? e then S754_zero s
      else binary_normalize prec emax
             (cond_Zopp s (Z.pos m mod 2 ^ (- e))) e s
  end.

Definition is_finite (x : f32) : bool :=
  match x with
  | S754_zero _ | S754_finite _ _ _ => true
  | _ => false
  end.

(** A binary32 datum: a well-formed mantissa and exponent. *)
Definition valid (x : f32) : bool := valid_binary prec emax x.

End F32.

Abbreviation f32 := spec_float.

(** ** Positions *)

Abbreviation Position := (Z * Z)%type.

Definition padd (a b : Position) : Position := (fst a + fst b, snd a + snd b).
Definition psub (a b : Position) : Position := (fst a - fst b, snd a - snd b).

Definition distanceSquared (a b : Position) : Z :=
  (fst a - fst b) * (fst a - fst b) + (snd a - snd b) * (snd a - snd b).

(** Modelled from the spec: position.h is not part of the sources at hand.
    [Position(-1, -1)] is the "invalid position used as stop element";
    [isValid] accepts the positions with both coordinates non-negative. *)
Definition isValid (p : Position) : bool := (0 <=? fst p) && (0 <=? snd p).

Definition invalidPosition : Position := (-1, -1).

Definition Position_eqb (a b : Position) : bool :=
  (fst a =? fst b) && (snd a =? snd b).

(** ** Tiles and the generator's occupancy grid *)

Inductive TerrainType := TerrainHuman | TerrainDwarf | TerrainHeretic
                       | TerrainUndead | TerrainNeutral | TerrainElf.

Inductive GroundType := Plain | Forest | Water | Mountain.

Definition GroundType_eqb (a b : GroundType) : bool :=
  match a, b with
  | Plain, Plain | Forest, Forest | Water, Water | Mountain, Mountain => true
  | _, _ => false
  end.

(** [struct Tile] of scenario/map.h (the object id lists are not needed). *)
Record Tile := mkTile {
  terrain : TerrainType;
  ground : GroundType;
  treeImage : Z;
  visitable : bool;
  blocked : bool
}.

Definition setTerrainGround (t : Tile) (terrainType : TerrainType)
    (groundType : GroundType) : Tile :=
  let terrainType :=
    if GroundType_eqb groundType Water || GroundType_eqb groundType Mountain
    then TerrainNeutral else terrainType in
  {| terrain := terrainType; ground := groundType;
     treeImage := treeImage t; visitable := visitable t; blocked := blocked t |}.

Definition isWater (t : Tile) : bool := GroundType_eqb (ground t) Water.

Inductive TileType := Possible | Free | Blocked | Used.

Definition TileType_eqb (a b : TileType) : bool :=
  match a, b with
  | Possible, Possible | Free, Free | Blocked, Blocked | Used, Used => true
  | _, _ => false
  end.

(** Modelled from the spec: tileinfo.h is not part of the sources at hand.
    Per tile the generator keeps the occupancy state, the road flag, the zone
    id and the nearest-object distance (a binary32 number, initially
    [+infinity]). *)
Record TileInfo := mkTileInfo {
  occupied : TileType;
  road : bool;
  zoneId : Z;
  nearestObjectDistance : f32
}.

Definition initialTileInfo : TileInfo :=
  {| occupied := Possible; road := false; zoneId := 0;
     nearestObjectDistance := F32.infinity |}.

(** ** Random source

    Modelled from the spec: the random generator (seeded PRNG with
    integer-range draws, [chance], pick-from-container and value sampling from
    [RandomValue{min,max}]) is not part of the sources at hand. The generator
    is an oracle: the sequence of raw draws still to be consumed. Every
    behaviour of a seeded generator over a finite run is the behaviour of some
    such sequence. *)

Module Random.

Definition Rng := list Z.

Definition next (r : Rng) : Z * Rng :=
  match r with
  | [] => (0, [])
  | x :: r' => (Z.abs x, r')
  end.

(** Uniform integer in [[lo, hi]]. *)
Definition nextInteger (lo hi : Z) (r : Rng) : Z * Rng :=
  let (x, r') := next r in
  if hi <? lo then (lo, r') else (lo + x mod (hi - lo + 1), r').

(** [chance(percent)]: true with probability [percent] %. *)
Definition chance (percent : Z) (r : Rng) : bool * Rng :=
  let (x, r') := nextInteger 0 99 r in (x <? percent, r').

(** [getRandomElement(container, rand)]: an element at a uniform index, [None]
    standing for the end iterator of an empty container. *)
Definition getRandomElement {A : Type} (l : list A) (r : Rng) : option A * Rng :=
  let (i, r') := nextInteger 0 (Z.of_nat (length l) - 1) r in
  (nth_error l (Z.to_nat i), r').

End Random.

(** [RandomValue<T>{min, max}]. Modelled from the spec: its conversion to
    [bool] (randomvalue.h is not at hand) tells a value that was given from
    one left at zero. *)
Record RandomValue := mkRandomValue { rvMin : Z; rvMax : Z }.

Definition rvSet (v : RandomValue) : bool :=
  negb (rvMin v =? 0) || negb (rvMax v =? 0).

Definition pickValue (v : RandomValue) (r : Random.Rng) : Z * Random.Rng :=
  Random.nextInteger (rvMin v) (rvMax v) r.

(** ** Identifiers and scenario objects

    Modelled from the spec: rsgid.h is not part of the sources at hand. An id
    is a pair of a type code and an index; [emptyId] is the id "g000000000"
    that the template reader leaves in place when no id was given. *)

Abbreviation CMidgardID := (Z * Z)%type.

Module IdType.
Definition Empty : Z := 0.
Definition Fortification : Z := 1.
Definition Stack : Z := 2.
Definition Crystal : Z := 3.
Definition Ruin : Z := 4.
Definition Site : Z := 5.
Definition Bag : Z := 6.
Definition Landmark : Z := 7.
Definition Unit : Z := 8.
Definition Item : Z := 9.
Definition Modifier : Z := 10.
Definition UnitGlobal : Z := 11.
Definition ItemGlobal : Z := 12.
End IdType.

Definition emptyId : CMidgardID := (IdType.Empty, 0).

Definition CMidgardID_eqb (a b : CMidgardID) : bool :=
  (fst a =? fst b) && (snd a =? snd b).

(** Modelled from the spec: mapelement.h is not part of the sources at hand.
    A map element carries its position, its size, the offsets of the tiles it
    blocks, the offset of its entrance, the offsets of the tiles around the
    entrance and the test [isVisitableFrom]; the geometry is data of the
    element, read by the zone filler through the accessors below. *)
Record MapElement := mkMapElement {
  position : Position;
  size : Position;
  blockedOffsets : list Position;
  entranceOffset : Position;
  entranceOffsets : list Position;
  isVisitableFrom : Position -> bool
}.

Definition setPosition (e : MapElement) (p : Position) : MapElement :=
  {| position := p; size := size e; blockedOffsets := blockedOffsets e;
     entranceOffset := entranceOffset e; entranceOffsets := entranceOffsets e;
     isVisitableFrom := isVisitableFrom e |}.

Definition getBlockedPositions (e : MapElement) : list Position :=
  map (padd (position e)) (blockedOffsets e).

Definition getEntrance (e : MapElement) : Position :=
  padd (position e) (entranceOffset e).

(** [Unit] of the scenario: the catalog entry it instantiates and the
    modifiers attached to it. *)
Record Unit := mkUnit {
  implId : CMidgardID;
  level : Z;
  hp : Z;
  modifiers : list CMidgardID
}.

Definition addModifier (u : Unit) (m : CMidgardID) : Unit :=
  {| implId := implId u; level := level u; hp := hp u;
     modifiers := modifiers u ++ [m] |}.

(** Modelled from the spec: group.h is not part of the sources at hand. A
    group has six slots; slots [2k] and [2k + 1] form a column and a big unit
    occupies both slots of its column. A slot records the unit standing in
    it; the group remembers which unit was added as the leader. *)
Record Group := mkGroup {
  slots : list (option CMidgardID);
  groupLeader : option CMidgardID
}.

Definition emptyGroup : Group :=
  {| slots := [None; None; None; None; None; None]; groupLeader := None |}.

Definition slotFree (g : Group) (i : nat) : bool :=
  match nth_error (slots g) i with
  | Some None => true
  | _ => false
  end.

Definition secondSlot (i : nat) : nat := if Nat.even i then S i else Nat.pred i.

(** Placing a unit fails when a slot it needs is out of range or taken. *)
Definition placeInGroup (g : Group) (unitId : CMidgardID) (i : nat)
    (bigUnit : bool) : option (list (option CMidgardID)) :=
  if negb (slotFree g i) then None
  else if bigUnit then
    if negb (slotFree g (secondSlot i)) then None
    else Some (<[secondSlot i := Some unitId]> (<[i := Some unitId]> (slots g)))
  else Some (<[i := Some unitId]> (slots g)).

Definition Group_addUnit (g : Group) (unitId : CMidgardID) (i : nat)
    (bigUnit : bool) : bool * Group :=
  match placeInGroup g unitId i bigUnit with
  | Some s => (true, {| slots := s; groupLeader := groupLeader g |})
  | None => (false, g)
  end.

Definition Group_addLeader (g : Group) (leaderId : CMidgardID) (i : nat)
    (bigUnit : bool) : bool * Group :=
  match groupLeader g with
  | Some _ => (false, g)
  | None =>
      match placeInGroup g leaderId i bigUnit with
      | Some s => (true, {| slots := s; groupLeader := Some leaderId |})
      | None => (false, g)
      end
  end.

(** [Stack] (stack.h): the group, the inventory and the leader id, which
    [addLeader] records when the group accepts the leader. *)
Record Stack := mkStack {
  stackGroup : Group;
  inventory : list CMidgardID;
  leaderId : CMidgardID;
  move : Z;
  facing : Z
}.

Definition Stack_addLeader (s : Stack) (id : CMidgardID) (i : nat)
    (bigUnit : bool) : bool * Stack :=
  let (ok, g) := Group_addLeader (stackGroup s) id i bigUnit in
  if ok then
    (true, {| stackGroup := g; inventory := inventory s; leaderId := id;
              move := move s; facing := facing s |})
  else (false, s).

Inductive ObjectData :=
| FortificationData (gapMask : Z) (tilesByMask : list Position)
| StackData (s : Stack)
| CrystalData
| RuinData
| SiteData
| BagData
| LandmarkData
| UnitData (u : Unit)
| ItemData (itemType : CMidgardID).

(** A scenario object: its id, its footprint when it is a map element, and
    the data of its variant. *)
Record ScenarioObject := mkScenarioObject {
  objectId : CMidgardID;
  element : MapElement;
  objectData : ObjectData
}.

(** ** The generator and the zone *)

(** Modelled from the spec: mapgenerator.h is not part of the sources at
    hand. The generator owns the occupancy grid, the scenario map (size, tiles,
    map-element index, object store with unique lookup by id), the id counter
    and the random source. *)
Record MapGenerator := mkMapGenerator {
  mapSize : Z;
  tiles : Position -> TileInfo;
  mapTiles : Position -> Tile;
  mapElements : list (CMidgardID * MapElement);
  objects : gmap CMidgardID ScenarioObject;
  freeIdIndex : Z;
  randomGenerator : Random.Rng;
  forest : Z
}.

Inductive ZoneBorderType := BorderWater | BorderOpen | BorderClosed | BorderSemiOpen.

(** [RoadInfo]: the path is kept in the order in which backtracking visits
    it, from the tile reached back towards the source, each tile with the cost
    recorded for it (the key of the source's priority queue). *)
Record RoadInfo := mkRoadInfo {
  roadPath : list (Position * f32);
  roadSource : Position;
  roadDestination : Position
}.

(** [TemplateZone], with the generator it points to. *)
Record TemplateZone := mkTemplateZone {
  id : Z;
  borderType : ZoneBorderType;
  gapChance : Z;
  pos : Position;
  center : f32 * f32;
  tileInfo : list Position;
  possibleTiles : gset Position;
  freePaths : gset Position;
  roadNodes : gset Position;
  roads : list RoadInfo;
  mapGenerator : MapGenerator
}.

Definition withTiles (g : MapGenerator) (t : Position -> TileInfo) : MapGenerator :=
  {| mapSize := mapSize g; tiles := t; mapTiles := mapTiles g;
     mapElements := mapElements g; objects := objects g;
     freeIdIndex := freeIdIndex g; randomGenerator := randomGenerator g;
     forest := forest g |}.

Definition withMapTiles (g : MapGenerator) (t : Position -> Tile) : MapGenerator :=
  {| mapSize := mapSize g; tiles := tiles g; mapTiles := t;
     mapElements := mapElements g; objects := objects g;
     freeIdIndex := freeIdIndex g; randomGenerator := randomGenerator g;
     forest := forest g |}.

Definition withRandom (g : MapGenerator) (r : Random.Rng) : MapGenerator :=
  {| mapSize := mapSize g; tiles := tiles g; mapTiles := mapTiles g;
     mapElements := mapElements g; objects := objects g;
     freeIdIndex := freeIdIndex g; randomGenerator := r; forest := forest g |}.

Definition withObjects (g : MapGenerator) (o : gmap CMidgardID ScenarioObject)
    : MapGenerator :=
  {| mapSize := mapSize g; tiles := tiles g; mapTiles := mapTiles g;
     mapElements := mapElements g; objects := o;
     freeIdIndex := freeIdIndex g; randomGenerator := randomGenerator g;
     forest := forest g |}.

Definition withMapElements (g : MapGenerator) (l : list (CMidgardID * MapElement))
    : MapGenerator :=
  {| mapSize := mapSize g; tiles := tiles g; mapTiles := mapTiles g;
     mapElements := l; objects := objects g;
     freeIdIndex := freeIdIndex g; randomGenerator := randomGenerator g;
     forest := forest g |}.

Definition withFreeIdIndex (g : MapGenerator) (n : Z) : MapGenerator :=
  {| mapSize := mapSize g; tiles := tiles g; mapTiles := mapTiles g;
     mapElements := mapElements g; objects := objects g;
     freeIdIndex := n; randomGenerator := randomGenerator g;
     forest := forest g |}.

Definition withGenerator (z : TemplateZone) (g : MapGenerator) : TemplateZone :=
  {| id := id z; borderType := borderType z; gapChance := gapChance z;
     pos := pos z; center := center z; tileInfo := tileInfo z;
     possibleTiles := possibleTiles z; freePaths := freePaths z;
     roadNodes := roadNodes z; roads := roads z; mapGenerator := g |}.

Definition withPossibleTiles (z : TemplateZone) (s : gset Position) : TemplateZone :=
  {| id := id z; borderType := borderType z; gapChance := gapChance z;
     pos := pos z; center := center z; tileInfo := tileInfo z;
     possibleTiles := s; freePaths := freePaths z;
     roadNodes := roadNodes z; roads := roads z; mapGenerator := mapGenerator z |}.

Definition withRoadNodes (z : TemplateZone) (s : gset Position) : TemplateZone :=
  {| id := id z; borderType := borderType z; gapChance := gapChance z;
     pos := pos z; center := center z; tileInfo := tileInfo z;
     possibleTiles := possibleTiles z; freePaths := freePaths z;
     roadNodes := s; roads := roads z; mapGenerator := mapGenerator z |}.

Definition withRoads (z : TemplateZone) (l : list RoadInfo) : TemplateZone :=
  {| id := id z; borderType := borderType z; gapChance := gapChance z;
     pos := pos z; center := center z; tileInfo := tileInfo z;
     possibleTiles := possibleTiles z; freePaths := freePaths z;
     roadNodes := roadNodes z; roads := l; mapGenerator := mapGenerator z |}.

Definition withCenter (z : TemplateZone) (c : f32 * f32) : TemplateZone :=
  {| id := id z; borderType := borderType z; gapChance := gapChance z;
     pos := pos z; center := c; tileInfo := tileInfo z;
     possibleTiles := possibleTiles z; freePaths := freePaths z;
     roadNodes := roadNodes z; roads := roads z; mapGenerator := mapGenerator z |}.

(** *** Grid operations of the generator and the map *)

Definition fupd {A : Type} (f : Position -> A) (p : Position) (v : A) : Position -> A :=
  fun q => if Position_eqb q p then v else f q.

(** [Map::isInTheMap] and [Map::isAtTheBorder] (map.h). *)
Definition isInTheMap (g : MapGenerator) (p : Position) : bool :=
  (0 <=? fst p) && (fst p <? mapSize g) && (0 <=? snd p) && (snd p <? mapSize g).

Definition isAtTheBorder (g : MapGenerator) (p : Position) : bool :=
  (fst p =? 0) || (fst p =? mapSize g - 1) || (snd p =? 0)
  || (snd p =? mapSize g - 1).

Definition getZoneId (g : MapGenerator) (p : Position) : Z := zoneId (tiles g p).
Definition isPossible (g : MapGenerator) (p : Position) : bool :=
  TileType_eqb (occupied (tiles g p)) Possible.
Definition isFree (g : MapGenerator) (p : Position) : bool :=
  TileType_eqb (occupied (tiles g p)) Free.
Definition isUsed (g : MapGenerator) (p : Position) : bool :=
  TileType_eqb (occupied (tiles g p)) Used.
Definition shouldBeBlocked (g : MapGenerator) (p : Position) : bool :=
  TileType_eqb (occupied (tiles g p)) Blocked.
Definition isRoad (g : MapGenerator) (p : Position) : bool := road (tiles g p).
Definition getNearestObjectDistance (g : MapGenerator) (p : Position) : f32 :=
  nearestObjectDistance (tiles g p).

Definition setOccupied (g : MapGenerator) (p : Position) (s : TileType) : MapGenerator :=
  let t := tiles g p in
  withTiles g (fupd (tiles g) p
    {| occupied := s; road := road t; zoneId := zoneId t;
       nearestObjectDistance := nearestObjectDistance t |}).

Definition setRoad (g : MapGenerator) (p : Position) (b : bool) : MapGenerator :=
  let t := tiles g p in
  withTiles g (fupd (tiles g) p
    {| occupied := occupied t; road := b; zoneId := zoneId t;
       nearestObjectDistance := nearestObjectDistance t |}).

Definition setNearestObjectDistance (g : MapGenerator) (p : Position) (d : f32)
    : MapGenerator :=
  let t := tiles g p in
  withTiles g (fupd (tiles g) p
    {| occupied := occupied t; road := road t; zoneId := zoneId t;
       nearestObjectDistance := d |}).

Definition paintTerrain (g : MapGenerator) (p : Position) (t : TerrainType)
    (gr : GroundType) : MapGenerator :=
  withMapTiles g (fupd (mapTiles g) p (setTerrainGround (mapTiles g p) t gr)).

(** Modelled from the spec: the neighbour iterators of the generator visit the
    neighbours of a tile that lie in the map, the four straight ones
    ([foreachDirectNeighbor]), the four diagonal ones
    ([foreachDiagonalNeighbor]) or all eight ([foreachNeighbor]). *)
Definition directDirs : list Position := [(0, 1); (0, -1); (-1, 0); (1, 0)].
Definition diagonalDirs : list Position := [(1, 1); (-1, 1); (1, -1); (-1, -1)].

Definition directNeighbors (g : MapGenerator) (p : Position) : list Position :=
  List.filter (isInTheMap g) (map (padd p) directDirs).

Definition diagonalNeighbors (g : MapGenerator) (p : Position) : list Position :=
  List.filter (isInTheMap g) (map (padd p) diagonalDirs).

Definition neighbors (g : MapGenerator) (p : Position) : list Position :=
  List.filter (isInTheMap g) (map (padd p) (directDirs ++ diagonalDirs)).

(** ** Zone center *)

(** [TemplateZone::setCenter]: each coordinate is reduced with [std::fmod]
    and a negative remainder [c] is replaced by [1.f - std::abs(c)]. *)
Definition wrapCoordinate (c : f32) : f32 :=
  let c := F32.fmod1 c in
  if F32.ltb c F32.zero then F32.sub F32.one (F32.abs c) else c.

Definition setCenter (z : TemplateZone) (value : f32 * f32) : TemplateZone :=
  withCenter z (wrapCoordinate (fst value), wrapCoordinate (snd value)).

(** Membership in the half-open interval [[0, 1)]. *)
Definition inUnitInterval (x : f32) : bool := F32.leb F32.zero x && F32.ltb x F32.one.

(** ** Nearest-object distances *)

(** One iteration of the loop of [TemplateZone::updateDistances]. *)
Definition updateDistanceAt (p : Position) (g : MapGenerator) (tile : Position)
    : MapGenerator :=
  let distance := F32.of_Z (distanceSquared p tile) in
  let currentDistance := getNearestObjectDistance g tile in
  setNearestObjectDistance g tile (F32.min distance currentDistance).

(** [TemplateZone::updateDistances]: the loop runs over [possibleTiles]. *)
Definition updateDistances (z : TemplateZone) (p : Position) : TemplateZone :=
  withGenerator z
    (fold_left (updateDistanceAt p) (elements (possibleTiles z)) (mapGenerator z)).

(** A small generator for examples: a square map whose tiles are all
    [Possible], in zone [zid], with no object nearby. *)
Definition blankGenerator (n zid : Z) : MapGenerator :=
  {| mapSize := n;
     tiles := fun _ => {| occupied := Possible; road := false; zoneId := zid;
                          nearestObjectDistance := F32.infinity |};
     mapTiles := fun _ => {| terrain := TerrainNeutral; ground := Plain;
                             treeImage := 0; visitable := false; blocked := false |};
     mapElements := []; objects := ∅; freeIdIndex := 0;
     randomGenerator := []; forest := 0 |}.

Definition blankZone (n zid : Z) (area : list Position) : TemplateZone :=
  {| id := zid; borderType := BorderOpen; gapChance := 0; pos := (0, 0);
     center := (F32.zero, F32.zero); tileInfo := area;
     possibleTiles := list_to_set area; freePaths := ∅; roadNodes := ∅;
     roads := []; mapGenerator := blankGenerator n zid |}.

(** ** Zone border (createBorder) *)

(** The neighbour scan of [createBorder]: [border = border || zone id of the
    neighbour differs from the zone's]. *)
Definition isBorderTile (z : TemplateZone) (g : MapGenerator) (tile : Position) : bool :=
  fold_left (fun border position => border || negb (getZoneId g position =? id z))
            (neighbors g tile) false.

(** The body of the loop of [createBorder] for one tile of [tileInfo]. The
    counters of the source only feed its debug output and are left out. *)
Definition createBorderAt (z : TemplateZone) (g : MapGenerator) (tile : Position)
    : MapGenerator :=
  if isBorderTile z g tile then
    if isPossible g tile then
      match borderType z with
      | BorderWater =>
          setOccupied (paintTerrain g tile TerrainNeutral Water) tile Free
      | BorderOpen => setOccupied g tile Free
      | BorderClosed => setOccupied g tile Blocked
      | BorderSemiOpen =>
          let (gap, r) := Random.chance (gapChance z) (randomGenerator g) in
          setOccupied (withRandom g r) tile (if gap then Free else Blocked)
      end
    else g
  else g.

Definition createBorder (z : TemplateZone) : TemplateZone :=
  withGenerator z (fold_left (createBorderAt z) (tileInfo z) (mapGenerator z)).

(** What a border type makes of a possible border tile. *)
Definition borderOutcome (b : ZoneBorderType) (s : TileType) : Prop :=
  match b with
  | BorderWater | BorderOpen => s = Free
  | BorderClosed => s = Blocked
  | BorderSemiOpen => s = Free \/ s = Blocked
  end.

(** A 3x3 map split between zone 1 (columns 0 and 1) and zone 2 (column 2);
    the tile (1, 1) of zone 1 is in state [s], every other tile is possible. *)
Definition borderGenerator (s : TileType) : MapGenerator :=
  {| mapSize := 3;
     tiles := fun q =>
       {| occupied := if Position_eqb q (1, 1) then s else Possible;
          road := false;
          zoneId := if fst q <? 2 then 1 else 2;
          nearestObjectDistance := F32.infinity |};
     mapTiles := fun _ => {| terrain := TerrainNeutral; ground := Plain;
                             treeImage := 0; visitable := false; blocked := false |};
     mapElements := []; objects := ∅; freeIdIndex := 0;
     randomGenerator := []; forest := 0 |}.

Definition borderZone (b : ZoneBorderType) (s : TileType) : TemplateZone :=
  {| id := 1; borderType := b; gapChance := 50; pos := (0, 1);
     center := (F32.zero, F32.zero);
     tileInfo := [(0, 0); (0, 1); (0, 2); (1, 0); (1, 1); (1, 2)];
     possibleTiles := ∅; freePaths := ∅; roadNodes := ∅;
     roads := []; mapGenerator := borderGenerator s |}.

(** ** Placing objects (placeObject) *)

(** The two [std::runtime_error]s of the [placeObject] overloads. *)
Inductive PlaceError := PositionOutsideMap | EntranceOutsideMap.

(** What a call leaves behind: how it ended and the zone (with its generator)
    at that moment. *)
Definition Outcome : Type := (PlaceError + unit) * TemplateZone.

Definition threw (o : Outcome) : bool :=
  match fst o with inl _ => true | inr _ => false end.

Definition withElement (o : ScenarioObject) (e : MapElement) : ScenarioObject :=
  {| objectId := objectId o; element := e; objectData := objectData o |}.

(** [blocked = getBlockedPositions(); blocked.insert(getEntrance())]. *)
Definition blockedAndEntrance (e : MapElement) : list Position :=
  getBlockedPositions e ++ [getEntrance e].

Definition markUsed (g : MapGenerator) (l : list Position) : MapGenerator :=
  fold_left (fun g tile => setOccupied g tile Used) l g.

Definition addRoadNode (z : TemplateZone) (p : Position) : TemplateZone :=
  withRoadNodes z ({[p]} ∪ roadNodes z).

(** Modelled from the spec: [Map::insertMapElement] and
    [MapGenerator::insertObject] are not part of the sources at hand. The
    first records the element under its id in the map-element index, the
    second puts the object into the store under its id. *)
Definition insertMapElement (g : MapGenerator) (e : MapElement) (i : CMidgardID)
    : MapGenerator :=
  withMapElements g ((i, e) :: mapElements g).

Definition insertObject (g : MapGenerator) (o : ScenarioObject) : MapGenerator :=
  withObjects g (<[objectId o := o]> (objects g)).

(** The common end of every overload: update distances when asked, add the
    road node for the variants that have one, insert the element and the
    object. *)
Definition commitObject (z : TemplateZone) (o : ScenarioObject)
    (updateDistance roadNode : bool) : TemplateZone :=
  let z := if updateDistance then updateDistances z (position (element o)) else z in
  let z := if roadNode then addRoadNode z (getEntrance (element o)) else z in
  let g := insertMapElement (mapGenerator z) (element o) (objectId o) in
  withGenerator z (insertObject g o).

Definition gapMaskOf (o : ScenarioObject) : Z :=
  match objectData o with FortificationData m _ => m | _ => 0 end.

(** [getTilesByMask(getGapMask())]: the tiles the gap mask selects around the
    fortification, as offsets from its position. *)
Definition getTilesByMask (o : ScenarioObject) : list Position :=
  match objectData o with
  | FortificationData _ l => map (padd (position (element o))) l
  | _ => []
  end.

(** [placeObject(std::unique_ptr<Fortification>&&, position, terrain,
    updateDistance)]. *)
Definition placeObject_Fortification (z : TemplateZone) (fortification : ScenarioObject)
    (p : Position) (terrainType : TerrainType) (updateDistance : bool) : Outcome :=
  if negb (isInTheMap (mapGenerator z) p) then (inl PositionOutsideMap, z)
  else
    let fortification := withElement fortification (setPosition (element fortification) p) in
    if negb (isInTheMap (mapGenerator z) (getEntrance (element fortification)))
    then (inl EntranceOutsideMap, z)
    else
      let blockedTiles := blockedAndEntrance (element fortification) in
      let g := fold_left (fun g tile =>
                   paintTerrain (setOccupied g tile Used) tile terrainType Plain)
                 blockedTiles (mapGenerator z) in
      let g :=
        if 0 <? gapMaskOf fortification then
          fold_left (fun g tile =>
              if bool_decide (tile ∈ blockedTiles) then g
              else if negb (isInTheMap g tile) then g
              else setOccupied g tile Free)
            (getTilesByMask fortification) g
        else g in
      (inr tt, commitObject (withGenerator z g) fortification updateDistance true).

(** The overloads for stacks, crystals and bags check the position only. *)
Definition placeObject_positionOnly (z : TemplateZone) (o : ScenarioObject)
    (p : Position) (updateDistance : bool) : Outcome :=
  if negb (isInTheMap (mapGenerator z) p) then (inl PositionOutsideMap, z)
  else
    let o := withElement o (setPosition (element o) p) in
    let g := markUsed (mapGenerator z) (blockedAndEntrance (element o)) in
    (inr tt, commitObject (withGenerator z g) o updateDistance false).

Definition placeObject_Stack := placeObject_positionOnly.
Definition placeObject_Crystal := placeObject_positionOnly.
Definition placeObject_Bag := placeObject_positionOnly.

(** The overloads for ruins, sites and landmarks also check the entrance;
    a site registers its entrance as a road node. *)
Definition placeObject_withEntrance (roadNode : bool) (z : TemplateZone)
    (o : ScenarioObject) (p : Position) (updateDistance : bool) : Outcome :=
  if negb (isInTheMap (mapGenerator z) p) then (inl PositionOutsideMap, z)
  else
    let o := withElement o (setPosition (element o) p) in
    if negb (isInTheMap (mapGenerator z) (getEntrance (element o)))
    then (inl EntranceOutsideMap, z)
    else
      let g := markUsed (mapGenerator z) (blockedAndEntrance (element o)) in
      (inr tt, commitObject (withGenerator z g) o updateDistance roadNode).

Definition placeObject_Ruin := placeObject_withEntrance false.
Definition placeObject_Site := placeObject_withEntrance true.
Definition placeObject_Landmark := placeObject_withEntrance false.

(** The contract shared by the overloads. [entranceChecked] tells whether the
    overload checks the entrance; [place] is the overload. The footprint of
    the object placed at [p] is the tiles at its blocked offsets from [p], its
    entrance the tile at its entrance offset from [p]. *)
Definition placeObjectContract (entranceChecked : bool)
    (place : TemplateZone -> ScenarioObject -> Position -> bool -> Outcome) : Prop :=
  forall (z : TemplateZone) (o : ScenarioObject) (p : Position) (upd : bool),
    let e := setPosition (element o) p in
    let entrance := padd p (entranceOffset (element o)) in
    let outside :=
      negb (isInTheMap (mapGenerator z) p)
      || (entranceChecked && negb (isInTheMap (mapGenerator z) entrance)) in
    let r := place z o p upd in
    threw r = outside
    /\ (outside = true -> snd r = z)
    /\ (outside = false ->
        (forall offset, offset ∈ blockedOffsets (element o) ->
           occupied (tiles (mapGenerator (snd r)) (padd p offset)) = Used)
        /\ occupied (tiles (mapGenerator (snd r)) entrance) = Used
        /\ objects (mapGenerator (snd r)) !! objectId o = Some (withElement o e)
        /\ (objectId o, e) ∈ mapElements (mapGenerator (snd r))).

(** ** Placement search (findPlaceForObject) *)

(** [isBlocked] of the generator. Modelled from the spec and from the uses in
    templatezone.cpp: [connectPath] rejects a neighbour on [isBlocked] under
    the comment "No paths through blocked or occupied tiles", and the
    blueprint marks a footprint [Used] to keep paths out of it; the test holds
    for the states [Blocked] and [Used]. *)
Definition isBlocked (g : MapGenerator) (p : Position) : bool :=
  shouldBeBlocked g p || isUsed g p.

Definition isInTheZone (z : TemplateZone) (p : Position) : bool :=
  getZoneId (mapGenerator z) p =? id z.

(** Modelled from the spec: [Map::isAtTheBorder(mapElement, position)]
    (map.cpp is not at hand) "returns true if mapElement will be at the border
    of the map, if placed at position": a tile of the rectangle of the
    element's size placed at the position lies on the outermost ring of the
    map or beyond it. *)
Definition isAtTheBorderElem (g : MapGenerator) (e : MapElement) (p : Position) : bool :=
  (fst p <=? 0) || (snd p <=? 0)
  || (mapSize g - 1 <=? fst p + fst (size e) - 1)
  || (mapSize g - 1 <=? snd p + snd (size e) - 1).

(** The offsets visited by the two nested loops of [getAccessibleOffset],
    [x] outermost. *)
Definition aroundOffsets : list Position :=
  [(-1, -1); (-1, 0); (-1, 1); (0, -1); (0, 0); (0, 1); (1, -1); (1, 0); (1, 1)].

Definition getAccessibleOffset (z : TemplateZone) (e : MapElement) (p : Position)
    : Position :=
  fold_left (fun result xy =>
      if (fst xy =? 0) && (snd xy =? 0) then result
      else
        let offset := padd xy (entranceOffset e) in
        if bool_decide (offset ∈ blockedOffsets e) then result
        else
          let nearbyPos := padd p offset in
          if negb (isInTheMap (mapGenerator z) nearbyPos) then result
          else if isVisitableFrom e xy
                  && negb (isBlocked (mapGenerator z) nearbyPos)
                  && isInTheZone z nearbyPos
               then nearbyPos
               else result)
    aroundOffsets invalidPosition.

Definition isAccessibleFromSomewhere (z : TemplateZone) (e : MapElement) (p : Position)
    : bool :=
  isValid (getAccessibleOffset z e p).

Definition isEntranceAccessible (z : TemplateZone) (e : MapElement) (p : Position)
    : bool :=
  let entrance := padd p (entranceOffset e) in
  forallb (fun offset =>
      let entranceTile := padd entrance offset in
      isInTheMap (mapGenerator z) entranceTile
      && negb (isBlocked (mapGenerator z) entranceTile))
    (entranceOffsets e).

Definition areAllTilesAvailable (z : TemplateZone) (e : MapElement) (p : Position)
    (offsets : list Position) : bool :=
  forallb (fun offset =>
      let t := padd p offset in
      isInTheMap (mapGenerator z) t && isPossible (mapGenerator z) t
      && (getZoneId (mapGenerator z) t =? id z))
    offsets.

(** The locals of [findPlaceForObject] that live across iterations. *)
Record FindState := mkFindState {
  bestDistance : f32;
  foundPosition : Position;
  found : bool
}.

Definition findPlaceStep (z : TemplateZone) (e : MapElement) (minDistance : Z)
    (findAccessible : bool) (st : FindState) (tile : Position) : FindState :=
  let g := mapGenerator z in
  if isAtTheBorderElem g e tile then st
  else if findAccessible && negb (isAccessibleFromSomewhere z e tile) then st
  else if findAccessible && negb (isEntranceAccessible z e tile) then st
  else if negb (isPossible g tile) then st
  else
    let distance := getNearestObjectDistance g tile in
    let distanceMoreThanMin := F32.geb distance (F32.of_Z minDistance) in
    let distanceMoreThanBest := F32.gtb distance (bestDistance st) in
    if distanceMoreThanMin && distanceMoreThanBest then
      if areAllTilesAvailable z e tile (blockedOffsets e)
      then {| bestDistance := distance; foundPosition := tile; found := true |}
      else st
    else st.

(** [findPlaceForObject(area, mapElement, minDistance, position,
    findAccessible)]: the result and the value left in [position]. *)
Definition findPlaceForObject (z : TemplateZone) (area : list Position)
    (e : MapElement) (minDistance : Z) (p : Position) (findAccessible : bool)
    : bool * Position :=
  let st := fold_left (findPlaceStep z e minDistance findAccessible) area
              {| bestDistance := F32.zero; foundPosition := p; found := false |} in
  (found st, foundPosition st).

(** The constraints named by the spec for a tile of the area. *)
Definition statedConstraints (z : TemplateZone) (e : MapElement) (minDistance : Z)
    (tile : Position) : bool :=
  isPossible (mapGenerator z) tile
  && F32.geb (getNearestObjectDistance (mapGenerator z) tile) (F32.of_Z minDistance)
  && areAllTilesAvailable z e tile (blockedOffsets e).

(** The constraints the loop applies. *)
Definition placeCandidate (z : TemplateZone) (e : MapElement) (minDistance : Z)
    (findAccessible : bool) (tile : Position) : bool :=
  negb (isAtTheBorderElem (mapGenerator z) e tile)
  && (negb findAccessible
      || (isAccessibleFromSomewhere z e tile && isEntranceAccessible z e tile))
  && F32.gtb (getNearestObjectDistance (mapGenerator z) tile) F32.zero
  && statedConstraints z e minDistance tile.

(** A 1x1 element that blocks its own tile and is entered there. *)
Definition unitElement : MapElement :=
  {| position := (0, 0); size := (1, 1); blockedOffsets := [(0, 0)];
     entranceOffset := (0, 0); entranceOffsets := [];
     isVisitableFrom := fun _ => true |}.

(** A 7x7 map in which the zone 1 owns the single tile (3, 3). *)
Definition islandGenerator : MapGenerator :=
  {| mapSize := 7;
     tiles := fun q =>
       {| occupied := Possible; road := false;
          zoneId := if Position_eqb q (3, 3) then 1 else 2;
          nearestObjectDistance := F32.infinity |};
     mapTiles := fun _ => {| terrain := TerrainNeutral; ground := Plain;
                             treeImage := 0; visitable := false; blocked := false |};
     mapElements := []; objects := ∅; freeIdIndex := 0;
     randomGenerator := []; forest := 0 |}.

Definition islandZone : TemplateZone :=
  {| id := 1; borderType := BorderOpen; gapChance := 0; pos := (3, 3);
     center := (F32.zero, F32.zero); tileInfo := [(3, 3)];
     possibleTiles := {[ (3, 3) ]}; freePaths := ∅; roadNodes := ∅;
     roads := []; mapGenerator := islandGenerator |}.

(** ** Template validation (maptemplatereader.cpp) *)

Inductive RaceType := RaceHuman | RaceUndead | RaceHeretic | RaceDwarf
                    | RaceNeutral | RaceElf | RaceRandom.

Inductive TemplateZoneType := PlayerStart | AiStart | Treasure | Junction | WaterZone.

(** [MapTemplateDiplomacy::Relation]. *)
Record Relation := mkRelation {
  raceA : RaceType;
  raceB : RaceType;
  relation : Z;
  alliance : bool;
  alwaysAtWar : bool;
  permanentAlliance : bool
}.

(** A diplomacy entry of the script: the fields that may be absent are
    options, read with [readValue] and its default. *)
Record RelationTable := mkRelationTable {
  tRaceA : RaceType;
  tRaceB : RaceType;
  tRelation : option Z;
  tAlliance : option bool;
  tAlwaysAtWar : option bool;
  tPermanentAlliance : option bool
}.

(** The [TemplateException]s of the diplomacy and contents checks, by the
    message they carry. *)
Inductive TemplateException :=
| AlliesAndAlwaysAtWar (a b : RaceType)
| PermanentAllianceWithoutAlliance (a b : RaceType)
| DuplicateRelations (a b : RaceType)
| TooManyStartingZones (startingZones maxPlayers : Z).

Definition clamp (v lo hi : Z) : Z := if v <? lo then lo else if hi <? v then hi else v.

(** [readValue(table, name, def, min, max)]. *)
Definition readValue (field : option Z) (def lo hi : Z) : Z :=
  clamp (default def field) lo hi.

Definition readFlag (field : option bool) (def : bool) : bool := default def field.

Definition tableRelation (t : RelationTable) : Relation :=
  {| raceA := tRaceA t; raceB := tRaceB t;
     relation := readValue (tRelation t) 0 0 100;
     alliance := readFlag (tAlliance t) false;
     alwaysAtWar := readFlag (tAlwaysAtWar t) false;
     permanentAlliance := readFlag (tPermanentAlliance t) false |}.

Definition readDiplomacyRelation (t : RelationTable) : TemplateException + Relation :=
  let r := tableRelation t in
  if alliance r && alwaysAtWar r then inl (AlliesAndAlwaysAtWar (raceA r) (raceB r))
  else if permanentAlliance r && negb (alliance r)
       then inl (PermanentAllianceWithoutAlliance (raceA r) (raceB r))
       else inr r.

Section Diplomacy.

(** [operator==] of [MapTemplateDiplomacy::Relation]: maptemplate.h is not
    part of the sources at hand, the comparison is a parameter. *)
Variable Relation_eqb : Relation -> Relation -> bool.

(** The first loop of [readDiplomacy]: read and check the entries in order,
    appending to the relations read so far. *)
Fixpoint readRelations (tables : list RelationTable) (relations : list Relation)
    : TemplateException + list Relation :=
  match tables with
  | [] => inr relations
  | t :: rest =>
      match readDiplomacyRelation t with
      | inl ex => inl ex
      | inr r => readRelations rest (relations ++ [r])
      end
  end.

(** The nested loops over [i < j]: the first relation that equals a later
    one. *)
Fixpoint findDuplicate (relations : list Relation) : option Relation :=
  match relations with
  | [] => None
  | a :: rest =>
      if existsb (Relation_eqb a) rest then Some a else findDuplicate rest
  end.

Definition readDiplomacy (tables : list RelationTable) (relations : list Relation)
    : TemplateException + list Relation :=
  match readRelations tables relations with
  | inl ex => inl ex
  | inr relations =>
      match findDuplicate relations with
      | Some a => inl (DuplicateRelations (raceA a) (raceB a))
      | None => inr relations
      end
  end.

(** The part of the contents table that the checks read. *)
Record ContentsTable := mkContentsTable {
  tZones : list (Z * TemplateZoneType);
  tMaxPlayers : option Z;
  tDiplomacy : option (list RelationTable)
}.

Definition isStartingZone (t : TemplateZoneType) : bool :=
  match t with PlayerStart | AiStart => true | _ => false end.

(** [contents.zones[options->id] = options] for every zone table, then the
    [std::count_if] over the map. *)
Definition insertZones (zones : gmap Z TemplateZoneType)
    (l : list (Z * TemplateZoneType)) : gmap Z TemplateZoneType :=
  fold_left (fun m zo => <[fst zo := snd zo]> m) l zones.

Definition countStartingZones (zones : gmap Z TemplateZoneType) : Z :=
  Z.of_nat (length (List.filter (fun kv => isStartingZone (snd kv)) (map_to_list zones))).

(** The maximum number of players in force for the check: the contents'
    [maxPlayers] when it is positive, else the one of the settings. *)
Definition effectiveMaxPlayers (settingsMaxPlayers : Z) (t : ContentsTable) : Z :=
  let maxPlayers := readValue (tMaxPlayers t) 0 0 4 in
  if 0 <? maxPlayers then maxPlayers else settingsMaxPlayers.

(** [readContents], as far as validation goes: the zones, the starting-zone
    count against [maxPlayers], then the diplomacy. The result is the
    exception thrown or the relations stored. *)
Definition readContents (settingsMaxPlayers : Z) (zones : gmap Z TemplateZoneType)
    (relations : list Relation) (t : ContentsTable)
    : TemplateException + list Relation :=
  let zones := insertZones zones (tZones t) in
  let maxPlayers := effectiveMaxPlayers settingsMaxPlayers t in
  let startingZones := countStartingZones zones in
  if maxPlayers <? startingZones
  then inl (TooManyStartingZones startingZones maxPlayers)
  else
    match tDiplomacy t with
    | Some tables => readDiplomacy tables relations
    | None => inr relations
    end.

End Diplomacy.

Definition rejected {A : Type} (r : TemplateException + A) : Prop :=
  exists ex, r = inl ex.

(** Two relations at positions [i < j] of the list that compare equal. *)
Definition hasDuplicate (eqb : Relation -> Relation -> bool) (l : list Relation) : Prop :=
  exists i j a b, (i < j)%nat /\ l !! i = Some a /\ l !! j = Some b /\ eqb a b = true.

(** ** Game catalogs and pickers *)

Inductive ItemType := Armor | Jewel | Weapon | Banner | PotionBoost | PotionHeal
  | PotionRevive | PotionPermanent | Scroll | Wand | Valuable | Orb | Talisman
  | TravelItem | Special.

Definition ItemType_eqb (a b : ItemType) : bool :=
  match a, b with
  | Armor, Armor | Jewel, Jewel | Weapon, Weapon | Banner, Banner
  | PotionBoost, PotionBoost | PotionHeal, PotionHeal
  | PotionRevive, PotionRevive | PotionPermanent, PotionPermanent
  | Scroll, Scroll | Wand, Wand | Valuable, Valuable | Orb, Orb
  | Talisman, Talisman | TravelItem, TravelItem | Special, Special => true
  | _, _ => false
  end.

Record ItemInfo := mkItemInfo {
  getItemId : CMidgardID;
  getItemType : ItemType;
  getItemValue : Z
}.

Inductive ReachType := ReachAll | ReachAny | ReachAdjacent.

Definition ReachType_eqb (a b : ReachType) : bool :=
  match a, b with
  | ReachAll, ReachAll | ReachAny, ReachAny | ReachAdjacent, ReachAdjacent => true
  | _, _ => false
  end.

(** [UnitInfo]: what the stack composer reads of a catalog unit. [isSupport]
    stands for the source's [isSupport(const UnitInfo&)]. The subrace is its
    enumeration value. *)
Record UnitInfo := mkUnitInfo {
  getUnitId : CMidgardID;
  getValue : Z;
  getLevel : Z;
  getHp : Z;
  getMove : Z;
  getLeadership : Z;
  isBig : bool;
  isSupport : bool;
  getAttackReach : ReachType;
  getSubrace : Z
}.

(** Modelled from the spec: the catalogs ([getGameInfo()]), the forbidden
    lists of the template settings and the global filters of the pickers
    ([noSpecialItem], [noForbiddenItem], [noForbiddenUnit]) are not part of the
    sources at hand; they are data of the run. *)
Record GameInfo := mkGameInfo {
  getItems : list ItemInfo;
  getLeaders : list UnitInfo;
  getSoldiers : list UnitInfo;
  getMinLeaderValue : Z;
  getMinSoldierValue : Z;
  noSpecialItem : ItemInfo -> bool;
  noForbiddenItem : ItemInfo -> bool;
  noForbiddenUnit : UnitInfo -> bool;
  forbiddenItems : list CMidgardID;
  forbiddenUnits : list CMidgardID
}.

(** Modelled from the spec: the pickers ([pickItem], [pickUnit],
    [pickLeader]) take a list of "reject-if" filters; a candidate is accepted
    iff no filter rejects it, and a random accepted candidate is returned, or
    nothing when there is none. *)
Definition accepted {A : Type} (filters : list (A -> bool)) (x : A) : bool :=
  negb (existsb (fun f => f x) filters).

Definition pick {A : Type} (catalog : list A) (filters : list (A -> bool))
    (r : Random.Rng) : option A * Random.Rng :=
  Random.getRandomElement (List.filter (accepted filters) catalog) r.

Definition pickItem (gi : GameInfo) := pick (getItems gi).
Definition pickUnit (gi : GameInfo) := pick (getSoldiers gi).
Definition pickLeader (gi : GameInfo) := pick (getLeaders gi).

Definition containsId (l : list CMidgardID) (i : CMidgardID) : bool :=
  existsb (CMidgardID_eqb i) l.

(** ** Loot composer (createLoot) *)

Record RequiredItemInfo := mkRequiredItemInfo {
  itemId : CMidgardID;
  amount : RandomValue
}.

Record LootInfo := mkLootInfo {
  itemTypes : list ItemType;
  lootValue : RandomValue;
  itemValue : RandomValue;
  requiredItems : list RequiredItemInfo
}.

(** The first loop of [createLoot]. *)
Fixpoint createRequiredItems (l : list RequiredItemInfo) (r : Random.Rng)
    (items : list (CMidgardID * Z)) : list (CMidgardID * Z) * Random.Rng :=
  match l with
  | [] => (items, r)
  | item :: rest =>
      if CMidgardID_eqb (itemId item) emptyId then createRequiredItems rest r items
      else
        let (n, r') := pickValue (amount item) r in
        if 0 <? n then createRequiredItems rest r' (items ++ [(itemId item, n)])
        else createRequiredItems rest r' items
  end.

(** The amounts drawn by the first loop of [createLoot]: every required item
    with a non-empty id, in order, with the amount picked for it from its
    range. *)
Fixpoint drawnAmounts (l : list RequiredItemInfo) (r : Random.Rng)
    : list (RequiredItemInfo * Z) :=
  match l with
  | [] => []
  | item :: rest =>
      if CMidgardID_eqb (itemId item) emptyId then drawnAmounts rest r
      else
        let (n, r') := pickValue (amount item) r in
        (item, n) :: drawnAmounts rest r'
  end.

(** The entry of a draw: the item with the amount drawn when that is
    positive, nothing otherwise. *)
Definition requiredEntry (d : RequiredItemInfo * Z) : option (CMidgardID * Z) :=
  if 0 <? snd d then Some (itemId (fst d), snd d) else None.

Definition noWrongType (loot : LootInfo) (forMerchant : bool) (info : ItemInfo) : bool :=
  if forMerchant && ItemType_eqb (getItemType info) Valuable then true
  else
    match itemTypes loot with
    | [] => false
    | types => negb (existsb (ItemType_eqb (getItemType info)) types)
    end.

Definition noForbiddenItemOnTemplate (gi : GameInfo) (info : ItemInfo) : bool :=
  containsId (forbiddenItems gi) (getItemId info).

Definition noWrongItemValue (loot : LootInfo) (remainingValue : Z) (info : ItemInfo)
    : bool :=
  if rvSet (itemValue loot)
     && ((getItemValue info <? rvMin (itemValue loot))
         || (rvMax (itemValue loot) <? getItemValue info))
  then true
  else remainingValue <? getItemValue info.

Definition lootFilters (gi : GameInfo) (loot : LootInfo) (forMerchant : bool)
    (remainingValue : Z) : list (ItemInfo -> bool) :=
  [noWrongType loot forMerchant; noWrongItemValue loot remainingValue;
   noSpecialItem gi; noForbiddenItemOnTemplate gi; noForbiddenItem gi].

(** The [while (currentValue <= desiredValue)] loop, with the items picked so
    far kept beside the result for the accounts of the proofs. [None] is a run
    that needs more than [fuel] iterations. *)
Fixpoint createRandomItems (fuel : nat) (gi : GameInfo) (loot : LootInfo)
    (forMerchant : bool) (desiredValue currentValue : Z) (r : Random.Rng)
    (picked : list ItemInfo) : option (list ItemInfo * Random.Rng) :=
  match fuel with
  | O => None
  | S fuel' =>
      if currentValue <=? desiredValue then
        let remainingValue := desiredValue - currentValue in
        match pickItem gi (lootFilters gi loot forMerchant remainingValue) r with
        | (None, r') => Some (picked, r')
        | (Some item, r') =>
            createRandomItems fuel' gi loot forMerchant desiredValue
              (currentValue + getItemValue item) r' (picked ++ [item])
        end
      else Some (picked, r)
  end.

Definition lootEntry (item : ItemInfo) : CMidgardID * Z := (getItemId item, 1).

(** [createLoot(loot, forMerchant)]: the items and the generator with its
    random source advanced. *)
Definition createLoot (fuel : nat) (gi : GameInfo) (g : MapGenerator)
    (loot : LootInfo) (forMerchant : bool)
    : option (list (CMidgardID * Z) * MapGenerator) :=
  let (items, r) := createRequiredItems (requiredItems loot) (randomGenerator g) [] in
  if rvSet (lootValue loot) then
    let (desiredValue, r) := pickValue (lootValue loot) r in
    match createRandomItems fuel gi loot forMerchant desiredValue 0 r [] with
    | None => None
    | Some (picked, r) => Some (items ++ map lootEntry picked, withRandom g r)
    end
  else Some (items, withRandom g r).

Definition totalValue (l : list ItemInfo) : Z :=
  fold_right (fun i acc => getItemValue i + acc) 0 l.

(** The value the random items are measured against. *)
Definition desiredLootValue (g : MapGenerator) (loot : LootInfo) : Z :=
  fst (pickValue (lootValue loot)
         (snd (createRequiredItems (requiredItems loot) (randomGenerator g) []))).

(** A catalog with three items for examples. *)
Definition sampleItems : list ItemInfo :=
  [ {| getItemId := (IdType.ItemGlobal, 1); getItemType := Weapon; getItemValue := 100 |};
    {| getItemId := (IdType.ItemGlobal, 2); getItemType := PotionHeal; getItemValue := 50 |};
    {| getItemId := (IdType.ItemGlobal, 3); getItemType := Valuable; getItemValue := 250 |} ].

Definition sampleGameInfo : GameInfo :=
  {| getItems := sampleItems; getLeaders := []; getSoldiers := [];
     getMinLeaderValue := 0; getMinSoldierValue := 0;
     noSpecialItem := fun i => ItemType_eqb (getItemType i) Special;
     noForbiddenItem := fun _ => false; noForbiddenUnit := fun _ => false;
     forbiddenItems := []; forbiddenUnits := [] |}.

(** A loot of value 120 with one required item, two potions. *)
Definition sampleLoot : LootInfo :=
  {| itemTypes := []; lootValue := {| rvMin := 120; rvMax := 120 |};
     itemValue := {| rvMin := 0; rvMax := 0 |};
     requiredItems := [ {| itemId := (IdType.ItemGlobal, 2);
                           amount := {| rvMin := 2; rvMax := 2 |} |} ] |}.

(** A loot whose only required entry asks for an amount of 0 to 0. *)
Definition zeroAmountLoot : LootInfo :=
  {| itemTypes := []; lootValue := {| rvMin := 0; rvMax := 0 |};
     itemValue := {| rvMin := 0; rvMax := 0 |};
     requiredItems := [ {| itemId := (IdType.ItemGlobal, 2);
                           amount := {| rvMin := 0; rvMax := 0 |} |} ] |}.

(** ** The A* priority queue *)

(** [std::priority_queue<Distance, std::vector<Distance>, NodeComparer>]: the
    top is an element of least cost. The standard leaves the order among
    elements of equal cost to the heap algorithm; here the queue is the list of
    its elements in the order pushed and the top is the earliest pushed of the
    least ones. [ltb] is the comparison of the costs. *)
Section PriorityQueue.

Context {P : Type}.
Variable ltb : P -> P -> bool.

Definition pq_push (q : list (Position * P)) (x : Position * P) : list (Position * P) :=
  q ++ [x].

(** [top()] and [pop()] in one step: the top and the queue without it. *)
Fixpoint pq_pop (q : list (Position * P)) : option ((Position * P) * list (Position * P)) :=
  match q with
  | [] => None
  | x :: rest =>
      match pq_pop rest with
      | None => Some (x, [])
      | Some (y, rest') =>
          if ltb (snd y) (snd x) then Some (y, x :: rest') else Some (x, rest)
      end
  end.

End PriorityQueue.

(** ** Road builder (createRoad, connectRoads) *)

(** [std::numeric_limits<float>::max()]. *)
Definition floatMax : f32 := SFmax_float F32.prec F32.emax.

(** The containers of the A* searches. *)
Record RoadSearch := mkRoadSearch {
  closedR : gset Position;
  queueR : list (Position * f32);
  cameFromR : gmap Position Position;
  distancesR : gmap Position f32;
  directNeighbourFound : bool
}.

Section CreateRoad.

(** [Map::canMoveBetween] (map.cpp is not part of the sources at hand) is a
    parameter of the road search. *)
Variable canMoveBetween : MapGenerator -> Position -> Position -> bool.

Variable z : TemplateZone.
Variable g : MapGenerator.
Variable destination : Position.

(** The lambda of [createRoad] applied to the neighbour [p] of [currentNode];
    [nodeCost] is [node.second]. *)
Definition roadFunctor (currentNode : Position) (nodeCost movementCost : f32)
    (st : RoadSearch) (p : Position) : RoadSearch :=
  if bool_decide (p ∈ closedR st) then st
  else
    let distance := F32.add nodeCost movementCost in
    let bestDistanceSoFar := default floatMax (distancesR st !! p) in
    if F32.geb distance bestDistanceSoFar then st
    else
      let tile := mapTiles g p in
      if isWater tile then st
      else
        let movable := canMoveBetween g currentNode p in
        let emptyPath := isFree g p && isFree g currentNode in
        let visitableStep :=
          (visitable tile || visitable (mapTiles g currentNode)) && movable in
        let completed := Position_eqb p destination in
        if emptyPath || visitableStep || completed then
          if (getZoneId g p =? id z) || completed then
            {| closedR := closedR st;
               queueR := pq_push (queueR st) (p, distance);
               cameFromR := <[p := currentNode]> (cameFromR st);
               distancesR := <[p := distance]> (distancesR st);
               directNeighbourFound := true |}
          else st
        else st.

(** The expansion of a node: the straight neighbours at cost 1, then, when
    none was accepted, the diagonal ones at cost 2.1. *)
Definition expandRoadNode (currentNode : Position) (nodeCost : f32) (st : RoadSearch)
    : RoadSearch :=
  let st := {| closedR := closedR st; queueR := queueR st;
               cameFromR := cameFromR st; distancesR := distancesR st;
               directNeighbourFound := false |} in
  let st := fold_left (roadFunctor currentNode nodeCost (F32.of_Z 1)) 
              (directNeighbors g currentNode) st in
  if directNeighbourFound st then st
  else fold_left (roadFunctor currentNode nodeCost (F32.literal 21 10))
         (diagonalNeighbors g currentNode) st.

(** The [while (!queue.empty())] loop. [None]: more than [fuel] iterations;
    [Some None]: the queue ran empty; [Some (Some (node, st))]: [node] is the
    destination or a road tile. *)
Fixpoint roadSearch (fuel : nat) (st : RoadSearch)
    : option (option (Position * RoadSearch)) :=
  match fuel with
  | O => None
  | S fuel' =>
      match pq_pop F32.ltb (queueR st) with
      | None => Some None
      | Some ((currentNode, nodeCost), rest) =>
          let st := {| closedR := {[currentNode]} ∪ closedR st; queueR := rest;
                       cameFromR := cameFromR st; distancesR := distancesR st;
                       directNeighbourFound := directNeighbourFound st |} in
          if Position_eqb currentNode destination || isRoad g currentNode
          then Some (Some (currentNode, st))
          else roadSearch fuel' (expandRoadNode currentNode nodeCost st)
      end
  end.

End CreateRoad.

(** [cameFrom[p]]: a position that was never reached has no valid
    predecessor. *)
Definition cameFromOf (cameFrom : gmap Position Position) (p : Position) : Position :=
  default invalidPosition (cameFrom !! p).

(** The backtracking loop: the tiles walked, first the one reached. [None]:
    more than [fuel] iterations. *)
Fixpoint backtrack (fuel : nat) (cameFrom : gmap Position Position)
    (backtracking : Position) : option (list Position) :=
  match fuel with
  | O => None
  | S fuel' =>
      if isValid (cameFromOf cameFrom backtracking) then
        match backtrack fuel' cameFrom (cameFromOf cameFrom backtracking) with
        | Some path => Some (backtracking :: path)
        | None => None
        end
      else Some []
  end.

Definition initialRoadSearch (source : Position) : RoadSearch :=
  {| closedR := ∅; queueR := [(source, F32.zero)];
     cameFromR := {[source := invalidPosition]};
     distancesR := {[source := F32.zero]};
     directNeighbourFound := false |}.

(** [createRoad(source, destination)]: the result and the zone afterwards.
    [None] is a run that needs more than [fuel] iterations in one of its
    loops. *)
Definition createRoad (canMoveBetween : MapGenerator -> Position -> Position -> bool)
    (fuel : nat) (z : TemplateZone) (source destination : Position)
    : option (bool * TemplateZone) :=
  let g := setRoad (mapGenerator z) source false in
  match roadSearch canMoveBetween z g destination fuel (initialRoadSearch source) with
  | None => None
  | Some None => Some (false, withGenerator z g)
  | Some (Some (currentNode, st)) =>
      match backtrack fuel (cameFromR st) currentNode with
      | None => None
      | Some path =>
          let g := fold_left (fun g t => setRoad g t true) path g in
          let road :=
            {| roadPath := map (fun t => (t, default F32.zero (distancesR st !! t))) path;
               roadSource := source; roadDestination := destination |} in
          Some (true, withRoads (withGenerator z g) (roads z ++ [road]))
      end
  end.

(** Two tiles one step apart, straight or diagonal, and the straight case. *)
Definition adjacent (a b : Position) : Prop :=
  Z.max (Z.abs (fst a - fst b)) (Z.abs (snd a - snd b)) = 1.

Definition straightStep (a b : Position) : Prop :=
  Z.abs (fst a - fst b) + Z.abs (snd a - snd b) = 1.

(** Each tile of the list is one step from the next. *)
Fixpoint stepwise (l : list Position) : Prop :=
  match l with
  | a :: (b :: _) as rest => adjacent a b /\ stepwise rest
  | _ => True
  end.

(** What every recorded road satisfies: its tiles are one step from each
    other and none of them is water. *)
Definition soundRoad (g : MapGenerator) (road : RoadInfo) : Prop :=
  let path := map fst (roadPath road) in
  stepwise path /\ Forall (fun t => isWater (mapTiles g t) = false) path.

Section RoadSteps.

Variable canMoveBetween : MapGenerator -> Position -> Position -> bool.
Variable z : TemplateZone.
Variable g : MapGenerator.
Variable source destination : Position.

(** Whether the lambda of [createRoad] accepts the neighbour [p] of
    [currentNode]: [p] is not closed, the new distance is below the best one
    so far, [p] is not water, the step is over free tiles, to or from a
    visitable tile that can be moved to, or onto the destination, and [p] is
    of this zone or the destination. *)
Definition acceptsStep (currentNode : Position) (nodeCost movementCost : f32)
    (st : RoadSearch) (p : Position) : bool :=
  negb (bool_decide (p ∈ closedR st))
  && negb (F32.geb (F32.add nodeCost movementCost)
             (default floatMax (distancesR st !! p)))
  && negb (isWater (mapTiles g p))
  && ((isFree g p && isFree g currentNode)
      || ((visitable (mapTiles g p) || visitable (mapTiles g currentNode))
          && canMoveBetween g currentNode p)
      || Position_eqb p destination)
  && ((getZoneId g p =? id z) || Position_eqb p destination).

(** The states of the containers at the head of the [while] loop of a search
    from [source]. *)
Inductive roadState : RoadSearch -> Prop :=
| roadState_initial : roadState (initialRoadSearch source)
| roadState_expand (st : RoadSearch) (currentNode : Position) (nodeCost : f32)
    (rest : list (Position * f32)) :
    roadState st ->
    pq_pop F32.ltb (queueR st) = Some ((currentNode, nodeCost), rest) ->
    Position_eqb currentNode destination || isRoad g currentNode = false ->
    roadState
      (expandRoadNode canMoveBetween z g destination currentNode nodeCost
         {| closedR := {[currentNode]} ∪ closedR st; queueR := rest;
            cameFromR := cameFromR st; distancesR := distancesR st;
            directNeighbourFound := directNeighbourFound st |}).

(** The step from [b] to [a] was linked while the search expanded [b]: in
    that expansion no straight neighbour of [b] was accepted, and [a] was
    accepted when its turn among the diagonal neighbours came. *)
Definition linkedAfterStraightFailed (a b : Position) : Prop :=
  exists (st : RoadSearch) (nodeCost : f32) (rest : list (Position * f32)),
    roadState st
    /\ pq_pop F32.ltb (queueR st) = Some ((b, nodeCost), rest)
    /\ Position_eqb b destination || isRoad g b = false
    /\ let st1 := {| closedR := {[b]} ∪ closedR st; queueR := rest;
                     cameFromR := cameFromR st; distancesR := distancesR st;
                     directNeighbourFound := false |} in
       (forall n, In n (directNeighbors g b) ->
          acceptsStep b nodeCost (F32.of_Z 1) st1 n = false)
       /\ exists before after : list Position,
            diagonalNeighbors g b = before ++ a :: after
            /\ acceptsStep b nodeCost (F32.literal 21 10)
                 (fold_left (roadFunctor canMoveBetween z g destination b nodeCost
                               (F32.literal 21 10)) before st1) a = true.

(** Every step of the path that is not straight was linked in an expansion
    that accepted no straight neighbour. *)
Definition diagonalsJustified (path : list Position) : Prop :=
  forall (i : nat) (a b : Position),
    path !! i = Some a -> path !! S i = Some b ->
    straightStep a b \/ linkedAfterStraightFailed a b.

End RoadSteps.

(** The road was recorded by a call of [createRoad] on a state of the zone
    [z0], with its id and over its terrain, and the diagonal steps of the road
    are justified in that call. *)
Definition madeByCreateRoad
    (canMoveBetween : MapGenerator -> Position -> Position -> bool) (fuel : nat)
    (z0 : TemplateZone) (road : RoadInfo) : Prop :=
  exists zi zi' : TemplateZone,
    id zi = id z0
    /\ mapTiles (mapGenerator zi) = mapTiles (mapGenerator z0)
    /\ createRoad canMoveBetween fuel zi (roadSource road) (roadDestination road)
       = Some (true, zi')
    /\ roads zi' = roads zi ++ [road]
    /\ diagonalsJustified canMoveBetween zi
         (setRoad (mapGenerator zi) (roadSource road) false)
         (roadSource road) (roadDestination road) (map fst (roadPath road)).

(** A 5x5 map of plain land in zone 1 with the free tiles (1, 1) and
    (1, 2). *)
Definition roadGenerator : MapGenerator :=
  {| mapSize := 5;
     tiles := fun q =>
       {| occupied := if Position_eqb q (1, 1) || Position_eqb q (1, 2)
                      then Free else Possible;
          road := false; zoneId := 1; nearestObjectDistance := F32.infinity |};
     mapTiles := fun _ => {| terrain := TerrainNeutral; ground := Plain;
                             treeImage := 0; visitable := false; blocked := false |};
     mapElements := []; objects := ∅; freeIdIndex := 0;
     randomGenerator := []; forest := 0 |}.

Definition roadZone : TemplateZone :=
  {| id := 1; borderType := BorderOpen; gapChance := 0; pos := (2, 2);
     center := (F32.zero, F32.zero); tileInfo := [];
     possibleTiles := ∅; freePaths := ∅; roadNodes := {[ (1, 1); (2, 3) ]};
     roads := []; mapGenerator := roadGenerator |}.

Section ConnectRoads.

Variable canMoveBetween : MapGenerator -> Position -> Position -> bool.

(** [operator<] of [Position], the order of [std::set<Position>]: position.h
    is not part of the sources at hand, the order is a parameter. *)
Variable Position_ltb : Position -> Position -> bool.

(** [std::set] insertion and erasure on the list of the set's elements in
    iteration order. *)
Fixpoint setInsert (p : Position) (l : list Position) : list Position :=
  match l with
  | [] => [p]
  | x :: rest =>
      if Position_eqb p x then l
      else if Position_ltb p x then p :: l
      else x :: setInsert p rest
  end.

Definition setErase (p : Position) (l : list Position) : list Position :=
  List.filter (fun q => negb (Position_eqb q p)) l.

(** [*std::min_element(first, last, comparator)] with the comparator of
    [connectRoads], the squared distance to [node]. *)
Definition minElement (node : Position) (l : list Position) : option Position :=
  match l with
  | [] => None
  | x :: rest =>
      Some (fold_left (fun best q =>
                if distanceSquared node q <? distanceSquared node best then q else best)
              rest x)
  end.

(** The [while (!roadNodesCopy.empty())] loop; [n] bounds its iterations. *)
Fixpoint connectRoadsLoop (n fuel : nat) (z : TemplateZone)
    (roadNodesCopy processed : list Position) : option TemplateZone :=
  match roadNodesCopy with
  | [] => Some z
  | node :: roadNodesCopy =>
      match n with
      | O => None
      | S n' =>
          let cross :=
            match processed, roadNodesCopy with
            | _ :: _, _ => minElement node processed
            | [], _ :: _ => minElement node roadNodesCopy
            | [], [] => None
            end in
          match cross with
          | None => Some z
          | Some cross =>
              match createRoad canMoveBetween fuel z node cross with
              | None => None
              | Some (true, z') =>
                  connectRoadsLoop n' fuel z' (setErase cross roadNodesCopy)
                    (setInsert node (setInsert cross processed))
              | Some (false, z') =>
                  connectRoadsLoop n' fuel z' roadNodesCopy (setInsert node processed)
              end
          end
      end
  end.

Definition connectRoads (fuel : nat) (z : TemplateZone) : option TemplateZone :=
  let nodes := fold_right setInsert [] (elements (roadNodes z)) in
  connectRoadsLoop (S (length nodes)) fuel z nodes [].

End ConnectRoads.

(** The order of positions used in examples: by column, then by row. *)
Definition columnOrder (a b : Position) : bool :=
  (fst a <? fst b) || ((fst a =? fst b) && (snd a <? snd b)).

(** ** Path connection (connectPath) *)

(** The containers of [connectPath]. The costs are whole numbers of steps,
    which the source keeps in [float]s and reads back with
    [static_cast<int>]; a [float] holds them exactly below 2^24, far above
    the number of tiles of any map, so they are integers here. *)
Record PathSearch := mkPathSearch {
  closedP : gset Position;
  openP : list (Position * Z);
  cameFromP : gmap Position Position;
  distancesP : gmap Position Z
}.

(** [std::numeric_limits<int>::max()]. *)
Definition intMax : Z := 2147483647.

Section ConnectPath.

Variable z : TemplateZone.
Variable g : MapGenerator.

(** A neighbour the search may step on: "No paths through blocked or occupied
    tiles, stay within zone". *)
Definition passable (p : Position) : bool :=
  negb (isBlocked g p || negb (getZoneId g p =? id z)).

(** The lambda of [connectPath] applied to the neighbour [p] of
    [currentNode]. *)
Definition pathFunctor (currentNode : Position) (st : PathSearch) (p : Position)
    : PathSearch :=
  if bool_decide (p ∈ closedP st) then st
  else if negb (passable p) then st
  else
    let distance := default 0 (distancesP st !! currentNode) + 1 in
    let bestDistanceSoFar := default intMax (distancesP st !! p) in
    if distance <? bestDistanceSoFar then
      {| closedP := closedP st;
         openP := pq_push (openP st) (p, distance);
         cameFromP := <[p := currentNode]> (cameFromP st);
         distancesP := <[p := distance]> (distancesP st) |}
    else st.

Definition pathNeighbors (onlyStraight : bool) (p : Position) : list Position :=
  if onlyStraight then directNeighbors g p else neighbors g p.

(** How the [while (!open.empty())] loop ends: on a free tile, with the
    containers at that moment, or with the queue empty and the closed set. *)
Inductive PathSearchEnd :=
| ReachedFree (node : Position) (st : PathSearch)
| Exhausted (closed : gset Position).

Fixpoint pathSearch (onlyStraight : bool) (fuel : nat) (st : PathSearch)
    : option PathSearchEnd :=
  match fuel with
  | O => None
  | S fuel' =>
      match pq_pop Z.ltb (openP st) with
      | None => Some (Exhausted (closedP st))
      | Some ((currentNode, _), rest) =>
          let st := {| closedP := {[currentNode]} ∪ closedP st; openP := rest;
                       cameFromP := cameFromP st; distancesP := distancesP st |} in
          if isFree g currentNode then Some (ReachedFree currentNode st)
          else pathSearch onlyStraight fuel'
                 (fold_left (pathFunctor currentNode)
                    (pathNeighbors onlyStraight currentNode) st)
      end
  end.

End ConnectPath.

(** The backtracking loop of [connectPath] with the statement after it: the
    tiles set free, from the free tile reached back to the tile whose
    predecessor is not valid. *)
Fixpoint tracePath (fuel : nat) (cameFrom : gmap Position Position)
    (backTracking : Position) : option (list Position) :=
  match fuel with
  | O => None
  | S fuel' =>
      if isValid (cameFromOf cameFrom backTracking) then
        match tracePath fuel' cameFrom (cameFromOf cameFrom backTracking) with
        | Some path => Some (backTracking :: path)
        | None => None
        end
      else Some [backTracking]
  end.

Definition initialPathSearch (source : Position) : PathSearch :=
  {| closedP := ∅; openP := [(source, 0)];
     cameFromP := {[source := invalidPosition]};
     distancesP := {[source := 0]} |}.

(** "These tiles are sealed off and can't be connected anymore": one
    iteration of the loop over the closed set. *)
Definition sealTile (z : TemplateZone) (tile : Position) : TemplateZone :=
  let g := mapGenerator z in
  let g := if isPossible g tile then setOccupied g tile Blocked else g in
  withPossibleTiles (withGenerator z g) (possibleTiles z ∖ {[tile]}).

Definition setFree (g : MapGenerator) (path : list Position) : MapGenerator :=
  fold_left (fun g t => setOccupied g t Free) path g.

(** [connectPath(source, onlyStraight)]: the result and the zone afterwards.
    [None] is a run that needs more than [fuel] iterations in one of its
    loops. *)
Definition connectPath (fuel : nat) (z : TemplateZone) (source : Position)
    (onlyStraight : bool) : option (bool * TemplateZone) :=
  match pathSearch z (mapGenerator z) onlyStraight fuel (initialPathSearch source) with
  | None => None
  | Some (ReachedFree currentNode st) =>
      match tracePath fuel (cameFromP st) currentNode with
      | None => None
      | Some path => Some (true, withGenerator z (setFree (mapGenerator z) path))
      end
  | Some (Exhausted closed) => Some (false, fold_left sealTile (elements closed) z)
  end.

(** A step of the search from the tile [c] to the tile [n]: [n] is a tile of
    the map next to [c], straight next to it when [onlyStraight] is set, it
    is neither blocked nor occupied, and it is of the zone. *)
Definition stepAllowed (z : TemplateZone) (g : MapGenerator) (onlyStraight : bool)
    (c n : Position) : Prop :=
  isInTheMap g n = true
  /\ (if onlyStraight then straightStep c n else adjacent c n)
  /\ isBlocked g n = false
  /\ getZoneId g n = id z.

(** The tiles connected to the source: the source, and every tile that an
    allowed step leads to from a connected tile. *)
Inductive connected (z : TemplateZone) (g : MapGenerator) (onlyStraight : bool)
    (source : Position) : Position -> Prop :=
| connected_source : connected z g onlyStraight source source
| connected_step (c n : Position) :
    connected z g onlyStraight source c ->
    stepAllowed z g onlyStraight c n ->
    connected z g onlyStraight source n.

(** A walk back towards the source: each tile is an allowed step away from
    the tile after it, and the tile after it is not free. *)
Fixpoint walkBack (z : TemplateZone) (g : MapGenerator) (onlyStraight : bool)
    (l : list Position) : Prop :=
  match l with
  | a :: (b :: _) as rest =>
      (stepAllowed z g onlyStraight b a /\ isFree g b = false)
      /\ walkBack z g onlyStraight rest
  | _ => True
  end.

(** All tiles of the map. *)
Definition allTiles (g : MapGenerator) : list Position :=
  x ← seqZ 0 (mapSize g); (fun y => (x, y)) <$> seqZ 0 (mapSize g).

(** The tiles a search from [source] can ever hold. *)
Definition tileUniverse (g : MapGenerator) (source : Position) : gset Position :=
  {[source]} ∪ list_to_set (allTiles g).

(** Iterations that suffice for the loops of [connectPath]. *)
Definition connectPathFuel (g : MapGenerator) (source : Position) : nat :=
  9 * base.size (tileUniverse g source) + 2.

(** A 3x3 map of zone 1 whose middle tile is [s] and whose other tiles are
    [rest]. *)
Definition pocketGenerator (s rest : TileType) : MapGenerator :=
  {| mapSize := 3;
     tiles := fun q =>
       {| occupied := if Position_eqb q (1, 1) then s else rest;
          road := false; zoneId := 1; nearestObjectDistance := F32.infinity |};
     mapTiles := fun _ => {| terrain := TerrainNeutral; ground := Plain;
                             treeImage := 0; visitable := false; blocked := false |};
     mapElements := []; objects := ∅; freeIdIndex := 0;
     randomGenerator := []; forest := 0 |}.

Definition pocketZone (s rest : TileType) (possible : gset Position) : TemplateZone :=
  {| id := 1; borderType := BorderOpen; gapChance := 0; pos := (1, 1);
     center := (F32.zero, F32.zero); tileInfo := [];
     possibleTiles := possible; freePaths := ∅; roadNodes := ∅;
     roads := []; mapGenerator := pocketGenerator s rest |}.

(** Everything of the generator but the occupancy of its tiles is the same in
    [g'] as in [g]. *)
Definition sameBesidesOccupied (g g' : MapGenerator) : Prop :=
  mapSize g' = mapSize g /\ mapTiles g' = mapTiles g
  /\ mapElements g' = mapElements g /\ objects g' = objects g
  /\ freeIdIndex g' = freeIdIndex g /\ randomGenerator g' = randomGenerator g
  /\ forest g' = forest g
  /\ forall t, road (tiles g' t) = road (tiles g t)
       /\ zoneId (tiles g' t) = zoneId (tiles g t)
       /\ nearestObjectDistance (tiles g' t) = nearestObjectDistance (tiles g t).

(** Everything of the zone but the occupancy grid and the possible tiles is
    the same in [z'] as in [z]. *)
Definition sameBesidesGrid (z z' : TemplateZone) : Prop :=
  id z' = id z /\ borderType z' = borderType z /\ gapChance z' = gapChance z
  /\ pos z' = pos z /\ center z' = center z /\ tileInfo z' = tileInfo z
  /\ freePaths z' = freePaths z /\ roadNodes z' = roadNodes z
  /\ roads z' = roads z
  /\ sameBesidesOccupied (mapGenerator z) (mapGenerator z').

(** ** Stack composer (createStack) *)

(** [GroupInfo]: what [createStack] reads of a stack specification. *)
Record GroupInfo := mkGroupInfo {
  value : RandomValue;
  leaderIds : list CMidgardID;
  subraceTypes : list Z;
  loot : LootInfo
}.

(** [GroupUnits]: the array of six catalog entries, [None] for [nullptr]. *)
Abbreviation GroupUnits := (list (option UnitInfo)).

Definition noUnits : GroupUnits := [None; None; None; None; None; None].

(** Modelled from the spec: [MapGenerator::createId] is not part of the
    sources at hand. It hands out an id of the type asked for that no earlier
    call returned; the counter is shared by the types here. *)
Definition createId (g : MapGenerator) (type : Z) : CMidgardID * MapGenerator :=
  ((type, freeIdIndex g), withFreeIdIndex g (freeIdIndex g + 1)).

(** Units and items are no map elements: they carry no footprint. *)
Definition noElement : MapElement :=
  {| position := (0, 0); size := (0, 0); blockedOffsets := [];
     entranceOffset := (0, 0); entranceOffsets := [];
     isVisitableFrom := fun _ => false |}.

Definition unitObject (unitId : CMidgardID) (u : Unit) : ScenarioObject :=
  {| objectId := unitId; element := noElement; objectData := UnitData u |}.

Definition itemObject (itemId itemType : CMidgardID) : ScenarioObject :=
  {| objectId := itemId; element := noElement; objectData := ItemData itemType |}.

(** The modifier "G000UM9031", +1 Leadership. *)
Definition leadershipModifier : CMidgardID := (IdType.Modifier, 9031).

(** Modelled from the spec: the enumerators of [Facing] are not part of the
    sources at hand; the eight directions are numbered from 0. *)
Definition getRandomFacing (r : Random.Rng) : Z * Random.Rng :=
  Random.nextInteger 0 7 r.

(** "Remove units of subraces that are not allowed". *)
Definition subraceRejected (allowedSubraces : list Z) (info : UnitInfo) : bool :=
  match allowedSubraces with
  | [] => false
  | _ => negb (existsb (Z.eqb (getSubrace info)) allowedSubraces)
  end.

Definition noForbiddenUnitOnTemplate (gi : GameInfo) (info : UnitInfo) : bool :=
  containsId (forbiddenUnits gi) (getUnitId info).

(** The [noWrongValue] lambdas: [info->getValue() < minValue ||
    info->getValue() > value], the first comparison in [float]. *)
Definition noWrongValue (minValue : f32) (v : Z) (info : UnitInfo) : bool :=
  F32.ltb (F32.of_Z (getValue info)) minValue || (v <? getValue info).

(** The [for] loop of [pickStackLeader]: the values are added up until they
    exceed the leader's value; the first one never stops a big leader. *)
Fixpoint consumeValues (leaderInfo : UnitInfo) (unitValues : list Z) (i : nat)
    (unused : Z) (valuesConsumed : nat) : Z * nat :=
  match unitValues with
  | [] => (unused, valuesConsumed)
  | v :: rest =>
      let unused := unused + v in
      let valuesConsumed := S i in
      if (i =? 0)%nat && isBig leaderInfo
      then consumeValues leaderInfo rest (S i) unused valuesConsumed
      else if getValue leaderInfo <? unused then (unused, valuesConsumed)
      else consumeValues leaderInfo rest (S i) unused valuesConsumed
  end.

(** [pickStackLeader]: the leader, [unusedValue] and [valuesConsumed]
    afterwards, and the random source. *)
Definition pickStackLeader (gi : GameInfo) (unusedValue : Z) (valuesConsumed : nat)
    (unitValues : list Z) (ids : list CMidgardID) (r : Random.Rng)
    : option UnitInfo * (Z * nat) * Random.Rng :=
  let leadersRequired := fun info : UnitInfo => negb (containsId ids (getUnitId info)) in
  match pickLeader gi [leadersRequired] r with
  | (Some leaderInfo, r) =>
      let (unused, valuesConsumed) :=
        consumeValues leaderInfo unitValues 0 unusedValue valuesConsumed in
      let unusedValue :=
        if unused <? getValue leaderInfo then 0 else unused - getValue leaderInfo in
      (Some leaderInfo, (unusedValue, valuesConsumed), r)
  | (None, r) => (None, (unusedValue, valuesConsumed), r)
  end.

(** The filter of [createStackLeader]. *)
Definition leaderFilter (allowedSubraces : list Z) (minValue : f32) (v : Z)
    (canPlaceBig : bool) (info : UnitInfo) : bool :=
  if subraceRejected allowedSubraces info then true
  else if negb canPlaceBig && isBig info then true
  else F32.ltb (F32.of_Z (getValue info)) minValue || (v <? getValue info).

(** The [for] loop of [createStackLeader] from index [i] on. *)
Fixpoint createStackLeaderPass (gi : GameInfo) (allowedSubraces : list Z)
    (minValueCoeff : f32) (canPlaceBig : bool) (unitValues : list Z) (i : nat)
    (unused : Z) (r : Random.Rng) : option (UnitInfo * (Z * nat)) * Random.Rng :=
  match unitValues with
  | [] => (None, r)
  | v :: rest =>
      let v := v + unused in
      let minValue := F32.mul (F32.of_Z v) minValueCoeff in
      match pickLeader gi [leaderFilter allowedSubraces minValue v canPlaceBig;
                           noForbiddenUnitOnTemplate gi; noForbiddenUnit gi] r with
      | (Some leaderInfo, r) => (Some (leaderInfo, (v - getValue leaderInfo, S i)), r)
      | (None, r) =>
          createStackLeaderPass gi allowedSubraces minValueCoeff canPlaceBig rest (S i) v r
      end
  end.

(** The [while (failedAttempts < totalFails)] loop, [attempts] being what is
    left of the five. *)
Fixpoint createStackLeaderLoop (gi : GameInfo) (allowedSubraces : list Z)
    (attempts : nat) (minValueCoeff : f32) (unusedValue : Z) (unitValues : list Z)
    (r : Random.Rng) : option (UnitInfo * (Z * nat)) * Random.Rng :=
  match attempts with
  | O => (None, r)
  | S attempts' =>
      match createStackLeaderPass gi allowedSubraces minValueCoeff
              (length unitValues <? 6)%nat unitValues 0 unusedValue r with
      | (Some res, r) => (Some res, r)
      | (None, r) =>
          createStackLeaderLoop gi allowedSubraces attempts'
            (F32.max F32.zero (F32.sub minValueCoeff (F32.literal 15 100)))
            unusedValue unitValues r
      end
  end.

(** [createStackLeader]: after five failed rounds the first leader of the
    least value is taken, "just to create the stack". *)
Definition createStackLeader (gi : GameInfo) (unusedValue : Z) (valuesConsumed : nat)
    (unitValues : list Z) (allowedSubraces : list Z) (r : Random.Rng)
    : option UnitInfo * (Z * nat) * Random.Rng :=
  match createStackLeaderLoop gi allowedSubraces 5 (F32.literal 65 100) unusedValue
          unitValues r with
  | (Some (leaderInfo, res), r) => (Some leaderInfo, res, r)
  | (None, r) =>
      match find (fun info => getValue info =? getMinLeaderValue gi) (getLeaders gi) with
      | Some leaderInfo => (Some leaderInfo, (0, 0%nat), r)
      | None => (None, (unusedValue, valuesConsumed), r)
      end
  end.

(** [positions.erase(p)]. *)
Definition erase (p : nat) (positions : list nat) : list nat :=
  List.filter (fun q => negb (q =? p)%nat) positions.

(** "Find place in group for leader": the leader's position and the
    positions left free. *)
Definition placeLeader (leaderInfo : UnitInfo) : nat * list nat :=
  let positions := [0; 1; 2; 3; 4; 5]%nat in
  if isBig leaderInfo then (2%nat, erase 3 (erase 2 positions))
  else if isSupport leaderInfo then (3%nat, erase 3 positions)
  else if negb (ReachType_eqb (getAttackReach leaderInfo) ReachAdjacent)
  then (3%nat, erase 3 positions)
  else (2%nat, erase 2 positions).

(** What [createGroup] and [tightenGroup] work on. *)
Record Composer := mkComposer {
  unusedValue : Z;
  positions : list nat;
  groupUnits : GroupUnits;
  rand : Random.Rng
}.

(** [frontline ? position + 1 : position - 1]. *)
Definition secondPositionOf (p : nat) : nat :=
  if Nat.even p then S p else Nat.pred p.

(** The filter of [createGroup] and [tightenGroup]. *)
Definition groupFilter (allowedSubraces : list Z) (canPlaceBig frontline : bool)
    (info : UnitInfo) : bool :=
  if subraceRejected allowedSubraces info then true
  else if negb canPlaceBig && isBig info then true
  else if canPlaceBig then false
  else if frontline && negb (ReachType_eqb (getAttackReach info) ReachAdjacent) then true
  else if negb frontline && ReachType_eqb (getAttackReach info) ReachAdjacent then true
  else false.

(** The branch [if (info)] of [createGroup] and [tightenGroup]: a big unit
    takes [position] and [secondPosition]; a small one takes [position], or
    [secondPosition] when that suits its attack reach better. *)
Definition placePicked (canPlaceBig frontline : bool) (p secondPosition : nat)
    (info : UnitInfo) (free : list nat) (units : GroupUnits) : list nat * GroupUnits :=
  if isBig info then
    (erase secondPosition (erase p free),
     <[secondPosition := Some info]> (<[p := Some info]> units))
  else
    let p :=
      if canPlaceBig && frontline
         && negb (ReachType_eqb (getAttackReach info) ReachAdjacent)
      then secondPosition
      else if canPlaceBig && negb frontline
              && ReachType_eqb (getAttackReach info) ReachAdjacent
      then secondPosition
      else p in
    (erase p free, <[p := Some info]> units).

Definition inPositions (p : nat) (free : list nat) : bool :=
  existsb (Nat.eqb p) free.

Definition groupFilters (gi : GameInfo) (allowedSubraces : list Z)
    (canPlaceBig frontline : bool) (minValue : f32) (v : Z) : list (UnitInfo -> bool) :=
  [groupFilter allowedSubraces canPlaceBig frontline; noWrongValue minValue v;
   noForbiddenUnitOnTemplate gi; noForbiddenUnit gi].

(** The loop of [createGroup]; [total] is [unitValues.size()]. The random
    position exists, the loop running on while [positions] is not empty. *)
Fixpoint createGroupLoop (gi : GameInfo) (allowedSubraces : list Z) (total : nat)
    (unitValues : list Z) (st : Composer) : Composer :=
  match unitValues with
  | [] => st
  | v :: rest =>
      match positions st with
      | [] => st
      | _ =>
          let value := v + unusedValue st in
          let minValueCoeff :=
            F32.sub (F32.literal 95 100)
              (F32.mul (F32.of_Z (Z.of_nat (length (positions st)))) (F32.literal 5 100)) in
          let minValue := F32.mul (F32.of_Z value) minValueCoeff in
          match Random.getRandomElement (positions st) (rand st) with
          | (None, _) => st
          | (Some p, r) =>
              let frontline := Nat.even p in
              let secondPosition := secondPositionOf p in
              let canPlaceBig :=
                inPositions p (positions st) && inPositions secondPosition (positions st)
                && (total <? length (positions st))%nat in
              match pickUnit gi (groupFilters gi allowedSubraces canPlaceBig frontline
                                   minValue value) r with
              | (Some info, r) =>
                  let (free, units) :=
                    placePicked canPlaceBig frontline p secondPosition info
                      (positions st) (groupUnits st) in
                  createGroupLoop gi allowedSubraces total rest
                    {| unusedValue := value - getValue info; positions := free;
                       groupUnits := units; rand := r |}
              | (None, r) =>
                  createGroupLoop gi allowedSubraces total rest
                    {| unusedValue := unusedValue st + v; positions := positions st;
                       groupUnits := groupUnits st; rand := r |}
              end
          end
      end
  end.

Definition createGroup (gi : GameInfo) (st : Composer) (unitValues : list Z)
    (allowedSubraces : list Z) : Composer :=
  createGroupLoop gi allowedSubraces (length unitValues) unitValues st.

(** [1.f - positions.size() * 0.05f]. *)
Definition relaxedCoeff (free : list nat) : f32 :=
  F32.sub F32.one (F32.mul (F32.of_Z (Z.of_nat (length free))) (F32.literal 5 100)).

(** The [while] loop of [tightenGroup]. [None] is a run that needs more than
    [fuel] iterations. *)
Fixpoint tightenGroupLoop (fuel : nat) (gi : GameInfo) (allowedSubraces : list Z)
    (minValueCoeff : f32) (failedAttempts : Z) (st : Composer) : option Composer :=
  match fuel with
  | O => None
  | S fuel' =>
      if (failedAttempts <? 200)
         && negb (match positions st with [] => true | _ => false end)
         && (getMinSoldierValue gi <=? unusedValue st)
      then
        let value := unusedValue st in
        let minValue := F32.mul (F32.of_Z value) minValueCoeff in
        match Random.getRandomElement (positions st) (rand st) with
        | (None, _) => Some st
        | (Some p, r) =>
            let frontline := Nat.even p in
            let secondPosition := secondPositionOf p in
            let canPlaceBig :=
              inPositions p (positions st) && inPositions secondPosition (positions st) in
            match pickUnit gi (groupFilters gi allowedSubraces canPlaceBig frontline
                                 minValue value) r with
            | (Some info, r) =>
                let (free, units) :=
                  placePicked canPlaceBig frontline p secondPosition info
                    (positions st) (groupUnits st) in
                tightenGroupLoop fuel' gi allowedSubraces (relaxedCoeff free) 0
                  {| unusedValue := value - getValue info; positions := free;
                     groupUnits := units; rand := r |}
            | (None, r) =>
                tightenGroupLoop fuel' gi allowedSubraces
                  (F32.max F32.zero (F32.sub minValueCoeff (F32.literal 5 100)))
                  (failedAttempts + 1)
                  {| unusedValue := unusedValue st; positions := positions st;
                     groupUnits := groupUnits st; rand := r |}
            end
        end
      else Some st
  end.

Definition tightenGroup (fuel : nat) (gi : GameInfo) (st : Composer)
    (allowedSubraces : list Z) : option Composer :=
  tightenGroupLoop fuel gi allowedSubraces (relaxedCoeff (positions st)) 0 st.

(** The unit that [createGroupUnits] creates for a catalog entry, and the
    leader that [createStack] creates: implementation id, level (left at its
    initial value, taken as 1, for the leader) and hit points. *)
Definition unitOf (unitInfo : UnitInfo) : Unit :=
  {| implId := getUnitId unitInfo; level := getLevel unitInfo; hp := getHp unitInfo;
     modifiers := [] |}.

Definition leaderOf (leaderInfo : UnitInfo) : Unit :=
  {| implId := getUnitId leaderInfo; level := 1; hp := getHp leaderInfo; modifiers := [] |}.

(** The loop of [createGroupUnits] over the array from [position] on. The
    flag [skip] is the [++position] of a big unit, which makes the loop pass
    over the second slot of that unit. The result of [addUnit] is only
    asserted in the source. *)
Fixpoint createGroupUnitsLoop (units : GroupUnits) (p : nat) (skip : bool)
    (g : MapGenerator) (group : Group) : MapGenerator * Group :=
  match units with
  | [] => (g, group)
  | entry :: rest =>
      if skip then createGroupUnitsLoop rest (S p) false g group
      else
        match entry with
        | None => createGroupUnitsLoop rest (S p) false g group
        | Some unitInfo =>
            let (unitId, g) := createId g IdType.Unit in
            let unit := unitOf unitInfo in
            let g := insertObject g (unitObject unitId unit) in
            let group := snd (Group_addUnit group unitId p (isBig unitInfo)) in
            createGroupUnitsLoop rest (S p) (isBig unitInfo) g group
        end
  end.

Definition createGroupUnits (g : MapGenerator) (group : Group) (units : GroupUnits)
    : MapGenerator * Group :=
  createGroupUnitsLoop units 0 false g group.

(** The loop of [createStack] that counts the leadership the units ask for,
    with the same [skip] flag. *)
Fixpoint leadershipLoop (units : GroupUnits) (skip : bool) (leadershipRequired : Z) : Z :=
  match units with
  | [] => leadershipRequired
  | entry :: rest =>
      if skip then leadershipLoop rest false leadershipRequired
      else
        match entry with
        | None => leadershipLoop rest false leadershipRequired
        | Some unitInfo =>
            if isBig unitInfo then leadershipLoop rest true (leadershipRequired + 1 + 1)
            else leadershipLoop rest false (leadershipRequired + 1)
        end
  end.

(** [leaderUnit->addModifier(...)] on the unit found under [unitId], [n]
    times. *)
Definition addModifiers (g : MapGenerator) (unitId : CMidgardID) (n : nat)
    : MapGenerator :=
  match objects g !! unitId with
  | Some o =>
      match objectData o with
      | UnitData u =>
          withObjects g
            (<[unitId := {| objectId := objectId o; element := element o;
                            objectData :=
                              UnitData (Nat.iter n (fun u => addModifier u leadershipModifier) u) |}]>
               (objects g))
      | _ => g
      end
  | None => g
  end.

(** The inner loop over the loot: [n] items of type [itemType] are created,
    stored and added to the inventory. *)
Fixpoint addItems (n : nat) (itemType : CMidgardID) (g : MapGenerator)
    (stackInventory : list CMidgardID) : MapGenerator * list CMidgardID :=
  match n with
  | O => (g, stackInventory)
  | S n' =>
      let (itemId, g) := createId g IdType.Item in
      addItems n' itemType (insertObject g (itemObject itemId itemType))
        (stackInventory ++ [itemId])
  end.

Definition addLoot (stackLoot : list (CMidgardID * Z)) (g : MapGenerator)
    (stackInventory : list CMidgardID) : MapGenerator * list CMidgardID :=
  fold_left (fun acc entry => addItems (Z.to_nat (snd entry)) (fst entry) (fst acc) (snd acc))
    stackLoot (g, stackInventory).

(** How [createStack] ends: with [nullptr], with the exception "Could not
    pick stack leader", or with a stack. *)
Inductive StackResult :=
| NoStack
| CouldNotPickLeader
| StackCreated (stackId : CMidgardID) (stack : Stack).

Section CreateStack.

(** [constrainedSum] and [getUnitName] are not part of the sources at hand.
    The first splits a value into a number of unit values, the second draws a
    name; both may advance the random source, and nothing else is assumed of
    them. Names are not kept in [Unit]. *)
Variable constrainedSum : Z -> Z -> Random.Rng -> list Z * Random.Rng.
Variable getUnitName : UnitInfo -> Random.Rng -> bool -> Random.Rng.

(** [createStack(leaderInfo, leaderPosition, groupUnits, neutralOwner)]. *)
Definition createStackWithLeader (g : MapGenerator) (leaderInfo : UnitInfo)
    (leaderPosition : nat) (units : GroupUnits) (neutralOwner : bool)
    : CMidgardID * Stack * MapGenerator :=
  let (stackId, g) := createId g IdType.Stack in
  let (stackFacing, r) := getRandomFacing (randomGenerator g) in
  let g := withRandom g r in
  let stack := {| stackGroup := emptyGroup; inventory := []; leaderId := emptyId;
                  move := getMove leaderInfo; facing := stackFacing |} in
  let (unitId, g) := createId g IdType.Unit in
  let leader := leaderOf leaderInfo in
  let g := withRandom g (getUnitName leaderInfo (randomGenerator g) neutralOwner) in
  let g := insertObject g (unitObject unitId leader) in
  let stack := snd (Stack_addLeader stack unitId leaderPosition (isBig leaderInfo)) in
  let (g, group) := createGroupUnits g (stackGroup stack) units in
  (stackId,
   {| stackGroup := group; inventory := inventory stack; leaderId := leaderId stack;
      move := move stack; facing := facing stack |},
   g).

(** [createStack(stackInfo, neutralOwner)]. [None] is a run that needs more
    than [fuel] iterations in [tightenGroup] or [createLoot]. *)
Definition createStack (fuel : nat) (gi : GameInfo) (g : MapGenerator)
    (stackInfo : GroupInfo) (neutralOwner : bool)
    : option (StackResult * MapGenerator) :=
  if negb (rvSet (value stackInfo)) then Some (NoStack, g)
  else
    let (strength, r) := pickValue (value stackInfo) (randomGenerator g) in
    let soldiersStrength := strength - getMinLeaderValue gi in
    let maxUnitsPossible := Z.min 5 (Z.quot soldiersStrength (getMinSoldierValue gi)) in
    let (soldiersTotal, r) := Random.nextInteger 0 maxUnitsPossible r in
    let unitsTotal := soldiersTotal + 1 in
    let (unitValues, r) := constrainedSum unitsTotal strength r in
    let '(leaderInfo, (unused, valuesConsumed), r) :=
      match leaderIds stackInfo with
      | [] => (None, (0, 0%nat), r)
      | ids => pickStackLeader gi 0 0 unitValues ids r
      end in
    let '(leaderInfo, (unused, valuesConsumed), r) :=
      match leaderInfo with
      | Some _ => (leaderInfo, (unused, valuesConsumed), r)
      | None =>
          createStackLeader gi unused valuesConsumed unitValues (subraceTypes stackInfo) r
      end in
    match leaderInfo with
    | None => Some (CouldNotPickLeader, withRandom g r)
    | Some leaderInfo =>
        let (leaderPosition, free) := placeLeader leaderInfo in
        let st := {| unusedValue := unused; positions := free; groupUnits := noUnits;
                     rand := r |} in
        let st :=
          if (valuesConsumed <? length unitValues)%nat
          then createGroup gi st (drop valuesConsumed unitValues) (subraceTypes stackInfo)
          else st in
        match tightenGroup fuel gi st (subraceTypes stackInfo) with
        | None => None
        | Some st =>
            let soldiers := groupUnits st in
            let '(stackId, stack, g) :=
              createStackWithLeader (withRandom g (rand st)) leaderInfo leaderPosition
                soldiers neutralOwner in
            let leadershipRequired :=
              leadershipLoop soldiers false (if isBig leaderInfo then 2 else 1) in
            let g :=
              if getLeadership leaderInfo <? leadershipRequired
              then addModifiers g (leaderId stack)
                     (Z.to_nat (leadershipRequired - getLeadership leaderInfo))
              else g in
            match createLoot fuel gi g (loot stackInfo) false with
            | None => None
            | Some (stackLoot, g) =>
                let (g, stackInventory) := addLoot stackLoot g (inventory stack) in
                Some (StackCreated stackId
                        {| stackGroup := stackGroup stack; inventory := stackInventory;
                           leaderId := leaderId stack; move := move stack;
                           facing := facing stack |},
                      g)
            end
        end
    end.

End CreateStack.

(** A catalog for examples: one leader with leadership 1, a fighter, an
    archer and a giant, and the three items of [sampleItems]. *)
Definition sampleLeader : UnitInfo :=
  {| getUnitId := (IdType.UnitGlobal, 1); getValue := 50; getLevel := 1; getHp := 150;
     getMove := 20; getLeadership := 1; isBig := false; isSupport := false;
     getAttackReach := ReachAdjacent; getSubrace := 1 |}.

Definition sampleSoldiers : list UnitInfo :=
  [ {| getUnitId := (IdType.UnitGlobal, 2); getValue := 20; getLevel := 1; getHp := 100;
       getMove := 0; getLeadership := 0; isBig := false; isSupport := false;
       getAttackReach := ReachAdjacent; getSubrace := 1 |};
    {| getUnitId := (IdType.UnitGlobal, 3); getValue := 25; getLevel := 1; getHp := 60;
       getMove := 0; getLeadership := 0; isBig := false; isSupport := false;
       getAttackReach := ReachAny; getSubrace := 1 |};
    {| getUnitId := (IdType.UnitGlobal, 4); getValue := 60; getLevel := 2; getHp := 300;
       getMove := 0; getLeadership := 0; isBig := true; isSupport := false;
       getAttackReach := ReachAdjacent; getSubrace := 1 |} ].

Definition stackGameInfo : GameInfo :=
  {| getItems := sampleItems; getLeaders := [sampleLeader]; getSoldiers := sampleSoldiers;
     getMinLeaderValue := 50; getMinSoldierValue := 20;
     noSpecialItem := fun i => ItemType_eqb (getItemType i) Special;
     noForbiddenItem := fun _ => false; noForbiddenUnit := fun _ => false;
     forbiddenItems := []; forbiddenUnits := [] |}.

(** A split of [total] into [n] equal parts, standing for [constrainedSum]
    in examples. *)
Definition evenSplit (n total : Z) (r : Random.Rng) : list Z * Random.Rng :=
  (repeat (Z.quot total n) (Z.to_nat n), r).

(** A stack of value 200 with the loot of [sampleLoot]. *)
Definition sampleStack : GroupInfo :=
  {| value := {| rvMin := 200; rvMax := 200 |}; leaderIds := []; subraceTypes := [];
     loot := sampleLoot |}.

(** What is read off a stack: the units standing in its group, how many of
    them are the leader, the slots taken by soldiers (both slots of a big
    one), and the leadership of the leader with its modifiers. *)
Definition unitIds (s : Stack) : list CMidgardID :=
  remove_dups (omap Datatypes.id (slots (stackGroup s))).

Definition unitCount (s : Stack) : nat := length (unitIds s).

Definition leaderCount (s : Stack) : nat :=
  length (List.filter (CMidgardID_eqb (leaderId s)) (unitIds s)).

Definition soldierSlot (leader : CMidgardID) (slot : option CMidgardID) : bool :=
  match slot with
  | Some unitId => negb (CMidgardID_eqb unitId leader)
  | None => false
  end.

Definition occupiedSoldierSlots (s : Stack) : Z :=
  Z.of_nat (length (List.filter (soldierSlot (leaderId s)) (slots (stackGroup s)))).

Definition leadershipOf (leaderInfo : UnitInfo) (leader : Unit) : Z :=
  getLeadership leaderInfo
  + Z.of_nat (count_occ (decide_rel (=)) (modifiers leader) leadershipModifier).

(** Iterations that suffice for the loops of [createStack]: [tightenGroup]
    fails at most 200 times in a row between two picks and picks at most six
    times; [createLoot] adds value with every item. *)
Definition createStackFuel (stackInfo : GroupInfo) : nat :=
  Nat.max 1407
    (Z.to_nat (Z.max (rvMin (lootValue (loot stackInfo)))
                     (rvMax (lootValue (loot stackInfo)))) + 2).

(** ** Further samples *)

(** The zone [roadZone] after the road from (1, 1) to (2, 3) is laid. *)
Definition roadZoneLinked : TemplateZone :=
  withRoads
    (withGenerator roadZone
       (fold_left (fun g t => setRoad g t true) [(2, 3); (1, 2)]
          (setRoad roadGenerator (1, 1) false)))
    [ {| roadPath := [((2, 3), S754_finite false 13002342 (-22));
                      ((1, 2), S754_finite false 8388608 (-23))];
         roadSource := (1, 1); roadDestination := (2, 3) |} ].

(** A loot of value 120 restricted to weapons and healing potions worth 40
    to 100. *)
Definition pickyLoot : LootInfo :=
  {| itemTypes := [Weapon; PotionHeal]; lootValue := {| rvMin := 120; rvMax := 120 |};
     itemValue := {| rvMin := 40; rvMax := 100 |};
     requiredItems := [] |}.

(** ** Measures of the stack composer *)

Definition sumValues (l : list Z) : Z := fold_right Z.add 0 l.

(** What a slot adds to the value of a group: the value of its unit, a big
    unit being counted at the front slot of its column only. The debug report
    of [createStack] adds the values up in the same way, skipping the second
    part of a big unit. *)
Definition slotValue (i : nat) (slot : option UnitInfo) : Z :=
  match slot with
  | Some info => if isBig info && negb (Nat.even i) then 0 else getValue info
  | None => 0
  end.

Fixpoint groupValueFrom (i : nat) (units : GroupUnits) : Z :=
  match units with
  | [] => 0
  | slot :: rest => slotValue i slot + groupValueFrom (S i) rest
  end.

Definition groupValue (units : GroupUnits) : Z := groupValueFrom 0 units.

(** The group that [createGroup] and [tightenGroup] compose for
    [sampleLeader] from the unused value 10 and the unit values 40 and 40:
    the giant in the first column and the archer behind the leader. *)
Definition sampleComposed : Composer :=
  {| unusedValue := 5; positions := [4; 5]%nat;
     groupUnits :=
       [ Some {| getUnitId := (IdType.UnitGlobal, 4); getValue := 60; getLevel := 2;
                 getHp := 300; getMove := 0; getLeadership := 0; isBig := true;
                 isSupport := false; getAttackReach := ReachAdjacent; getSubrace := 1 |};
         Some {| getUnitId := (IdType.UnitGlobal, 4); getValue := 60; getLevel := 2;
                 getHp := 300; getMove := 0; getLeadership := 0; isBig := true;
                 isSupport := false; getAttackReach := ReachAdjacent; getSubrace := 1 |};
         None;
         Some {| getUnitId := (IdType.UnitGlobal, 3); getValue := 25; getLevel := 1;
                 getHp := 60; getMove := 0; getLeadership := 0; isBig := false;
                 isSupport := false; getAttackReach := ReachAny; getSubrace := 1 |};
         None; None ];
     rand := [] |}.

(** ** Entrances and forests (templatezone.cpp) *)

(** The lambda [isOffsetBlocked] of [isEntranceBlocked]: a tile near the
    entrance counts as blocked when it should be blocked, or when it is used
    by something that is not a forest and carries no road. *)
Definition isOffsetBlocked (g : MapGenerator) (entrance offset : Position) : bool :=
  let pos := padd entrance offset in
  if shouldBeBlocked g pos then true
  else if isRoad g pos then false
  else if isUsed g pos && negb (GroundType_eqb (ground (mapTiles g pos)) Forest) then true
  else false.

(** [isEntranceBlocked(mapElement, mapGenerator)]: [std::all_of] over the
    entrance offsets. *)
Definition isEntranceBlocked (e : MapElement) (g : MapGenerator) : bool :=
  forallb (isOffsetBlocked g (getEntrance e)) (entranceOffsets e).

Definition withTreeImage (t : Tile) (image : Z) : Tile :=
  {| terrain := terrain t; ground := ground t; treeImage := image;
     visitable := visitable t; blocked := blocked t |}.

(** The lambda [clearPosition] of [clearEntrance]; the cleanup loop of
    [createObstacles] for a template without forests has the same body:
    "remove unused possible tiles to make space for roads". *)
Definition clearPosition (g : MapGenerator) (tile : Position) : MapGenerator :=
  if isPossible g tile then setOccupied g tile Free else g.

Section PlaceForests.

(** [getRandomTreeImageIndex] is not part of the sources at hand: it draws
    the image of a tree from the random source. *)
Variable getRandomTreeImageIndex : Random.Rng -> Z * Random.Rng.

(** The body of the last loop of [createObstacles], [forests] being the
    forest setting of the template. *)
Definition placeForestAt (forests : Z) (g : MapGenerator) (tile : Position)
    : MapGenerator :=
  if isPossible g tile then
    if isRoad g tile then setOccupied g tile Free
    else
      let (shouldPlace, r) :=
        if forests =? 100 then (true, randomGenerator g)
        else Random.chance forests (randomGenerator g) in
      let g := withRandom g r in
      if negb shouldPlace then setOccupied g tile Free
      else
        let g := setOccupied g tile Used in
        let mapTile := setTerrainGround (mapTiles g tile) TerrainNeutral Forest in
        let (image, r) := getRandomTreeImageIndex (randomGenerator g) in
        withRandom (withMapTiles g (fupd (mapTiles g) tile (withTreeImage mapTile image))) r
  else g.

(** The step "Place forests" that ends [createObstacles], after the
    decorations and the mountains. *)
Definition createObstacles_forests (z : TemplateZone) : TemplateZone :=
  let g := mapGenerator z in
  let forests := forest g in
  if forests =? 0
  then withGenerator z (fold_left clearPosition (tileInfo z) g)
  else withGenerator z (fold_left (placeForestAt forests) (tileInfo z) g).

End PlaceForests.

(** A 5x5 map of Possible tiles of zone 1 with a road on (1, 1), under the
    forest setting 100, and a zone of three tiles on it. *)
Definition forestGenerator : MapGenerator :=
  {| mapSize := 5;
     tiles := fun q =>
       {| occupied := Possible; road := Position_eqb q (1, 1); zoneId := 1;
          nearestObjectDistance := F32.infinity |};
     mapTiles := fun _ => {| terrain := TerrainHuman; ground := Plain;
                             treeImage := 0; visitable := false; blocked := false |};
     mapElements := []; objects := ∅; freeIdIndex := 0;
     randomGenerator := [7; 11]; forest := 100 |}.

Definition forestZone : TemplateZone :=
  {| id := 1; borderType := BorderOpen; gapChance := 0; pos := (2, 2);
     center := (F32.zero, F32.zero); tileInfo := [(1, 1); (1, 2); (2, 2)];
     possibleTiles := ∅; freePaths := ∅; roadNodes := ∅;
     roads := []; mapGenerator := forestGenerator |}.

(** A 1x1 element entered from the tile below it. *)
Definition gateElement : MapElement :=
  {| position := (1, 1); size := (1, 1); blockedOffsets := [(0, 0)];
     entranceOffset := (0, 0); entranceOffsets := [(0, 1)];
     isVisitableFrom := fun _ => true |}.

(** ** Mountains (placeMountain) *)

(** The [std::runtime_error] of [placeMountain], with the tile its message
    names. *)
Inductive MountainError := MountainOutsideMap (tile : Position).

(** The offsets visited by the two nested loops over a rectangle of the
    given size, [x] outermost. *)
Definition rectangleOffsets (size : Position) : list Position :=
  x ← seqZ 0 (fst size); (fun y => (x, y)) <$> seqZ 0 (snd size).

(** The loops of [placeMountain] from the offsets left to visit: the test
    looks at [position], the origin of the mountain, at every tile. *)
Fixpoint placeMountainLoop (g : MapGenerator) (position : Position)
    (offsets : list Position) : MountainError + MapGenerator :=
  match offsets with
  | [] => inr g
  | offset :: rest =>
      let pos := padd position offset in
      if negb (isInTheMap g position) then inl (MountainOutsideMap pos)
      else placeMountainLoop (setOccupied g pos Used) position rest
  end.

Section PlaceMountain.

(** [Map::addMountain] is not part of the sources at hand; it records the
    mountain in the scenario map. *)
Variable addMountain : MapGenerator -> Position -> Position -> Z -> MapGenerator.

(** [placeMountain(position, size, image)]: how the call ended and the zone
    at that moment. The exception is thrown before the first tile is marked,
    the test being the same at every tile. *)
Definition placeMountain (z : TemplateZone) (position size : Position) (image : Z)
    : (MountainError + unit) * TemplateZone :=
  match placeMountainLoop (mapGenerator z) position (rectangleOffsets size) with
  | inl err => (inl err, z)
  | inr g => (inr tt, withGenerator z (addMountain g position size image))
  end.

End PlaceMountain.

(** The tiles of the rectangle of the given size at [position]. *)
Definition inRectangle (position size t : Position) : bool :=
  (fst position <=? fst t) && (fst t <? fst position + fst size)
  && (snd position <=? snd t) && (snd t <? snd position + snd size).

(** ** The tile index (scenario/map.h) *)

(** The value of a 32-bit [int] result. The standard leaves an overflow
    undefined; here it wraps around in two's complement, and what is proved of
    [posToIndex] keeps to maps on which nothing overflows. *)
Definition wrapInt (x : Z) : Z := (x + 2 ^ 31) mod 2 ^ 32 - 2 ^ 31.

(** [Map::posToIndex]: [position.x + size * position.y], the product and the
    sum computed in [int] ([size] and the coordinates are [int]s), the result
    converted to the 64-bit [std::size_t] that is returned. *)
Definition posToIndex (g : MapGenerator) (p : Position) : Z :=
  wrapInt (fst p + wrapInt (mapSize g * snd p)) mod 2 ^ 64.

(** ** Tiles around a map element *)

(** [getAccessibleTiles(mapElement)]: the neighbours of the entrance from
    which the element can be visited. *)
Definition getAccessibleTiles (z : TemplateZone) (e : MapElement) : list Position :=
  let g := mapGenerator z in
  let entrance := getEntrance e in
  let tilesBlockedByObject := getBlockedPositions e in
  List.filter (fun p =>
      if negb (isPossible g p || isFree g p) then false
      else if bool_decide (p ∈ tilesBlockedByObject) then false
      else isVisitableFrom e (psub p entrance) && negb (isBlocked g p))
    (neighbors g entrance).

(** The tiles visited by the loops of [Decoration::getMapElementArea], [x]
    outermost. *)
Definition areaTiles (e : MapElement) (gapSizeX gapSizeY : Z) : list Position :=
  let startPos := position e in
  let endPos := padd startPos (size e) in
  x ← seqZ (fst startPos - gapSizeX) (fst endPos + gapSizeX - (fst startPos - gapSizeX));
  (fun y => (x, y))
    <$> seqZ (snd startPos - gapSizeY) (snd endPos + gapSizeY - (snd startPos - gapSizeY)).

(** [Decoration::getMapElementArea] (decoration.cpp): the Possible tiles of
    the map around the element, up to the gap, that the element does not
    block and that are neither its entrance nor near it. *)
Definition getMapElementArea (e : MapElement) (gapSizeX gapSizeY : Z) (g : MapGenerator)
    : gset Position :=
  let entrance := getEntrance e in
  let blocked : gset Position :=
    fold_left (fun blocked offset => {[padd entrance offset]} ∪ blocked)
      (entranceOffsets e) ({[entrance]} ∪ list_to_set (getBlockedPositions e)) in
  fold_left (fun decorationsArea tile =>
      if bool_decide (tile ∈ blocked) then decorationsArea
      else if negb (isInTheMap g tile) || negb (isPossible g tile) then decorationsArea
      else {[tile]} ∪ decorationsArea)
    (areaTiles e gapSizeX gapSizeY) ∅.

(** ** Template settings and contents (maptemplatereader.cpp) *)

(** [readRandomValue(value, table, def, min, max)]: both ends are read with
    [readValue] and swapped when they come in the wrong order. *)
Definition readRandomValue (fieldMin fieldMax : option Z) (def lo hi : Z) : RandomValue :=
  let vmin := readValue fieldMin def lo hi in
  let vmax := readValue fieldMax def lo hi in
  if vmax <? vmin then {| rvMin := vmax; rvMax := vmin |}
  else {| rvMin := vmin; rvMax := vmax |}.

Module Settings.

(** What [sol] finds under a name of the [template] table. *)
Inductive LuaObject := LuaFunction | LuaOther.

(** The [template] table, as far as the numbers of the settings and the
    check of [getContents] go. *)
Record TemplateTable := mkTemplateTable {
  tGetContents : option LuaObject;
  tMaxPlayers : option Z;
  tMinSize : option Z;
  tMaxSize : option Z;
  tRoads : option Z;
  tStartingGold : option Z;
  tStartingNativeMana : option Z;
  tForest : option Z;
  tIterations : option Z
}.

(** The numbers of [MapTemplateSettings]. *)
Record MapTemplateSettings := mkMapTemplateSettings {
  maxPlayers : Z;
  sizeMin : Z;
  sizeMax : Z;
  roads : Z;
  startingGold : Z;
  startingNativeMana : Z;
  forest : Z;
  iterations : Z
}.

(** The three [TemplateException]s of [readSettings]. *)
Inductive SettingsException :=
| NotATemplate
| NoGetContents
| GetContentsNotAFunction.

(** [readSettings(settings, lua)], [template] being the global of that name
    when there is one. *)
Definition readSettings (template : option TemplateTable)
    : SettingsException + MapTemplateSettings :=
  match template with
  | None => inl NotATemplate
  | Some table =>
      match tGetContents table with
      | None => inl NoGetContents
      | Some LuaOther => inl GetContentsNotAFunction
      | Some LuaFunction =>
          let sizeMin := readValue (tMinSize table) 48 48 144 in
          let sizeMax := readValue (tMaxSize table) 48 48 144 in
          inr {| maxPlayers := readValue (tMaxPlayers table) 1 1 4;
                 sizeMin := sizeMin;
                 sizeMax := clamp sizeMax sizeMin 144;
                 roads := readValue (tRoads table) 100 0 100;
                 startingGold := readValue (tStartingGold table) 0 0 9999;
                 startingNativeMana := readValue (tStartingNativeMana table) 0 0 9999;
                 forest := readValue (tForest table) 0 0 100;
                 iterations := readValue (tIterations table) 0 0 1000000 |}
      end
  end.

(** The fields of the contents table that replace settings. *)
Record ContentsSettings := mkContentsSettings {
  cMaxPlayers : option Z;
  cRoads : option Z;
  cForest : option Z;
  cStartingGold : option Z;
  cStartingNativeMana : option Z
}.

(** The settings after a [readContents] that returns: a number of players
    above 0 and a road, forest, gold or mana setting of 0 or more replace the
    ones of the template. *)
Definition contentsSettings (s : MapTemplateSettings) (c : ContentsSettings)
    : MapTemplateSettings :=
  let maxPlayers' := readValue (cMaxPlayers c) 0 0 4 in
  let roads' := readValue (cRoads c) (-1) (-1) 100 in
  let forest' := readValue (cForest c) (-1) (-1) 100 in
  let startingGold' := readValue (cStartingGold c) (-1) (-1) 9999 in
  let startingNativeMana' := readValue (cStartingNativeMana c) (-1) (-1) 9999 in
  {| maxPlayers := if 0 <? maxPlayers' then maxPlayers' else maxPlayers s;
     sizeMin := sizeMin s;
     sizeMax := sizeMax s;
     roads := if 0 <=? roads' then roads' else roads s;
     startingGold := if 0 <=? startingGold' then startingGold' else startingGold s;
     startingNativeMana :=
       if 0 <=? startingNativeMana' then startingNativeMana' else startingNativeMana s;
     forest := if 0 <=? forest' then forest' else forest s;
     iterations := iterations s |}.

(** The ranges the generator relies on. *)
Definition inRange (s : MapTemplateSettings) : Prop :=
  1 <= maxPlayers s <= 4
  /\ 48 <= sizeMin s <= sizeMax s /\ sizeMax s <= 144
  /\ 0 <= roads s <= 100
  /\ 0 <= startingGold s <= 9999
  /\ 0 <= startingNativeMana s <= 9999
  /\ 0 <= forest s <= 100
  /\ 0 <= iterations s <= 1000000.

End Settings.

(** ** Zone connections (readContents) *)

(** "Populate zone connections", for one connection: each of the two zones
    gets the other one appended to its connections. A zone is its list of
    connections here; [None] stands for a failed [assert], the zone of an
    end of the connection being absent. *)
Definition populateConnection (zones : gmap Z (list Z)) (connection : Z * Z)
    : option (gmap Z (list Z)) :=
  let zoneFromId := fst connection in
  let zoneToId := snd connection in
  match zones !! zoneFromId, zones !! zoneToId with
  | Some _, Some _ =>
      let zones := <[zoneFromId := default [] (zones !! zoneFromId) ++ [zoneToId]]> zones in
      Some (<[zoneToId := default [] (zones !! zoneToId) ++ [zoneFromId]]> zones)
  | _, _ => None
  end.

Fixpoint populateConnections (zones : gmap Z (list Z)) (connections : list (Z * Z))
    : option (gmap Z (list Z)) :=
  match connections with
  | [] => Some zones
  | connection :: rest =>
      match populateConnection zones connection with
      | Some zones => populateConnections zones rest
      | None => None
      end
  end.

(** How often [b] is listed in the connections of [a]. *)
Definition connectionCount (zones : gmap Z (list Z)) (a b : Z) : nat :=
  length (List.filter (Z.eqb b) (default [] (zones !! a))).

(** ** Blocking the tiles far from the passages (fractalize) *)

(** [blockDistance] of [fractalize]: [minDistance * 0.25f], [minDistance]
    being [7.5 * 10]. *)
Definition blockDistance : f32 := F32.mul (F32.of_Z 75) (F32.literal 25 100).

(** The inner loop of the last step of [fractalize]: some free path lies
    closer to [tile] than [blockDistance], in squared distance. *)
Definition closeTileFound (z : TemplateZone) (tile : Position) : bool :=
  existsb (fun clearTile =>
      F32.ltb (F32.of_Z (distanceSquared tile clearTile)) blockDistance)
    (elements (freePaths z)).

(** The body of the loop "Now block most distant tiles away from passages". *)
Definition blockDistantAt (z : TemplateZone) (g : MapGenerator) (tile : Position)
    : MapGenerator :=
  if negb (isPossible g tile) then g
  else if bool_decide (tile ∈ freePaths z) then g
  else if negb (closeTileFound z tile) then setOccupied g tile Blocked
  else g.

(** The last step of [fractalize], after the paths are cut. *)
Definition fractalize_blockDistant (z : TemplateZone) : TemplateZone :=
  withGenerator z (fold_left (blockDistantAt z) (tileInfo z) (mapGenerator z)).

(** ** Free tiles (initFreeTiles, addFreePath) *)

Definition withFreePaths (z : TemplateZone) (s : gset Position) : TemplateZone :=
  {| id := id z; borderType := borderType z; gapChance := gapChance z; pos := pos z;
     center := center z; tileInfo := tileInfo z; possibleTiles := possibleTiles z;
     freePaths := s; roadNodes := roadNodes z; roads := roads z;
     mapGenerator := mapGenerator z |}.

(** [addFreePath(position)]. *)
Definition addFreePath (z : TemplateZone) (p : Position) : TemplateZone :=
  let z := withGenerator z (setOccupied (mapGenerator z) p Free) in
  withFreePaths z ({[p]} ∪ freePaths z).

(** [initFreeTiles()]: the Possible tiles of the zone are copied into
    [possibleTiles] first; "Zone must have at least one free tile where other
    paths go - for instance in the center". *)
Definition initFreeTiles (z : TemplateZone) : TemplateZone :=
  let z := withPossibleTiles z
             (possibleTiles z
              ∪ list_to_set (List.filter (isPossible (mapGenerator z)) (tileInfo z))) in
  if bool_decide (freePaths z = ∅) then addFreePath z (pos z) else z.

(** ** The way out of a fortification (clearEntrance) *)

(** [clearEntrance(fort)]: the Possible neighbours of the tile at
    [getEntrance() + Position(1, 1)] are set Free. *)
Definition clearEntrance (z : TemplateZone) (fort : MapElement) : TemplateZone :=
  let g := mapGenerator z in
  withGenerator z
    (fold_left clearPosition (neighbors g (padd (getEntrance fort) (1, 1))) g).

(** ** Paths to the zone center (connectWithCenter) *)

Section ConnectWithCenter.

Variable z : TemplateZone.
Variable g : MapGenerator.
Variable passThroughBlocked : bool.

(** [movementCost] of the lambda of [connectWithCenter]: 1 on a free tile,
    2 on a possible one, 3 through a blocked one when that is allowed;
    [None] where the lambda returns. The costs are whole numbers, kept as
    integers like those of [connectPath]. *)
Definition movementCost (p : Position) : option Z :=
  if isFree g p then Some 1
  else if isPossible g p then Some 2
  else if passThroughBlocked && shouldBeBlocked g p then Some 3
  else None.

(** The lambda of [connectWithCenter] applied to the neighbour [p] of
    [currentNode]. *)
Definition centerFunctor (currentNode : Position) (st : PathSearch) (p : Position)
    : PathSearch :=
  if bool_decide (p ∈ closedP st) then st
  else if negb (getZoneId g p =? id z) then st
  else
    match movementCost p with
    | None => st
    | Some cost =>
        let distance := default 0 (distancesP st !! currentNode) + cost in
        let bestDistanceSoFar := default intMax (distancesP st !! p) in
        if distance <? bestDistanceSoFar then
          {| closedP := closedP st;
             openP := pq_push (openP st) (p, distance);
             cameFromP := <[p := currentNode]> (cameFromP st);
             distancesP := <[p := distance]> (distancesP st) |}
        else st
    end.

(** The [while (!queue.empty())] loop: the containers when the center is
    reached, or nothing when the queue runs empty. *)
Fixpoint centerSearch (onlyStraight : bool) (fuel : nat) (st : PathSearch)
    : option (option PathSearch) :=
  match fuel with
  | O => None
  | S fuel' =>
      match pq_pop Z.ltb (openP st) with
      | None => Some None
      | Some ((currentNode, _), rest) =>
          let st := {| closedP := {[currentNode]} ∪ closedP st; openP := rest;
                       cameFromP := cameFromP st; distancesP := distancesP st |} in
          if Position_eqb currentNode (pos z) then Some (Some st)
          else centerSearch onlyStraight fuel'
                 (fold_left (centerFunctor currentNode)
                    (pathNeighbors g onlyStraight currentNode) st)
      end
  end.

End ConnectWithCenter.

(** [connectWithCenter(position, onlyStraight, passThroughBlocked)]: the
    result and the zone afterwards. The tiles walked back from the center are
    set free; the tile the search started from, whose predecessor is not
    valid, ends the walk and is left alone. [None] is a run that needs more
    than [fuel] iterations in one of its loops. *)
Definition connectWithCenter (fuel : nat) (z : TemplateZone) (position : Position)
    (onlyStraight passThroughBlocked : bool) : option (bool * TemplateZone) :=
  match centerSearch z (mapGenerator z) passThroughBlocked onlyStraight fuel
          (initialPathSearch position) with
  | None => None
  | Some None => Some (false, z)
  | Some (Some st) =>
      match backtrack fuel (cameFromP st) (pos z) with
      | None => None
      | Some path => Some (true, withGenerator z (setFree (mapGenerator z) path))
      end
  end.

(** Each tile of the list is a neighbour, as the search walks them, of the
    tile that follows it. *)
Fixpoint walked (g : MapGenerator) (onlyStraight : bool) (l : list Position) : Prop :=
  match l with
  | a :: (b :: _) as rest => In a (pathNeighbors g onlyStraight b) /\ walked g onlyStraight rest
  | _ => True
  end.

(** ** Obstacles (canObstacleBePlacedHere) *)

(** [canObstacleBePlacedHere(mapElement, position)]: the position and every
    tile the element blocks lie in the map and should be blocked. *)
Definition canObstacleBePlacedHere (z : TemplateZone) (e : MapElement) (p : Position)
    : bool :=
  let g := mapGenerator z in
  if negb (isInTheMap g p) then false
  else forallb (fun offset =>
           let t := padd p offset in
           if negb (isInTheMap g t) then false
           else if negb (shouldBeBlocked g t) then false
           else true)
         (blockedOffsets e).

(** * Properties *)

(** ** Basic facts *)

Lemma Position_eqb_eq (a b : Position) : Position_eqb a b = true <-> a = b.
Proof.
  destruct a as [ax ay], b as [bx b_y]; unfold Position_eqb; simpl.
  rewrite andb_true_iff, !Z.eqb_eq. split.
  - intros [-> ->]; reflexivity.
  - intros H; inversion H; auto.
Qed.

Lemma Position_eqb_refl (a : Position) : Position_eqb a a = true.
Proof. apply Position_eqb_eq; reflexivity. Qed.

Lemma Position_eqb_neq (a b : Position) : Position_eqb a b = false <-> a <> b.
Proof.
  rewrite <- Position_eqb_eq. destruct (Position_eqb a b); split; congruence.
Qed.

Lemma TileType_eqb_eq (a b : TileType) : TileType_eqb a b = true <-> a = b.
Proof. destruct a, b; simpl; split; congruence. Qed.

Lemma nextInteger_range lo hi r :
  lo <= hi -> lo <= fst (Random.nextInteger lo hi r) <= hi.
Proof.
  intros Hle. unfold Random.nextInteger. destruct (Random.next r) as [x r'].
  destruct (hi <? lo) eqn:E; [apply Z.ltb_lt in E; lia|]. simpl.
  pose proof (Z.mod_pos_bound x (hi - lo + 1) ltac:(lia)). lia.
Qed.

Lemma getRandomElement_In {A : Type} (l : list A) r x :
  fst (Random.getRandomElement l r) = Some x -> In x l.
Proof.
  unfold Random.getRandomElement. destruct (Random.nextInteger _ _ r) as [i r']. simpl.
  apply nth_error_In.
Qed.

Lemma getRandomElement_nonempty {A : Type} (l : list A) r :
  l <> [] -> exists x, fst (Random.getRandomElement l r) = Some x.
Proof.
  intros Hne. unfold Random.getRandomElement.
  pose proof (nextInteger_range 0 (Z.of_nat (length l) - 1) r) as Hr.
  destruct (Random.nextInteger _ _ r) as [i r']. simpl in *.
  assert (Hlen : (0 < length l)%nat) by (destruct l; [congruence | simpl; lia]).
  destruct (nth_error l (Z.to_nat i)) eqn:E; [eauto|].
  apply nth_error_None in E. lia.
Qed.

Lemma CMidgardID_eqb_eq (a b : CMidgardID) : CMidgardID_eqb a b = true <-> a = b.
Proof. apply Position_eqb_eq. Qed.

Lemma fupd_same {A : Type} (f : Position -> A) p v : fupd f p v p = v.
Proof. unfold fupd. rewrite Position_eqb_refl. reflexivity. Qed.

Lemma fupd_other {A : Type} (f : Position -> A) p q v : q <> p -> fupd f p v q = f q.
Proof.
  intros H. unfold fupd. apply Position_eqb_neq in H. rewrite H. reflexivity.
Qed.

(** ** Zone center (setCenter) *)

(** C8, at the failing input. The input [-2^-30] is a finite binary32 number.
    [std::fmod] leaves it as it is, it is negative, and [1.f - 2^-30] rounds to
    [1.f]: the first component of the center becomes exactly one, which is
    outside [[0, 1)]. *)
Theorem setCenter_tiny_negative (z : TemplateZone) :
  let x := S754_finite true 8388608 (-53) in
  F32.valid x = true /\ F32.is_finite x = true /\
  F32.fmod1 x = x /\
  fst (center (setCenter z (x, F32.zero))) = F32.one /\
  inUnitInterval (fst (center (setCenter z (x, F32.zero)))) = false.
Proof. cbv zeta. repeat split; vm_compute; reflexivity. Qed.

(** On the other side of the rounding threshold the wrap is as intended:
    [-0.25] becomes [0.75]. *)
Example setCenter_quarter (z : TemplateZone) :
  center (setCenter z (S754_finite true 8388608 (-25), S754_finite false 12582912 (-23)))
  = (S754_finite false 12582912 (-24), S754_finite false 8388608 (-24)).
Proof. vm_compute. reflexivity. Qed.

(** ** Nearest-object distances (updateDistances) *)

Section UpdateDistances.

Variable p : Position.

Lemma updateDistanceAt_same g tile :
  getNearestObjectDistance (updateDistanceAt p g tile) tile
  = F32.min (F32.of_Z (distanceSquared p tile)) (getNearestObjectDistance g tile).
Proof.
  unfold updateDistanceAt, setNearestObjectDistance, getNearestObjectDistance.
  simpl. rewrite fupd_same. reflexivity.
Qed.

Lemma updateDistanceAt_other g tile t :
  t <> tile -> tiles (updateDistanceAt p g tile) t = tiles g t.
Proof.
  intros H. unfold updateDistanceAt, setNearestObjectDistance. simpl.
  apply fupd_other; assumption.
Qed.

Lemma updateDistanceAt_frame g tile t :
  occupied (tiles (updateDistanceAt p g tile) t) = occupied (tiles g t)
  /\ road (tiles (updateDistanceAt p g tile) t) = road (tiles g t)
  /\ zoneId (tiles (updateDistanceAt p g tile) t) = zoneId (tiles g t).
Proof.
  unfold updateDistanceAt, setNearestObjectDistance, fupd. simpl.
  destruct (Position_eqb t tile) eqn:E; simpl; auto.
  apply Position_eqb_eq in E. subst. auto.
Qed.

Lemma fold_updateDistanceAt_distance (l : list Position) : forall g t,
  NoDup l ->
  getNearestObjectDistance (fold_left (updateDistanceAt p) l g) t
  = if decide (t ∈ l)
    then F32.min (F32.of_Z (distanceSquared p t)) (getNearestObjectDistance g t)
    else getNearestObjectDistance g t.
Proof.
  induction l as [|a l IH]; intros g t Hnd; simpl.
  - destruct (decide (t ∈ [])) as [Hin|_]; [inversion Hin | reflexivity].
  - apply NoDup_cons in Hnd as [Ha Hnd]. rewrite (IH _ _ Hnd).
    destruct (decide (t = a)) as [->|Hne].
    + destruct (decide (a ∈ l)); [contradiction|].
      destruct (decide (a ∈ a :: l)) as [_|Hn]; [|exfalso; apply Hn; left].
      apply updateDistanceAt_same.
    + assert (Hd : getNearestObjectDistance (updateDistanceAt p g a) t
                   = getNearestObjectDistance g t).
      { unfold getNearestObjectDistance.
        rewrite (updateDistanceAt_other g a t Hne). reflexivity. }
      rewrite Hd.
      destruct (decide (t ∈ l)) as [Hin|Hnin];
        destruct (decide (t ∈ a :: l)) as [Hin'|Hnin']; try reflexivity.
      * exfalso; apply Hnin'; right; assumption.
      * exfalso. apply elem_of_cons in Hin' as [?|?]; contradiction.
Qed.

Lemma fold_updateDistanceAt_frame (l : list Position) : forall g t,
  occupied (tiles (fold_left (updateDistanceAt p) l g) t) = occupied (tiles g t)
  /\ road (tiles (fold_left (updateDistanceAt p) l g) t) = road (tiles g t)
  /\ zoneId (tiles (fold_left (updateDistanceAt p) l g) t) = zoneId (tiles g t).
Proof.
  induction l as [|a l IH]; intros g t; simpl; [auto|].
  destruct (IH (updateDistanceAt p g a) t) as (H1 & H2 & H3).
  destruct (updateDistanceAt_frame g a t) as (F1 & F2 & F3).
  rewrite H1, H2, H3. auto.
Qed.

Lemma fold_updateDistanceAt_generator (l : list Position) : forall g,
  let g' := fold_left (updateDistanceAt p) l g in
  mapSize g' = mapSize g /\ mapTiles g' = mapTiles g
  /\ mapElements g' = mapElements g /\ objects g' = objects g
  /\ randomGenerator g' = randomGenerator g.
Proof.
  induction l as [|a l IH]; intros g; simpl; [auto 6|].
  destruct (IH (updateDistanceAt p g a)) as (H1 & H2 & H3 & H4 & H5).
  simpl in *. rewrite H1, H2, H3, H4, H5. auto 6.
Qed.

End UpdateDistances.

(** C6, as the code has it: [updateDistances(pos)] lowers the nearest-object
    distance of the tiles of the zone's [possibleTiles] to the minimum of the
    previous distance and the squared distance from [pos]; every other tile of
    the grid keeps its distance. Occupancy, road flags and zone ids are left
    alone. *)
Theorem updateDistances_possibleTiles_only (z : TemplateZone) (p t : Position) :
  let g := mapGenerator z in
  let g' := mapGenerator (updateDistances z p) in
  getNearestObjectDistance g' t
  = (if decide (t ∈ possibleTiles z)
     then F32.min (F32.of_Z (distanceSquared p t)) (getNearestObjectDistance g t)
     else getNearestObjectDistance g t)
  /\ occupied (tiles g' t) = occupied (tiles g t)
  /\ road (tiles g' t) = road (tiles g t)
  /\ zoneId (tiles g' t) = zoneId (tiles g t)
  /\ possibleTiles (updateDistances z p) = possibleTiles z.
Proof.
  cbv zeta. unfold updateDistances. simpl. split.
  - rewrite fold_updateDistanceAt_distance by apply NoDup_elements.
    destruct (decide (t ∈ elements (possibleTiles z))) as [H|H];
      destruct (decide (t ∈ possibleTiles z)) as [H'|H']; try reflexivity;
      exfalso; rewrite elem_of_elements in H; contradiction.
  - destruct (fold_updateDistanceAt_frame p (elements (possibleTiles z))
                (mapGenerator z) t) as (H1 & H2 & H3). auto.
Qed.

(** C6 as stated fails on a tile that is not in [possibleTiles]: on a 3x3 map
    whose zone has the single possible tile (2, 2), the in-map tile (1, 1)
    keeps the distance [+infinity] after [updateDistances((0, 0))], although
    its squared distance to (0, 0) is 2. *)
Lemma updateDistances_skips_other_tiles :
  let z := blankZone 3 1 [(2, 2)] in
  isInTheMap (mapGenerator z) (1, 1) = true
  /\ getNearestObjectDistance (mapGenerator (updateDistances z (0, 0))) (1, 1)
     = F32.infinity
  /\ F32.min (F32.of_Z (distanceSquared (0, 0) (1, 1)))
       (getNearestObjectDistance (mapGenerator z) (1, 1)) = F32.of_Z 2
  /\ getNearestObjectDistance (mapGenerator (updateDistances z (0, 0))) (1, 1)
     <> F32.min (F32.of_Z (distanceSquared (0, 0) (1, 1)))
          (getNearestObjectDistance (mapGenerator z) (1, 1)).
Proof. cbv zeta. repeat split; vm_compute; congruence. Qed.

(** ** Zone border (createBorder) *)

Section CreateBorder.

Variable z : TemplateZone.

Lemma neighbors_ext g g' t : mapSize g' = mapSize g -> neighbors g' t = neighbors g t.
Proof.
  intros Hs. unfold neighbors. apply List.filter_ext.
  intros q. unfold isInTheMap. rewrite Hs. reflexivity.
Qed.

Lemma isBorderTile_ext g g' t :
  mapSize g' = mapSize g ->
  (forall q, zoneId (tiles g' q) = zoneId (tiles g q)) ->
  isBorderTile z g' t = isBorderTile z g t.
Proof.
  intros Hs Hz. unfold isBorderTile. rewrite (neighbors_ext g g' t Hs).
  unfold getZoneId.
  generalize false. induction (neighbors g t) as [|q l IH]; intros b; simpl.
  - reflexivity.
  - rewrite Hz. apply IH.
Qed.

Lemma setOccupied_occupied g p s q :
  occupied (tiles (setOccupied g p s) q)
  = if Position_eqb q p then s else occupied (tiles g q).
Proof.
  unfold setOccupied, fupd. simpl. destruct (Position_eqb q p); reflexivity.
Qed.

Lemma setOccupied_zoneId g p s q :
  zoneId (tiles (setOccupied g p s) q) = zoneId (tiles g q).
Proof.
  unfold setOccupied, fupd. simpl. destruct (Position_eqb q p) eqn:E; simpl; auto.
  apply Position_eqb_eq in E. subst. reflexivity.
Qed.

Lemma createBorderAt_mapSize g a : mapSize (createBorderAt z g a) = mapSize g.
Proof.
  unfold createBorderAt.
  destruct (isBorderTile z g a), (isPossible g a), (borderType z); simpl; try reflexivity.
  destruct (Random.chance _ _). reflexivity.
Qed.

Lemma createBorderAt_zoneId g a q :
  zoneId (tiles (createBorderAt z g a) q) = zoneId (tiles g q).
Proof.
  unfold createBorderAt.
  destruct (isBorderTile z g a), (isPossible g a), (borderType z);
    try reflexivity; try (rewrite setOccupied_zoneId; reflexivity).
  destruct (Random.chance _ _). rewrite setOccupied_zoneId. reflexivity.
Qed.

Lemma createBorderAt_other g a q :
  q <> a -> occupied (tiles (createBorderAt z g a) q) = occupied (tiles g q).
Proof.
  intros Hne. apply Position_eqb_neq in Hne. unfold createBorderAt.
  destruct (isBorderTile z g a), (isPossible g a), (borderType z);
    try reflexivity; try (rewrite setOccupied_occupied, Hne; reflexivity).
  destruct (Random.chance _ _). rewrite setOccupied_occupied, Hne. reflexivity.
Qed.

Lemma createBorderAt_here g a :
  (isBorderTile z g a = true -> isPossible g a = true ->
   borderOutcome (borderType z) (occupied (tiles (createBorderAt z g a) a)))
  /\ (isBorderTile z g a && isPossible g a = false ->
      occupied (tiles (createBorderAt z g a) a) = occupied (tiles g a)).
Proof.
  unfold createBorderAt. split.
  - intros -> ->. destruct (borderType z); unfold borderOutcome;
      try (rewrite setOccupied_occupied, Position_eqb_refl; reflexivity).
    destruct (Random.chance _ _) as [gap r].
    rewrite setOccupied_occupied, Position_eqb_refl. destruct gap; auto.
  - intros H. destruct (isBorderTile z g a); [|reflexivity].
    destruct (isPossible g a); [discriminate | reflexivity].
Qed.

Lemma borderOutcome_not_possible b s : borderOutcome b s -> s <> Possible.
Proof. destruct b; simpl; intros H; [| | |destruct H]; subst; discriminate. Qed.

(** The loop, tile by tile: a tile of the list that is a possible border tile
    ends as its border type says, every other tile keeps its state. *)
Lemma fold_createBorderAt (l : list Position) : forall g t,
  let g' := fold_left (createBorderAt z) l g in
  (t ∈ l -> isBorderTile z g t = true -> isPossible g t = true ->
   borderOutcome (borderType z) (occupied (tiles g' t)))
  /\ (~ (t ∈ l /\ isBorderTile z g t = true /\ isPossible g t = true) ->
      occupied (tiles g' t) = occupied (tiles g t)).
Proof.
  induction l as [|a l IH]; intros g t; cbv zeta; simpl.
  - split; [intros H; inversion H | reflexivity].
  - pose proof (createBorderAt_mapSize g a) as Hs.
    pose proof (createBorderAt_zoneId g a) as Hz.
    pose proof (isBorderTile_ext g (createBorderAt z g a) t Hs Hz) as Hb.
    destruct (IH (createBorderAt z g a) t) as [IH1 IH2]. cbv zeta in IH1, IH2.
    destruct (decide (t = a)) as [->|Hne].
    + destruct (createBorderAt_here g a) as [Hh1 Hh2]. split.
      * intros _ Hbt Hp. specialize (Hh1 Hbt Hp).
        rewrite IH2; [exact Hh1|].
        intros (_ & _ & Hp'). apply borderOutcome_not_possible in Hh1.
        unfold isPossible in Hp'. apply TileType_eqb_eq in Hp'. contradiction.
      * intros Hn.
        assert (Hf : isBorderTile z g a && isPossible g a = false).
        { destruct (isBorderTile z g a) eqn:E1, (isPossible g a) eqn:E2; auto.
          exfalso. apply Hn. repeat split; auto. left. }
        rewrite IH2; [apply Hh2; exact Hf|].
        intros (_ & Hb' & Hp'). rewrite Hb in Hb'.
        unfold isPossible in Hp'. rewrite (Hh2 Hf) in Hp'.
        fold (isPossible g a) in Hp'. rewrite Hb', Hp' in Hf. discriminate.
    + pose proof (createBorderAt_other g a t Hne) as Ho.
      assert (Hp : isPossible (createBorderAt z g a) t = isPossible g t).
      { unfold isPossible. rewrite Ho. reflexivity. }
      rewrite Hb, Hp in IH1, IH2. rewrite <- Ho. split.
      * intros Hin. apply elem_of_cons in Hin as [?|Hin]; [contradiction|]. auto.
      * intros Hn. apply IH2. intros (Hin & ? & ?). apply Hn.
        repeat split; auto. right. exact Hin.
Qed.

End CreateBorder.

(** C7, as the code has it: [createBorder] only touches the border tiles of
    the zone that are [Possible]. Such a tile becomes [Blocked] under a closed
    border, [Free] under an open or a water border, and one of the two under
    a semi-open border; every other tile, a border tile that was already
    [Free], [Blocked] or [Used] included, keeps its state. *)
Theorem createBorder_changes_possible_border_tiles (z : TemplateZone) (t : Position) :
  let g := mapGenerator z in
  let g' := mapGenerator (createBorder z) in
  (t ∈ tileInfo z -> isBorderTile z g t = true -> isPossible g t = true ->
   borderOutcome (borderType z) (occupied (tiles g' t)))
  /\ (~ (t ∈ tileInfo z /\ isBorderTile z g t = true /\ isPossible g t = true) ->
      occupied (tiles g' t) = occupied (tiles g t)).
Proof. cbv zeta. unfold createBorder. simpl. apply fold_createBorderAt. Qed.

(** C7 read on a closed or an open border: a border tile of the zone that is
    [Free] after [createBorder] with a closed border was [Free] before, and
    one that is [Blocked] after [createBorder] with an open border was
    [Blocked] before; no border tile of the zone is left [Possible]. *)
Corollary createBorder_closed_open (z : TemplateZone) (t : Position) :
  let g := mapGenerator z in
  let g' := mapGenerator (createBorder z) in
  t ∈ tileInfo z -> isBorderTile z g t = true ->
  (borderType z = BorderClosed -> occupied (tiles g' t) = Free ->
   occupied (tiles g t) = Free)
  /\ (borderType z = BorderOpen -> occupied (tiles g' t) = Blocked ->
      occupied (tiles g t) = Blocked)
  /\ occupied (tiles g' t) <> Possible.
Proof.
  cbv zeta. intros Hin Hb. unfold createBorder. simpl.
  destruct (fold_createBorderAt z (tileInfo z) (mapGenerator z) t) as [H1 H2].
  cbv zeta in H1, H2.
  destruct (isPossible (mapGenerator z) t) eqn:Hp.
  - specialize (H1 Hin Hb eq_refl). repeat split.
    + intros Hc Hf. rewrite Hc in H1. unfold borderOutcome in H1. congruence.
    + intros Hc Hf. rewrite Hc in H1. unfold borderOutcome in H1. congruence.
    + eapply borderOutcome_not_possible; eauto.
  - rewrite H2 by (intros (_ & _ & ?); discriminate). repeat split; auto.
    intros Hq. unfold isPossible in Hp. rewrite Hq in Hp. discriminate.
Qed.

(** C7 as stated fails on border tiles that are not [Possible] when
    [createBorder] runs. The tile (1, 1) of zone 1 has the neighbour (2, 1) in
    zone 2. Carved [Free] beforehand it is still [Free] after [createBorder]
    with a closed border; [Blocked] beforehand it is still [Blocked] after
    [createBorder] with an open border. *)
Lemma createBorder_keeps_free_and_blocked_tiles :
  ((1, 1) ∈ tileInfo (borderZone BorderClosed Free)
   /\ isBorderTile (borderZone BorderClosed Free)
        (mapGenerator (borderZone BorderClosed Free)) (1, 1) = true
   /\ occupied (tiles (mapGenerator (createBorder (borderZone BorderClosed Free)))
                  (1, 1)) = Free)
  /\ ((1, 1) ∈ tileInfo (borderZone BorderOpen Blocked)
      /\ isBorderTile (borderZone BorderOpen Blocked)
           (mapGenerator (borderZone BorderOpen Blocked)) (1, 1) = true
      /\ occupied (tiles (mapGenerator (createBorder (borderZone BorderOpen Blocked)))
                     (1, 1)) = Blocked).
Proof.
  repeat split; try (vm_compute; reflexivity);
    simpl; repeat (try (left; fail); right); left.
Qed.

(** A run of the amended statement: under a closed border the possible border
    tile (1, 0) of [borderZone] becomes [Blocked]. *)
Lemma createBorder_changes_possible_border_tiles_witness :
  borderOutcome BorderClosed
    (occupied (tiles (mapGenerator (createBorder (borderZone BorderClosed Free))) (1, 0))).
Proof.
  apply (proj1 (createBorder_changes_possible_border_tiles
                  (borderZone BorderClosed Free) (1, 0))).
  - simpl. right. right. right. left.
  - vm_compute. reflexivity.
  - vm_compute. reflexivity.
Defined.

(** ** Placing objects (placeObject) *)

Lemma markUsed_occupied (l : list Position) : forall g t,
  occupied (tiles (markUsed g l) t)
  = if bool_decide (t ∈ l) then Used else occupied (tiles g t).
Proof.
  unfold markUsed. induction l as [|a l IH]; intros g t; simpl.
  - reflexivity.
  - rewrite IH, setOccupied_occupied.
    destruct (bool_decide (t ∈ l)) eqn:E1.
    + apply bool_decide_eq_true_1 in E1.
      rewrite bool_decide_eq_true_2; [reflexivity | right; exact E1].
    + apply bool_decide_eq_false_1 in E1.
      destruct (Position_eqb t a) eqn:E2.
      * apply Position_eqb_eq in E2. subst.
        rewrite bool_decide_eq_true_2; [reflexivity | left].
      * apply Position_eqb_neq in E2.
        rewrite bool_decide_eq_false_2; [reflexivity|].
        intros H. apply elem_of_cons in H as [?|?]; contradiction.
Qed.

Lemma paintUsed_occupied (terrainType : TerrainType) (l : list Position) : forall g t,
  occupied (tiles (fold_left (fun g tile =>
      paintTerrain (setOccupied g tile Used) tile terrainType Plain) l g) t)
  = occupied (tiles (markUsed g l) t).
Proof.
  unfold markUsed. induction l as [|a l IH]; intros g t; simpl; [reflexivity|].
  rewrite IH. fold (markUsed (paintTerrain (setOccupied g a Used) a terrainType Plain) l).
  fold (markUsed (setOccupied g a Used) l). rewrite !markUsed_occupied. reflexivity.
Qed.

Lemma gapTiles_keep_blocked (blockedTiles l : list Position) : forall g t,
  t ∈ blockedTiles ->
  occupied (tiles (fold_left (fun g tile =>
      if bool_decide (tile ∈ blockedTiles) then g
      else if negb (isInTheMap g tile) then g
      else setOccupied g tile Free) l g) t)
  = occupied (tiles g t).
Proof.
  induction l as [|a l IH]; intros g t Hin; simpl; [reflexivity|].
  rewrite IH by exact Hin.
  destruct (bool_decide (a ∈ blockedTiles)) eqn:E; [reflexivity|].
  destruct (negb (isInTheMap g a)); [reflexivity|].
  rewrite setOccupied_occupied.
  destruct (Position_eqb t a) eqn:E2; [|reflexivity].
  apply Position_eqb_eq in E2. subst. apply bool_decide_eq_false_1 in E. contradiction.
Qed.

Lemma commitObject_spec z o upd rn :
  let z' := commitObject z o upd rn in
  (forall t, occupied (tiles (mapGenerator z') t) = occupied (tiles (mapGenerator z) t))
  /\ objects (mapGenerator z') !! objectId o = Some o
  /\ (objectId o, element o) ∈ mapElements (mapGenerator z').
Proof.
  cbv zeta. unfold commitObject, insertObject, insertMapElement. simpl.
  repeat split.
  - intros t. destruct upd, rn; simpl; try reflexivity;
      apply (fold_updateDistanceAt_frame (position (element o))).
  - apply lookup_insert_eq.
  - left.
Qed.

Ltac place_simpl := cbn [negb orb andb fst snd threw].

(** The tiles marked for an element placed at [p]: its footprint and its
    entrance. *)
Lemma blockedAndEntrance_covers (e : MapElement) (p : Position) :
  (forall offset, offset ∈ blockedOffsets e ->
     padd p offset ∈ blockedAndEntrance (setPosition e p))
  /\ padd p (entranceOffset e) ∈ blockedAndEntrance (setPosition e p).
Proof.
  unfold blockedAndEntrance, getBlockedPositions, getEntrance.
  cbn [position blockedOffsets entranceOffset setPosition]. split.
  - intros offset Hin. apply elem_of_app. left.
    apply list_elem_of_In, in_map, list_elem_of_In, Hin.
  - apply elem_of_app. right. left.
Qed.

Lemma placeObject_positionOnly_contract :
  placeObjectContract false placeObject_positionOnly.
Proof.
  intros z o p upd. cbv zeta. unfold placeObject_positionOnly.
  destruct (blockedAndEntrance_covers (element o) p) as [Hb He'].
  destruct (isInTheMap (mapGenerator z) p) eqn:Hp; place_simpl.
  - split; [reflexivity|]. split; [discriminate|]. intros _.
    match goal with
    | |- context [commitObject ?zz ?oo upd false] =>
        destruct (commitObject_spec zz oo upd false) as (Ho & Hs & Hm)
    end.
    cbv zeta in Ho, Hs, Hm. cbn [mapGenerator withGenerator element withElement] in Ho.
    split; [|split; [|split; [exact Hs | exact Hm]]].
    + intros offset Hin. rewrite Ho, markUsed_occupied, bool_decide_eq_true_2; auto.
    + rewrite Ho, markUsed_occupied, bool_decide_eq_true_2; auto.
  - split; [reflexivity|]. split; [reflexivity | discriminate].
Qed.

Lemma placeObject_withEntrance_contract (rn : bool) :
  placeObjectContract true (placeObject_withEntrance rn).
Proof.
  intros z o p upd. cbv zeta. unfold placeObject_withEntrance.
  destruct (blockedAndEntrance_covers (element o) p) as [Hb He'].
  destruct (isInTheMap (mapGenerator z) p) eqn:Hp; place_simpl.
  - cbn [element withElement].
    change (getEntrance (setPosition (element o) p))
      with (padd p (entranceOffset (element o))).
    destruct (isInTheMap (mapGenerator z) (padd p (entranceOffset (element o))))
      eqn:He; place_simpl.
    + split; [reflexivity|]. split; [discriminate|]. intros _.
      match goal with
      | |- context [commitObject ?zz ?oo upd rn] =>
          destruct (commitObject_spec zz oo upd rn) as (Ho & Hs & Hm)
      end.
      cbv zeta in Ho, Hs, Hm. cbn [mapGenerator withGenerator element withElement] in Ho.
      split; [|split; [|split; [exact Hs | exact Hm]]].
      * intros offset Hin. rewrite Ho, markUsed_occupied, bool_decide_eq_true_2; auto.
      * rewrite Ho, markUsed_occupied, bool_decide_eq_true_2; auto.
    + split; [reflexivity|]. split; [reflexivity | discriminate].
  - split; [reflexivity|]. split; [reflexivity | discriminate].
Qed.

Lemma placeObject_Fortification_contract (terrainType : TerrainType) :
  placeObjectContract true
    (fun z o p upd => placeObject_Fortification z o p terrainType upd).
Proof.
  intros z o p upd. cbv zeta. unfold placeObject_Fortification.
  destruct (blockedAndEntrance_covers (element o) p) as [Hb He'].
  destruct (isInTheMap (mapGenerator z) p) eqn:Hp; place_simpl.
  - cbn [element withElement].
    change (getEntrance (setPosition (element o) p))
      with (padd p (entranceOffset (element o))).
    destruct (isInTheMap (mapGenerator z) (padd p (entranceOffset (element o))))
      eqn:He; place_simpl.
    + split; [reflexivity|]. split; [discriminate|]. intros _.
      match goal with
      | |- context [commitObject ?zz ?oo upd true] =>
          destruct (commitObject_spec zz oo upd true) as (Ho & Hs & Hm);
          assert (Hused : forall tile,
                    tile ∈ blockedAndEntrance (setPosition (element o) p) ->
                    occupied (tiles (mapGenerator (commitObject zz oo upd true)) tile)
                    = Used)
      end.
      { intros tile Hin. cbv zeta in Ho. rewrite Ho.
        cbn [mapGenerator withGenerator element withElement].
        destruct (0 <? gapMaskOf (withElement o (setPosition (element o) p))).
        - rewrite gapTiles_keep_blocked by exact Hin.
          rewrite paintUsed_occupied, markUsed_occupied, bool_decide_eq_true_2; auto.
        - rewrite paintUsed_occupied, markUsed_occupied, bool_decide_eq_true_2; auto. }
      cbv zeta in Hs, Hm.
      split; [|split; [|split; [exact Hs | exact Hm]]].
      * intros offset Hin. apply Hused, Hb, Hin.
      * apply Hused, He'.
    + split; [reflexivity|]. split; [reflexivity | discriminate].
  - split; [reflexivity|]. split; [reflexivity | discriminate].
Qed.

(** C10. Every [placeObject] overload tests its preconditions first: it
    throws exactly when the position lies outside the map or, for
    fortifications, ruins, sites and landmarks, when the entrance of the
    object at that position does; a throwing call leaves the zone and its
    generator (occupancy grid, map-element index, object store) as they were.
    A call that does not throw leaves the tile at every blocked offset of the
    element from the position, and the tile at its entrance offset, [Used],
    the element with its new position in the index and the object in the
    store. *)
Theorem placeObject_checks_before_mutation :
  (forall terrainType,
     placeObjectContract true
       (fun z o p upd => placeObject_Fortification z o p terrainType upd))
  /\ placeObjectContract false placeObject_Stack
  /\ placeObjectContract false placeObject_Crystal
  /\ placeObjectContract true placeObject_Ruin
  /\ placeObjectContract true placeObject_Site
  /\ placeObjectContract false placeObject_Bag
  /\ placeObjectContract true placeObject_Landmark.
Proof.
  split; [exact placeObject_Fortification_contract|].
  split; [exact placeObject_positionOnly_contract|].
  split; [exact placeObject_positionOnly_contract|].
  split; [exact (placeObject_withEntrance_contract false)|].
  split; [exact (placeObject_withEntrance_contract true)|].
  split; [exact placeObject_positionOnly_contract|].
  exact (placeObject_withEntrance_contract false).
Qed.

(** ** The order of binary32 numbers *)

Lemma SFltb_irrefl (x : f32) : SFltb x x = false.
Proof.
  unfold SFltb, SFcompare. destruct x as [s|s| |s m e]; try destruct s; try reflexivity.
  - rewrite Z.compare_refl.
    change (Pos.compare_cont Eq m m) with (Pos.compare m m).
    rewrite Pos.compare_refl. reflexivity.
  - rewrite Z.compare_refl.
    change (Pos.compare_cont Eq m m) with (Pos.compare m m).
    rewrite Pos.compare_refl. reflexivity.
Qed.

Ltac float_order_cases :=
  repeat match goal with
  | H : context [Z.compare ?a ?b] |- _ => destruct (Z.compare_spec a b); subst
  | |- context [Z.compare ?a ?b] => destruct (Z.compare_spec a b); subst
  | H : context [Pos.compare ?a ?b] |- _ => destruct (Pos.compare_spec a b); subst
  | |- context [Pos.compare ?a ?b] => destruct (Pos.compare_spec a b); subst
  end.

Lemma SFltb_trans (a b c : f32) :
  SFltb a b = true -> SFltb b c = true -> SFltb a c = true.
Proof.
  unfold SFltb, SFcompare.
  destruct a as [sa|sa| |sa ma ea], b as [sb|sb| |sb mb eb], c as [sc|sc| |sc mc ec];
    try destruct sa; try destruct sb; try destruct sc;
    try reflexivity; try discriminate;
    change Pos.compare_cont with (fun r x y => Pos.compare_cont r x y);
    cbv beta;
    repeat match goal with
    | |- context [Pos.compare_cont Eq ?x ?y] =>
        change (Pos.compare_cont Eq x y) with (Pos.compare x y)
    end;
    intros H1 H2; float_order_cases; simpl in *;
    try reflexivity; try discriminate; try lia.
Qed.

(** ** Placement search (findPlaceForObject) *)

Section FindPlace.

Variable z : TemplateZone.
Variable e : MapElement.
Variable minDistance : Z.
Variable findAccessible : bool.

Let dist (t : Position) : f32 := getNearestObjectDistance (mapGenerator z) t.

(** What an iteration does, by cases on [placeCandidate] and on the
    comparison with the best distance so far. *)
Lemma findPlaceStep_cases st tile :
  (placeCandidate z e minDistance findAccessible tile = true
   /\ F32.gtb (dist tile) (bestDistance st) = true
   /\ findPlaceStep z e minDistance findAccessible st tile
      = {| bestDistance := dist tile; foundPosition := tile; found := true |})
  \/ ((placeCandidate z e minDistance findAccessible tile = false
       \/ F32.gtb (dist tile) (bestDistance st) = false)
      /\ findPlaceStep z e minDistance findAccessible st tile = st)
  \/ (F32.gtb (dist tile) F32.zero = false
      /\ F32.gtb (dist tile) (bestDistance st) = true
      /\ findPlaceStep z e minDistance findAccessible st tile
         = {| bestDistance := dist tile; foundPosition := tile; found := true |}).
Proof.
  unfold findPlaceStep, placeCandidate, statedConstraints, dist.
  destruct (isAtTheBorderElem (mapGenerator z) e tile); simpl; [auto|].
  destruct findAccessible; simpl.
  - destruct (isAccessibleFromSomewhere z e tile); simpl; [|auto].
    destruct (isEntranceAccessible z e tile); simpl; [|auto].
    destruct (isPossible (mapGenerator z) tile); simpl;
      [|rewrite andb_false_r; auto].
    destruct (F32.geb _ _); simpl; [|rewrite andb_false_r; auto].
    destruct (F32.gtb _ (bestDistance st)) eqn:Hb; simpl; [|auto].
    destruct (areAllTilesAvailable z e tile (blockedOffsets e)); simpl;
      [|rewrite andb_false_r; auto].
    destruct (F32.gtb _ F32.zero) eqn:Hz; simpl; auto.
  - destruct (isPossible (mapGenerator z) tile); simpl;
      [|rewrite andb_false_r; auto].
    destruct (F32.geb _ _); simpl; [|rewrite andb_false_r; auto].
    destruct (F32.gtb _ (bestDistance st)) eqn:Hb; simpl; [|auto].
    destruct (areAllTilesAvailable z e tile (blockedOffsets e)); simpl;
      [|rewrite andb_false_r; auto].
    destruct (F32.gtb _ F32.zero) eqn:Hz; simpl; auto.
Qed.

(** The loop invariant: the best distance is never below zero's rank; once a
    place is found it is a candidate of the tiles seen, it holds the best
    distance, and no candidate seen lies strictly farther from the nearest
    object; until then no tile seen is a candidate. *)
Definition findInvariant (p0 : Position) (seen : list Position) (st : FindState) : Prop :=
  F32.ltb (bestDistance st) F32.zero = false
  /\ (found st = true ->
      foundPosition st ∈ seen
      /\ placeCandidate z e minDistance findAccessible (foundPosition st) = true
      /\ bestDistance st = dist (foundPosition st))
  /\ (found st = false -> bestDistance st = F32.zero /\ foundPosition st = p0)
  /\ (forall t, t ∈ seen -> placeCandidate z e minDistance findAccessible t = true ->
      found st = true /\ F32.ltb (bestDistance st) (dist t) = false).

Lemma findInvariant_step p0 seen st tile :
  findInvariant p0 seen st ->
  findInvariant p0 (seen ++ [tile]) (findPlaceStep z e minDistance findAccessible st tile).
Proof.
  intros (Hz & Hf & Hn & Hall).
  assert (Hgt0 : forall d, F32.gtb d (bestDistance st) = true -> F32.gtb d F32.zero = false
                 -> False).
  { unfold F32.gtb, F32.ltb. intros d H1 H2.
    destruct (found st) eqn:Hfd.
    - destruct (SFltb F32.zero (bestDistance st)) eqn:Hzb.
      + rewrite (SFltb_trans _ _ _ Hzb H1) in H2. discriminate.
      + (* the best distance is a candidate's distance, which exceeds zero *)
        destruct (Hf eq_refl) as (_ & Hc & Hb).
        unfold placeCandidate in Hc. rewrite !andb_true_iff in Hc.
        destruct Hc as [[_ Hc] _]. unfold F32.gtb, F32.ltb in Hc.
        rewrite Hb in Hzb. fold (dist (foundPosition st)) in Hc. congruence.
    - destruct (Hn eq_refl) as [Hb _]. rewrite Hb in H1. congruence. }
  destruct (findPlaceStep_cases st tile) as
    [(Hc & Hb & ->) | [(Hor & ->) | (H0 & Hb & _)]].
  - (* the tile is taken *)
    unfold findInvariant. cbn [bestDistance foundPosition found].
    split; [|split; [|split]].
    + unfold F32.gtb, F32.ltb in *.
      destruct (SFltb (dist tile) F32.zero) eqn:Hlt; [|reflexivity].
      exfalso. pose proof (SFltb_trans _ _ _ Hb Hlt) as Ht. congruence.
    + intros _. split; [apply elem_of_app; right; left|]. split; [exact Hc|reflexivity].
    + discriminate.
    + intros t Hin Hct. split; [reflexivity|].
      destruct (decide (t = tile)) as [->|Hne]; [apply SFltb_irrefl|].
      apply elem_of_app in Hin as [Hin|Hin];
        [|apply list_elem_of_singleton in Hin; contradiction].
      destruct (Hall t Hin Hct) as [_ Hle].
      unfold F32.gtb, F32.ltb in *.
      destruct (SFltb (dist tile) (dist t)) eqn:Hlt; [|reflexivity].
      rewrite (SFltb_trans _ _ _ Hb Hlt) in Hle. discriminate.
  - (* the tile is passed over *)
    unfold findInvariant. split; [exact Hz|]. split; [|split].
    + intros Hfd. destruct (Hf Hfd) as (Hin & ? & ?).
      split; [apply elem_of_app; left; exact Hin|]. split; assumption.
    + exact Hn.
    + intros t Hin Hct.
      apply elem_of_app in Hin as [Hin|Hin]; [apply (Hall t Hin Hct)|].
      apply list_elem_of_singleton in Hin. subst t.
      destruct Hor as [Hc|Hb]; [congruence|].
      destruct (found st) eqn:Hfd; [split; [reflexivity | exact Hb]|].
      exfalso. destruct (Hn eq_refl) as [Hb0 _]. rewrite Hb0 in Hb.
      unfold placeCandidate in Hct. rewrite !andb_true_iff in Hct.
      destruct Hct as [[_ Hct] _]. fold (dist tile) in Hct. congruence.
  - exfalso. eapply Hgt0; eauto.
Qed.

Lemma findInvariant_fold p0 (l : list Position) : forall seen st,
  findInvariant p0 seen st ->
  findInvariant p0 (seen ++ l)
    (fold_left (findPlaceStep z e minDistance findAccessible) l st).
Proof.
  induction l as [|a l IH]; intros seen st H; simpl.
  - rewrite app_nil_r. exact H.
  - replace (seen ++ a :: l) with ((seen ++ [a]) ++ l)
      by (rewrite <- app_assoc; reflexivity).
    apply IH. apply findInvariant_step. exact H.
Qed.

Lemma findInvariant_init p0 :
  findInvariant p0 []
    {| bestDistance := F32.zero; foundPosition := p0; found := false |}.
Proof.
  unfold findInvariant. cbn [bestDistance foundPosition found].
  split; [reflexivity|]. split; [discriminate|]. split; [auto|].
  intros t Hin. inversion Hin.
Qed.

End FindPlace.

(** C2, as the code has it. When [findPlaceForObject] returns true, the
    position it leaves is a tile of the area that is [Possible], whose
    nearest-object distance [d] is at least [minDistance] and strictly
    positive, whose blocked-offset tiles are all in the map, [Possible] and in
    the zone, at which the element does not touch the map border and, when
    [findAccessible] is set, is accessible with an accessible entrance; and no
    tile of the area under the same constraints has a strictly greater
    distance. It returns false exactly when no tile of the area meets these
    constraints, and then leaves the position as it was. *)
Theorem findPlaceForObject_farthest_candidate (z : TemplateZone)
    (area : list Position) (e : MapElement) (minDistance : Z) (p0 : Position)
    (findAccessible : bool) :
  let r := findPlaceForObject z area e minDistance p0 findAccessible in
  let d := getNearestObjectDistance (mapGenerator z) in
  (fst r = true ->
     snd r ∈ area
     /\ placeCandidate z e minDistance findAccessible (snd r) = true
     /\ forall t, t ∈ area -> placeCandidate z e minDistance findAccessible t = true ->
          F32.ltb (d (snd r)) (d t) = false)
  /\ (fst r = false <->
      forall t, t ∈ area -> placeCandidate z e minDistance findAccessible t = false)
  /\ (fst r = false -> snd r = p0).
Proof.
  cbv zeta. unfold findPlaceForObject. cbn [fst snd].
  pose proof (findInvariant_fold z e minDistance findAccessible p0 area []
                _ (findInvariant_init z e minDistance findAccessible p0)) as Hinv.
  rewrite app_nil_l in Hinv.
  destruct Hinv as (Hz & Hf & Hn & Hall).
  split; [|split].
  - intros Hfd. destruct (Hf Hfd) as (Hin & Hc & Hb).
    split; [exact Hin|]. split; [exact Hc|].
    intros t Ht Hct. destruct (Hall t Ht Hct) as [_ Hle].
    rewrite Hb in Hle. exact Hle.
  - split.
    + intros Hfd t Ht. destruct (placeCandidate z e minDistance findAccessible t) eqn:Hc;
        [|reflexivity].
      destruct (Hall t Ht Hc) as [Hfd' _]. congruence.
    + intros Hnone.
      match goal with |- found ?s = false => destruct (found s) eqn:Hfd end;
        [|reflexivity].
      destruct (Hf eq_refl) as (Hin & Hc & _). rewrite (Hnone _ Hin) in Hc. discriminate.
  - intros Hfd. apply (Hn Hfd).
Qed.

(** C2 as stated fails: the tile (3, 3) is [Possible], infinitely far from
    any object, and the single blocked tile of the 1x1 element placed there is
    [Possible] and in the zone; yet the default search ([findAccessible] set)
    returns false, because no tile around the entrance belongs to the zone. *)
Lemma findPlaceForObject_rejects_stated_candidate :
  (3, 3) ∈ [(3, 3)]
  /\ statedConstraints islandZone unitElement 6 (3, 3) = true
  /\ isAccessibleFromSomewhere islandZone unitElement (3, 3) = false
  /\ findPlaceForObject islandZone [(3, 3)] unitElement 6 (0, 0) true = (false, (0, 0)).
Proof.
  split; [left|]. repeat split; vm_compute; reflexivity.
Qed.

(** A run of the amended statement on a blank 7x7 map: of the two tiles
    offered, the search keeps the first that is infinitely far from any
    object. *)
Lemma findPlaceForObject_farthest_candidate_witness :
  let z := blankZone 7 1 [(2, 2); (3, 3)] in
  snd (findPlaceForObject z [(2, 2); (3, 3)] unitElement 6 (0, 0) true)
    ∈ [(2, 2); (3, 3)]
  /\ placeCandidate z unitElement 6 true
       (snd (findPlaceForObject z [(2, 2); (3, 3)] unitElement 6 (0, 0) true)) = true
  /\ forall t, t ∈ [(2, 2); (3, 3)] -> placeCandidate z unitElement 6 true t = true ->
       F32.ltb
         (getNearestObjectDistance (mapGenerator z)
            (snd (findPlaceForObject z [(2, 2); (3, 3)] unitElement 6 (0, 0) true)))
         (getNearestObjectDistance (mapGenerator z) t) = false.
Proof.
  cbv zeta.
  apply (proj1 (findPlaceForObject_farthest_candidate
                  (blankZone 7 1 [(2, 2); (3, 3)]) [(2, 2); (3, 3)]
                  unitElement 6 (0, 0) true)).
  vm_compute. reflexivity.
Defined.

(** ** Template validation *)

Section DiplomacyFacts.

Variable Relation_eqb : Relation -> Relation -> bool.

Definition badRelation (t : RelationTable) : Prop :=
  (alliance (tableRelation t) = true /\ alwaysAtWar (tableRelation t) = true)
  \/ (permanentAlliance (tableRelation t) = true /\ alliance (tableRelation t) = false).

Lemma readDiplomacyRelation_spec t :
  (badRelation t /\ exists ex, readDiplomacyRelation t = inl ex)
  \/ (~ badRelation t /\ readDiplomacyRelation t = inr (tableRelation t)).
Proof.
  unfold readDiplomacyRelation, badRelation.
  destruct (alliance (tableRelation t)), (alwaysAtWar (tableRelation t)),
    (permanentAlliance (tableRelation t)); simpl;
    first [ left; split; [tauto | eexists; reflexivity]
          | right; split; [intros [[? ?]|[? ?]]; discriminate | reflexivity] ].
Qed.

Lemma readRelations_spec (tables : list RelationTable) : forall relations,
  ((exists t, t ∈ tables /\ badRelation t)
   /\ exists ex, readRelations tables relations = inl ex)
  \/ ((forall t, t ∈ tables -> ~ badRelation t)
      /\ readRelations tables relations = inr (relations ++ map tableRelation tables)).
Proof.
  induction tables as [|t rest IH]; intros relations; simpl.
  - right. split; [intros t Hin; inversion Hin | rewrite app_nil_r; reflexivity].
  - destruct (readDiplomacyRelation_spec t) as [(Hbad & ex & ->)|(Hok & ->)].
    + left. split; [exists t; split; [left | exact Hbad] | eauto].
    + destruct (IH (relations ++ [tableRelation t])) as [((t' & Hin & Hb) & Hex)|(Hall & ->)].
      * left. split; [exists t'; split; [right; exact Hin | exact Hb] | exact Hex].
      * right. split.
        -- intros t' Hin. apply elem_of_cons in Hin as [->|Hin]; auto.
        -- rewrite <- app_assoc. reflexivity.
Qed.

Lemma findDuplicate_spec (l : list Relation) :
  (exists a, findDuplicate Relation_eqb l = Some a) <-> hasDuplicate Relation_eqb l.
Proof.
  induction l as [|a rest IH]; simpl.
  - split; [intros [? H]; discriminate|].
    intros (i & j & x & y & _ & Hi & _). destruct i; discriminate.
  - destruct (existsb (Relation_eqb a) rest) eqn:Hex.
    + split; [intros _ | eauto].
      apply existsb_exists in Hex as (b & Hin & Heq).
      apply list_elem_of_In, list_elem_of_lookup in Hin as [j Hj].
      exists 0%nat, (S j), a, b. repeat split; auto. lia.
    + rewrite IH. split.
      * intros (i & j & x & y & Hlt & Hi & Hj & Heq).
        exists (S i), (S j), x, y. repeat split; auto. lia.
      * intros (i & j & x & y & Hlt & Hi & Hj & Heq).
        destruct i as [|i].
        -- exfalso. simpl in Hi. inversion Hi; subst x.
           destruct j as [|j]; [lia|]. simpl in Hj.
           assert (Hin : In y rest).
           { apply list_elem_of_In, list_elem_of_lookup. eauto. }
           assert (Ht : existsb (Relation_eqb a) rest = true).
           { apply existsb_exists. eauto. }
           congruence.
        -- destruct j as [|j]; [lia|]. simpl in Hi, Hj.
           exists i, j, x, y. repeat split; auto. lia.
Qed.

Lemma readDiplomacy_spec tables relations :
  rejected (readDiplomacy Relation_eqb tables relations) <->
  (exists t, t ∈ tables /\ badRelation t)
  \/ hasDuplicate Relation_eqb (relations ++ map tableRelation tables).
Proof.
  unfold readDiplomacy, rejected.
  destruct (readRelations_spec tables relations) as [(Hbad & ex & ->)|(Hok & ->)].
  - split; [intros _; left; exact Hbad | eauto].
  - destruct (findDuplicate Relation_eqb (relations ++ map tableRelation tables))
      as [a|] eqn:Hd.
    + split; [intros _; right; apply findDuplicate_spec; eauto | eauto].
    + split; [intros [ex Hex]; discriminate|].
      intros [(t & Hin & Hb)|Hdup]; [exfalso; eapply Hok; eauto|].
      apply findDuplicate_spec in Hdup as [a Ha]. congruence.
Qed.

End DiplomacyFacts.


(** ** Pickers *)

Lemma pick_Some {A : Type} (catalog : list A) filters r x :
  fst (pick catalog filters r) = Some x ->
  In x catalog /\ accepted filters x = true.
Proof.
  unfold pick. intros H. apply getRandomElement_In in H.
  apply List.filter_In in H. exact H.
Qed.

Lemma accepted_In {A : Type} (filters : list (A -> bool)) (f : A -> bool) x :
  accepted filters x = true -> In f filters -> f x = false.
Proof.
  unfold accepted. intros H Hin. apply negb_true_iff in H.
  destruct (f x) eqn:E; [|reflexivity].
  assert (existsb (fun f => f x) filters = true)
    by (apply existsb_exists; exists f; auto).
  congruence.
Qed.

Lemma pickValue_range v r :
  rvMin v <= fst (pickValue v r)
  /\ (rvMin v <= rvMax v -> fst (pickValue v r) <= rvMax v).
Proof.
  unfold pickValue. split.
  - unfold Random.nextInteger. destruct (Random.next r) as [x r'].
    destruct (rvMax v <? rvMin v) eqn:E; simpl; [lia|].
    apply Z.ltb_ge in E.
    pose proof (Z.mod_pos_bound x (rvMax v - rvMin v + 1) ltac:(lia)). lia.
  - intros H. apply nextInteger_range. exact H.
Qed.

(** ** Loot composer (createLoot) *)

Lemma totalValue_app l1 l2 : totalValue (l1 ++ l2) = totalValue l1 + totalValue l2.
Proof. induction l1 as [|a l1 IH]; simpl; [reflexivity | rewrite IH; lia]. Qed.

Section CreateLoot.

Variable gi : GameInfo.
Variable loot : LootInfo.
Variable forMerchant : bool.
Variable desiredValue : Z.

Lemma pickItem_fits remainingValue r item :
  fst (pickItem gi (lootFilters gi loot forMerchant remainingValue) r) = Some item ->
  In item (getItems gi) /\ getItemValue item <= remainingValue.
Proof.
  intros H. apply pick_Some in H as [Hin Hacc]. split; [exact Hin|].
  assert (Hv : noWrongItemValue loot remainingValue item = false).
  { apply (accepted_In _ _ _ Hacc). unfold lootFilters. simpl. auto. }
  unfold noWrongItemValue in Hv.
  destruct (rvSet (itemValue loot) && _); [discriminate|].
  apply Z.ltb_ge in Hv. exact Hv.
Qed.

(** Whatever the loop returns extends the items picked so far by catalog
    items whose values fit into what was left of the desired value. *)
Lemma createRandomItems_sound (fuel : nat) : forall currentValue r picked res r',
  createRandomItems fuel gi loot forMerchant desiredValue currentValue r picked
    = Some (res, r') ->
  exists more, res = picked ++ more
    /\ Forall (fun i => In i (getItems gi)) more
    /\ (currentValue <= desiredValue -> currentValue + totalValue more <= desiredValue)
    /\ (desiredValue < currentValue -> more = []).
Proof.
  induction fuel as [|fuel IH]; intros currentValue r picked res r' H; simpl in H;
    [discriminate|].
  destruct (currentValue <=? desiredValue) eqn:Hle.
  - apply Z.leb_le in Hle.
    destruct (pickItem gi _ r) as [[item|] r1] eqn:Hp.
    + pose proof (pickItem_fits (desiredValue - currentValue) r item) as Hfit.
      rewrite Hp in Hfit. destruct (Hfit eq_refl) as [Hin Hv].
      apply IH in H as (more & -> & Hall & Hsum & _).
      exists (item :: more).
      split; [rewrite <- app_assoc; reflexivity|].
      split; [constructor; assumption|].
      split; [|intros; lia].
      intros _. simpl. specialize (Hsum ltac:(lia)). lia.
    + inversion H; subst. exists []. rewrite app_nil_r.
      split; [reflexivity|]. split; [constructor|].
      split; [simpl; lia | reflexivity].
  - apply Z.leb_gt in Hle. inversion H; subst. exists []. rewrite app_nil_r.
    split; [reflexivity|]. split; [constructor|].
    split; [simpl; lia | reflexivity].
Qed.

Hypothesis values_positive : forall i, In i (getItems gi) -> 0 < getItemValue i.

(** With item values positive the loop ends within [desiredValue -
    currentValue + 2] iterations. *)
Lemma createRandomItems_total (fuel : nat) : forall currentValue r picked,
  (Z.to_nat (desiredValue - currentValue) + 2 <= fuel)%nat ->
  exists res, createRandomItems fuel gi loot forMerchant desiredValue currentValue
                r picked = Some res.
Proof.
  induction fuel as [|fuel IH]; intros currentValue r picked Hf; [lia|]. simpl.
  destruct (currentValue <=? desiredValue) eqn:Hle; [|eauto].
  apply Z.leb_le in Hle.
  destruct (pickItem gi _ r) as [[item|] r1] eqn:Hp; [|eauto].
  pose proof (pickItem_fits (desiredValue - currentValue) r item) as Hfit.
  rewrite Hp in Hfit. destruct (Hfit eq_refl) as [Hin Hv].
  pose proof (values_positive item Hin). apply IH. lia.
Qed.

End CreateLoot.

Lemma createRequiredItems_acc (l : list RequiredItemInfo) : forall r items,
  createRequiredItems l r items
  = (items ++ fst (createRequiredItems l r []), snd (createRequiredItems l r [])).
Proof.
  induction l as [|item rest IH]; intros r items; simpl.
  - rewrite app_nil_r. reflexivity.
  - destruct (CMidgardID_eqb (itemId item) emptyId); [apply IH|].
    destruct (pickValue (amount item) r) as [n r'].
    destruct (0 <? n); [|apply IH].
    rewrite (IH r' (items ++ [(itemId item, n)])), (IH r' [(itemId item, n)]).
    simpl. rewrite <- app_assoc. reflexivity.
Qed.

(** The first loop keeps the draws that are positive. *)
Lemma createRequiredItems_draws (l : list RequiredItemInfo) : forall r,
  fst (createRequiredItems l r []) = omap requiredEntry (drawnAmounts l r).
Proof.
  induction l as [|item rest IH]; intros r; simpl; [reflexivity|].
  destruct (CMidgardID_eqb (itemId item) emptyId); [apply IH|].
  destruct (pickValue (amount item) r) as [n r'].
  cbn [omap list_omap]. unfold requiredEntry at 1. cbn [fst snd].
  destruct (0 <? n).
  - rewrite createRequiredItems_acc. simpl. rewrite IH. reflexivity.
  - apply IH.
Qed.

(** Every required item with a non-empty id is drawn once, in order, and
    every amount is picked from the range of its item. *)
Lemma drawnAmounts_spec (l : list RequiredItemInfo) : forall r,
  map fst (drawnAmounts l r)
  = List.filter (fun item => negb (CMidgardID_eqb (itemId item) emptyId)) l
  /\ Forall (fun d => rvMin (amount (fst d)) <= snd d
                      /\ (rvMin (amount (fst d)) <= rvMax (amount (fst d)) ->
                          snd d <= rvMax (amount (fst d))))
       (drawnAmounts l r).
Proof.
  induction l as [|item rest IH]; intros r; simpl; [split; [reflexivity | constructor]|].
  destruct (CMidgardID_eqb (itemId item) emptyId); cbn [negb]; [apply IH|].
  pose proof (pickValue_range (amount item) r) as Hr.
  destruct (pickValue (amount item) r) as [n r']. cbn [fst] in Hr.
  destruct (IH r') as [H1 H2]. split.
  - simpl. rewrite H1. reflexivity.
  - constructor; [exact Hr | exact H2].
Qed.

(** C5, as the code has it. The first loop draws an amount for every
    required item with a non-empty id, in order, from the range of the item.
    Whatever [createLoot] returns is the required part followed by one entry
    per randomly drawn item. The required part lists, in order, every draw
    with a positive amount as the item's id with that amount; an item with the
    empty id and a draw of zero or less have no entry. The randomly drawn
    items are catalog items; when [loot.value] is set their values sum to at
    most the desired value drawn from its range, if that is not negative, and
    nothing is drawn if it is negative; nothing is drawn when [loot.value] is
    not set. When the values of the catalog are positive, [createLoot]
    returns. *)
Theorem createLoot_value_and_required (fuel : nat) (gi : GameInfo)
    (g : MapGenerator) (loot : LootInfo) (forMerchant : bool) :
  let draws := drawnAmounts (requiredItems loot) (randomGenerator g) in
  map fst draws
  = List.filter (fun item => negb (CMidgardID_eqb (itemId item) emptyId))
      (requiredItems loot)
  /\ Forall (fun d => rvMin (amount (fst d)) <= snd d
                      /\ (rvMin (amount (fst d)) <= rvMax (amount (fst d)) ->
                          snd d <= rvMax (amount (fst d)))) draws
  /\ (rvMin (lootValue loot) <= desiredLootValue g loot
      /\ (rvMin (lootValue loot) <= rvMax (lootValue loot) ->
          desiredLootValue g loot <= rvMax (lootValue loot)))
  /\ (forall items g',
        createLoot fuel gi g loot forMerchant = Some (items, g') ->
        exists picked,
          items = omap requiredEntry draws ++ map lootEntry picked
          /\ Forall (fun i => In i (getItems gi)) picked
          /\ if rvSet (lootValue loot)
             then (0 <= desiredLootValue g loot ->
                   totalValue picked <= desiredLootValue g loot)
                  /\ (desiredLootValue g loot < 0 -> picked = [])
             else picked = [])
  /\ ((forall i, In i (getItems gi) -> 0 < getItemValue i) ->
      (Z.to_nat (desiredLootValue g loot) + 2 <= fuel)%nat ->
      exists items g', createLoot fuel gi g loot forMerchant = Some (items, g')).
Proof.
  cbv zeta.
  destruct (drawnAmounts_spec (requiredItems loot) (randomGenerator g)) as [Hd1 Hd2].
  split; [exact Hd1|]. split; [exact Hd2|].
  pose proof (createRequiredItems_draws (requiredItems loot) (randomGenerator g)) as Hreq.
  unfold createLoot, desiredLootValue.
  destruct (createRequiredItems (requiredItems loot) (randomGenerator g) [])
    as [required r] eqn:Hrun.
  cbn [fst snd] in *. subst required.
  split; [apply pickValue_range|].
  destruct (rvSet (lootValue loot)) eqn:Hset.
  - destruct (pickValue (lootValue loot) r) as [desiredValue r1] eqn:Hpv. cbn [fst].
    split.
    + intros items g' H.
      destruct (createRandomItems fuel gi loot forMerchant desiredValue 0 r1 [])
        as [[picked r2]|] eqn:Hloop; [|discriminate].
      inversion H; subst items g'. clear H.
      destruct (createRandomItems_sound gi loot forMerchant desiredValue fuel 0 r1 []
                  picked r2 Hloop) as (more & Hmore & Hall & Hsum & Hnone).
      simpl in Hmore. subst more.
      exists picked. split; [reflexivity|]. split; [exact Hall|]. split.
      * intros Hle. specialize (Hsum Hle). lia.
      * exact Hnone.
    + intros Hpos Hfuel.
      destruct (createRandomItems_total gi loot forMerchant desiredValue Hpos fuel 0 r1 [])
        as [[picked r2] Hloop]; [rewrite Z.sub_0_r; exact Hfuel|].
      rewrite Hloop. eauto.
  - split.
    + intros items g' H. inversion H; subst items g'. exists []. simpl.
      rewrite app_nil_r. split; [reflexivity|]. split; [constructor | reflexivity].
    + intros _ _. eauto.
Qed.

(** C5 as stated fails on the required items: the loot lists one required
    item, with a non-empty id and the amount range 0 to 0, and [createLoot]
    returns no item at all. *)
Lemma createLoot_omits_zero_amount_item :
  requiredItems zeroAmountLoot
  = [ {| itemId := (IdType.ItemGlobal, 2); amount := {| rvMin := 0; rvMax := 0 |} |} ]
  /\ (IdType.ItemGlobal, 2) <> emptyId
  /\ option_map fst (createLoot 10 sampleGameInfo (blankGenerator 3 1) zeroAmountLoot false)
     = Some [].
Proof. split; [reflexivity|]. split; [discriminate | vm_compute; reflexivity]. Qed.

(** A run of the amended statement: a loot of value 120 with two required
    potions, over the sample catalog, whose values are positive. *)
Lemma createLoot_value_and_required_witness :
  let g := withRandom (blankGenerator 3 1) [5; 1; 4; 1; 3] in
  (exists picked,
     [((IdType.ItemGlobal, 2), 2); ((IdType.ItemGlobal, 1), 1)]
     = omap requiredEntry (drawnAmounts (requiredItems sampleLoot) (randomGenerator g))
       ++ map lootEntry picked
     /\ Forall (fun i => In i (getItems sampleGameInfo)) picked
     /\ if rvSet (lootValue sampleLoot)
        then (0 <= desiredLootValue g sampleLoot ->
              totalValue picked <= desiredLootValue g sampleLoot)
             /\ (desiredLootValue g sampleLoot < 0 -> picked = [])
        else picked = [])
  /\ exists items g',
       createLoot 200 sampleGameInfo g sampleLoot false = Some (items, g').
Proof.
  cbv zeta. split.
  - apply (proj1 (proj2 (proj2 (proj2
             (createLoot_value_and_required 200 sampleGameInfo
                (withRandom (blankGenerator 3 1) [5; 1; 4; 1; 3]) sampleLoot false))))
             _ (withRandom (blankGenerator 3 1) [3])).
    vm_compute. reflexivity.
  - apply (proj2 (proj2 (proj2 (proj2
             (createLoot_value_and_required 200 sampleGameInfo
                (withRandom (blankGenerator 3 1) [5; 1; 4; 1; 3]) sampleLoot false))))).
    + intros i Hin. simpl in Hin.
      destruct Hin as [<-|[<-|[<-|[]]]]; simpl; lia.
    + vm_compute. lia.
Defined.

Example createLoot_sample_run :
  option_map fst (createLoot 200 sampleGameInfo
                    (withRandom (blankGenerator 3 1) [5; 1; 4; 1; 3]) sampleLoot false)
  = Some [((IdType.ItemGlobal, 2), 2); ((IdType.ItemGlobal, 1), 1)].
Proof. vm_compute. reflexivity. Qed.

(** ** Road builder (createRoad) *)

Lemma map_padd_adjacent (p q : Position) (dirs : list Position) :
  Forall (fun d => Z.max (Z.abs (fst d)) (Z.abs (snd d)) = 1) dirs ->
  In q (map (padd p) dirs) -> adjacent p q.
Proof.
  intros Hd Hin. apply in_map_iff in Hin as (d & <- & Hin).
  rewrite Forall_forall in Hd. specialize (Hd d).
  rewrite <- list_elem_of_In in Hin. specialize (Hd Hin).
  unfold adjacent, padd. simpl. lia.
Qed.

Lemma directNeighbors_adjacent g p q : In q (directNeighbors g p) -> adjacent p q.
Proof.
  unfold directNeighbors. intros H. apply List.filter_In in H as [H _].
  revert H. apply map_padd_adjacent.
  unfold directDirs. repeat constructor.
Qed.

Lemma diagonalNeighbors_adjacent g p q : In q (diagonalNeighbors g p) -> adjacent p q.
Proof.
  unfold diagonalNeighbors. intros H. apply List.filter_In in H as [H _].
  revert H. apply map_padd_adjacent.
  unfold diagonalDirs. repeat constructor.
Qed.

Lemma adjacent_sym a b : adjacent a b -> adjacent b a.
Proof. unfold adjacent. lia. Qed.

Section CreateRoadFacts.

Variable canMoveBetween : MapGenerator -> Position -> Position -> bool.
Variable z : TemplateZone.
Variable g : MapGenerator.
Variable source destination : Position.

(** The invariant of the search: the source keeps the invalid predecessor,
    and every other tile with a predecessor is one step from it and is not
    water. *)
Definition roadInvariant (st : RoadSearch) : Prop :=
  cameFromR st !! source = Some invalidPosition
  /\ forall p c, p <> source -> cameFromR st !! p = Some c ->
       adjacent c p /\ isWater (mapTiles g p) = false.

Lemma roadFunctor_closed cur cost mv st p :
  closedR (roadFunctor canMoveBetween z g destination cur cost mv st p) = closedR st.
Proof.
  unfold roadFunctor.
  repeat match goal with
  | |- context [if ?b then _ else _] => destruct b
  end; reflexivity.
Qed.

Lemma roadFunctor_invariant cur cost mv st p :
  roadInvariant st -> source ∈ closedR st -> adjacent cur p ->
  roadInvariant (roadFunctor canMoveBetween z g destination cur cost mv st p).
Proof.
  intros [Ha Hb] Hsrc Hadj. unfold roadFunctor.
  destruct (bool_decide (p ∈ closedR st)) eqn:Hc; [split; assumption|].
  apply bool_decide_eq_false_1 in Hc.
  destruct (F32.geb _ _); [split; assumption|].
  destruct (isWater (mapTiles g p)) eqn:Hw; [split; assumption|].
  destruct (_ || _ || Position_eqb p destination); [|split; assumption].
  destruct (_ || Position_eqb p destination); [|split; assumption].
  assert (Hne : p <> source) by (intros ->; contradiction).
  split; cbn [cameFromR].
  - rewrite lookup_insert_ne by exact Hne. exact Ha.
  - intros q c Hq Hl. destruct (decide (p = q)) as [->|Hpq].
    + rewrite lookup_insert_eq in Hl. inversion Hl; subst c. auto.
    + rewrite lookup_insert_ne in Hl by exact Hpq. apply (Hb q c Hq Hl).
Qed.

Lemma fold_roadFunctor_invariant cur cost mv (l : list Position) : forall st,
  roadInvariant st -> source ∈ closedR st ->
  (forall p, In p l -> adjacent cur p) ->
  let st' := fold_left (roadFunctor canMoveBetween z g destination cur cost mv) l st in
  roadInvariant st' /\ closedR st' = closedR st.
Proof.
  induction l as [|p l IH]; intros st Hinv Hsrc Hadj; cbv zeta; simpl; [auto|].
  assert (Hadj' : forall q, In q l -> adjacent cur q) by (intros; apply Hadj; right; auto).
  pose proof (roadFunctor_closed cur cost mv st p) as Hc.
  destruct (IH (roadFunctor canMoveBetween z g destination cur cost mv st p)) as [H1 H2].
  - apply roadFunctor_invariant; auto. apply Hadj. left. reflexivity.
  - rewrite Hc. exact Hsrc.
  - exact Hadj'.
  - cbv zeta in H1, H2. split; [exact H1 | rewrite H2; exact Hc].
Qed.

Lemma expandRoadNode_invariant cur cost st :
  roadInvariant st -> source ∈ closedR st ->
  roadInvariant (expandRoadNode canMoveBetween z g destination cur cost st)
  /\ closedR (expandRoadNode canMoveBetween z g destination cur cost st) = closedR st.
Proof.
  intros Hinv Hsrc. unfold expandRoadNode.
  match goal with
  | |- context [fold_left ?f (directNeighbors g cur) ?s0] =>
      destruct (fold_roadFunctor_invariant cur cost (F32.of_Z 1)
                  (directNeighbors g cur) s0) as [H1 H2];
        [exact Hinv | exact Hsrc | apply directNeighbors_adjacent |]
  end.
  cbv zeta in H1, H2. cbn [closedR] in H2.
  match goal with
  | |- context [if directNeighbourFound ?s then _ else _] =>
      destruct (directNeighbourFound s)
  end; [split; assumption|].
  match goal with
  | |- context [fold_left ?f (diagonalNeighbors g cur) ?s0] =>
      destruct (fold_roadFunctor_invariant cur cost (F32.literal 21 10)
                  (diagonalNeighbors g cur) s0) as [H3 H4];
        [exact H1 | rewrite H2; exact Hsrc | apply diagonalNeighbors_adjacent |]
  end.
  cbv zeta in H3, H4. split; [exact H3 | rewrite H4; exact H2].
Qed.

Lemma roadSearch_invariant (fuel : nat) : forall st cur st',
  roadInvariant st ->
  source ∈ closedR st \/ queueR st = [(source, F32.zero)] ->
  roadSearch canMoveBetween z g destination fuel st = Some (Some (cur, st')) ->
  roadInvariant st'.
Proof.
  induction fuel as [|fuel IH]; intros st cur st' Hinv Hsrc Hrun; simpl in Hrun;
    [discriminate|].
  destruct (pq_pop F32.ltb (queueR st)) as [[[node cost] rest]|] eqn:Hpop;
    [|discriminate].
  assert (Hin : source ∈ {[node]} ∪ closedR st).
  { destruct Hsrc as [H|H]; [set_solver|].
    rewrite H in Hpop. simpl in Hpop. inversion Hpop; subst. set_solver. }
  destruct (Position_eqb node destination || isRoad g node).
  - inversion Hrun; subst. exact Hinv.
  - match type of Hrun with
    | roadSearch _ _ _ _ _ (expandRoadNode _ _ _ _ _ _ ?s0) = _ =>
        destruct (expandRoadNode_invariant node cost s0) as [H1 H2];
          [exact Hinv | exact Hin |]
    end.
    apply (IH _ _ _ H1) in Hrun; [exact Hrun|].
    left. rewrite H2. exact Hin.
Qed.

Lemma initialRoadSearch_invariant : roadInvariant (initialRoadSearch source).
Proof.
  split; cbn [cameFromR initialRoadSearch].
  - apply lookup_singleton_eq.
  - intros p c Hne Hl. rewrite lookup_singleton_ne in Hl by congruence. discriminate.
Qed.

(** Backtracking under the invariant walks adjacent tiles that are not
    water. *)
Lemma backtrack_sound (fuel : nat) : forall st b path,
  roadInvariant st ->
  backtrack fuel (cameFromR st) b = Some path ->
  stepwise path
  /\ Forall (fun t => isWater (mapTiles g t) = false) path
  /\ (path = [] \/ exists rest, path = b :: rest).
Proof.
  induction fuel as [|fuel IH]; intros st b path Hinv Hrun; simpl in Hrun;
    [discriminate|].
  destruct (isValid (cameFromOf (cameFromR st) b)) eqn:Hv.
  - destruct (backtrack fuel (cameFromR st) (cameFromOf (cameFromR st) b))
      as [rest|] eqn:Hrest; [|discriminate].
    inversion Hrun; subst path. clear Hrun.
    destruct (IH _ _ _ Hinv Hrest) as (Hs & Hw & Hhd).
    destruct Hinv as [Ha Hb].
    assert (Hne : b <> source).
    { intros ->. unfold cameFromOf in Hv. rewrite Ha in Hv. discriminate. }
    unfold cameFromOf in *.
    destruct (cameFromR st !! b) as [c|] eqn:Hc; [|discriminate].
    simpl in *. destruct (Hb b c Hne Hc) as [Hadj Hnw].
    split; [|split].
    + destruct Hhd as [->|[rest' ->]]; [exact I|].
      split; [apply adjacent_sym; exact Hadj | exact Hs].
    + constructor; assumption.
    + right. eauto.
  - inversion Hrun; subst. split; [exact I|]. split; [constructor | left; reflexivity].
Qed.

End CreateRoadFacts.

Lemma fold_setRoad_mapTiles (l : list Position) : forall g,
  mapTiles (fold_left (fun g t => setRoad g t true) l g) = mapTiles g.
Proof. induction l as [|a l IH]; intros g; simpl; [reflexivity | rewrite IH; reflexivity]. Qed.

Lemma setRoad_road g p b q :
  road (tiles (setRoad g p b) q) = if Position_eqb q p then b else road (tiles g q).
Proof. unfold setRoad, fupd. simpl. destruct (Position_eqb q p); reflexivity. Qed.

Lemma fold_setRoad_road (l : list Position) : forall g t,
  In t l -> road (tiles (fold_left (fun g t => setRoad g t true) l g) t) = true.
Proof.
  assert (Hkeep : forall (l : list Position) g t, road (tiles g t) = true ->
            road (tiles (fold_left (fun g t => setRoad g t true) l g) t) = true).
  { induction l0 as [|a l0 IH]; intros g t H; simpl; [exact H|].
    apply IH. rewrite setRoad_road. destruct (Position_eqb t a); auto. }
  induction l as [|a l IH]; intros g t Hin; simpl; [contradiction|].
  destruct Hin as [->|Hin]; [|apply IH; exact Hin].
  apply Hkeep. rewrite setRoad_road, Position_eqb_refl. reflexivity.
Qed.

(** What [createRoad] leaves behind. *)
Lemma createRoad_sound
    (canMoveBetween : MapGenerator -> Position -> Position -> bool) (fuel : nat)
    (z z' : TemplateZone) (source destination : Position) (result : bool) :
  createRoad canMoveBetween fuel z source destination = Some (result, z') ->
  mapTiles (mapGenerator z') = mapTiles (mapGenerator z)
  /\ (result = true ->
     exists road, roads z' = roads z ++ [road]
       /\ roadSource road = source /\ roadDestination road = destination
       /\ soundRoad (mapGenerator z) road
       /\ Forall (fun t => isRoad (mapGenerator z') t = true) (map fst (roadPath road)))
  /\ (result = false -> roads z' = roads z).
Proof.
  unfold createRoad. intros Hrun.
  destruct (roadSearch canMoveBetween z (setRoad (mapGenerator z) source false)
              destination fuel (initialRoadSearch source))
    as [[[cur st]|]|] eqn:Hsearch; [| |discriminate].
  - destruct (backtrack fuel (cameFromR st) cur) as [path|] eqn:Hback; [|discriminate].
    inversion Hrun; subst result z'. clear Hrun.
    split; [cbn [mapGenerator withRoads withGenerator];
            rewrite fold_setRoad_mapTiles; reflexivity|].
    split; [intros _ | discriminate].
    eexists. split; [reflexivity|]. cbn [roadSource roadDestination roadPath].
    split; [reflexivity|]. split; [reflexivity|].
    assert (Hinv : roadInvariant (setRoad (mapGenerator z) source false) source st).
    { eapply roadSearch_invariant; [apply initialRoadSearch_invariant | | exact Hsearch].
      right. reflexivity. }
    destruct (backtrack_sound (setRoad (mapGenerator z) source false) source fuel st cur path
                Hinv Hback) as (Hs & Hw & _).
    unfold soundRoad. cbv zeta. cbn [roadPath].
    rewrite !map_map. cbn [fst]. rewrite !map_id.
    cbn [mapTiles setRoad withTiles] in Hw.
    split; [split; assumption|].
    apply Forall_forall. intros t Hin. cbn [mapGenerator withRoads withGenerator].
    unfold isRoad. apply fold_setRoad_road. apply list_elem_of_In. exact Hin.
  - inversion Hrun; subst result z'.
    split; [reflexivity|]. split; [discriminate | reflexivity].
Qed.

(** ** Road network (connectRoads) *)

Lemma soundRoad_ext g g' road :
  mapTiles g' = mapTiles g -> soundRoad g road -> soundRoad g' road.
Proof. unfold soundRoad. intros ->. auto. Qed.

Section ConnectRoadsFacts.

Variable canMoveBetween : MapGenerator -> Position -> Position -> bool.
Variable Position_ltb : Position -> Position -> bool.
Variable fuel : nat.
Variable z0 : TemplateZone.

(** Every road of the zone is one it had at the start or a sound one. *)
Definition roadsSound (z : TemplateZone) : Prop :=
  mapTiles (mapGenerator z) = mapTiles (mapGenerator z0)
  /\ forall road, road ∈ roads z -> road ∈ roads z0 \/ soundRoad (mapGenerator z0) road.

Lemma createRoad_roadsSound z z' source destination result :
  roadsSound z ->
  createRoad canMoveBetween fuel z source destination = Some (result, z') ->
  roadsSound z'.
Proof.
  intros [Hm Hr] Hrun. apply createRoad_sound in Hrun as (Hm' & Ht & Hf).
  split; [congruence|]. intros road Hin. destruct result.
  - destruct (Ht eq_refl) as (r & Heq & _ & _ & Hs & _). rewrite Heq in Hin.
    apply elem_of_app in Hin as [Hin|Hin]; [auto|].
    apply list_elem_of_singleton in Hin. subst road. right.
    apply (soundRoad_ext (mapGenerator z)); auto.
  - rewrite (Hf eq_refl) in Hin. auto.
Qed.

Lemma connectRoadsLoop_roadsSound (n : nat) : forall z roadNodesCopy processed z',
  roadsSound z ->
  connectRoadsLoop canMoveBetween Position_ltb n fuel z roadNodesCopy processed = Some z' ->
  roadsSound z'.
Proof.
  induction n as [|n IH]; intros z roadNodesCopy processed z' Hs Hrun;
    destruct roadNodesCopy as [|node rest]; simpl in Hrun;
    try (inversion Hrun; subst; exact Hs); try discriminate.
  match type of Hrun with
  | match ?c with _ => _ end = _ => destruct c as [cross|]
  end; [|inversion Hrun; subst; exact Hs].
  destruct (createRoad canMoveBetween fuel z node cross) as [[[|] z1]|] eqn:Hroad;
    [| |discriminate].
  - eapply IH; [|exact Hrun]. eapply createRoad_roadsSound; eauto.
  - eapply IH; [|exact Hrun]. eapply createRoad_roadsSound; eauto.
Qed.

End ConnectRoadsFacts.

Lemma directNeighbors_straight g p q : In q (directNeighbors g p) -> straightStep q p.
Proof.
  unfold directNeighbors. intros H. apply List.filter_In in H as [H _].
  apply in_map_iff in H as (d & <- & Hin). unfold straightStep, padd.
  simpl in Hin. destruct Hin as [<-|[<-|[<-|[<-|[]]]]]; simpl; lia.
Qed.

Section RoadStepsFacts.

Variable canMoveBetween : MapGenerator -> Position -> Position -> bool.
Variable z : TemplateZone.
Variable g : MapGenerator.
Variable source destination : Position.

(** The lambda pushes the neighbour exactly when it accepts it. *)
Lemma roadFunctor_accepts cur cost mv st p :
  roadFunctor canMoveBetween z g destination cur cost mv st p
  = if acceptsStep canMoveBetween z g destination cur cost mv st p
    then {| closedR := closedR st;
            queueR := pq_push (queueR st) (p, F32.add cost mv);
            cameFromR := <[p := cur]> (cameFromR st);
            distancesR := <[p := F32.add cost mv]> (distancesR st);
            directNeighbourFound := true |}
    else st.
Proof.
  unfold roadFunctor, acceptsStep.
  destruct (bool_decide (p ∈ closedR st)); [reflexivity|]. cbn [negb andb].
  destruct (F32.geb _ _); [reflexivity|]. cbn [negb andb].
  destruct (isWater (mapTiles g p)); [reflexivity|]. cbn [negb andb].
  destruct (_ || _ || Position_eqb p destination); [|reflexivity]. cbn [andb].
  destruct (_ || Position_eqb p destination); reflexivity.
Qed.

(** A pass over neighbours that leaves [directNeighbourFound] unset has
    accepted none of them and has changed nothing. *)
Lemma fold_roadFunctor_none cur cost mv (l : list Position) : forall st,
  directNeighbourFound st = false ->
  directNeighbourFound
    (fold_left (roadFunctor canMoveBetween z g destination cur cost mv) l st) = false ->
  fold_left (roadFunctor canMoveBetween z g destination cur cost mv) l st = st
  /\ forall n, In n l -> acceptsStep canMoveBetween z g destination cur cost mv st n = false.
Proof.
  assert (Hkeep : forall (l : list Position) st, directNeighbourFound st = true ->
            directNeighbourFound
              (fold_left (roadFunctor canMoveBetween z g destination cur cost mv) l st)
            = true).
  { induction l0 as [|a l0 IH]; intros st H; simpl; [exact H|]. apply IH.
    rewrite roadFunctor_accepts. destruct (acceptsStep _ _ _ _ _ _ _ _ _); auto. }
  induction l as [|a l IH]; intros st Hf Hend; simpl in *; [split; [reflexivity | tauto]|].
  rewrite roadFunctor_accepts in Hend |- *.
  destruct (acceptsStep canMoveBetween z g destination cur cost mv st a) eqn:Ha.
  - rewrite Hkeep in Hend by reflexivity. discriminate.
  - destruct (IH st Hf Hend) as [H1 H2]. split; [exact H1|].
    intros n [<-|Hn]; [exact Ha | apply H2; exact Hn].
Qed.

(** The links a pass leaves are the ones it found and the ones it made, from
    the expanded tile to a neighbour that the pass accepted. *)
Lemma fold_roadFunctor_links cur cost mv (l : list Position) : forall st a c,
  cameFromR (fold_left (roadFunctor canMoveBetween z g destination cur cost mv) l st) !! a
  = Some c ->
  cameFromR st !! a = Some c
  \/ (c = cur
      /\ exists before after : list Position,
           l = before ++ a :: after
           /\ acceptsStep canMoveBetween z g destination cur cost mv
                (fold_left (roadFunctor canMoveBetween z g destination cur cost mv)
                   before st) a = true).
Proof.
  induction l as [|p l IH]; intros st a c H; simpl in H; [left; exact H|].
  apply IH in H as [H|[-> (before & after & -> & Hacc)]].
  - rewrite roadFunctor_accepts in H.
    destruct (acceptsStep canMoveBetween z g destination cur cost mv st p) eqn:Hp;
      [|left; exact H].
    cbn [cameFromR] in H. destruct (decide (p = a)) as [->|Hne].
    + rewrite lookup_insert_eq in H. inversion H; subst.
      right. split; [reflexivity|]. exists [], l. split; [reflexivity | exact Hp].
    + rewrite lookup_insert_ne in H by exact Hne. left. exact H.
  - right. split; [reflexivity|]. exists (p :: before), after.
    split; [reflexivity | exact Hacc].
Qed.

(** Every link of a state of the search is a straight step or was made after
    the straight neighbours had failed. *)
Lemma roadState_links st :
  roadState canMoveBetween z g source destination st ->
  forall a b, a <> source -> cameFromR st !! a = Some b ->
    straightStep a b
    \/ linkedAfterStraightFailed canMoveBetween z g source destination a b.
Proof.
  induction 1 as [|st cur cost rest Hst IH Hpop Hgoal]; intros a b Hne Hl.
  - cbn [initialRoadSearch cameFromR] in Hl.
    apply lookup_singleton_Some in Hl as [<- _]. contradiction.
  - unfold expandRoadNode in Hl.
    set (st1 := {| closedR := {[cur]} ∪ closedR st; queueR := rest;
                   cameFromR := cameFromR st; distancesR := distancesR st;
                   directNeighbourFound := false |}) in *.
    cbn [closedR queueR cameFromR distancesR] in Hl. fold st1 in Hl.
    destruct (directNeighbourFound
                (fold_left (roadFunctor canMoveBetween z g destination cur cost
                              (F32.of_Z 1)) (directNeighbors g cur) st1)) eqn:Hflag.
    + apply fold_roadFunctor_links in Hl as [Hl|[-> (before & after & Heq & _)]].
      * apply IH; assumption.
      * left. apply (directNeighbors_straight g). rewrite Heq. apply in_elt.
    + destruct (fold_roadFunctor_none cur cost (F32.of_Z 1) (directNeighbors g cur) st1
                  eq_refl Hflag) as [Hsame Hrej].
      rewrite Hsame in Hl.
      apply fold_roadFunctor_links in Hl as [Hl|[-> Hacc]].
      * apply IH; assumption.
      * right. exists st, cost, rest. split; [exact Hst|]. split; [exact Hpop|].
        split; [exact Hgoal|]. cbv zeta. fold st1. split; [exact Hrej | exact Hacc].
Qed.

(** The state in which the search ends is a state of the search with the
    tile reached closed. *)
Lemma roadSearch_state (fuel : nat) : forall st cur st',
  roadState canMoveBetween z g source destination st ->
  roadSearch canMoveBetween z g destination fuel st = Some (Some (cur, st')) ->
  exists st0, roadState canMoveBetween z g source destination st0
              /\ cameFromR st' = cameFromR st0.
Proof.
  induction fuel as [|fuel IH]; intros st cur st' Hst Hrun; simpl in Hrun;
    [discriminate|].
  destruct (pq_pop F32.ltb (queueR st)) as [[[node cost] rest]|] eqn:Hpop;
    [|discriminate].
  destruct (Position_eqb node destination || isRoad g node) eqn:Hgoal.
  - inversion Hrun; subst. exists st. split; [exact Hst | reflexivity].
  - eapply IH; [|exact Hrun].
    apply roadState_expand; assumption.
Qed.

End RoadStepsFacts.

(** Consecutive tiles of the backtracked path are linked. *)
Lemma backtrack_links (source : Position) (cameFrom : gmap Position Position) :
  cameFrom !! source = Some invalidPosition ->
  forall fuel b path, backtrack fuel cameFrom b = Some path ->
  (path = [] \/ exists rest, path = b :: rest)
  /\ forall (i : nat) (a c : Position), path !! i = Some a -> path !! S i = Some c ->
       a <> source /\ cameFrom !! a = Some c.
Proof.
  intros Hs. induction fuel as [|fuel IH]; intros b path Hrun; simpl in Hrun;
    [discriminate|].
  destruct (isValid (cameFromOf cameFrom b)) eqn:Hv.
  - destruct (backtrack fuel cameFrom (cameFromOf cameFrom b)) as [rest|] eqn:Hrest;
      [|discriminate].
    inversion Hrun; subst path. clear Hrun.
    destruct (IH _ _ Hrest) as [Hhd Hlinks].
    split; [right; eauto|].
    intros i a c Ha Hc. destruct i as [|i].
    + simpl in Ha, Hc. inversion Ha; subst a. clear Ha.
      assert (Hne : b <> source).
      { intros ->. unfold cameFromOf in Hv. rewrite Hs in Hv. discriminate. }
      split; [exact Hne|].
      destruct Hhd as [->|[rest' ->]]; [discriminate|].
      simpl in Hc. inversion Hc; subst c. unfold cameFromOf in *.
      destruct (cameFrom !! b) as [c|]; [reflexivity | discriminate].
    + simpl in Ha, Hc. apply (Hlinks i); assumption.
  - inversion Hrun; subst. split; [left; reflexivity|]. intros i a c Ha. discriminate.
Qed.

(** The diagonal steps of the road that [createRoad] records. *)
Lemma createRoad_diagonals
    (canMoveBetween : MapGenerator -> Position -> Position -> bool) (fuel : nat)
    (z z' : TemplateZone) (source destination : Position) :
  createRoad canMoveBetween fuel z source destination = Some (true, z') ->
  exists road, roads z' = roads z ++ [road]
    /\ diagonalsJustified canMoveBetween z (setRoad (mapGenerator z) source false)
         source destination (map fst (roadPath road)).
Proof.
  unfold createRoad. intros Hrun.
  destruct (roadSearch canMoveBetween z (setRoad (mapGenerator z) source false)
              destination fuel (initialRoadSearch source))
    as [[[cur st]|]|] eqn:Hsearch; [| |discriminate].
  2:{ inversion Hrun. }
  destruct (backtrack fuel (cameFromR st) cur) as [path|] eqn:Hback; [|discriminate].
  inversion Hrun; subst z'. clear Hrun.
  eexists. split; [reflexivity|]. cbn [roadPath].
  rewrite map_map. cbn [fst]. rewrite map_id.
  assert (Hinv : roadInvariant (setRoad (mapGenerator z) source false) source st).
  { eapply roadSearch_invariant; [apply initialRoadSearch_invariant | | exact Hsearch].
    right. reflexivity. }
  destruct (roadSearch_state canMoveBetween z (setRoad (mapGenerator z) source false)
              source destination fuel _ _ _
              (roadState_initial canMoveBetween z _ source destination) Hsearch)
    as (st0 & Hst0 & Hcame).
  destruct (backtrack_links source (cameFromR st) (proj1 Hinv) fuel cur path Hback)
    as [_ Hlinks].
  intros i a b Ha Hb. destruct (Hlinks i a b Ha Hb) as [Hne Hl].
  rewrite Hcame in Hl.
  apply (roadState_links canMoveBetween z (setRoad (mapGenerator z) source false)
           source destination st0 Hst0 a b Hne Hl).
Qed.

Lemma createRoad_id
    (canMoveBetween : MapGenerator -> Position -> Position -> bool) (fuel : nat)
    (z z' : TemplateZone) (source destination : Position) (result : bool) :
  createRoad canMoveBetween fuel z source destination = Some (result, z') ->
  id z' = id z.
Proof.
  unfold createRoad. intros Hrun.
  destruct (roadSearch _ _ _ _ _ _) as [[[cur st]|]|]; [| |discriminate].
  - destruct (backtrack fuel (cameFromR st) cur); [|discriminate].
    inversion Hrun; subst. reflexivity.
  - inversion Hrun; subst. reflexivity.
Qed.

Section ConnectRoadsMade.

Variable canMoveBetween : MapGenerator -> Position -> Position -> bool.
Variable Position_ltb : Position -> Position -> bool.
Variable fuel : nat.
Variable z0 : TemplateZone.

(** Every road of the zone is one it had at the start or one made by
    [createRoad]. *)
Definition roadsMade (z : TemplateZone) : Prop :=
  id z = id z0
  /\ mapTiles (mapGenerator z) = mapTiles (mapGenerator z0)
  /\ forall road, road ∈ roads z ->
       road ∈ roads z0 \/ madeByCreateRoad canMoveBetween fuel z0 road.

Lemma createRoad_roadsMade z z' source destination result :
  roadsMade z ->
  createRoad canMoveBetween fuel z source destination = Some (result, z') ->
  roadsMade z'.
Proof.
  intros (Hi & Hm & Hr) Hrun.
  pose proof (createRoad_sound _ _ _ _ _ _ _ Hrun) as (Hm' & Ht & Hf).
  pose proof (createRoad_id _ _ _ _ _ _ _ Hrun) as Hi'.
  split; [congruence|]. split; [congruence|]. intros road Hin. destruct result.
  - destruct (Ht eq_refl) as (r & Heq & Hs & Hd & _). rewrite Heq in Hin.
    apply elem_of_app in Hin as [Hin|Hin]; [auto|].
    apply list_elem_of_singleton in Hin. subst road. right.
    destruct (createRoad_diagonals _ _ _ _ _ _ Hrun) as (r' & Hr' & Hdiag).
    assert (r' = r) by (rewrite Heq in Hr'; apply app_inv_head in Hr'; congruence).
    subst r'. exists z, z'. rewrite Hs, Hd. auto.
  - rewrite (Hf eq_refl) in Hin. auto.
Qed.

Lemma connectRoadsLoop_roadsMade (n : nat) : forall z roadNodesCopy processed z',
  roadsMade z ->
  connectRoadsLoop canMoveBetween Position_ltb n fuel z roadNodesCopy processed = Some z' ->
  roadsMade z'.
Proof.
  induction n as [|n IH]; intros z roadNodesCopy processed z' Hs Hrun;
    destruct roadNodesCopy as [|node rest]; simpl in Hrun;
    try (inversion Hrun; subst; exact Hs); try discriminate.
  match type of Hrun with
  | match ?c with _ => _ end = _ => destruct c as [cross|]
  end; [|inversion Hrun; subst; exact Hs].
  destruct (createRoad canMoveBetween fuel z node cross) as [[[|] z1]|] eqn:Hroad;
    [| |discriminate].
  - eapply IH; [|exact Hrun]. eapply createRoad_roadsMade; eauto.
  - eapply IH; [|exact Hrun]. eapply createRoad_roadsMade; eauto.
Qed.

End ConnectRoadsMade.

(** C4, as the code has it. A road recorded by [createRoad] runs over tiles
    that are one step from each other, straight or diagonal, and none of its
    tiles is a water tile; a step of the road that is not straight was linked
    in an expansion of the tile stepped from in which no straight neighbour
    was accepted. Every [RoadInfo] that [connectRoads] adds to the zone is
    the road of one call of [createRoad], on a zone over the same terrain,
    and the same holds of it. *)
Theorem roads_are_stepwise_and_dry
    (canMoveBetween : MapGenerator -> Position -> Position -> bool)
    (Position_ltb : Position -> Position -> bool) (fuel : nat) (z : TemplateZone) :
  (forall source destination z',
     createRoad canMoveBetween fuel z source destination = Some (true, z') ->
     exists road, roads z' = roads z ++ [road]
       /\ roadSource road = source /\ roadDestination road = destination
       /\ soundRoad (mapGenerator z) road
       /\ diagonalsJustified canMoveBetween z (setRoad (mapGenerator z) source false)
            source destination (map fst (roadPath road)))
  /\ (forall z',
        connectRoads canMoveBetween Position_ltb fuel z = Some z' ->
        forall road, road ∈ roads z' ->
          road ∈ roads z
          \/ (soundRoad (mapGenerator z) road
              /\ madeByCreateRoad canMoveBetween fuel z road)).
Proof.
  split.
  - intros source destination z' Hrun.
    pose proof (createRoad_sound _ _ _ _ _ _ _ Hrun) as (_ & Ht & _).
    destruct (Ht eq_refl) as (road & Hr & Hs & Hd & Hsound & _).
    destruct (createRoad_diagonals _ _ _ _ _ _ Hrun) as (road' & Hr' & Hdiag).
    assert (road' = road).
    { rewrite Hr in Hr'. apply app_inv_head in Hr'. congruence. }
    subst road'. exists road. auto.
  - intros z' Hrun road Hin. unfold connectRoads in Hrun.
    pose proof (connectRoadsLoop_roadsSound canMoveBetween Position_ltb fuel z _ _ _ _ _
                  (conj eq_refl (fun r H => or_introl H)) Hrun) as [_ Hsound].
    pose proof (connectRoadsLoop_roadsMade canMoveBetween Position_ltb fuel z _ _ _ _ _
                  (conj eq_refl (conj eq_refl (fun r H => or_introl H))) Hrun)
      as (_ & _ & Hmade).
    destruct (Hsound road Hin) as [?|Hs]; [left; assumption|].
    destruct (Hmade road Hin) as [?|Hm]; [left; assumption|].
    right. split; assumption.
Qed.

(** C4 as stated fails on the diagonal steps. From (1, 1) the search reaches
    the free tile (1, 2); no straight neighbour of (1, 2) is accepted, so the
    diagonal neighbours are tried and the destination (2, 3) is one of them.
    The recorded path goes from (1, 2) to (2, 3), changing both coordinates,
    whatever [canMoveBetween] answers; [connectRoads] records the same road. *)
Lemma createRoad_takes_diagonal_step :
  option_map (fun r => (fst r, map (fun road => map fst (roadPath road)) (roads (snd r))))
    (createRoad (fun _ _ _ => true) 50 roadZone (1, 1) (2, 3))
  = Some (true, [[(2, 3); (1, 2)]])
  /\ option_map (fun r => (fst r, map (fun road => map fst (roadPath road)) (roads (snd r))))
       (createRoad (fun _ _ _ => false) 50 roadZone (1, 1) (2, 3))
     = Some (true, [[(2, 3); (1, 2)]])
  /\ option_map (fun z => map (fun road => map fst (roadPath road)) (roads z))
       (connectRoads (fun _ _ _ => true) columnOrder 50 roadZone)
     = Some [[(2, 3); (1, 2)]]
  /\ fst (2, 3) - fst (1, 2) = 1 /\ snd (2, 3) - snd (1, 2) = 1.
Proof. repeat split; vm_compute; reflexivity. Qed.

(** A run of the amended statement on the same zone. *)
Lemma roads_are_stepwise_and_dry_witness :
  exists road,
    roads (withRoads
             (withGenerator roadZone
                (fold_left (fun g t => setRoad g t true) [(2, 3); (1, 2)]
                   (setRoad roadGenerator (1, 1) false)))
             [ {| roadPath := [((2, 3), S754_finite false 13002342 (-22));
                               ((1, 2), S754_finite false 8388608 (-23))];
                  roadSource := (1, 1); roadDestination := (2, 3) |} ])
    = roads roadZone ++ [road]
    /\ roadSource road = (1, 1) /\ roadDestination road = (2, 3)
    /\ soundRoad (mapGenerator roadZone) road
    /\ diagonalsJustified (fun _ _ _ => true) roadZone
         (setRoad (mapGenerator roadZone) (1, 1) false) (1, 1) (2, 3)
         (map fst (roadPath road)).
Proof.
  apply (proj1 (roads_are_stepwise_and_dry (fun _ _ _ => true) columnOrder 50 roadZone)
           (1, 1) (2, 3)).
  vm_compute. reflexivity.
Defined.

(** ** The priority queue *)

Section PriorityQueueFacts.

Context {P : Type}.
Variable ltb : P -> P -> bool.

Lemma pq_pop_None (q : list (Position * P)) : pq_pop ltb q = None <-> q = [].
Proof.
  destruct q as [|x rest]; simpl; [tauto|].
  split; [|discriminate].
  destruct (pq_pop ltb rest) as [[y rest']|]; [|discriminate].
  destruct (ltb (snd y) (snd x)); discriminate.
Qed.

Lemma pq_pop_Some (q : list (Position * P)) : forall x rest,
  pq_pop ltb q = Some (x, rest) ->
  length q = S (length rest) /\ In x q /\ (forall y, In y rest -> In y q).
Proof.
  induction q as [|a q IH]; intros x rest H; simpl in H; [discriminate|].
  destruct (pq_pop ltb q) as [[y rest']|] eqn:Hq.
  - destruct (IH _ _ eq_refl) as (Hl & Hin & Hsub).
    destruct (ltb (snd y) (snd a)); inversion H; subst; simpl.
    + split; [lia|]. split; [right; exact Hin|].
      intros w [->|Hw]; [left; reflexivity | right; apply Hsub; exact Hw].
    + split; [reflexivity|]. split; [left; reflexivity | intros; right; assumption].
  - apply pq_pop_None in Hq. subst q. inversion H; subst. simpl.
    split; [reflexivity|]. split; [left; reflexivity | intros y []].
Qed.

End PriorityQueueFacts.

(** ** Path connection (connectPath) *)

Lemma seqZ_allTiles g p : isInTheMap g p = true -> p ∈ allTiles g.
Proof.
  unfold isInTheMap, allTiles. destruct p as [x y]. simpl. intros H.
  rewrite !andb_true_iff in H. destruct H as [[[H1 H2] H3] H4].
  apply Z.leb_le in H1, H3. apply Z.ltb_lt in H2, H4.
  apply list_elem_of_bind. exists x. split.
  - apply list_elem_of_fmap. exists y. split; [reflexivity|].
    apply elem_of_seqZ. lia.
  - apply elem_of_seqZ. lia.
Qed.

Lemma neighbors_length g p : (length (neighbors g p) <= 8)%nat.
Proof.
  unfold neighbors. etransitivity; [apply List.filter_length_le|].
  rewrite length_map. simpl. lia.
Qed.

Lemma directNeighbors_length g p : (length (directNeighbors g p) <= 8)%nat.
Proof.
  unfold directNeighbors. etransitivity; [apply List.filter_length_le|].
  rewrite length_map. simpl. lia.
Qed.

Lemma neighbors_inMap g p q : In q (neighbors g p) -> isInTheMap g q = true.
Proof. unfold neighbors. intros H. apply List.filter_In in H. tauto. Qed.

Lemma directNeighbors_inMap g p q : In q (directNeighbors g p) -> isInTheMap g q = true.
Proof. unfold directNeighbors. intros H. apply List.filter_In in H. tauto. Qed.

Section ConnectPathFacts.

Variable z : TemplateZone.
Variable g : MapGenerator.
Variable source : Position.
Variable onlyStraight : bool.

Hypothesis universe_small : Z.of_nat (base.size (tileUniverse g source)) < intMax.

Lemma pathNeighbors_universe c n :
  In n (pathNeighbors g onlyStraight c) -> n ∈ tileUniverse g source.
Proof.
  unfold pathNeighbors, tileUniverse. intros H.
  apply elem_of_union_r, elem_of_list_to_set, seqZ_allTiles.
  destruct onlyStraight; [eapply directNeighbors_inMap | eapply neighbors_inMap]; eauto.
Qed.

Lemma pathNeighbors_length c : (length (pathNeighbors g onlyStraight c) <= 8)%nat.
Proof.
  unfold pathNeighbors. destruct onlyStraight;
    [apply directNeighbors_length | apply neighbors_length].
Qed.

(** The invariant of the search. [X] is the set of the closed tiles whose
    neighbours have been offered to the queue. *)
Record stepInv (X : gset Position) (st : PathSearch) : Prop := mkStepInv {
  inv_open : forall x, In x (openP st) ->
    fst x ∈ tileUniverse g source /\ is_Some (distancesP st !! fst x);
  inv_closed : closedP st ⊆ tileUniverse g source;
  inv_dist : forall p d, distancesP st !! p = Some d ->
    0 <= d <= Z.of_nat (base.size (closedP st));
  inv_expanded : forall c n, c ∈ X -> In n (pathNeighbors g onlyStraight c) ->
    n ∉ closedP st -> passable z g n = true ->
    exists dn dc, distancesP st !! n = Some dn /\ distancesP st !! c = Some dc
                  /\ dn <= dc + 1;
  inv_source : cameFromP st !! source = Some invalidPosition
               /\ distancesP st !! source = Some 0;
  inv_came : forall p c, p <> source -> cameFromP st !! p = Some c ->
    exists dc, distancesP st !! c = Some dc /\ distancesP st !! p = Some (dc + 1)
               /\ c ∈ closedP st;
  inv_closed_dist : forall c, c ∈ closedP st -> is_Some (distancesP st !! c);
  inv_notfree : forall c, c ∈ closedP st -> isFree g c = false;
  inv_X : X ⊆ closedP st
}.

Lemma pathFunctor_closed cur st p : closedP (pathFunctor z g cur st p) = closedP st.
Proof.
  unfold pathFunctor.
  repeat match goal with
  | |- context [if ?b then _ else _] => destruct b
  end; reflexivity.
Qed.

(** One application of the lambda during the expansion of [cur]. *)
Lemma pathFunctor_step X st cur p dc :
  stepInv X st -> cur ∈ closedP st -> source ∈ closedP st ->
  p ∈ tileUniverse g source ->
  distancesP st !! cur = Some dc -> dc + 1 <= Z.of_nat (base.size (closedP st)) ->
  let st' := pathFunctor z g cur st p in
  stepInv X st'
  /\ distancesP st' !! cur = Some dc
  /\ (p ∉ closedP st -> passable z g p = true ->
      exists dn, distancesP st' !! p = Some dn /\ dn <= dc + 1)
  /\ (forall q dq, distancesP st !! q = Some dq ->
      exists dq', distancesP st' !! q = Some dq' /\ dq' <= dq)
  /\ (length (openP st') <= length (openP st) + 1)%nat.
Proof.
  intros Hinv Hcur Hsrc Hp Hdc Hbound. cbv zeta. unfold pathFunctor.
  destruct (bool_decide (p ∈ closedP st)) eqn:Hc.
  { apply bool_decide_eq_true_1 in Hc.
    split; [exact Hinv|]. split; [exact Hdc|]. split; [contradiction|].
    split; [eauto with lia | lia]. }
  apply bool_decide_eq_false_1 in Hc.
  destruct (passable z g p) eqn:Hpass; cbn [negb].
  2:{ split; [exact Hinv|]. split; [exact Hdc|]. split; [discriminate|].
      split; [eauto with lia | lia]. }
  rewrite Hdc. cbn [default from_option Datatypes.id].
  pose proof (subseteq_size _ _ (inv_closed X st Hinv)) as Hsz.
  destruct (dc + 1 <? default intMax (distancesP st !! p)) eqn:Hlt.
  2:{ apply Z.ltb_ge in Hlt.
      split; [exact Hinv|]. split; [exact Hdc|].
      split; [|split; [eauto with lia | lia]].
      intros _ _. destruct (distancesP st !! p) as [dn|] eqn:Hdn; cbn [default from_option Datatypes.id] in Hlt.
      - exists dn. split; [reflexivity | lia].
      - lia. }
  apply Z.ltb_lt in Hlt.
  assert (Hpc : p <> cur) by (intros ->; contradiction).
  assert (Hps : p <> source) by (intros ->; contradiction).
  split; [|split; [|split; [|split]]].
  - destruct Hinv as [Ho Hcl Hd He [Hs1 Hs2] Hcm Hcd Hnf HX].
    constructor; cbn [closedP openP cameFromP distancesP].
    + intros x Hin. unfold pq_push in Hin. apply in_app_or in Hin as [Hin|[<-|[]]].
      * destruct (Ho x Hin) as [Hu [d Hd']]. split; [exact Hu|].
        destruct (decide (p = fst x)) as [<-|Hne].
        -- rewrite lookup_insert_eq. eauto.
        -- rewrite lookup_insert_ne by exact Hne. eauto.
      * cbn [fst]. split; [exact Hp|]. rewrite lookup_insert_eq. eauto.
    + exact Hcl.
    + intros q d Hq. destruct (decide (p = q)) as [<-|Hne].
      * rewrite lookup_insert_eq in Hq. inversion Hq; subst d.
        specialize (Hd cur dc Hdc). lia.
      * rewrite lookup_insert_ne in Hq by exact Hne. eauto.
    + intros c n HcX Hn Hncl Hpn.
      destruct (He c n HcX Hn Hncl Hpn) as (dn & dc' & Hdn & Hdc' & Hle).
      assert (Hcp : p <> c) by (intros ->; apply Hc, HX, HcX).
      rewrite (lookup_insert_ne _ p c) by exact Hcp.
      destruct (decide (p = n)) as [<-|Hne].
      * rewrite lookup_insert_eq. exists (dc + 1), dc'.
        split; [reflexivity|]. split; [exact Hdc'|].
        rewrite Hdn in Hlt. cbn [default from_option Datatypes.id] in Hlt. lia.
      * rewrite lookup_insert_ne by exact Hne. eauto.
    + split; [rewrite lookup_insert_ne by exact Hps; exact Hs1
             | rewrite lookup_insert_ne by exact Hps; exact Hs2].
    + intros q c Hq Hl. destruct (decide (p = q)) as [<-|Hne].
      * rewrite lookup_insert_eq in Hl. inversion Hl; subst c.
        rewrite lookup_insert_eq, (lookup_insert_ne _ p cur) by exact Hpc. eauto.
      * rewrite lookup_insert_ne in Hl by exact Hne.
        destruct (Hcm q c Hq Hl) as (dc' & H1 & H2 & H3).
        assert (Hcp : p <> c) by (intros ->; contradiction).
        rewrite (lookup_insert_ne _ p c) by exact Hcp.
        rewrite (lookup_insert_ne _ p q) by exact Hne. eauto.
    + intros c Hcc. assert (Hcp : p <> c) by (intros ->; contradiction).
      rewrite lookup_insert_ne by exact Hcp. auto.
    + exact Hnf.
    + exact HX.
  - cbn [distancesP]. rewrite lookup_insert_ne by exact Hpc. exact Hdc.
  - intros _ _. cbn [distancesP]. rewrite lookup_insert_eq. exists (dc + 1).
    split; [reflexivity | lia].
  - intros q dq Hq. cbn [distancesP]. destruct (decide (p = q)) as [<-|Hne].
    + rewrite lookup_insert_eq. exists (dc + 1). split; [reflexivity|].
      rewrite Hq in Hlt. cbn [default from_option Datatypes.id] in Hlt. lia.
    + rewrite lookup_insert_ne by exact Hne. eauto with lia.
  - cbn [openP]. unfold pq_push. rewrite length_app. simpl. lia.
Qed.

Lemma fold_pathFunctor X cur dc (l : list Position) : forall st,
  stepInv X st -> cur ∈ closedP st -> source ∈ closedP st ->
  (forall p, In p l -> p ∈ tileUniverse g source) ->
  distancesP st !! cur = Some dc -> dc + 1 <= Z.of_nat (base.size (closedP st)) ->
  let st' := fold_left (pathFunctor z g cur) l st in
  stepInv X st'
  /\ closedP st' = closedP st
  /\ distancesP st' !! cur = Some dc
  /\ (forall p, In p l -> p ∉ closedP st -> passable z g p = true ->
      exists dn, distancesP st' !! p = Some dn /\ dn <= dc + 1)
  /\ (forall q dq, distancesP st !! q = Some dq ->
      exists dq', distancesP st' !! q = Some dq' /\ dq' <= dq)
  /\ (length (openP st') <= length (openP st) + length l)%nat.
Proof.
  induction l as [|a l IH]; intros st Hinv Hcur Hsrc Hl Hdc Hb; cbv zeta; simpl.
  - split; [exact Hinv|]. split; [reflexivity|]. split; [exact Hdc|].
    split; [intros p []|]. split; [eauto with lia | lia].
  - destruct (pathFunctor_step X st cur a dc Hinv Hcur Hsrc (Hl a (or_introl eq_refl))
                Hdc Hb) as (H1 & H2 & H3 & H4 & H5).
    cbv zeta in H1, H2, H3, H4, H5.
    pose proof (pathFunctor_closed cur st a) as Hc.
    assert (HI := IH (pathFunctor z g cur st a) H1).
    rewrite Hc in HI.
    specialize (HI Hcur Hsrc (fun p Hp => Hl p (or_intror Hp)) H2 Hb).
    cbv zeta in HI. destruct HI as (I1 & I2 & I3 & I4 & I5 & I6).
    split; [exact I1|]. split; [exact I2|]. split; [exact I3|].
    split; [|split].
    + intros p [->|Hin] Hncl Hpass; [|apply I4; assumption].
      destruct (H3 Hncl Hpass) as (dn & Hdn & Hle).
      destruct (I5 p dn Hdn) as (dn' & Hdn' & Hle'). exists dn'. split; [exact Hdn' | lia].
    + intros q dq Hq. destruct (H4 q dq Hq) as (d1 & Hd1 & Hle1).
      destruct (I5 q d1 Hd1) as (d2 & Hd2 & Hle2). exists d2. split; [exact Hd2 | lia].
    + lia.
Qed.

(** Offering the neighbours of a tile a second time changes nothing. *)
Lemma fold_pathFunctor_stale cur dc (l : list Position) : forall st,
  distancesP st !! cur = Some dc ->
  (forall p, In p l ->
     p ∈ closedP st \/ passable z g p = false
     \/ exists dn, distancesP st !! p = Some dn /\ dn <= dc + 1) ->
  fold_left (pathFunctor z g cur) l st = st.
Proof.
  induction l as [|a l IH]; intros st Hdc Hl; simpl; [reflexivity|].
  assert (Ha : pathFunctor z g cur st a = st).
  { unfold pathFunctor. destruct (Hl a (or_introl eq_refl)) as [H|[H|(dn & Hdn & Hle)]].
    - rewrite bool_decide_eq_true_2 by exact H. reflexivity.
    - destruct (bool_decide (a ∈ closedP st)); [reflexivity|]. rewrite H. reflexivity.
    - destruct (bool_decide (a ∈ closedP st)); [reflexivity|].
      destruct (negb (passable z g a)); [reflexivity|].
      rewrite Hdc, Hdn. cbn [default from_option Datatypes.id].
      destruct (dc + 1 <? dn) eqn:E; [apply Z.ltb_lt in E; lia | reflexivity]. }
  rewrite Ha. apply IH; [exact Hdc|]. intros p Hp. apply Hl. right. exact Hp.
Qed.

Definition pathMeasure (st : PathSearch) : nat :=
  9 * base.size (tileUniverse g source ∖ closedP st) + length (openP st).

Definition pathInv (st : PathSearch) : Prop :=
  stepInv (closedP st) st
  /\ (source ∈ closedP st \/ (closedP st = ∅ /\ openP st = [(source, 0)])).

Lemma size_universe_closed (C : gset Position) (cur : Position) :
  cur ∈ tileUniverse g source -> cur ∉ C ->
  base.size (tileUniverse g source ∖ C)
  = S (base.size (tileUniverse g source ∖ ({[cur]} ∪ C))).
Proof.
  intros Hu Hn.
  assert (Heq : tileUniverse g source ∖ C
                = {[cur]} ∪ (tileUniverse g source ∖ ({[cur]} ∪ C))).
  { apply set_eq. intros x. rewrite elem_of_union, !elem_of_difference,
      elem_of_union, elem_of_singleton.
    destruct (decide (x = cur)) as [->|Hne]; [tauto | tauto]. }
  rewrite Heq at 1. rewrite size_union by set_solver. rewrite size_singleton. reflexivity.
Qed.

(** One iteration of the loop on a tile that is not free keeps the invariant
    and lowers the measure. *)
Lemma pathSearch_iteration st cur dcur rest :
  pathInv st ->
  pq_pop Z.ltb (openP st) = Some ((cur, dcur), rest) ->
  isFree g cur = false ->
  let st1 := {| closedP := {[cur]} ∪ closedP st; openP := rest;
                cameFromP := cameFromP st; distancesP := distancesP st |} in
  let st2 := fold_left (pathFunctor z g cur) (pathNeighbors g onlyStraight cur) st1 in
  pathInv st2 /\ (pathMeasure st2 < pathMeasure st)%nat.
Proof.
  intros [Hinv Hsrc] Hpop Hfree. cbv zeta.
  destruct (pq_pop_Some Z.ltb _ _ _ Hpop) as (Hlen & Hin & Hsub).
  destruct (inv_open _ _ Hinv _ Hin) as [Hu [dc Hdc]]. cbn [fst] in Hu, Hdc.
  assert (Hsrc1 : source ∈ {[cur]} ∪ closedP st).
  { destruct Hsrc as [H|[_ H]]; [set_solver|].
    rewrite H in Hin. destruct Hin as [Heq|[]]. inversion Heq. set_solver. }
  destruct (decide (cur ∈ closedP st)) as [Hstale|Hfresh].
  - (* the tile was closed before: nothing is pushed *)
    assert (Hcl : {[cur]} ∪ closedP st = closedP st) by set_solver.
    rewrite Hcl.
    rewrite (fold_pathFunctor_stale cur dc); cbn [distancesP closedP]; [|exact Hdc|].
    + split.
      * split; [|left; rewrite <- Hcl; exact Hsrc1]. cbn [closedP].
        destruct Hinv. constructor; cbn [closedP openP cameFromP distancesP]; auto.
      * unfold pathMeasure. cbn [closedP openP]. lia.
    + intros n Hn. destruct (decide (n ∈ closedP st)) as [?|Hncl]; [left; assumption|].
      destruct (passable z g n) eqn:Hpass; [|right; left; reflexivity].
      right. right.
      destruct (inv_expanded _ _ Hinv cur n Hstale Hn Hncl Hpass)
        as (dn & dc' & Hdn & Hdc' & Hle).
      exists dn. split; [exact Hdn|]. congruence.
  - (* the tile is closed now and its neighbours are offered *)
    assert (Hsize : base.size ({[cur]} ∪ closedP st) = S (base.size (closedP st))).
    { rewrite size_union by set_solver. rewrite size_singleton. reflexivity. }
    assert (Hinv1 : stepInv (closedP st)
              {| closedP := {[cur]} ∪ closedP st; openP := rest;
                 cameFromP := cameFromP st; distancesP := distancesP st |}).
    { destruct Hinv as [Ho Hcl Hd He Hs Hcm Hcd Hnf HX].
      constructor; cbn [closedP openP cameFromP distancesP].
      - intros x Hx. apply Ho, Hsub, Hx.
      - apply union_subseteq. split; [apply singleton_subseteq_l; exact Hu | exact Hcl].
      - intros p d Hp. specialize (Hd p d Hp). rewrite Hsize. lia.
      - intros c n Hc Hn Hncl Hpass. apply (He c n Hc Hn); [set_solver | exact Hpass].
      - exact Hs.
      - intros p c Hp Hl. destruct (Hcm p c Hp Hl) as (d & ? & ? & ?).
        exists d. repeat split; auto. set_solver.
      - intros c Hc. apply elem_of_union in Hc as [Hc|Hc]; [|auto].
        apply elem_of_singleton in Hc. subst c. eauto.
      - intros c Hc. apply elem_of_union in Hc as [Hc|Hc]; [|auto].
        apply elem_of_singleton in Hc. subst c. exact Hfree.
      - set_solver. }
    destruct (fold_pathFunctor (closedP st) cur dc (pathNeighbors g onlyStraight cur) _
                Hinv1) as (F1 & F2 & F3 & F4 & F5 & F6); cbn [closedP distancesP openP].
    + set_solver.
    + exact Hsrc1.
    + intros p Hp. eapply pathNeighbors_universe; eauto.
    + exact Hdc.
    + pose proof (inv_dist _ _ Hinv cur dc Hdc). rewrite Hsize. lia.
    + cbv zeta in F1, F2, F3, F4, F5, F6. cbn [closedP openP] in F2, F4, F6.
      match goal with
      | |- context [fold_left ?f ?l ?s] => set (st2 := fold_left f l s) in *
      end.
      split.
      * split; [|left; rewrite F2; exact Hsrc1].
        destruct F1 as [Ho Hcl Hd He Hs Hcm Hcd Hnf HX].
        constructor;
          [exact Ho | exact Hcl | exact Hd | | exact Hs | exact Hcm | exact Hcd
          | exact Hnf | reflexivity].
        intros c n Hc Hn Hncl Hpass. rewrite F2 in Hc.
        apply elem_of_union in Hc as [Hc|Hc]; [|apply (He c n Hc Hn); auto].
        apply elem_of_singleton in Hc. subst c.
        rewrite F2 in Hncl.
        destruct (F4 n Hn Hncl Hpass) as (dn & Hdn & Hle). eauto.
      * unfold pathMeasure. rewrite F2. cbn [closedP openP].
        rewrite (size_universe_closed (closedP st) cur Hu Hfresh).
        pose proof (pathNeighbors_length cur). lia.
Qed.

(** What is known when the loop ends. *)
Definition pathSearchEndSpec (e : PathSearchEnd) : Prop :=
  match e with
  | ReachedFree node st =>
      isFree g node = true
      /\ cameFromP st !! source = Some invalidPosition
      /\ (forall p c, p <> source -> cameFromP st !! p = Some c ->
            exists dc, distancesP st !! c = Some dc /\ distancesP st !! p = Some (dc + 1))
      /\ (forall p d, distancesP st !! p = Some d ->
            0 <= d <= Z.of_nat (base.size (tileUniverse g source)))
      /\ is_Some (distancesP st !! node)
  | Exhausted closed =>
      source ∈ closed /\ (forall c, c ∈ closed -> isFree g c = false)
  end.

(** The loop ends within as many iterations as the measure tells. *)
Lemma pathSearch_total : forall fuel st,
  pathInv st -> (pathMeasure st < fuel)%nat ->
  exists e, pathSearch z g onlyStraight fuel st = Some e /\ pathSearchEndSpec e.
Proof.
  induction fuel as [|fuel IH]; intros st Hinv Hm; [lia|].
  cbn [pathSearch].
  destruct (pq_pop Z.ltb (openP st)) as [[[cur dcur] rest]|] eqn:Hpop.
  - cbv zeta. destruct (isFree g cur) eqn:Hfree.
    + eexists. split; [reflexivity|].
      destruct Hinv as [Hinv Hsrc].
      destruct (pq_pop_Some Z.ltb _ _ _ Hpop) as (Hlen & Hin & Hsub).
      destruct (inv_open _ _ Hinv _ Hin) as [Hu Hd]. cbn [fst] in Hu, Hd.
      cbn [pathSearchEndSpec cameFromP distancesP].
      split; [exact Hfree|]. split; [apply (inv_source _ _ Hinv)|].
      split; [|split; [|exact Hd]].
      * intros p c Hp Hc.
        destruct (inv_came _ _ Hinv p c Hp Hc) as (dc & ? & ? & ?). eauto.
      * intros p d Hp. pose proof (inv_dist _ _ Hinv p d Hp).
        pose proof (subseteq_size _ _ (inv_closed _ _ Hinv)). lia.
    + destruct (pathSearch_iteration st cur dcur rest Hinv Hpop Hfree) as [Hinv2 Hm2].
      cbv zeta in Hinv2, Hm2. apply IH; [exact Hinv2 | lia].
  - apply pq_pop_None in Hpop. eexists. split; [reflexivity|].
    destruct Hinv as [Hinv Hsrc]. cbn [pathSearchEndSpec]. split.
    + destruct Hsrc as [H|[_ H]]; [exact H | congruence].
    + apply (inv_notfree _ _ Hinv).
Qed.

Lemma initialPathSearch_inv : pathInv (initialPathSearch source).
Proof.
  split; [|right; split; reflexivity].
  constructor; cbn [initialPathSearch closedP openP cameFromP distancesP].
  - intros x [<-|[]]. cbn [fst]. split.
    + unfold tileUniverse. apply elem_of_union_l, elem_of_singleton. reflexivity.
    + rewrite lookup_singleton_eq. eauto.
  - apply empty_subseteq.
  - intros p d Hp. apply lookup_singleton_Some in Hp as [_ <-].
    rewrite size_empty. lia.
  - intros c n Hc. apply elem_of_empty in Hc. contradiction.
  - rewrite !lookup_singleton_eq. split; reflexivity.
  - intros p c Hp Hc. apply lookup_singleton_Some in Hc as [<- _]. contradiction.
  - intros c Hc. apply elem_of_empty in Hc. contradiction.
  - intros c Hc. apply elem_of_empty in Hc. contradiction.
  - reflexivity.
Qed.

Lemma initialPathSearch_measure :
  (pathMeasure (initialPathSearch source) < connectPathFuel g source)%nat.
Proof.
  unfold pathMeasure, connectPathFuel. cbn [initialPathSearch closedP openP].
  rewrite difference_empty_L. simpl. lia.
Qed.

End ConnectPathFacts.

(** The backtracking loop ends: every step lowers the distance. *)
Lemma tracePath_total (source : Position) (cameFrom : gmap Position Position) (dist : gmap Position Z) :
  cameFrom !! source = Some invalidPosition ->
  (forall p c, p <> source -> cameFrom !! p = Some c ->
     exists dc, dist !! c = Some dc /\ dist !! p = Some (dc + 1)) ->
  (forall p d, dist !! p = Some d -> 0 <= d) ->
  forall fuel p d, dist !! p = Some d -> (Z.to_nat d < fuel)%nat ->
  exists path, tracePath fuel cameFrom p = Some (p :: path).
Proof.
  intros Hs Hc Hd. induction fuel as [|fuel IH]; intros p d Hp Hf; [lia|].
  cbn [tracePath]. unfold cameFromOf.
  destruct (decide (p = source)) as [->|Hne].
  { rewrite Hs. cbn. eauto. }
  destruct (cameFrom !! p) as [c|] eqn:Hcp; cbn [default from_option Datatypes.id];
    [|cbn; eauto].
  destruct (isValid c); [|eauto].
  destruct (Hc p c Hne Hcp) as (dc & Hdc & Hdp).
  assert (d = dc + 1) by congruence. subst d.
  pose proof (Hd c dc Hdc).
  destruct (IH c dc Hdc ltac:(lia)) as (path & ->). eauto.
Qed.


Lemma sameBesidesOccupied_refl g : sameBesidesOccupied g g.
Proof. unfold sameBesidesOccupied. tauto. Qed.

Lemma sameBesidesOccupied_trans g1 g2 g3 :
  sameBesidesOccupied g1 g2 -> sameBesidesOccupied g2 g3 -> sameBesidesOccupied g1 g3.
Proof.
  unfold sameBesidesOccupied.
  intros (A1 & A2 & A3 & A4 & A5 & A6 & A7 & A8) (B1 & B2 & B3 & B4 & B5 & B6 & B7 & B8).
  split; [congruence|]. split; [congruence|]. split; [congruence|].
  split; [congruence|]. split; [congruence|]. split; [congruence|].
  split; [congruence|].
  intros t. destruct (A8 t) as (X1 & X2 & X3), (B8 t) as (Y1 & Y2 & Y3).
  split; [congruence|]. split; congruence.
Qed.

Lemma setOccupied_sameBesidesOccupied g p s : sameBesidesOccupied g (setOccupied g p s).
Proof.
  unfold sameBesidesOccupied, setOccupied, withTiles, fupd. cbn.
  split; [reflexivity|]. split; [reflexivity|]. split; [reflexivity|].
  split; [reflexivity|]. split; [reflexivity|]. split; [reflexivity|].
  split; [reflexivity|].
  intros t. destruct (Position_eqb t p) eqn:E; [|tauto].
  apply Position_eqb_eq in E. subst t. cbn. tauto.
Qed.

Lemma setFree_sameBesidesOccupied path : forall g,
  sameBesidesOccupied g (setFree g path).
Proof.
  unfold setFree. induction path as [|a path IH]; intros g; simpl.
  - apply sameBesidesOccupied_refl.
  - eapply sameBesidesOccupied_trans; [apply setOccupied_sameBesidesOccupied | apply IH].
Qed.

Lemma setFree_occupied path : forall g t,
  occupied (tiles (setFree g path) t)
  = if bool_decide (t ∈ path) then Free else occupied (tiles g t).
Proof.
  unfold setFree. induction path as [|a path IH]; intros g t; simpl.
  - reflexivity.
  - rewrite IH, setOccupied_occupied.
    destruct (Position_eqb t a) eqn:E.
    + apply Position_eqb_eq in E. subst a.
      rewrite (bool_decide_eq_true_2 (t ∈ t :: path)) by (left).
      destruct (bool_decide (t ∈ path)); reflexivity.
    + apply Position_eqb_neq in E.
      destruct (bool_decide (t ∈ path)) eqn:B.
      * apply bool_decide_eq_true_1 in B.
        rewrite bool_decide_eq_true_2 by (right; exact B). reflexivity.
      * apply bool_decide_eq_false_1 in B.
        rewrite bool_decide_eq_false_2; [reflexivity|].
        intros H. apply elem_of_cons in H as [H|H]; [apply E, H | apply B, H].
Qed.

(** The loop over the closed set: the tiles that were possible are blocked,
    all of them leave [possibleTiles], nothing else changes. *)
Lemma fold_sealTile (l : list Position) : forall z,
  let z' := fold_left sealTile l z in
  possibleTiles z' = possibleTiles z ∖ list_to_set l
  /\ (forall t, occupied (tiles (mapGenerator z') t)
        = if bool_decide (t ∈ l) && isPossible (mapGenerator z) t then Blocked
          else occupied (tiles (mapGenerator z) t))
  /\ sameBesidesGrid z z'.
Proof.
  induction l as [|a l IH]; intros z; cbv zeta; simpl.
  - split; [set_solver|]. split; [reflexivity|].
    unfold sameBesidesGrid. pose proof (sameBesidesOccupied_refl (mapGenerator z)). tauto.
  - destruct (IH (sealTile z a)) as (I1 & I2 & I3). cbv zeta in I1, I2, I3.
    split; [|split].
    + rewrite I1. unfold sealTile. cbn. set_solver.
    + intros t. rewrite I2. unfold sealTile. cbn [mapGenerator withPossibleTiles withGenerator].
      destruct (decide (t = a)) as [->|Hne].
      * rewrite (bool_decide_eq_true_2 (a ∈ a :: l)) by left. cbn [andb].
        destruct (isPossible (mapGenerator z) a) eqn:E.
        -- assert (Hp : isPossible (setOccupied (mapGenerator z) a Blocked) a = false).
           { unfold isPossible. rewrite setOccupied_occupied, Position_eqb_refl.
             reflexivity. }
           rewrite Hp, andb_false_r, setOccupied_occupied, Position_eqb_refl.
           reflexivity.
        -- rewrite E, andb_false_r. reflexivity.
      * assert (Hb : bool_decide (t ∈ a :: l) = bool_decide (t ∈ l)).
        { apply bool_decide_ext. rewrite elem_of_cons. tauto. }
        assert (Ht : forall b : bool,
                  tiles (if b then setOccupied (mapGenerator z) a Blocked
                         else mapGenerator z) t = tiles (mapGenerator z) t).
        { intros [|]; [|reflexivity]. unfold setOccupied. cbn.
          apply fupd_other. exact Hne. }
        unfold isPossible. rewrite !Ht, Hb. reflexivity.
    + unfold sameBesidesGrid in *. unfold sealTile in I3.
      cbn [id borderType gapChance pos center tileInfo freePaths roadNodes roads
           mapGenerator withPossibleTiles withGenerator] in I3.
      destruct I3 as (J1 & J2 & J3 & J4 & J5 & J6 & J7 & J8 & J9 & J10).
      split; [exact J1|]. split; [exact J2|]. split; [exact J3|]. split; [exact J4|].
      split; [exact J5|]. split; [exact J6|]. split; [exact J7|]. split; [exact J8|].
      split; [exact J9|].
      eapply sameBesidesOccupied_trans; [|exact J10].
      destruct (isPossible (mapGenerator z) a);
        [apply setOccupied_sameBesidesOccupied | apply sameBesidesOccupied_refl].
Qed.

Lemma pq_pop_elems {P : Type} (ltb : P -> P -> bool) (q : list (Position * P)) :
  forall x rest, pq_pop ltb q = Some (x, rest) ->
  forall y, In y q -> y = x \/ In y rest.
Proof.
  induction q as [|a q IH]; intros x rest H y Hy; simpl in H; [discriminate|].
  destruct (pq_pop ltb q) as [[b rest']|] eqn:Hq.
  - destruct (ltb (snd b) (snd a)).
    + inversion H; subst. destruct Hy as [<-|Hy]; [right; left; reflexivity|].
      destruct (IH _ _ eq_refl y Hy) as [->|Hin]; [left; reflexivity|].
      right. right. exact Hin.
    + inversion H; subst. destruct Hy as [<-|Hy]; [left; reflexivity | right; exact Hy].
  - inversion H; subst. destruct Hy as [<-|Hy]; [left; reflexivity|].
    apply pq_pop_None in Hq. subst q. contradiction.
Qed.

(** The neighbours that [foreachDirectNeighbor] and [foreachNeighbor] visit
    are the tiles of the map one step away. *)
Lemma directNeighbors_iff g p q :
  In q (directNeighbors g p) <-> isInTheMap g q = true /\ straightStep p q.
Proof.
  unfold directNeighbors. rewrite List.filter_In, in_map_iff.
  destruct p as [px py], q as [qx qy]. unfold straightStep, padd, directDirs.
  cbn [fst snd]. split.
  - intros [(d & Heq & Hin) Hm]. split; [exact Hm|].
    simpl in Hin. destruct Hin as [<-|[<-|[<-|[<-|[]]]]];
      cbn [fst snd] in Heq; inversion Heq; subst; lia.
  - intros [Hm Hs]. split; [|exact Hm].
    exists (qx - px, qy - py). cbn [fst snd]. split; [f_equal; lia|].
    assert (Hc : (qx - px = 0 /\ qy - py = 1) \/ (qx - px = 0 /\ qy - py = -1)
                 \/ (qx - px = -1 /\ qy - py = 0) \/ (qx - px = 1 /\ qy - py = 0))
      by lia.
    destruct Hc as [[-> ->]|[[-> ->]|[[-> ->]|[-> ->]]]]; simpl; tauto.
Qed.

Lemma neighbors_iff g p q :
  In q (neighbors g p) <-> isInTheMap g q = true /\ adjacent p q.
Proof.
  unfold neighbors. rewrite List.filter_In, in_map_iff.
  destruct p as [px py], q as [qx qy]. unfold adjacent, padd, directDirs, diagonalDirs.
  cbn [fst snd]. split.
  - intros [(d & Heq & Hin) Hm]. split; [exact Hm|].
    simpl in Hin. destruct Hin as [<-|[<-|[<-|[<-|[<-|[<-|[<-|[<-|[]]]]]]]]];
      cbn [fst snd] in Heq; inversion Heq; subst; lia.
  - intros [Hm Hs]. split; [|exact Hm].
    exists (qx - px, qy - py). cbn [fst snd]. split; [f_equal; lia|].
    assert (Hc : (qx - px = 0 /\ qy - py = 1) \/ (qx - px = 0 /\ qy - py = -1)
                 \/ (qx - px = -1 /\ qy - py = 0) \/ (qx - px = 1 /\ qy - py = 0)
                 \/ (qx - px = 1 /\ qy - py = 1) \/ (qx - px = -1 /\ qy - py = 1)
                 \/ (qx - px = 1 /\ qy - py = -1) \/ (qx - px = -1 /\ qy - py = -1))
      by lia.
    destruct Hc as [[-> ->]|[[-> ->]|[[-> ->]|[[-> ->]|[[-> ->]|[[-> ->]|[[-> ->]|[-> ->]]]]]]]];
      simpl; tauto.
Qed.

(** The lambda of [connectPath] goes on with the neighbours that an allowed
    step leads to. *)
Lemma stepAllowed_iff z g onlyStraight c n :
  stepAllowed z g onlyStraight c n
  <-> In n (pathNeighbors g onlyStraight c) /\ passable z g n = true.
Proof.
  unfold stepAllowed, pathNeighbors, passable.
  rewrite negb_true_iff, orb_false_iff, negb_false_iff, Z.eqb_eq.
  destruct onlyStraight; [rewrite directNeighbors_iff | rewrite neighbors_iff]; tauto.
Qed.

Lemma connected_inMap z g onlyStraight source t :
  connected z g onlyStraight source t -> t = source \/ isInTheMap g t = true.
Proof. intros [|c n _ [Hm _]]; [left; reflexivity | right; exact Hm]. Qed.

Lemma isInTheMap_isValid g t : isInTheMap g t = true -> isValid t = true.
Proof.
  unfold isInTheMap, isValid. intros H. rewrite !andb_true_iff in H.
  destruct H as [[[H1 _] H3] _]. rewrite H1, H3. reflexivity.
Qed.

Section ConnectPathLinks.

Variable z : TemplateZone.
Variable g : MapGenerator.
Variable source : Position.
Variable onlyStraight : bool.

Hypothesis universe_small : Z.of_nat (base.size (tileUniverse g source)) < intMax.

(** What the containers tell about the tiles: [offered] are the neighbours of
    [cur] that the lambda has been applied to. *)
Record linkStep (cur : Position) (offered : Position -> Prop) (st : PathSearch)
    : Prop := mkLinkStep {
  ls_conn : forall p, is_Some (distancesP st !! p) -> connected z g onlyStraight source p;
  ls_pending : forall p, is_Some (distancesP st !! p) ->
    p ∈ closedP st \/ exists d, In (p, d) (openP st);
  ls_came : forall p, is_Some (distancesP st !! p) -> is_Some (cameFromP st !! p);
  ls_link : forall p c, p <> source -> cameFromP st !! p = Some c ->
    stepAllowed z g onlyStraight c p
    /\ isFree g c = false /\ connected z g onlyStraight source c
    /\ is_Some (cameFromP st !! c);
  ls_expanded : forall c n, c ∈ closedP st -> (c = cur -> offered n) ->
    In n (pathNeighbors g onlyStraight c) -> passable z g n = true ->
    is_Some (distancesP st !! n);
  ls_closed : forall c, c ∈ closedP st -> is_Some (distancesP st !! c)
}.

Lemma linkStep_offered cur (offered offered' : Position -> Prop) st :
  (forall n, offered' n -> offered n) ->
  linkStep cur offered st -> linkStep cur offered' st.
Proof.
  intros Hsub [H1 H2 H3 H4 H5 H6]. constructor; auto.
  intros c n Hc Ho. apply H5; auto.
Qed.

(** One application of the lambda during the expansion of [cur]. *)
Lemma pathFunctor_link cur dc offered st p :
  linkStep cur offered st ->
  cur ∈ closedP st -> source ∈ closedP st -> isFree g cur = false ->
  distancesP st !! cur = Some dc -> dc + 1 < intMax ->
  In p (pathNeighbors g onlyStraight cur) ->
  let st' := pathFunctor z g cur st p in
  linkStep cur (fun n => offered n \/ n = p) st'
  /\ closedP st' = closedP st
  /\ distancesP st' !! cur = Some dc
  /\ (forall x, In x (openP st) -> In x (openP st')).
Proof.
  intros Hinv Hcur Hsrc Hfree Hdc Hsmall Hp. cbv zeta. unfold pathFunctor.
  assert (Hkeep : (p ∈ closedP st \/ passable z g p = false
                   \/ is_Some (distancesP st !! p)) ->
            linkStep cur (fun n => offered n \/ n = p) st).
  { intros Hwhy. destruct Hinv as [H1 H2 H3 H4 H5 H6]. constructor; auto.
    intros c n Hc Ho Hn Hpass.
    destruct (decide (c = cur)) as [->|Hne]; [|apply (H5 c n); auto; contradiction].
    destruct (Ho eq_refl) as [Hoff | ->]; [apply (H5 cur n); auto|].
    destruct Hwhy as [Hcl|[Hnp|Hd]]; [apply H6; exact Hcl | congruence | exact Hd]. }
  destruct (bool_decide (p ∈ closedP st)) eqn:Hc.
  { apply bool_decide_eq_true_1 in Hc. split; [apply Hkeep; left; exact Hc|]. auto. }
  apply bool_decide_eq_false_1 in Hc.
  destruct (passable z g p) eqn:Hpass; cbn [negb].
  2:{ split; [apply Hkeep; right; left; reflexivity|]. auto. }
  rewrite Hdc. cbn [default from_option Datatypes.id].
  destruct (dc + 1 <? default intMax (distancesP st !! p)) eqn:Hlt.
  2:{ apply Z.ltb_ge in Hlt. split; [|auto]. apply Hkeep. right. right.
      destruct (distancesP st !! p) as [dn|]; [eauto|].
      cbn [default from_option Datatypes.id] in Hlt. lia. }
  assert (Hpc : p <> cur) by (intros ->; contradiction).
  assert (Hps : p <> source) by (intros ->; contradiction).
  destruct Hinv as [H1 H2 H3 H4 H5 H6].
  assert (Hconn : connected z g onlyStraight source cur) by (apply H1; rewrite Hdc; eauto).
  split; [|split; [reflexivity|split]].
  - constructor; cbn [closedP openP cameFromP distancesP].
    + intros q Hq. destruct (decide (p = q)) as [<-|Hne].
      * eapply connected_step; [exact Hconn|]. apply stepAllowed_iff. auto.
      * rewrite lookup_insert_ne in Hq by exact Hne. auto.
    + intros q Hq. destruct (decide (p = q)) as [<-|Hne].
      * right. exists (dc + 1). unfold pq_push. apply in_or_app. right. left. reflexivity.
      * rewrite lookup_insert_ne in Hq by exact Hne.
        destruct (H2 q Hq) as [?|[d Hd]]; [left; assumption|].
        right. exists d. unfold pq_push. apply in_or_app. left. exact Hd.
    + intros q Hq. destruct (decide (p = q)) as [<-|Hne].
      * rewrite lookup_insert_eq. eauto.
      * rewrite lookup_insert_ne in Hq by exact Hne.
        rewrite lookup_insert_ne by exact Hne. auto.
    + intros q c Hq Hl.
      assert (Hsome : forall c', is_Some (cameFromP st !! c') ->
                is_Some (<[p:=cur]> (cameFromP st) !! c')).
      { intros c' Hc'. destruct (decide (p = c')) as [<-|Hne'].
        - rewrite lookup_insert_eq. eauto.
        - rewrite lookup_insert_ne by exact Hne'. exact Hc'. }
      destruct (decide (p = q)) as [<-|Hne].
      * rewrite lookup_insert_eq in Hl. inversion Hl; subst c.
        split; [apply stepAllowed_iff; auto|]. split; [exact Hfree|].
        split; [exact Hconn|]. apply Hsome, H3. rewrite Hdc. eauto.
      * rewrite lookup_insert_ne in Hl by exact Hne.
        destruct (H4 q c Hq Hl) as (A & C & D & E).
        split; [exact A|]. split; [exact C|]. split; [exact D|].
        apply Hsome, E.
    + intros c n Hcc Ho Hn Hpn. destruct (decide (p = n)) as [<-|Hne].
      * rewrite lookup_insert_eq. eauto.
      * rewrite lookup_insert_ne by exact Hne. apply (H5 c n); auto.
        intros Heq. destruct (Ho Heq) as [?|?]; [assumption | congruence].
    + intros c Hcc. assert (Hcp : p <> c) by (intros ->; contradiction).
      rewrite lookup_insert_ne by exact Hcp. auto.
  - cbn [distancesP]. rewrite lookup_insert_ne by exact Hpc. exact Hdc.
  - cbn [openP]. intros x Hx. unfold pq_push. apply in_or_app. left. exact Hx.
Qed.

Lemma fold_pathFunctor_link cur dc (l : list Position) : forall offered st,
  linkStep cur offered st ->
  cur ∈ closedP st -> source ∈ closedP st -> isFree g cur = false ->
  distancesP st !! cur = Some dc -> dc + 1 < intMax ->
  (forall p, In p l -> In p (pathNeighbors g onlyStraight cur)) ->
  let st' := fold_left (pathFunctor z g cur) l st in
  linkStep cur (fun n => offered n \/ In n l) st'
  /\ closedP st' = closedP st
  /\ (forall x, In x (openP st) -> In x (openP st')).
Proof.
  induction l as [|a l IH]; intros offered st Hinv Hcur Hsrc Hfree Hdc Hsmall Hl;
    cbv zeta; simpl.
  - split; [|auto]. apply (linkStep_offered cur offered); [|exact Hinv].
    intros n [?|[]]. assumption.
  - destruct (pathFunctor_link cur dc offered st a Hinv Hcur Hsrc Hfree Hdc Hsmall
                (Hl a (or_introl eq_refl))) as (A & B & C & D).
    cbv zeta in A, B, C, D.
    destruct (IH _ _ A) as (I1 & I2 & I3).
    + rewrite B. exact Hcur.
    + rewrite B. exact Hsrc.
    + exact Hfree.
    + exact C.
    + exact Hsmall.
    + intros p Hp. apply Hl. right. exact Hp.
    + cbv zeta in I1, I2, I3. split; [|split].
      * apply (linkStep_offered cur (fun n => (offered n \/ n = a) \/ In n l));
          [|exact I1].
        intros n [?|[<-|?]]; tauto.
      * rewrite I2. exact B.
      * intros x Hx. apply I3, D, Hx.
Qed.

(** The invariant at the head of the loop: every closed tile has been
    expanded. *)
Definition linkInv (st : PathSearch) : Prop :=
  linkStep source (fun _ => True) st.

(** One iteration of the loop on a tile that is not free. *)
Lemma pathSearch_link_iteration st cur dcur rest :
  pathInv z g source onlyStraight st -> linkInv st ->
  pq_pop Z.ltb (openP st) = Some ((cur, dcur), rest) ->
  isFree g cur = false ->
  linkInv (fold_left (pathFunctor z g cur) (pathNeighbors g onlyStraight cur)
             {| closedP := {[cur]} ∪ closedP st; openP := rest;
                cameFromP := cameFromP st; distancesP := distancesP st |}).
Proof.
  intros [Hinv Hsrc] Hlink Hpop Hfree.
  destruct (pq_pop_Some Z.ltb _ _ _ Hpop) as (Hlen & Hin & Hsub).
  pose proof (pq_pop_elems Z.ltb _ _ _ Hpop) as Helems.
  destruct (inv_open _ _ _ _ _ _ Hinv _ Hin) as [Hu [dc Hdc]]. cbn [fst] in Hu, Hdc.
  assert (Hsrc1 : source ∈ {[cur]} ∪ closedP st).
  { destruct Hsrc as [H|[_ H]]; [set_solver|].
    rewrite H in Hin. destruct Hin as [Heq|[]]. inversion Heq. set_solver. }
  destruct Hlink as [H1 H2 H3 H4 H5 H6].
  destruct (decide (cur ∈ closedP st)) as [Hstale|Hfresh].
  - (* the tile was closed before: nothing is pushed *)
    assert (Hcl : {[cur]} ∪ closedP st = closedP st) by set_solver.
    rewrite Hcl.
    rewrite (fold_pathFunctor_stale z g source cur dc);
      cbn [distancesP closedP]; [|exact Hdc|].
    + constructor; cbn [closedP openP cameFromP distancesP]; auto.
      intros p Hp. destruct (H2 p Hp) as [Hc|[d Hd]]; [left; exact Hc|].
      destruct (Helems _ Hd) as [Heq|Hr].
      * inversion Heq; subst. left. exact Hstale.
      * right. eauto.
    + intros n Hn. destruct (decide (n ∈ closedP st)) as [?|Hncl]; [left; assumption|].
      destruct (passable z g n) eqn:Hpass; [|right; left; reflexivity].
      right. right.
      destruct (inv_expanded _ _ _ _ _ _ Hinv cur n Hstale Hn Hncl Hpass)
        as (dn & dc' & Hdn & Hdc' & Hle).
      exists dn. split; [exact Hdn|]. congruence.
  - assert (Hsmall : dc + 1 < intMax).
    { pose proof (inv_dist _ _ _ _ _ _ Hinv cur dc Hdc).
      assert (Hsz : base.size ({[cur]} ∪ closedP st) = S (base.size (closedP st))).
      { rewrite size_union by set_solver. rewrite size_singleton. reflexivity. }
      assert (Hsubs : {[cur]} ∪ closedP st ⊆ tileUniverse g source).
      { apply union_subseteq. split; [apply singleton_subseteq_l; exact Hu|].
        apply (inv_closed _ _ _ _ _ _ Hinv). }
      pose proof (subseteq_size _ _ Hsubs). lia. }
    assert (Hstep : linkStep cur (fun _ => False)
              {| closedP := {[cur]} ∪ closedP st; openP := rest;
                 cameFromP := cameFromP st; distancesP := distancesP st |}).
    { constructor; cbn [closedP openP cameFromP distancesP]; auto.
      - intros p Hp. destruct (H2 p Hp) as [Hc|[d Hd]]; [left; set_solver|].
        destruct (Helems _ Hd) as [Heq|Hr].
        + inversion Heq; subst. left. set_solver.
        + right. eauto.
      - intros c n Hc Ho Hn Hpass.
        destruct (decide (c = cur)) as [->|Hne]; [destruct (Ho eq_refl)|].
        apply (H5 c n); auto. set_solver.
      - intros c Hc. apply elem_of_union in Hc as [Hc|Hc]; [|auto].
        apply elem_of_singleton in Hc. subst c. rewrite Hdc. eauto. }
    destruct (fold_pathFunctor_link cur dc (pathNeighbors g onlyStraight cur) _ _ Hstep)
      as (F1 & F2 & F3); cbn [closedP distancesP]; auto.
    { set_solver. }
    cbv zeta in F1, F2, F3. unfold linkInv.
    destruct F1 as [G1 G2 G3 G4 G5 G6]. constructor; auto.
    intros c n Hc _ Hn Hpass. apply (G5 c n); auto.
    intros ->. right. exact Hn.
Qed.

(** What is known when the loop ends. *)
Definition linkEndSpec (e : PathSearchEnd) : Prop :=
  match e with
  | ReachedFree node st =>
      isFree g node = true
      /\ connected z g onlyStraight source node
      /\ is_Some (cameFromP st !! node)
      /\ forall p c, p <> source -> cameFromP st !! p = Some c ->
           stepAllowed z g onlyStraight c p
           /\ isFree g c = false /\ connected z g onlyStraight source c
           /\ is_Some (cameFromP st !! c)
  | Exhausted closed =>
      (forall t, t ∈ closed <-> connected z g onlyStraight source t)
      /\ forall t, t ∈ closed -> isFree g t = false
  end.

Lemma pathSearch_link : forall fuel st e,
  pathInv z g source onlyStraight st -> linkInv st ->
  pathSearch z g onlyStraight fuel st = Some e -> linkEndSpec e.
Proof.
  induction fuel as [|fuel IH]; intros st e Hinv Hlink Hrun; [discriminate|].
  cbn [pathSearch] in Hrun.
  destruct (pq_pop Z.ltb (openP st)) as [[[cur dcur] rest]|] eqn:Hpop.
  - cbv zeta in Hrun. destruct (isFree g cur) eqn:Hfree.
    + inversion Hrun; subst e. clear Hrun. cbn [linkEndSpec cameFromP].
      destruct (pq_pop_Some Z.ltb _ _ _ Hpop) as (Hlen & Hin & Hsub).
      destruct Hinv as [Hinv Hsrc].
      destruct (inv_open _ _ _ _ _ _ Hinv _ Hin) as [Hu Hd]. cbn [fst] in Hu, Hd.
      destruct Hlink as [H1 H2 H3 H4 H5 H6].
      split; [exact Hfree|]. split; [apply H1; exact Hd|].
      split; [apply H3; exact Hd | exact H4].
    + apply (IH _ _ (proj1 (pathSearch_iteration z g source onlyStraight universe_small
                              st cur dcur rest Hinv Hpop Hfree))
               (pathSearch_link_iteration st cur dcur rest Hinv Hlink Hpop Hfree)).
      exact Hrun.
  - inversion Hrun; subst e. clear Hrun. apply pq_pop_None in Hpop.
    destruct Hinv as [Hinv Hsrc]. destruct Hlink as [H1 H2 H3 H4 H5 H6].
    cbn [linkEndSpec].
    assert (Hs : source ∈ closedP st).
    { destruct Hsrc as [H|[_ H]]; [exact H | congruence]. }
    split; [|apply (inv_notfree _ _ _ _ _ _ Hinv)].
    intros t. split.
    + intros Ht. apply H1, H6, Ht.
    + induction 1 as [|c n Hc IHc Hstep]; [exact Hs|].
      apply stepAllowed_iff in Hstep as [Hn Hpass].
      destruct (H2 n (H5 c n IHc (fun _ => I) Hn Hpass)) as [Hcl|[d Hd]]; [exact Hcl|].
      rewrite Hpop in Hd. contradiction.
Qed.

Lemma initialPathSearch_link : linkInv (initialPathSearch source).
Proof.
  constructor; cbn [initialPathSearch closedP openP cameFromP distancesP].
  - intros p [d Hp]. apply lookup_singleton_Some in Hp as [<- _]. constructor.
  - intros p [d Hp]. apply lookup_singleton_Some in Hp as [<- <-].
    right. exists 0. left. reflexivity.
  - intros p [d Hp]. apply lookup_singleton_Some in Hp as [<- _].
    rewrite lookup_singleton_eq. eauto.
  - intros p c Hp Hc. apply lookup_singleton_Some in Hc as [<- _]. contradiction.
  - intros c n Hc. apply elem_of_empty in Hc. contradiction.
  - intros c Hc. apply elem_of_empty in Hc. contradiction.
Qed.

End ConnectPathLinks.

(** The backtracking loop walks the links. *)
Lemma tracePath_walk (z : TemplateZone) (g : MapGenerator) (onlyStraight : bool)
    (source : Position) (cameFrom : gmap Position Position) :
  cameFrom !! source = Some invalidPosition ->
  (forall p c, p <> source -> cameFrom !! p = Some c ->
     stepAllowed z g onlyStraight c p
     /\ isFree g c = false /\ connected z g onlyStraight source c
     /\ is_Some (cameFrom !! c)) ->
  forall fuel p path, is_Some (cameFrom !! p) ->
  tracePath fuel cameFrom p = Some path ->
  exists rest, path = p :: rest
    /\ walkBack z g onlyStraight path
    /\ (isValid source = true -> last path = Some source).
Proof.
  intros Hs Hl. induction fuel as [|fuel IH]; intros p path Hp Hrun; [discriminate|].
  cbn [tracePath] in Hrun. unfold cameFromOf in Hrun.
  destruct (decide (p = source)) as [->|Hne].
  { rewrite Hs in Hrun. cbn in Hrun. inversion Hrun; subst.
    exists []. split; [reflexivity|]. split; [exact I | reflexivity]. }
  destruct Hp as [c Hc]. rewrite Hc in Hrun. cbn [default from_option Datatypes.id] in Hrun.
  destruct (Hl p c Hne Hc) as (A & C & D & E).
  destruct (isValid c) eqn:Hv.
  - destruct (tracePath fuel cameFrom c) as [rest|] eqn:Hrest; [|discriminate].
    inversion Hrun; subst path. clear Hrun.
    destruct (IH c rest E Hrest) as (rest' & -> & Hw & Hlast).
    exists (c :: rest'). split; [reflexivity|]. split.
    + cbn [walkBack]. split; [auto | exact Hw].
    + intros Hvs. rewrite last_cons. rewrite (Hlast Hvs). reflexivity.
  - inversion Hrun; subst path. clear Hrun.
    exists []. split; [reflexivity|]. split; [exact I|].
    intros Hvs. exfalso.
    destruct (connected_inMap _ _ _ _ _ D) as [-> | Hm]; [congruence|].
    apply isInTheMap_isValid in Hm. congruence.
Qed.

Lemma blocked_free_possible g t :
  isBlocked g t = false -> isFree g t = false -> isPossible g t = true.
Proof.
  unfold isBlocked, shouldBeBlocked, isUsed, isFree, isPossible.
  destruct (occupied (tiles g t)); simpl; congruence.
Qed.

Lemma connected_not_blocked z g onlyStraight source t :
  isBlocked g source = false ->
  connected z g onlyStraight source t -> isBlocked g t = false.
Proof.
  intros Hs [|c n _ (_ & _ & Hb & _)]; [exact Hs | exact Hb].
Qed.

(** C3. With fewer tiles than [INT_MAX], [connectPath] returns within
    [connectPathFuel] iterations and touches nothing but the occupancy grid
    and [possibleTiles]. It returns [true] exactly when a free tile is
    connected to the source. When it returns [false], the closed set is the
    set of the tiles connected to the source; every closed tile has left
    [possibleTiles], the closed tiles that were [Possible] are [Blocked], and
    every other tile keeps its state; when the source is not blocked, as the
    caller has tested, every closed tile was [Possible], so the tiles that
    were [Possible] are all that changes. When it returns [true],
    [possibleTiles] is as before; the backtracked path starts at a free tile
    and walks back over passable neighbours that are not free, to the source
    when that is a valid position; the tiles of the path are [Free], and every
    other tile keeps its state. *)
Theorem connectPath_outcome (z : TemplateZone) (source : Position)
    (onlyStraight : bool) :
  Z.of_nat (base.size (tileUniverse (mapGenerator z) source)) < intMax ->
  exists result z',
    connectPath (connectPathFuel (mapGenerator z) source) z source onlyStraight
    = Some (result, z')
    /\ sameBesidesGrid z z'
    /\ (result = true <->
        exists t, connected z (mapGenerator z) onlyStraight source t
                  /\ isFree (mapGenerator z) t = true)
    /\ if result
       then possibleTiles z' = possibleTiles z
            /\ exists node path,
                 isFree (mapGenerator z) node = true
                 /\ walkBack z (mapGenerator z) onlyStraight (node :: path)
                 /\ (isValid source = true -> last (node :: path) = Some source)
                 /\ forall t, occupied (tiles (mapGenerator z') t)
                      = if bool_decide (t ∈ node :: path) then Free
                        else occupied (tiles (mapGenerator z) t)
       else exists closed : gset Position,
              (forall t, t ∈ closed
                         <-> connected z (mapGenerator z) onlyStraight source t)
              /\ (isBlocked (mapGenerator z) source = false ->
                  forall t, t ∈ closed -> isPossible (mapGenerator z) t = true)
              /\ possibleTiles z' = possibleTiles z ∖ closed
              /\ forall t, occupied (tiles (mapGenerator z') t)
                   = if bool_decide (t ∈ closed) && isPossible (mapGenerator z) t
                     then Blocked
                     else occupied (tiles (mapGenerator z) t).
Proof.
  intros Hsmall. unfold connectPath.
  destruct (pathSearch_total z (mapGenerator z) source onlyStraight Hsmall
              (connectPathFuel (mapGenerator z) source) (initialPathSearch source))
    as (e & Hrun & He).
  { apply initialPathSearch_inv. }
  { apply initialPathSearch_measure. }
  pose proof (pathSearch_link z (mapGenerator z) source onlyStraight Hsmall _ _ e
                (initialPathSearch_inv z (mapGenerator z) source onlyStraight)
                (initialPathSearch_link z (mapGenerator z) source onlyStraight) Hrun)
    as Hl.
  rewrite Hrun.
  destruct e as [node st|closed]; cbn [pathSearchEndSpec linkEndSpec] in He, Hl.
  - destruct He as (Hfree & Hs & Hc & Hd & [d Hn]).
    destruct Hl as (_ & Hconn & Hcame & Hlink).
    destruct (tracePath_total source (cameFromP st) (distancesP st) Hs Hc
                (fun p d H => proj1 (Hd p d H))
                (connectPathFuel (mapGenerator z) source) node d Hn) as (path & Htrace).
    { pose proof (Hd node d Hn). unfold connectPathFuel. lia. }
    rewrite Htrace.
    destruct (tracePath_walk z (mapGenerator z) onlyStraight source (cameFromP st) Hs Hlink
                _ node _ Hcame Htrace) as (rest & Heq & Hwalk & Hlast).
    exists true. eexists. split; [reflexivity|]. split; [|split].
    + unfold sameBesidesGrid.
      cbn [id borderType gapChance pos center tileInfo freePaths roadNodes roads
           mapGenerator withGenerator].
      pose proof (setFree_sameBesidesOccupied (node :: path) (mapGenerator z)). tauto.
    + split; [intros _; exists node; split; assumption | reflexivity].
    + split; [reflexivity|]. exists node, path. split; [exact Hfree|].
      split; [exact Hwalk|]. split; [exact Hlast|].
      intros t. cbn [mapGenerator withGenerator]. apply setFree_occupied.
  - destruct Hl as [Hiff Hnf].
    destruct (fold_sealTile (elements closed) z) as (F1 & F2 & F3).
    cbv zeta in F1, F2, F3.
    exists false. eexists. split; [reflexivity|]. split; [exact F3|]. split.
    + split; [discriminate|]. intros (t & Ht & Hfree).
      apply Hiff in Ht. rewrite (Hnf t Ht) in Hfree. discriminate.
    + exists closed. split; [exact Hiff|]. split; [|split].
      * intros Hsrc t Ht. apply blocked_free_possible; [|apply Hnf, Ht].
        apply (connected_not_blocked z (mapGenerator z) onlyStraight source);
          [exact Hsrc | apply Hiff, Ht].
      * rewrite F1, list_to_set_elements_L. reflexivity.
      * intros t. rewrite F2.
        rewrite (bool_decide_ext (t ∈ elements closed) (t ∈ closed))
          by apply elem_of_elements.
        reflexivity.
Qed.

(** A run of the statement: the possible tile (1, 1) is walled in by blocked
    tiles. *)
Lemma connectPath_outcome_witness :
  let z := pocketZone Possible Blocked {[ (1, 1) ]} in
  exists result z',
    connectPath (connectPathFuel (mapGenerator z) (1, 1)) z (1, 1) true
    = Some (result, z')
    /\ sameBesidesGrid z z'
    /\ (result = true <->
        exists t, connected z (mapGenerator z) true (1, 1) t
                  /\ isFree (mapGenerator z) t = true)
    /\ if result
       then possibleTiles z' = possibleTiles z
            /\ exists node path,
                 isFree (mapGenerator z) node = true
                 /\ walkBack z (mapGenerator z) true (node :: path)
                 /\ (isValid (1, 1) = true -> last (node :: path) = Some (1, 1))
                 /\ forall t, occupied (tiles (mapGenerator z') t)
                      = if bool_decide (t ∈ node :: path) then Free
                        else occupied (tiles (mapGenerator z) t)
       else exists closed : gset Position,
              (forall t, t ∈ closed <-> connected z (mapGenerator z) true (1, 1) t)
              /\ (isBlocked (mapGenerator z) (1, 1) = false ->
                  forall t, t ∈ closed -> isPossible (mapGenerator z) t = true)
              /\ possibleTiles z' = possibleTiles z ∖ closed
              /\ forall t, occupied (tiles (mapGenerator z') t)
                   = if bool_decide (t ∈ closed) && isPossible (mapGenerator z) t
                     then Blocked
                     else occupied (tiles (mapGenerator z) t).
Proof.
  cbv zeta.
  apply (connectPath_outcome (pocketZone Possible Blocked {[ (1, 1) ]}) (1, 1) true).
  vm_compute. reflexivity.
Defined.

(** Two runs: the walled-in tile is sealed off, and from the corner of a map
    with free tiles the path is set free. *)
Example connectPath_sample_runs :
  option_map
    (fun r => (fst r, elements (possibleTiles (snd r)),
               occupied (tiles (mapGenerator (snd r)) (1, 1))))
    (connectPath (connectPathFuel (pocketGenerator Possible Blocked) (1, 1))
       (pocketZone Possible Blocked {[ (1, 1) ]}) (1, 1) true)
  = Some (false, [], Blocked)
  /\ option_map
       (fun r => (fst r, map (fun t => occupied (tiles (mapGenerator (snd r)) t))
                           [(3, 2); (2, 2); (1, 2); (3, 3)]))
       (connectPath (connectPathFuel roadGenerator (3, 2)) roadZone (3, 2) true)
     = Some (true, [Free; Free; Free; Possible]).
Proof. split; vm_compute; reflexivity. Qed.

(** ** Stack composer (createStack) *)

Lemma pickLeader_Some gi filters r x r' :
  pickLeader gi filters r = (Some x, r') ->
  In x (getLeaders gi) /\ accepted filters x = true.
Proof.
  intros H. apply (pick_Some (getLeaders gi) filters r). unfold pickLeader in H.
  rewrite H. reflexivity.
Qed.

Lemma pickUnit_Some gi filters r x r' :
  pickUnit gi filters r = (Some x, r') ->
  In x (getSoldiers gi) /\ accepted filters x = true.
Proof.
  intros H. apply (pick_Some (getSoldiers gi) filters r). unfold pickUnit in H.
  rewrite H. reflexivity.
Qed.

Lemma createStackLeaderPass_In gi allowedSubraces minValueCoeff canPlaceBig
    (unitValues : list Z) : forall i unused r leaderInfo res r',
  createStackLeaderPass gi allowedSubraces minValueCoeff canPlaceBig unitValues i unused r
  = (Some (leaderInfo, res), r') ->
  In leaderInfo (getLeaders gi).
Proof.
  induction unitValues as [|v rest IH]; intros i unused r leaderInfo res r' H;
    simpl in H; [discriminate|].
  match type of H with
  | context [pickLeader gi ?fs r] => destruct (pickLeader gi fs r) as [[info|] r1] eqn:Hp
  end.
  - inversion H; subst.
    apply pickLeader_Some in Hp. tauto.
  - eapply IH; eauto.
Qed.

Lemma createStackLeaderLoop_In gi allowedSubraces (attempts : nat) :
  forall minValueCoeff unusedValue unitValues r leaderInfo res r',
  createStackLeaderLoop gi allowedSubraces attempts minValueCoeff unusedValue unitValues r
  = (Some (leaderInfo, res), r') ->
  In leaderInfo (getLeaders gi).
Proof.
  induction attempts as [|n IH]; intros c u vs r leaderInfo res r' H; simpl in H;
    [discriminate|].
  match type of H with
  | context [createStackLeaderPass ?a ?b ?c ?d ?e ?f ?g ?h] =>
      destruct (createStackLeaderPass a b c d e f g h) as [[[info res1]|] r1] eqn:Hp
  end.
  - inversion H; subst. eapply createStackLeaderPass_In; eauto.
  - eapply IH; eauto.
Qed.

(** [createStackLeader] gives a leader of the catalog, and gives one whenever
    the catalog has a leader of the least value. *)
Lemma createStackLeader_In gi unusedValue valuesConsumed unitValues allowedSubraces r
    leaderInfo res r' :
  createStackLeader gi unusedValue valuesConsumed unitValues allowedSubraces r
  = (Some leaderInfo, res, r') ->
  In leaderInfo (getLeaders gi).
Proof.
  unfold createStackLeader. intros H.
  match type of H with
  | context [createStackLeaderLoop ?a ?b ?c ?d ?e ?f ?g] =>
      destruct (createStackLeaderLoop a b c d e f g) as [[[info res1]|] r1] eqn:Hl
  end.
  - inversion H; subst. eapply createStackLeaderLoop_In; eauto.
  - destruct (find _ (getLeaders gi)) as [info|] eqn:Hf; inversion H; subst.
    apply find_some in Hf. tauto.
Qed.

Lemma createStackLeader_Some gi unusedValue valuesConsumed unitValues allowedSubraces r :
  existsb (fun info => getValue info =? getMinLeaderValue gi) (getLeaders gi) = true ->
  exists leaderInfo res r',
    createStackLeader gi unusedValue valuesConsumed unitValues allowedSubraces r
    = (Some leaderInfo, res, r').
Proof.
  intros Hex. unfold createStackLeader.
  match goal with
  | |- context [createStackLeaderLoop ?a ?b ?c ?d ?e ?f ?g] =>
      destruct (createStackLeaderLoop a b c d e f g) as [[[info res1]|] r1]
  end; [eauto|].
  destruct (find _ (getLeaders gi)) as [info|] eqn:Hf; [eauto|].
  apply existsb_exists in Hex as (x & Hin & Hx).
  rewrite (find_none _ _ Hf x Hin) in Hx. discriminate.
Qed.

Lemma pickStackLeader_In gi unusedValue valuesConsumed unitValues ids r leaderInfo res r' :
  pickStackLeader gi unusedValue valuesConsumed unitValues ids r
  = (Some leaderInfo, res, r') ->
  In leaderInfo (getLeaders gi).
Proof.
  unfold pickStackLeader. intros H.
  match type of H with
  | context [pickLeader gi ?fs r] => destruct (pickLeader gi fs r) as [[info|] r1] eqn:Hp
  end.
  - destruct (consumeValues info unitValues 0 unusedValue valuesConsumed).
    inversion H; subst.
    apply pickLeader_Some in Hp. tauto.
  - inversion H.
Qed.

Lemma secondPositionOf_involutive p : secondPositionOf (secondPositionOf p) = p.
Proof.
  unfold secondPositionOf. destruct (Nat.even p) eqn:E.
  - rewrite Nat.even_succ, <- Nat.negb_even, E. reflexivity.
  - destruct p as [|q]; [discriminate|]. cbn [Nat.pred].
    rewrite Nat.even_succ, <- Nat.negb_even in E. apply negb_false_iff in E.
    rewrite E. reflexivity.
Qed.

Lemma secondPositionOf_neq p : secondPositionOf p <> p.
Proof.
  unfold secondPositionOf. destruct (Nat.even p) eqn:E; [lia|].
  destruct p; [discriminate | simpl; lia].
Qed.

Lemma secondPositionOf_lt p : (p < 6)%nat -> (secondPositionOf p < 6)%nat.
Proof.
  intros H. do 6 (destruct p as [|p]; [cbv; lia|]). lia.
Qed.

Lemma erase_In q p l : In q (erase p l) <-> In q l /\ q <> p.
Proof.
  unfold erase. rewrite List.filter_In, negb_true_iff, Nat.eqb_neq. tauto.
Qed.

Lemma erase_length p l : (length (erase p l) <= length l)%nat.
Proof. apply List.filter_length_le. Qed.

Lemma erase_length_lt p l : In p l -> (length (erase p l) < length l)%nat.
Proof.
  unfold erase. induction l as [|a l IH]; intros H; [destruct H|]. simpl.
  destruct (Nat.eqb_spec a p) as [->|Hne]; simpl.
  - pose proof (List.filter_length_le (fun q => negb (q =? p)%nat) l). lia.
  - destruct H as [H|H]; [contradiction|]. specialize (IH H). lia.
Qed.

Lemma inPositions_In p l : inPositions p l = true -> In p l.
Proof.
  unfold inPositions. intros H. apply existsb_exists in H as (q & Hin & Hq).
  apply Nat.eqb_eq in Hq. subst. exact Hin.
Qed.

(** The invariant of [createGroup] and [tightenGroup]. The units picked are
    soldiers of the catalog; a big unit stands in both entries of its column;
    the free positions and the [reserved] ones, those of the leader, hold no
    unit. *)
Definition bigPaired (units : GroupUnits) : Prop :=
  forall i x, units !! i = Some (Some x) -> isBig x = true ->
    units !! secondPositionOf i = Some (Some x).

Record composerInv (gi : GameInfo) (reserved free : list nat) (units : GroupUnits)
    : Prop := mkComposerInv {
  ci_length : length units = 6%nat;
  ci_paired : bigPaired units;
  ci_soldiers : forall i x, units !! i = Some (Some x) -> In x (getSoldiers gi);
  ci_free : forall p, In p free -> (p < 6)%nat /\ units !! p = Some None;
  ci_reserved : forall p, In p reserved -> units !! p = Some None /\ ~ In p free
}.

Lemma composerInv_small gi reserved free units q info :
  composerInv gi reserved free units -> In q free ->
  In info (getSoldiers gi) -> isBig info = false ->
  composerInv gi reserved (erase q free) (<[q := Some info]> units).
Proof.
  intros [Hlen Hpair Hsol Hfree Hres] Hq Hin Hsmall.
  destruct (Hfree q Hq) as [Hq6 Hqn].
  constructor.
  - rewrite length_insert. exact Hlen.
  - intros i x Hi Hbig. apply list_lookup_insert_Some in Hi as [(-> & Hx & _)|[Hne Hi]].
    + inversion Hx; subst. congruence.
    + pose proof (Hpair i x Hi Hbig) as Hy.
      rewrite list_lookup_insert_ne; [exact Hy|]. intros ->. congruence.
  - intros i x Hi. apply list_lookup_insert_Some in Hi as [(-> & Hx & _)|[Hne Hi]].
    + inversion Hx; subst. exact Hin.
    + eapply Hsol; eauto.
  - intros p Hp. apply erase_In in Hp as [Hp Hne]. destruct (Hfree p Hp) as [? ?].
    split; [assumption|]. rewrite list_lookup_insert_ne by congruence. assumption.
  - intros p Hp. destruct (Hres p Hp) as [Hn Hnf]. split.
    + rewrite list_lookup_insert_ne; [exact Hn|]. intros ->. contradiction.
    + rewrite erase_In. tauto.
Qed.

Lemma composerInv_big gi reserved free units p info :
  composerInv gi reserved free units -> In p free -> In (secondPositionOf p) free ->
  In info (getSoldiers gi) -> isBig info = true ->
  composerInv gi reserved (erase (secondPositionOf p) (erase p free))
    (<[secondPositionOf p := Some info]> (<[p := Some info]> units)).
Proof.
  intros [Hlen Hpair Hsol Hfree Hres] Hp Hp' Hin Hbig.
  destruct (Hfree p Hp) as [Hp6 Hpn]. destruct (Hfree _ Hp') as [Hp6' Hpn'].
  pose proof (secondPositionOf_neq p) as Hne.
  constructor.
  - rewrite !length_insert. exact Hlen.
  - intros i x Hi Hb.
    destruct (decide (i = secondPositionOf p)) as [->|Hi1].
    { rewrite list_lookup_insert_eq in Hi by (rewrite length_insert; lia).
      inversion Hi; subst x.
      rewrite secondPositionOf_involutive.
      rewrite list_lookup_insert_ne by exact Hne.
      apply list_lookup_insert_eq. lia. }
    destruct (decide (i = p)) as [->|Hi2].
    { rewrite list_lookup_insert_ne in Hi by exact Hne.
      rewrite list_lookup_insert_eq in Hi by lia. inversion Hi; subst x.
      apply list_lookup_insert_eq. rewrite length_insert. lia. }
    rewrite !list_lookup_insert_ne in Hi by congruence.
    pose proof (Hpair i x Hi Hb) as Hy.
    rewrite !list_lookup_insert_ne; [exact Hy| |];
      intros E; apply (f_equal secondPositionOf) in E;
      rewrite ?secondPositionOf_involutive in E; congruence.
  - intros i x Hi.
    apply list_lookup_insert_Some in Hi as [(_ & Hx & _)|[_ Hi]];
      [inversion Hx; subst; exact Hin|].
    apply list_lookup_insert_Some in Hi as [(_ & Hx & _)|[_ Hi]];
      [inversion Hx; subst; exact Hin|].
    eapply Hsol; eauto.
  - intros q Hq. apply erase_In in Hq as [Hq Hq1]. apply erase_In in Hq as [Hq Hq2].
    destruct (Hfree q Hq) as [? ?]. split; [assumption|].
    rewrite !list_lookup_insert_ne by congruence. assumption.
  - intros q Hq. destruct (Hres q Hq) as [Hn Hnf]. split.
    + rewrite !list_lookup_insert_ne; [exact Hn| |]; intros E; subst; contradiction.
    + rewrite !erase_In. tauto.
Qed.

(** Placing a picked unit keeps the invariant and frees no position. *)
Lemma placePicked_inv gi reserved free units canPlaceBig frontline p info free' units' :
  composerInv gi reserved free units -> In p free ->
  (canPlaceBig = true -> In (secondPositionOf p) free) ->
  In info (getSoldiers gi) ->
  (isBig info = true -> canPlaceBig = true) ->
  placePicked canPlaceBig frontline p (secondPositionOf p) info free units
  = (free', units') ->
  composerInv gi reserved free' units' /\ (length free' < length free)%nat.
Proof.
  intros Hinv Hp Hsecond Hin Hbig. unfold placePicked.
  destruct (isBig info) eqn:Hb.
  - intros H. inversion H; subst. split.
    + apply composerInv_big; auto.
    + pose proof (erase_length (secondPositionOf p) (erase p free)).
      pose proof (erase_length_lt p free Hp). lia.
  - assert (Hfinal : forall q, In q free -> (erase q free, <[q := Some info]> units)
                       = (free', units') ->
              composerInv gi reserved free' units' /\ (length free' < length free)%nat).
    { intros q Hq H. inversion H; subst. split.
      - apply composerInv_small; auto.
      - apply erase_length_lt. exact Hq. }
    destruct canPlaceBig; cbn [andb].
    + specialize (Hsecond eq_refl).
      destruct frontline; cbn [andb negb];
        destruct (ReachType_eqb (getAttackReach info) ReachAdjacent); cbn [negb];
        apply Hfinal; assumption.
    + apply Hfinal; assumption.
Qed.

(** A unit that the filters of [createGroup] and [tightenGroup] accept is a
    soldier of the catalog, and is big only when a big one can be placed. *)
Lemma groupFilters_accepted gi allowedSubraces canPlaceBig frontline minValue v r info r' :
  pickUnit gi (groupFilters gi allowedSubraces canPlaceBig frontline minValue v) r
  = (Some info, r') ->
  In info (getSoldiers gi) /\ (isBig info = true -> canPlaceBig = true).
Proof.
  intros H. apply pickUnit_Some in H as [Hin Hacc]. split; [exact Hin|].
  intros Hbig.
  assert (Hf : groupFilter allowedSubraces canPlaceBig frontline info = false).
  { eapply accepted_In; [exact Hacc|]. left. reflexivity. }
  unfold groupFilter in Hf.
  destruct (subraceRejected allowedSubraces info); [discriminate|].
  rewrite Hbig in Hf. destruct canPlaceBig; [reflexivity | discriminate].
Qed.

Lemma createGroupLoop_inv gi allowedSubraces reserved total (unitValues : list Z) :
  forall st,
  composerInv gi reserved (positions st) (groupUnits st) ->
  composerInv gi reserved
    (positions (createGroupLoop gi allowedSubraces total unitValues st))
    (groupUnits (createGroupLoop gi allowedSubraces total unitValues st))
  /\ (length (positions (createGroupLoop gi allowedSubraces total unitValues st))
      <= length (positions st))%nat.
Proof.
  induction unitValues as [|v rest IH]; intros st Hinv; cbn [createGroupLoop].
  - split; [exact Hinv | lia].
  - destruct (positions st) as [|q0 free0] eqn:Hpos.
    { rewrite <- Hpos in Hinv. split; [exact Hinv | rewrite Hpos; simpl; lia]. }
    rewrite <- Hpos in Hinv |- *. cbv zeta.
    destruct (Random.getRandomElement (positions st) (rand st)) as [[p|] r] eqn:Hr.
    2:{ split; [exact Hinv | lia]. }
    assert (Hp : In p (positions st)).
    { apply (getRandomElement_In _ (rand st)). rewrite Hr. reflexivity. }
    match goal with
    | |- context [pickUnit gi ?fs r] => destruct (pickUnit gi fs r) as [[info|] r2] eqn:Hpick
    end.
    + apply groupFilters_accepted in Hpick as [Hin Hbig].
      match goal with
      | |- context [placePicked ?c ?f p ?s info ?fr ?us] =>
          destruct (placePicked c f p s info fr us) as [free' units'] eqn:Hpl
      end.
      apply (placePicked_inv gi reserved) in Hpl as [Hinv' Hlen']; auto.
      * destruct (IH {| unusedValue := v + unusedValue st - getValue info;
                        positions := free'; groupUnits := units'; rand := r2 |} Hinv')
          as [I1 I2].
        cbn [positions] in I2. split; [exact I1 | lia].
      * intros Hc. rewrite !andb_true_iff in Hc.
        apply inPositions_In. tauto.
    + destruct (IH {| unusedValue := unusedValue st + v; positions := positions st;
                      groupUnits := groupUnits st; rand := r2 |} Hinv) as [I1 I2].
      cbn [positions] in I2. split; [exact I1 | lia].
Qed.

(** [tightenGroup] ends: a failed pick counts towards the 200, a pick takes a
    position away. *)
Lemma tightenGroupLoop_total gi allowedSubraces reserved (fuel : nat) :
  forall minValueCoeff failedAttempts st,
  composerInv gi reserved (positions st) (groupUnits st) ->
  0 <= failedAttempts ->
  (201 * length (positions st) + Z.to_nat (200 - failedAttempts) < fuel)%nat ->
  exists st',
    tightenGroupLoop fuel gi allowedSubraces minValueCoeff failedAttempts st = Some st'
    /\ composerInv gi reserved (positions st') (groupUnits st').
Proof.
  induction fuel as [|fuel IH]; intros c failed st Hinv Hf Hm; [lia|].
  cbn [tightenGroupLoop].
  destruct ((failed <? 200)
            && negb (match positions st with [] => true | _ => false end)
            && (getMinSoldierValue gi <=? unusedValue st)) eqn:Hcond; [|eauto].
  rewrite !andb_true_iff in Hcond. destruct Hcond as [[Hlt _] _].
  apply Z.ltb_lt in Hlt. cbv zeta.
  destruct (Random.getRandomElement (positions st) (rand st)) as [[p|] r] eqn:Hr;
    [|eauto].
  assert (Hp : In p (positions st)).
  { apply (getRandomElement_In _ (rand st)). rewrite Hr. reflexivity. }
  match goal with
  | |- context [pickUnit gi ?fs r] => destruct (pickUnit gi fs r) as [[info|] r2] eqn:Hpick
  end.
  - apply groupFilters_accepted in Hpick as [Hin Hbig].
    match goal with
    | |- context [placePicked ?c ?f p ?s info ?fr ?us] =>
        destruct (placePicked c f p s info fr us) as [free' units'] eqn:Hpl
    end.
    apply (placePicked_inv gi reserved) in Hpl as [Hinv' Hlen']; auto.
    + apply IH; cbn [positions groupUnits]; [exact Hinv' | lia | lia].
    + intros Hc. rewrite !andb_true_iff in Hc. apply inPositions_In. tauto.
  - apply IH; cbn [positions groupUnits]; [exact Hinv | lia | lia].
Qed.

Lemma placeLeader_inv gi leaderInfo :
  let reserved := if isBig leaderInfo then [2; 3]%nat else [fst (placeLeader leaderInfo)] in
  composerInv gi reserved (snd (placeLeader leaderInfo)) noUnits
  /\ (length (snd (placeLeader leaderInfo)) <= 5)%nat
  /\ (fst (placeLeader leaderInfo) = 2%nat \/ fst (placeLeader leaderInfo) = 3%nat)
  /\ (isBig leaderInfo = true -> fst (placeLeader leaderInfo) = 2%nat).
Proof.
  assert (Hinv : forall reserved free,
            (forall p, In p free -> (p < 6)%nat) ->
            (forall p, In p reserved -> (p < 6)%nat /\ ~ In p free) ->
            composerInv gi reserved free noUnits).
  { intros reserved free Hf Hr. constructor.
    - reflexivity.
    - intros i x Hi. do 6 (destruct i as [|i]; [discriminate|]). discriminate.
    - intros i x Hi. do 6 (destruct i as [|i]; [discriminate|]). discriminate.
    - intros p Hp. specialize (Hf p Hp). split; [exact Hf|].
      do 6 (destruct p as [|p]; [reflexivity|]). lia.
    - intros p Hp. destruct (Hr p Hp) as [H6 Hn]. split; [|exact Hn].
      do 6 (destruct p as [|p]; [reflexivity|]). lia. }
  unfold placeLeader. cbv zeta.
  destruct (isBig leaderInfo);
    [|destruct (isSupport leaderInfo);
      [|destruct (negb (ReachType_eqb (getAttackReach leaderInfo) ReachAdjacent))]];
    cbn [fst snd];
    (split; [apply Hinv; cbv; intuition lia
            | split; [cbv; lia | split; [auto | auto; intros; discriminate]]]).
Qed.

(** The two entries of a column: a big unit stands in both. *)
Definition columnOK (a b : option UnitInfo) : Prop :=
  (forall x, a = Some x -> isBig x = true -> b = Some x)
  /\ (forall y, b = Some y -> isBig y = true -> a = Some y).

Definition occupiedEntry (a : option UnitInfo) : Z :=
  match a with Some _ => 1 | None => 0 end.

Definition occupiedEntries (units : GroupUnits) : Z :=
  fold_right (fun a n => occupiedEntry a + n) 0 units.

Lemma occupiedEntries_nonneg units : 0 <= occupiedEntries units.
Proof.
  unfold occupiedEntries. induction units as [|[x|] l IH]; cbn [fold_right occupiedEntry]; lia.
Qed.

Lemma bigPaired_columns units :
  length units = 6%nat -> bigPaired units ->
  exists a0 a1 a2 a3 a4 a5, units = [a0; a1; a2; a3; a4; a5]
    /\ columnOK a0 a1 /\ columnOK a2 a3 /\ columnOK a4 a5.
Proof.
  intros Hlen Hp. do 6 (destruct units as [|? units]; [discriminate|]).
  destruct units; [|discriminate].
  eexists _, _, _, _, _, _. split; [reflexivity|].
  unfold columnOK.
  split; [|split]; (split; intros x -> Hb).
  - pose proof (Hp 0%nat x eq_refl Hb) as H. simpl in H. congruence.
  - pose proof (Hp 1%nat x eq_refl Hb) as H. simpl in H. congruence.
  - pose proof (Hp 2%nat x eq_refl Hb) as H. simpl in H. congruence.
  - pose proof (Hp 3%nat x eq_refl Hb) as H. simpl in H. congruence.
  - pose proof (Hp 4%nat x eq_refl Hb) as H. simpl in H. congruence.
  - pose proof (Hp 5%nat x eq_refl Hb) as H. simpl in H. congruence.
Qed.

Lemma leadershipLoop_column a b rest acc :
  columnOK a b ->
  leadershipLoop (a :: b :: rest) false acc
  = leadershipLoop rest false (acc + occupiedEntry a + occupiedEntry b).
Proof.
  intros [Ha Hb]. destruct a as [x|], b as [y|]; cbn [leadershipLoop occupiedEntry].
  - destruct (isBig x) eqn:Ex.
    + f_equal; lia.
    + destruct (isBig y) eqn:Ey.
      * specialize (Hb y eq_refl Ey). congruence.
      * f_equal; lia.
  - destruct (isBig x) eqn:Ex; [specialize (Ha x eq_refl Ex); discriminate|].
    f_equal; lia.
  - destruct (isBig y) eqn:Ey; [specialize (Hb y eq_refl Ey); discriminate|].
    f_equal; lia.
  - f_equal; lia.
Qed.

(** The leadership asked for is one per entry taken, on top of the leader's
    own. *)
Lemma leadershipLoop_entries units acc :
  length units = 6%nat -> bigPaired units ->
  leadershipLoop units false acc = acc + occupiedEntries units.
Proof.
  intros Hlen Hp.
  destruct (bigPaired_columns units Hlen Hp)
    as (a0 & a1 & a2 & a3 & a4 & a5 & -> & C0 & C1 & C2).
  rewrite (leadershipLoop_column _ _ _ _ C0), (leadershipLoop_column _ _ _ _ C1),
    (leadershipLoop_column _ _ _ _ C2).
  unfold occupiedEntries. simpl. lia.
Qed.

Lemma nth_error_list_lookup {A : Type} (l : list A) : forall i, nth_error l i = l !! i.
Proof. induction l as [|a l IH]; intros [|i]; simpl; auto. Qed.

Lemma Group_addUnit_small group unitId i :
  slots group !! i = Some None ->
  snd (Group_addUnit group unitId i false)
  = {| slots := <[i := Some unitId]> (slots group); groupLeader := groupLeader group |}.
Proof.
  intros H. unfold Group_addUnit, placeInGroup, slotFree.
  rewrite nth_error_list_lookup, H. reflexivity.
Qed.

Lemma Group_addUnit_big group unitId i :
  slots group !! i = Some None -> slots group !! secondSlot i = Some None ->
  snd (Group_addUnit group unitId i true)
  = {| slots := <[secondSlot i := Some unitId]> (<[i := Some unitId]> (slots group));
       groupLeader := groupLeader group |}.
Proof.
  intros H1 H2. unfold Group_addUnit, placeInGroup, slotFree.
  rewrite !nth_error_list_lookup, H1, H2. reflexivity.
Qed.

(** [g'] comes after [g]: ids handed out by [g] are not handed out again,
    and the objects stored under them are kept. *)
Definition laterGenerator (g g' : MapGenerator) : Prop :=
  freeIdIndex g <= freeIdIndex g'
  /\ forall k, snd k < freeIdIndex g -> objects g' !! k = objects g !! k.

Lemma laterGenerator_refl g : laterGenerator g g.
Proof. split; [lia | reflexivity]. Qed.

Lemma laterGenerator_trans g1 g2 g3 :
  laterGenerator g1 g2 -> laterGenerator g2 g3 -> laterGenerator g1 g3.
Proof.
  intros [A1 A2] [B1 B2]. split; [lia|].
  intros k Hk. rewrite B2 by lia. apply A2. exact Hk.
Qed.

Lemma createUnit_later g type o :
  objectId o = (type, freeIdIndex g) ->
  laterGenerator g (insertObject (snd (createId g type)) o)
  /\ freeIdIndex (insertObject (snd (createId g type)) o) = freeIdIndex g + 1
  /\ objects (insertObject (snd (createId g type)) o) !! (type, freeIdIndex g) = Some o
  /\ randomGenerator (insertObject (snd (createId g type)) o) = randomGenerator g.
Proof.
  intros Hid.
  unfold laterGenerator, insertObject, createId, withObjects, withFreeIdIndex.
  cbn [snd objects freeIdIndex randomGenerator].
  rewrite Hid. split; [split; [lia|]|split; [reflexivity|split; [|reflexivity]]].
  - intros k Hk. apply lookup_insert_ne. intros <-. simpl in Hk. lia.
  - apply lookup_insert_eq.
Qed.

(** What [createGroupUnits] leaves in a slot: the unit created for the entry,
    under an id handed out since [lo], or what the slot held. *)
Definition slotFilled (lo : Z) (g' : MapGenerator) (entry : option UnitInfo)
    (old new : option (option CMidgardID)) : Prop :=
  match entry with
  | Some x =>
      exists n, lo <= n < freeIdIndex g'
        /\ new = Some (Some (IdType.Unit, n))
        /\ objects g' !! (IdType.Unit, n) = Some (unitObject (IdType.Unit, n) (unitOf x))
  | None => new = old
  end.

Lemma slotFilled_later lo lo' g g' entry old new :
  slotFilled lo g entry old new -> lo' <= lo -> laterGenerator g g' ->
  slotFilled lo' g' entry old new.
Proof.
  unfold slotFilled. destruct entry as [x|]; [|auto].
  intros (n & Hn & Hnew & Hobj) Hlo [Hidx Hkeep].
  exists n. split; [lia|]. split; [exact Hnew|].
  rewrite Hkeep by (simpl; lia). exact Hobj.
Qed.

Lemma createGroupUnitsLoop_unit x rest p g group :
  createGroupUnitsLoop (Some x :: rest) p false g group
  = createGroupUnitsLoop rest (S p) (isBig x)
      (insertObject (snd (createId g IdType.Unit))
         (unitObject (IdType.Unit, freeIdIndex g) (unitOf x)))
      (snd (Group_addUnit group (IdType.Unit, freeIdIndex g) p (isBig x))).
Proof. reflexivity. Qed.

(** One entry that is not a big unit: the slot of its position is filled, or
    left alone when the entry is empty. *)
Lemma createGroupUnitsLoop_entry (e : option UnitInfo) rest q g group :
  (forall x, e = Some x -> isBig x = false) ->
  (e <> None -> slots group !! q = Some None) ->
  (q < length (slots group))%nat ->
  exists g' group',
    createGroupUnitsLoop (e :: rest) q false g group
    = createGroupUnitsLoop rest (S q) false g' group'
    /\ laterGenerator g g'
    /\ groupLeader group' = groupLeader group
    /\ length (slots group') = length (slots group)
    /\ (forall i, i <> q -> slots group' !! i = slots group !! i)
    /\ slotFilled (freeIdIndex g) g' e (slots group !! q) (slots group' !! q).
Proof.
  intros Hsmall Hfree Hlen. destruct e as [x|].
  - rewrite createGroupUnitsLoop_unit, (Hsmall x eq_refl).
    rewrite Group_addUnit_small by (apply Hfree; discriminate).
    destruct (createUnit_later g IdType.Unit
                (unitObject (IdType.Unit, freeIdIndex g) (unitOf x)) eq_refl)
      as (L & I & O & _).
    eexists _, _. split; [reflexivity|]. cbn [slots groupLeader].
    split; [exact L|]. split; [reflexivity|]. split; [apply length_insert|].
    split; [intros i Hi; apply list_lookup_insert_ne; congruence|].
    exists (freeIdIndex g). rewrite I. split; [lia|].
    split; [apply list_lookup_insert_eq; exact Hlen | exact O].
  - exists g, group. split; [reflexivity|]. split; [apply laterGenerator_refl|].
    split; [reflexivity|]. split; [reflexivity|]. split; [reflexivity|]. reflexivity.
Qed.

(** One column of the group. *)
Lemma createGroupUnitsLoop_column a b rest p g group :
  columnOK a b -> Nat.even p = true -> (S p < length (slots group))%nat ->
  (a <> None -> slots group !! p = Some None) ->
  (b <> None -> slots group !! S p = Some None) ->
  exists g' group',
    createGroupUnitsLoop (a :: b :: rest) p false g group
    = createGroupUnitsLoop rest (S (S p)) false g' group'
    /\ laterGenerator g g'
    /\ groupLeader group' = groupLeader group
    /\ length (slots group') = length (slots group)
    /\ (forall i, i <> p -> i <> S p -> slots group' !! i = slots group !! i)
    /\ slotFilled (freeIdIndex g) g' a (slots group !! p) (slots group' !! p)
    /\ slotFilled (freeIdIndex g) g' b (slots group !! S p) (slots group' !! S p).
Proof.
  intros [Ha Hb] Hev Hlen Hfa Hfb.
  destruct (match a with Some x => isBig x | None => false end) eqn:Hbig.
  - (* a big unit in both entries *)
    destruct a as [x|]; [|discriminate]. rewrite (Ha x eq_refl Hbig) in *.
    rewrite createGroupUnitsLoop_unit, Hbig. cbn [createGroupUnitsLoop].
    assert (Hs : secondSlot p = S p) by (unfold secondSlot; rewrite Hev; reflexivity).
    rewrite Group_addUnit_big; rewrite ?Hs; [|apply Hfa; discriminate|apply Hfb; discriminate].
    destruct (createUnit_later g IdType.Unit
                (unitObject (IdType.Unit, freeIdIndex g) (unitOf x)) eq_refl)
      as (L & I & O & _).
    eexists _, _. split; [reflexivity|]. cbn [slots groupLeader].
    split; [exact L|]. split; [reflexivity|].
    split; [rewrite !length_insert; reflexivity|].
    split; [intros i H1 H2; rewrite !list_lookup_insert_ne by congruence; reflexivity|].
    split.
    + exists (freeIdIndex g). rewrite I. split; [lia|]. split; [|exact O].
      rewrite list_lookup_insert_ne by lia. apply list_lookup_insert_eq. lia.
    + exists (freeIdIndex g). rewrite I. split; [lia|]. split; [|exact O].
      apply list_lookup_insert_eq. rewrite length_insert. exact Hlen.
  - (* two entries that are not big *)
    assert (Hsa : forall x, a = Some x -> isBig x = false).
    { intros x ->. exact Hbig. }
    assert (Hsb : forall y, b = Some y -> isBig y = false).
    { intros y ->. destruct (isBig y) eqn:Ey; [|reflexivity].
      rewrite (Hb y eq_refl Ey) in Hbig. congruence. }
    destruct (createGroupUnitsLoop_entry a (b :: rest) p g group Hsa Hfa ltac:(lia))
      as (g1 & group1 & E1 & L1 & G1 & N1 & K1 & F1).
    destruct (createGroupUnitsLoop_entry b rest (S p) g1 group1 Hsb)
      as (g2 & group2 & E2 & L2 & G2 & N2 & K2 & F2).
    { intros Hne. rewrite K1 by lia. apply Hfb. exact Hne. }
    { lia. }
    exists g2, group2. split; [rewrite E1; exact E2|].
    split; [eapply laterGenerator_trans; eauto|]. split; [congruence|].
    split; [congruence|].
    split; [intros i H1 H2; rewrite K2, K1 by congruence; reflexivity|].
    split.
    + rewrite K2 by lia. eapply slotFilled_later; [exact F1 | lia | exact L2].
    + rewrite <- (K1 (S p)) by lia.
      eapply slotFilled_later; [exact F2 | apply L1 | apply laterGenerator_refl].
Qed.

(** [createGroupUnits] on the units of a well-formed composer and a group
    whose slots are free wherever a unit stands. *)
Lemma createGroupUnits_spec units g group :
  length units = 6%nat -> bigPaired units ->
  length (slots group) = 6%nat ->
  (forall i x, units !! i = Some (Some x) -> slots group !! i = Some None) ->
  exists g' group',
    createGroupUnits g group units = (g', group')
    /\ laterGenerator g g'
    /\ groupLeader group' = groupLeader group
    /\ length (slots group') = 6%nat
    /\ forall i entry, units !! i = Some entry ->
         slotFilled (freeIdIndex g) g' entry (slots group !! i) (slots group' !! i).
Proof.
  intros Hlen Hp Hslots Hfree.
  destruct (bigPaired_columns units Hlen Hp)
    as (a0 & a1 & a2 & a3 & a4 & a5 & -> & C0 & C1 & C2).
  assert (Hf : forall i e, [a0; a1; a2; a3; a4; a5] !! i = Some e -> e <> None ->
             slots group !! i = Some None).
  { intros i [x|] Hi Hne; [eapply Hfree; eauto | congruence]. }
  unfold createGroupUnits.
  destruct (createGroupUnitsLoop_column a0 a1 [a2; a3; a4; a5] 0 g group C0 eq_refl)
    as (g1 & group1 & E1 & L1 & G1 & N1 & K1 & F10 & F11);
    [lia | apply (Hf 0%nat); reflexivity | apply (Hf 1%nat); reflexivity |].
  destruct (createGroupUnitsLoop_column a2 a3 [a4; a5] 2 g1 group1 C1 eq_refl)
    as (g2 & group2 & E2 & L2 & G2 & N2 & K2 & F22 & F23);
    [lia | rewrite K1 by lia; apply (Hf 2%nat); reflexivity
     | rewrite K1 by lia; apply (Hf 3%nat); reflexivity |].
  destruct (createGroupUnitsLoop_column a4 a5 [] 4 g2 group2 C2 eq_refl)
    as (g3 & group3 & E3 & L3 & G3 & N3 & K3 & F34 & F35);
    [lia | rewrite K2, K1 by lia; apply (Hf 4%nat); reflexivity
     | rewrite K2, K1 by lia; apply (Hf 5%nat); reflexivity |].
  exists g3, group3. split; [rewrite E1, E2, E3; reflexivity|].
  pose proof (laterGenerator_trans _ _ _ L1 L2) as L12.
  pose proof (laterGenerator_trans _ _ _ L2 L3) as L23.
  split; [eapply laterGenerator_trans; eauto|]. split; [congruence|].
  split; [congruence|].
  intros i entry Hi.
  destruct i as [|[|[|[|[|[|i]]]]]]; simpl in Hi; [| | | | | |discriminate];
    inversion Hi; subst entry.
  - rewrite K3, K2 by lia.
    eapply slotFilled_later; [exact F10 | lia | exact L23].
  - rewrite K3, K2 by lia.
    eapply slotFilled_later; [exact F11 | lia | exact L23].
  - rewrite K3, <- (K1 2%nat) by lia.
    eapply slotFilled_later; [exact F22 | apply L1 | exact L3].
  - rewrite K3, <- (K1 3%nat) by lia.
    eapply slotFilled_later; [exact F23 | apply L1 | exact L3].
  - rewrite <- (K1 4%nat), <- (K2 4%nat) by lia.
    eapply slotFilled_later; [exact F34 | apply L12 | apply laterGenerator_refl].
  - rewrite <- (K1 5%nat), <- (K2 5%nat) by lia.
    eapply slotFilled_later; [exact F35 | apply L12 | apply laterGenerator_refl].
Qed.

(** The slots of a group that holds the leader alone. *)
Definition leaderSlots (leader : CMidgardID) (leaderPosition : nat) (bigUnit : bool)
    : list (option CMidgardID) :=
  if bigUnit then [None; None; Some leader; Some leader; None; None]
  else <[leaderPosition := Some leader]> [None; None; None; None; None; None].

Lemma Stack_addLeader_empty leader leaderPosition bigUnit m f :
  leaderPosition = 2%nat \/ leaderPosition = 3%nat ->
  (bigUnit = true -> leaderPosition = 2%nat) ->
  snd (Stack_addLeader {| stackGroup := emptyGroup; inventory := []; leaderId := emptyId;
                          move := m; facing := f |} leader leaderPosition bigUnit)
  = {| stackGroup := {| slots := leaderSlots leader leaderPosition bigUnit;
                        groupLeader := Some leader |};
       inventory := []; leaderId := leader; move := m; facing := f |}.
Proof.
  intros Hp Hbig. destruct bigUnit.
  - rewrite (Hbig eq_refl). reflexivity.
  - destruct Hp as [-> | ->]; reflexivity.
Qed.

(** What a slot of the finished group holds, by the entry of the array at
    its position: a unit created for the entry after the leader, or nothing
    but perhaps the leader. *)
Definition slotOf (leader : CMidgardID) (g' : MapGenerator) (entry : option UnitInfo)
    (slot : option (option CMidgardID)) : Prop :=
  match entry with
  | Some x =>
      exists n, snd leader < n < freeIdIndex g'
        /\ slot = Some (Some (IdType.Unit, n))
        /\ objects g' !! (IdType.Unit, n) = Some (unitObject (IdType.Unit, n) (unitOf x))
  | None => slot = Some None \/ slot = Some (Some leader)
  end.

Lemma createStackWithLeader_spec getUnitName gi free units g leaderInfo leaderPosition
    neutralOwner :
  composerInv gi (if isBig leaderInfo then [2; 3]%nat else [leaderPosition]) free units ->
  leaderPosition = 2%nat \/ leaderPosition = 3%nat ->
  (isBig leaderInfo = true -> leaderPosition = 2%nat) ->
  exists stackId stack g',
    createStackWithLeader getUnitName g leaderInfo leaderPosition units neutralOwner
    = (stackId, stack, g')
    /\ leaderId stack = (IdType.Unit, freeIdIndex g + 1)
    /\ groupLeader (stackGroup stack) = Some (leaderId stack)
    /\ inventory stack = []
    /\ objects g' !! leaderId stack
       = Some (unitObject (leaderId stack) (leaderOf leaderInfo))
    /\ snd (leaderId stack) < freeIdIndex g'
    /\ length (slots (stackGroup stack)) = 6%nat
    /\ slots (stackGroup stack) !! leaderPosition = Some (Some (leaderId stack))
    /\ forall i entry, units !! i = Some entry ->
         slotOf (leaderId stack) g' entry (slots (stackGroup stack) !! i).
Proof.
  intros Hinv Hpos Hbig. unfold createStackWithLeader, createId.
  destruct (getRandomFacing (randomGenerator (withFreeIdIndex g (freeIdIndex g + 1))))
    as [stackFacing r] eqn:Hfacing.
  cbn [freeIdIndex withRandom withFreeIdIndex].
  rewrite (Stack_addLeader_empty _ _ _ _ _ Hpos Hbig).
  cbn [stackGroup inventory leaderId move facing].
  set (leader := (IdType.Unit, freeIdIndex g + 1)).
  match goal with
  | |- context [createGroupUnits ?g0 ?grp units] => set (g5 := g0); set (group := grp)
  end.
  assert (Hidx : freeIdIndex g5 = freeIdIndex g + 1 + 1) by reflexivity.
  assert (Hobj : objects g5 !! leader = Some (unitObject leader (leaderOf leaderInfo))).
  { unfold g5, insertObject, withObjects. cbn [objects objectId unitObject].
    apply lookup_insert_eq. }
  assert (Hslots : forall i, (i < 6)%nat ->
            slots group !! i = Some None
            \/ (slots group !! i = Some (Some leader)
                /\ In i (if isBig leaderInfo then [2; 3]%nat else [leaderPosition]))).
  { intros i Hi. unfold group, leaderSlots. cbn [slots].
    destruct (isBig leaderInfo).
    - do 6 (destruct i as [|i]; [simpl; auto|]). lia.
    - destruct Hpos as [-> | ->];
        do 6 (destruct i as [|i]; [simpl; auto|]); lia. }
  destruct Hinv as [Hlen Hpair Hsol Hfree Hres].
  destruct (createGroupUnits_spec units g5 group Hlen Hpair) as
    (g' & group' & E & L & G & N & F).
  { unfold group, leaderSlots. cbn [slots]. destruct (isBig leaderInfo); [reflexivity|].
    rewrite length_insert. reflexivity. }
  { intros i x Hi.
    assert (Hi6 : (i < 6)%nat) by (apply lookup_lt_Some in Hi; lia).
    destruct (Hslots i Hi6) as [H|[_ H]]; [exact H|].
    destruct (Hres i H) as [Hn _]. congruence. }
  rewrite E. eexists _, _, _. split; [reflexivity|].
  cbn [leaderId stackGroup inventory]. fold leader.
  assert (Hlp : In leaderPosition (if isBig leaderInfo then [2; 3]%nat else [leaderPosition])).
  { destruct (isBig leaderInfo) eqn:Eb; [rewrite (Hbig eq_refl)|]; left; reflexivity. }
  split; [reflexivity|]. split; [rewrite G; reflexivity|]. split; [reflexivity|].
  split; [destruct L as [_ Hkeep]; rewrite Hkeep by (simpl; lia); exact Hobj|].
  split; [destruct L as [Hle _]; simpl; lia|]. split; [exact N|].
  split.
  - destruct (Hres _ Hlp) as [Hn _]. specialize (F _ _ Hn). simpl in F. rewrite F.
    assert (H6 : (leaderPosition < 6)%nat) by (destruct Hpos; lia).
    destruct (Hslots _ H6) as [H|[H _]]; [|exact H].
    exfalso. revert H. unfold group, leaderSlots. cbn [slots].
    destruct (isBig leaderInfo) eqn:Eb.
    + rewrite (Hbig eq_refl). discriminate.
    + destruct Hpos as [-> | ->]; discriminate.
  - intros i entry Hi. specialize (F i entry Hi).
    assert (Hi6 : (i < 6)%nat) by (apply lookup_lt_Some in Hi; lia).
    unfold slotFilled in F. unfold slotOf. destruct entry as [x|].
    + destruct F as (n & Hn & Hnew & Ho). exists n.
      split; [simpl; lia|]. split; [exact Hnew | exact Ho].
    + rewrite F. destruct (Hslots i Hi6) as [H|[H _]]; auto.
Qed.

Lemma soldierSlots_entries leader (sl : list (option CMidgardID)) (units : GroupUnits) :
  Forall2 (fun slot entry =>
             match entry with
             | Some _ => exists unitId : CMidgardID, slot = Some unitId /\ unitId <> leader
             | None => slot = None \/ slot = Some leader
             end) sl units ->
  Z.of_nat (length (List.filter (soldierSlot leader) sl)) = occupiedEntries units.
Proof.
  induction 1 as [|slot entry sl units H _ IH]; [reflexivity|].
  unfold occupiedEntries in *. cbn [List.filter fold_right].
  destruct entry as [x|]; cbn [occupiedEntry].
  - destruct H as (unitId & -> & Hne). cbn [soldierSlot].
    destruct (CMidgardID_eqb unitId leader) eqn:E;
      [apply CMidgardID_eqb_eq in E; contradiction|].
    cbn [negb length]. lia.
  - destruct H as [-> | ->]; cbn [soldierSlot].
    + exact IH.
    + rewrite (proj2 (CMidgardID_eqb_eq leader leader) eq_refl). cbn [negb]. exact IH.
Qed.

Lemma iter_addModifier (n : nat) (u : Unit) :
  implId (Nat.iter n (fun u => addModifier u leadershipModifier) u) = implId u
  /\ count_occ (decide_rel (=))
       (modifiers (Nat.iter n (fun u => addModifier u leadershipModifier) u))
       leadershipModifier
     = (count_occ (decide_rel (=)) (modifiers u) leadershipModifier + n)%nat.
Proof.
  induction n as [|n [IH1 IH2]]; [split; [reflexivity | simpl; lia]|].
  rewrite Nat.iter_succ. unfold addModifier at 1 3. cbn [implId modifiers].
  split; [exact IH1|]. rewrite count_occ_app, IH2. cbn [count_occ].
  destruct (decide_rel eq leadershipModifier leadershipModifier); [lia | contradiction].
Qed.

Lemma addModifiers_spec g unitId n u :
  objects g !! unitId = Some (unitObject unitId u) ->
  objects (addModifiers g unitId n) !! unitId
  = Some (unitObject unitId (Nat.iter n (fun u => addModifier u leadershipModifier) u))
  /\ (forall k, k <> unitId -> objects (addModifiers g unitId n) !! k = objects g !! k)
  /\ freeIdIndex (addModifiers g unitId n) = freeIdIndex g.
Proof.
  intros H. unfold addModifiers. rewrite H. cbn [objectData unitObject objectId element].
  unfold withObjects. cbn [objects freeIdIndex].
  split; [apply lookup_insert_eq|]. split; [|reflexivity].
  intros k Hk. apply lookup_insert_ne. congruence.
Qed.

Lemma pickValue_le_max v r : fst (pickValue v r) <= Z.max (rvMin v) (rvMax v).
Proof.
  destruct (Z_le_gt_dec (rvMin v) (rvMax v)) as [Hle|Hgt].
  - pose proof (pickValue_range v r) as [_ H]. specialize (H Hle). lia.
  - unfold pickValue, Random.nextInteger. destruct (Random.next r) as [x r'].
    destruct (rvMax v <? rvMin v) eqn:E; [simpl; lia|]. apply Z.ltb_ge in E. lia.
Qed.

(** [createLoot] returns when the items have positive values, and touches
    the random source only. *)
Lemma createLoot_returns fuel gi g loot forMerchant :
  forallb (fun i => 0 <? getItemValue i) (getItems gi) = true ->
  (Z.to_nat (Z.max (rvMin (lootValue loot)) (rvMax (lootValue loot))) + 2 <= fuel)%nat ->
  exists items r, createLoot fuel gi g loot forMerchant = Some (items, withRandom g r).
Proof.
  intros Hpos Hfuel. unfold createLoot.
  destruct (createRequiredItems (requiredItems loot) (randomGenerator g) []) as [items r].
  destruct (rvSet (lootValue loot)); [|eauto].
  pose proof (pickValue_le_max (lootValue loot) r) as Hmax.
  destruct (pickValue (lootValue loot) r) as [desiredValue r1]. cbn [fst] in Hmax.
  destruct (createRandomItems_total gi loot forMerchant desiredValue) with
    (fuel := fuel) (currentValue := 0) (r := r1) (picked := @nil ItemInfo)
    as [[picked r2] Hrun].
  - intros i Hi. rewrite forallb_forall in Hpos. apply Z.ltb_lt, Hpos, Hi.
  - lia.
  - rewrite Hrun. eauto.
Qed.

Lemma addItems_later (n : nat) itemType : forall g stackInventory,
  laterGenerator g (fst (addItems n itemType g stackInventory)).
Proof.
  induction n as [|n IH]; intros g stackInventory; cbn [addItems].
  - apply laterGenerator_refl.
  - unfold createId at 1.
    destruct (createUnit_later g IdType.Item
                (itemObject (IdType.Item, freeIdIndex g) itemType) eq_refl) as (L & _).
    eapply laterGenerator_trans; [exact L | apply IH].
Qed.

Lemma addLoot_later (stackLoot : list (CMidgardID * Z)) : forall g stackInventory,
  laterGenerator g (fst (addLoot stackLoot g stackInventory)).
Proof.
  unfold addLoot. induction stackLoot as [|entry rest IH]; intros g stackInventory;
    cbn [fold_left fst snd].
  - apply laterGenerator_refl.
  - pose proof (addItems_later (Z.to_nat (snd entry)) (fst entry) g stackInventory) as L.
    destruct (addItems (Z.to_nat (snd entry)) (fst entry) g stackInventory) as [g1 inv1].
    eapply laterGenerator_trans; [exact L | apply IH].
Qed.

Lemma filter_eqb_absent (x : CMidgardID) (l : list CMidgardID) :
  x ∉ l -> List.filter (CMidgardID_eqb x) l = [].
Proof.
  induction l as [|y l IH]; intros H; [reflexivity|]. simpl.
  destruct (CMidgardID_eqb x y) eqn:E.
  - apply CMidgardID_eqb_eq in E. subst. exfalso. apply H. left.
  - apply IH. intros Hin. apply H. right. exact Hin.
Qed.

Lemma filter_eqb_once (x : CMidgardID) (l : list CMidgardID) :
  NoDup l -> x ∈ l -> length (List.filter (CMidgardID_eqb x) l) = 1%nat.
Proof.
  induction 1 as [|y l Hy Hnd IH]; intros Hin; [inversion Hin|]. simpl.
  destruct (CMidgardID_eqb x y) eqn:E.
  - apply CMidgardID_eqb_eq in E. subst. rewrite filter_eqb_absent by exact Hy.
    reflexivity.
  - apply IH. apply elem_of_cons in Hin as [->|Hin]; [|exact Hin].
    rewrite (proj2 (CMidgardID_eqb_eq y y) eq_refl) in E. discriminate.
Qed.



(** The same run, computed: the leader stands in slot 2 between two giants
    and an archer, and carries five modifiers on top of its leadership 1 for
    the five slots of its soldiers. *)
Example createStack_sample_run :
  option_map
    (fun res =>
       match fst res with
       | StackCreated _ stack =>
           Some (slots (stackGroup stack), leaderId stack, occupiedSoldierSlots stack,
                 option_map
                   (fun o => match objectData o with
                             | UnitData u => length (modifiers u)
                             | _ => 0%nat
                             end)
                   (objects (snd res) !! leaderId stack))
       | _ => None
       end)
    (createStack evenSplit (fun _ r _ => r) 1500 stackGameInfo (blankGenerator 3 1)
       sampleStack false)
  = Some (Some ([Some (IdType.Unit, 2); Some (IdType.Unit, 2); Some (IdType.Unit, 1);
                 Some (IdType.Unit, 3); Some (IdType.Unit, 4); Some (IdType.Unit, 4)],
                (IdType.Unit, 1), 5, Some 5%nat)).
Proof. vm_compute. reflexivity. Qed.
(** * Further properties of the zone filling engine *)

(** ** Nearest-object distances *)

Lemma SFltb_asym (a b : f32) : SFltb a b = true -> SFltb b a = false.
Proof.
  intros H. destruct (SFltb b a) eqn:E; [|reflexivity].
  pose proof (SFltb_trans a b a H E) as Haa. rewrite SFltb_irrefl in Haa. discriminate.
Qed.

Lemma F32_min_bounds (d old : f32) :
  F32.ltb old (F32.min d old) = false /\ F32.ltb d (F32.min d old) = false.
Proof.
  unfold F32.min, F32.ltb. destruct (SFltb old d) eqn:E.
  - split; [apply SFltb_irrefl | apply SFltb_asym; exact E].
  - split; [exact E | apply SFltb_irrefl].
Qed.

Lemma F32_min_idempotent (d old : f32) : F32.min d (F32.min d old) = F32.min d old.
Proof.
  unfold F32.min, F32.ltb. destruct (SFltb old d) eqn:E.
  - rewrite E. reflexivity.
  - rewrite SFltb_irrefl. reflexivity.
Qed.

(** X1. [updateDistances] never moves a tile farther from the nearest
    object: no tile's distance is above what it was, and a tile of
    [possibleTiles] is not above the squared distance to the position
    either ([<] of binary32, so a NaN distance is replaced as well). *)
Theorem updateDistances_never_farther (z : TemplateZone) (p t : Position) :
  F32.ltb (getNearestObjectDistance (mapGenerator z) t)
          (getNearestObjectDistance (mapGenerator (updateDistances z p)) t) = false
  /\ (t ∈ possibleTiles z ->
      F32.ltb (F32.of_Z (distanceSquared p t))
              (getNearestObjectDistance (mapGenerator (updateDistances z p)) t) = false).
Proof.
  unfold updateDistances. cbn [mapGenerator withGenerator].
  rewrite fold_updateDistanceAt_distance by apply NoDup_elements.
  destruct (decide (t ∈ elements (possibleTiles z))) as [H|H].
  - split; [|intros _]; apply F32_min_bounds.
  - split; [apply SFltb_irrefl|]. intros Hin. exfalso. apply H.
    apply elem_of_elements. exact Hin.
Qed.

(** X2. Updating the distances for the same position a second time changes
    no distance. *)
Theorem updateDistances_idempotent (z : TemplateZone) (p t : Position) :
  getNearestObjectDistance (mapGenerator (updateDistances (updateDistances z p) p)) t
  = getNearestObjectDistance (mapGenerator (updateDistances z p)) t.
Proof.
  unfold updateDistances. cbn [mapGenerator withGenerator possibleTiles].
  rewrite !fold_updateDistanceAt_distance by apply NoDup_elements.
  destruct (decide (t ∈ elements (possibleTiles z))); [|reflexivity].
  apply F32_min_idempotent.
Qed.

(** ** Zone border *)

Lemma fold_createBorderAt_frame z (l : list Position) : forall g,
  mapSize (fold_left (createBorderAt z) l g) = mapSize g
  /\ forall q, zoneId (tiles (fold_left (createBorderAt z) l g) q) = zoneId (tiles g q).
Proof.
  induction l as [|a l IH]; intros g; simpl; [auto|].
  destruct (IH (createBorderAt z g a)) as [H1 H2]. split.
  - rewrite H1. apply createBorderAt_mapSize.
  - intros q. rewrite H2. apply createBorderAt_zoneId.
Qed.

Lemma fold_createBorderAt_done z z' (l : list Position) : forall g,
  id z' = id z ->
  (forall t, t ∈ l -> isBorderTile z g t && isPossible g t = false) ->
  fold_left (createBorderAt z') l g = g.
Proof.
  induction l as [|a l IH]; intros g Hid Hdone; simpl; [reflexivity|].
  assert (Ha : createBorderAt z' g a = g).
  { unfold createBorderAt.
    assert (Hb : isBorderTile z' g a = isBorderTile z g a).
    { unfold isBorderTile. rewrite Hid. reflexivity. }
    rewrite Hb. pose proof (Hdone a ltac:(left)) as H.
    destruct (isBorderTile z g a); [|reflexivity].
    destruct (isPossible g a); [discriminate | reflexivity]. }
  rewrite Ha. apply IH; [exact Hid|]. intros t Ht. apply Hdone. right. exact Ht.
Qed.

(** X3. A second run of [createBorder] changes nothing: after the first run
    no border tile of the zone is [Possible], so the second one neither
    touches the grid nor draws a random number. *)
Theorem createBorder_twice (z : TemplateZone) :
  createBorder (createBorder z) = createBorder z.
Proof.
  unfold createBorder. cbn [tileInfo mapGenerator withGenerator].
  set (g1 := fold_left (createBorderAt z) (tileInfo z) (mapGenerator z)).
  rewrite (fold_createBorderAt_done z); [reflexivity | reflexivity |].
  intros t Ht.
  destruct (fold_createBorderAt_frame z (tileInfo z) (mapGenerator z)) as [Hs Hz].
  fold g1 in Hs, Hz.
  rewrite (isBorderTile_ext z (mapGenerator z) g1 t Hs Hz).
  destruct (fold_createBorderAt z (tileInfo z) (mapGenerator z) t) as [H1 H2].
  cbv zeta in H1, H2. fold g1 in H1, H2.
  destruct (isBorderTile z (mapGenerator z) t) eqn:Hb; [|reflexivity].
  cbn [andb]. unfold isPossible.
  destruct (isPossible (mapGenerator z) t) eqn:Hp.
  - apply borderOutcome_not_possible in H1; auto.
    destruct (occupied (tiles g1 t)); try reflexivity. contradiction.
  - rewrite H2 by (intros (_ & _ & ?); discriminate). exact Hp.
Qed.

(** ** Road builder *)

Lemma setRoad_zoneId g p b q : getZoneId (setRoad g p b) q = getZoneId g q.
Proof.
  unfold getZoneId, setRoad, fupd. simpl. destruct (Position_eqb q p) eqn:E; [|reflexivity].
  apply Position_eqb_eq in E. subst. reflexivity.
Qed.

Section RoadConnectivity.

Variable canMoveBetween : MapGenerator -> Position -> Position -> bool.
Variable z : TemplateZone.
Variable g : MapGenerator.
Variable source destination : Position.

Hypothesis source_valid : isValid source = true.

(** The invariant of the search that ties a road to its source: every tile
    with a predecessor was entered from a closed tile next to it, lies in the
    map and in the zone (or is the destination), and the predecessors can be
    followed back. *)
Record roadLinked (st : RoadSearch) : Prop := mkRoadLinked {
  rl_source : cameFromR st !! source = Some invalidPosition;
  rl_step : forall p c, p <> source -> cameFromR st !! p = Some c ->
    adjacent c p /\ (getZoneId g p = id z \/ p = destination)
    /\ isInTheMap g p = true /\ c ∈ closedR st;
  rl_closed : forall c, c ∈ closedR st ->
    is_Some (cameFromR st !! c) /\ isValid c = true;
  rl_queue : forall x, In x (queueR st) ->
    is_Some (cameFromR st !! fst x) /\ isValid (fst x) = true
}.

Lemma roadFunctor_linked cur cost mv st p :
  roadLinked st -> cur ∈ closedR st -> source ∈ closedR st ->
  adjacent cur p -> isInTheMap g p = true ->
  roadLinked (roadFunctor canMoveBetween z g destination cur cost mv st p).
Proof.
  intros Hinv Hcur Hsrc Hadj Hmap. unfold roadFunctor.
  destruct (bool_decide (p ∈ closedR st)) eqn:Hc; [exact Hinv|].
  apply bool_decide_eq_false_1 in Hc.
  destruct (F32.geb _ _); [exact Hinv|].
  destruct (isWater (mapTiles g p)); [exact Hinv|].
  destruct (_ || _ || Position_eqb p destination); [|exact Hinv].
  destruct ((getZoneId g p =? id z) || Position_eqb p destination) eqn:Hzone;
    [|exact Hinv].
  assert (Hne : p <> source) by (intros ->; contradiction).
  destruct Hinv as [Hs Hstep Hcl Hq].
  constructor; cbn [cameFromR closedR queueR].
  - rewrite lookup_insert_ne by exact Hne. exact Hs.
  - intros q c Hq' Hl. destruct (decide (p = q)) as [<-|Hpq].
    + rewrite lookup_insert_eq in Hl. inversion Hl; subst c.
      split; [exact Hadj|]. split; [|split; [exact Hmap | exact Hcur]].
      apply orb_true_iff in Hzone as [H|H];
        [left; apply Z.eqb_eq; exact H | right; apply Position_eqb_eq; exact H].
    + rewrite lookup_insert_ne in Hl by exact Hpq. apply (Hstep q c Hq' Hl).
  - intros c Hc'. destruct (Hcl c Hc') as [H1 H2]. split; [|exact H2].
    destruct (decide (p = c)) as [<-|Hpc]; [contradiction|].
    rewrite lookup_insert_ne by exact Hpc. exact H1.
  - intros x Hx. unfold pq_push in Hx. apply in_app_or in Hx as [Hx|[<-|[]]].
    + destruct (Hq x Hx) as [H1 H2]. split; [|exact H2].
      destruct (decide (p = fst x)) as [<-|Hpx];
        [rewrite lookup_insert_eq; eauto | rewrite lookup_insert_ne by exact Hpx; exact H1].
    + cbn [fst]. split; [rewrite lookup_insert_eq; eauto|].
      eapply isInTheMap_isValid; eauto.
Qed.

Lemma fold_roadFunctor_linked cur cost mv (l : list Position) : forall st,
  roadLinked st -> cur ∈ closedR st -> source ∈ closedR st ->
  (forall p, In p l -> adjacent cur p /\ isInTheMap g p = true) ->
  roadLinked (fold_left (roadFunctor canMoveBetween z g destination cur cost mv) l st)
  /\ closedR (fold_left (roadFunctor canMoveBetween z g destination cur cost mv) l st)
     = closedR st.
Proof.
  induction l as [|p l IH]; intros st Hinv Hcur Hsrc Hl; simpl; [auto|].
  pose proof (roadFunctor_closed canMoveBetween z g destination cur cost mv st p) as Hc.
  destruct (Hl p (or_introl eq_refl)) as [Hadj Hmap].
  destruct (IH (roadFunctor canMoveBetween z g destination cur cost mv st p)) as [H1 H2].
  - apply roadFunctor_linked; auto.
  - rewrite Hc. exact Hcur.
  - rewrite Hc. exact Hsrc.
  - intros q Hq. apply Hl. right. exact Hq.
  - split; [exact H1 | rewrite H2; exact Hc].
Qed.

Lemma diagonalNeighbors_inMap p q : In q (diagonalNeighbors g p) -> isInTheMap g q = true.
Proof. unfold diagonalNeighbors. intros H. apply List.filter_In in H. tauto. Qed.

Lemma expandRoadNode_linked cur cost st :
  roadLinked st -> cur ∈ closedR st -> source ∈ closedR st ->
  roadLinked (expandRoadNode canMoveBetween z g destination cur cost st)
  /\ closedR (expandRoadNode canMoveBetween z g destination cur cost st) = closedR st.
Proof.
  intros Hinv Hcur Hsrc. unfold expandRoadNode.
  match goal with
  | |- context [fold_left ?f (directNeighbors g cur) ?s0] =>
      destruct (fold_roadFunctor_linked cur cost (F32.of_Z 1)
                  (directNeighbors g cur) s0) as [H1 H2];
        [destruct Hinv; constructor; assumption | exact Hcur | exact Hsrc
        | intros p Hp; split;
            [eapply directNeighbors_adjacent | eapply directNeighbors_inMap]; eauto |]
  end.
  cbn [closedR] in H2.
  match goal with
  | |- context [if directNeighbourFound ?s then _ else _] =>
      destruct (directNeighbourFound s)
  end; [split; assumption|].
  match goal with
  | |- context [fold_left ?f (diagonalNeighbors g cur) ?s0] =>
      destruct (fold_roadFunctor_linked cur cost (F32.literal 21 10)
                  (diagonalNeighbors g cur) s0) as [H3 H4];
        [exact H1 | rewrite H2; exact Hcur | rewrite H2; exact Hsrc
        | intros p Hp; split;
            [eapply diagonalNeighbors_adjacent | eapply diagonalNeighbors_inMap]; eauto |]
  end.
  split; [exact H3 | rewrite H4; exact H2].
Qed.

Lemma roadSearch_linked (fuel : nat) : forall st cur st',
  roadLinked st ->
  source ∈ closedR st \/ queueR st = [(source, F32.zero)] ->
  roadSearch canMoveBetween z g destination fuel st = Some (Some (cur, st')) ->
  roadLinked st' /\ cur ∈ closedR st'
  /\ (Position_eqb cur destination || isRoad g cur = true).
Proof.
  induction fuel as [|fuel IH]; intros st cur st' Hinv Hsrc Hrun; simpl in Hrun;
    [discriminate|].
  destruct (pq_pop F32.ltb (queueR st)) as [[[node cost] rest]|] eqn:Hpop;
    [|discriminate].
  destruct (pq_pop_Some F32.ltb _ _ _ Hpop) as (_ & Hin & Hsub).
  assert (Hsrc1 : source ∈ {[node]} ∪ closedR st).
  { destruct Hsrc as [H|H]; [set_solver|].
    rewrite H in Hpop. simpl in Hpop. inversion Hpop; subst. set_solver. }
  assert (Hinv1 : roadLinked {| closedR := {[node]} ∪ closedR st; queueR := rest;
                                cameFromR := cameFromR st; distancesR := distancesR st;
                                directNeighbourFound := directNeighbourFound st |}).
  { destruct Hinv as [Hs Hstep Hcl Hq].
    constructor; cbn [cameFromR closedR queueR].
    - exact Hs.
    - intros p c Hp Hl. destruct (Hstep p c Hp Hl) as (A & B & C & D).
      split; [exact A|]. split; [exact B|]. split; [exact C | set_solver].
    - intros c Hc. apply elem_of_union in Hc as [Hc|Hc]; [|apply Hcl; exact Hc].
      apply elem_of_singleton in Hc. subst c. apply (Hq _ Hin).
    - intros x Hx. apply Hq, Hsub, Hx. }
  destruct (Position_eqb node destination || isRoad g node) eqn:Hgoal.
  - inversion Hrun; subst. split; [exact Hinv1|]. cbn [closedR].
    split; [set_solver | exact Hgoal].
  - match type of Hrun with
    | roadSearch _ _ _ _ _ (expandRoadNode _ _ _ _ _ _ ?s0) = _ =>
        destruct (expandRoadNode_linked node cost s0) as [H1 H2];
          [exact Hinv1 | cbn [closedR]; set_solver | exact Hsrc1 |]
    end.
    apply (IH _ _ _ H1) in Hrun; [exact Hrun|].
    left. rewrite H2. exact Hsrc1.
Qed.

Lemma initialRoadSearch_linked : roadLinked (initialRoadSearch source).
Proof.
  constructor; cbn [cameFromR closedR queueR initialRoadSearch].
  - apply lookup_singleton_eq.
  - intros p c Hne Hl. rewrite lookup_singleton_ne in Hl by congruence. discriminate.
  - intros c Hc. apply elem_of_empty in Hc. contradiction.
  - intros x [<-|[]]. cbn [fst]. rewrite lookup_singleton_eq. eauto.
Qed.

(** Backtracking under the invariant: the tiles walked are in the map, in
    the zone unless the destination, none is the source, and the last one is
    next to the source. *)
Lemma backtrack_linked (fuel : nat) : forall st b path,
  roadLinked st -> is_Some (cameFromR st !! b) ->
  backtrack fuel (cameFromR st) b = Some path ->
  Forall (fun t => t <> source /\ (getZoneId g t = id z \/ t = destination)
                   /\ isInTheMap g t = true) path
  /\ match path with
     | [] => b = source
     | first :: _ => first = b /\ exists final, last path = Some final /\ adjacent final source
     end.
Proof.
  induction fuel as [|fuel IH]; intros st b path Hinv Hb Hrun; simpl in Hrun;
    [discriminate|].
  destruct Hb as [c Hc]. unfold cameFromOf in Hrun. rewrite Hc in Hrun.
  cbn [default from_option Datatypes.id] in Hrun.
  destruct (decide (b = source)) as [->|Hne].
  { rewrite (rl_source _ Hinv) in Hc. inversion Hc; subst c. simpl in Hrun.
    inversion Hrun; subst. split; [constructor | reflexivity]. }
  destruct (rl_step _ Hinv b c Hne Hc) as (Hadj & Hzone & Hmap & Hcl).
  destruct (rl_closed _ Hinv c Hcl) as [Hsome Hvalid]. rewrite Hvalid in Hrun.
  destruct (backtrack fuel (cameFromR st) c) as [rest|] eqn:Hrest; [|discriminate].
  inversion Hrun; subst path. clear Hrun.
  destruct (IH _ _ _ Hinv Hsome Hrest) as [Hall Hend].
  split; [constructor; auto|]. split; [reflexivity|].
  destruct rest as [|first rest'].
  - subst c. exists b. split; [reflexivity | apply adjacent_sym; exact Hadj].
  - destruct Hend as (_ & final & Hlast & Hfinal). exists final.
    split; [|exact Hfinal]. rewrite last_cons, Hlast. reflexivity.
Qed.

End RoadConnectivity.

(** X4. A road recorded by [createRoad] from a valid source is tied to it.
    Its tiles lie in the map and in the zone (the destination may lie
    outside), all of them carry the road flag afterwards and none is the
    source, whose flag is cleared. The road starts on the destination or on
    a tile that was a road already and ends next to the source; it is empty
    only when the source is the destination. *)
Theorem createRoad_reaches_source
    (canMoveBetween : MapGenerator -> Position -> Position -> bool) (fuel : nat)
    (z z' : TemplateZone) (source destination : Position) :
  isValid source = true ->
  createRoad canMoveBetween fuel z source destination = Some (true, z') ->
  exists road, roads z' = roads z ++ [road]
    /\ Forall (fun t => t <> source
                        /\ (getZoneId (mapGenerator z) t = id z \/ t = destination)
                        /\ isInTheMap (mapGenerator z) t = true
                        /\ isRoad (mapGenerator z') t = true)
         (map fst (roadPath road))
    /\ isRoad (mapGenerator z') source = false
    /\ match map fst (roadPath road) with
       | [] => source = destination
       | first :: _ =>
           (first = destination \/ isRoad (mapGenerator z) first = true)
           /\ exists final, last (map fst (roadPath road)) = Some final
                /\ adjacent final source
       end.
Proof.
  intros Hvalid Hrun.
  destruct (createRoad_sound canMoveBetween fuel z z' source destination true Hrun)
    as (_ & Hsound & _).
  destruct (Hsound eq_refl) as (road & Hroads & _ & _ & _ & Hflag).
  exists road. split; [exact Hroads|].
  unfold createRoad in Hrun.
  set (g := setRoad (mapGenerator z) source false) in *.
  destruct (roadSearch canMoveBetween z g destination fuel (initialRoadSearch source))
    as [[[cur st]|]|] eqn:Hsearch; [| discriminate | discriminate].
  destruct (backtrack fuel (cameFromR st) cur) as [path|] eqn:Hback; [|discriminate].
  inversion Hrun; subst z'. clear Hrun.
  cbn [roads withRoads withGenerator] in Hroads.
  apply app_inv_head in Hroads. inversion Hroads; subst road. clear Hroads.
  cbn [roadPath mapGenerator withRoads withGenerator] in *.
  rewrite map_map in *. cbn [fst] in *. rewrite map_id in *.
  destruct (roadSearch_linked canMoveBetween z g source destination Hvalid fuel
              (initialRoadSearch source) cur st
              (initialRoadSearch_linked z g source destination Hvalid)
              (or_intror eq_refl) Hsearch) as (Hinv & Hcur & Hgoal).
  destruct (backtrack_linked z g source destination fuel st cur path Hinv
              (proj1 (rl_closed _ _ _ _ _ Hinv cur Hcur)) Hback) as [Hall Hend].
  assert (Hsrc : ~ In source path).
  { intros Hin. rewrite Forall_forall in Hall.
    apply list_elem_of_In in Hin. destruct (Hall _ Hin) as [Hne _]. congruence. }
  split; [|split].
  - rewrite Forall_forall in *. intros t Ht.
    destruct (Hall t Ht) as (A & B & C). split; [exact A|].
    unfold g in B, C. rewrite setRoad_zoneId in B. split; [exact B|].
    split; [exact C | apply Hflag; exact Ht].
  - unfold isRoad. clear - Hsrc. revert g Hsrc.
    assert (Hgen : forall (l : list Position) g0, ~ In source l ->
              road (tiles (fold_left (fun g t => setRoad g t true) l g0) source)
              = road (tiles g0 source)).
    { induction l as [|a l IH]; intros g0 Hn; simpl; [reflexivity|].
      rewrite IH by (intros H; apply Hn; right; exact H).
      rewrite setRoad_road.
      destruct (Position_eqb source a) eqn:E; [|reflexivity].
      apply Position_eqb_eq in E. exfalso. apply Hn. left. congruence. }
    intros g Hsrc. rewrite Hgen by exact Hsrc. unfold g.
    rewrite setRoad_road, Position_eqb_refl. reflexivity.
  - destruct path as [|first rest].
    + subst cur. unfold isRoad, g in Hgoal.
      rewrite setRoad_road, Position_eqb_refl, orb_false_r in Hgoal.
      apply Position_eqb_eq in Hgoal. exact Hgoal.
    + destruct Hend as (-> & Hfinal). split; [|exact Hfinal].
      apply orb_true_iff in Hgoal as [H|H]; [left; apply Position_eqb_eq; exact H|].
      right. unfold isRoad, g in H. rewrite setRoad_road in H.
      destruct (Position_eqb cur source) eqn:E; [discriminate | exact H].
Qed.

(** A run of the statement on a sample. *)
Lemma createRoad_reaches_source_witness :
  exists road, roads roadZoneLinked = roads roadZone ++ [road]
    /\ Forall (fun t => t <> (1, 1)
                        /\ (getZoneId (mapGenerator roadZone) t = id roadZone \/ t = (2, 3))
                        /\ isInTheMap (mapGenerator roadZone) t = true
                        /\ isRoad (mapGenerator roadZoneLinked) t = true)
         (map fst (roadPath road))
    /\ isRoad (mapGenerator roadZoneLinked) (1, 1) = false
    /\ match map fst (roadPath road) with
       | [] => (1, 1) = (2, 3)
       | first :: _ =>
           (first = (2, 3) \/ isRoad (mapGenerator roadZone) first = true)
           /\ exists final, last (map fst (roadPath road)) = Some final
                /\ adjacent final (1, 1)
       end.
Proof.
  apply (createRoad_reaches_source (fun _ _ _ => true) 50 roadZone roadZoneLinked
           (1, 1) (2, 3)).
  - reflexivity.
  - vm_compute. reflexivity.
Defined.

(** ** Road network *)

Lemma createRoad_roadNodes canMoveBetween fuel z z' source destination result :
  createRoad canMoveBetween fuel z source destination = Some (result, z') ->
  roadNodes z' = roadNodes z.
Proof.
  unfold createRoad. intros H.
  destruct (roadSearch _ _ _ _ _ _) as [[[cur st]|]|]; [| |discriminate].
  - destruct (backtrack _ _ _); [|discriminate]. inversion H; subst. reflexivity.
  - inversion H; subst. reflexivity.
Qed.

Lemma minElement_In node (l : list Position) q : minElement node l = Some q -> In q l.
Proof.
  destruct l as [|x rest]; [discriminate|]. simpl. intros H. inversion H; subst q. clear H.
  assert (Hgen : forall (rest : list Position) best,
            fold_left (fun best q =>
                if distanceSquared node q <? distanceSquared node best then q else best)
              rest best = best
            \/ In (fold_left (fun best q =>
                if distanceSquared node q <? distanceSquared node best then q else best)
              rest best) rest).
  { induction rest0 as [|a rest0 IH]; intros best; simpl; [left; reflexivity|].
    destruct (IH (if distanceSquared node a <? distanceSquared node best then a else best))
      as [H|H].
    - rewrite H. destruct (distanceSquared node a <? distanceSquared node best); auto.
    - auto. }
  destruct (Hgen rest x) as [H|H]; [left; symmetry; exact H | right; exact H].
Qed.

Lemma setInsert_In ltb p (l : list Position) q :
  In q (setInsert ltb p l) -> q = p \/ In q l.
Proof.
  induction l as [|x rest IH]; simpl.
  - intros [<-|[]]. left. reflexivity.
  - destruct (Position_eqb p x); [intros H; right; exact H|].
    destruct (ltb p x).
    + intros [<-|H]; [left; reflexivity | right; exact H].
    + intros [<-|H]; [right; left; reflexivity|].
      destruct (IH H) as [->|H']; [left; reflexivity | right; right; exact H'].
Qed.

Lemma setErase_In p (l : list Position) q : In q (setErase p l) -> In q l.
Proof. unfold setErase. intros H. apply List.filter_In in H. tauto. Qed.

Section ConnectRoadsNodes.

Variable canMoveBetween : MapGenerator -> Position -> Position -> bool.
Variable Position_ltb : Position -> Position -> bool.
Variable fuel : nat.
Variable nodes : gset Position.

Lemma connectRoadsLoop_nodes (n : nat) : forall z roadNodesCopy processed z',
  (forall p, In p roadNodesCopy -> p ∈ nodes) ->
  (forall p, In p processed -> p ∈ nodes) ->
  connectRoadsLoop canMoveBetween Position_ltb n fuel z roadNodesCopy processed = Some z' ->
  roadNodes z' = roadNodes z
  /\ exists added, roads z' = roads z ++ added
       /\ Forall (fun road => roadSource road ∈ nodes /\ roadDestination road ∈ nodes)
            added.
Proof.
  induction n as [|n IH]; intros z roadNodesCopy processed z' Hcopy Hproc Hrun;
    destruct roadNodesCopy as [|node rest]; simpl in Hrun;
    try (inversion Hrun; subst; split; [reflexivity|]; exists [];
         rewrite app_nil_r; split; [reflexivity | constructor]);
    try discriminate.
  assert (Hnode : node ∈ nodes) by (apply Hcopy; left; reflexivity).
  assert (Hrest : forall p, In p rest -> p ∈ nodes) by (intros; apply Hcopy; right; auto).
  match type of Hrun with
  | match ?c with _ => _ end = _ => destruct c as [cross|] eqn:Hcross
  end.
  2:{ inversion Hrun; subst. split; [reflexivity|]. exists [].
      rewrite app_nil_r. split; [reflexivity | constructor]. }
  assert (Hc : cross ∈ nodes).
  { destruct processed as [|p0 processed'].
    - destruct rest as [|r0 rest']; [discriminate|].
      apply Hrest. eapply minElement_In. exact Hcross.
    - apply Hproc. eapply minElement_In. exact Hcross. }
  destruct (createRoad canMoveBetween fuel z node cross) as [[[|] z1]|] eqn:Hroad;
    [| |discriminate].
  - pose proof (createRoad_roadNodes _ _ _ _ _ _ _ Hroad) as Hn.
    apply createRoad_sound in Hroad as (_ & Ht & _).
    destruct (Ht eq_refl) as (road & Hroads & Hs & Hd & _).
    apply IH in Hrun as (Hn' & added & Hadd & Hall).
    + split; [congruence|]. exists (road :: added).
      split; [rewrite Hadd, Hroads, <- app_assoc; reflexivity|].
      constructor; [rewrite Hs, Hd; auto | exact Hall].
    + intros p Hp. apply Hrest. eapply setErase_In. exact Hp.
    + intros p Hp. apply setInsert_In in Hp as [->|Hp]; [exact Hnode|].
      apply setInsert_In in Hp as [->|Hp]; [exact Hc | apply Hproc; exact Hp].
  - pose proof (createRoad_roadNodes _ _ _ _ _ _ _ Hroad) as Hn.
    apply createRoad_sound in Hroad as (_ & _ & Hf). specialize (Hf eq_refl).
    apply IH in Hrun as (Hn' & added & Hadd & Hall).
    + split; [congruence|]. exists added. split; [congruence | exact Hall].
    + exact Hrest.
    + intros p Hp. apply setInsert_In in Hp as [->|Hp]; [exact Hnode | apply Hproc; exact Hp].
Qed.

End ConnectRoadsNodes.

Lemma fold_setInsert_In ltb (l : list Position) q :
  In q (fold_right (setInsert ltb) [] l) -> In q l.
Proof.
  induction l as [|a l IH]; simpl; [auto|].
  intros H. apply setInsert_In in H as [->|H]; [left; reflexivity | right; auto].
Qed.

(** X5. [connectRoads] only adds roads, and only between road nodes of the
    zone: the roads the zone had stay in place, and every road added runs
    from one of the zone's road nodes to another of them. The road nodes are
    left as they were. *)
Theorem connectRoads_links_road_nodes
    (canMoveBetween : MapGenerator -> Position -> Position -> bool)
    (Position_ltb : Position -> Position -> bool) (fuel : nat) (z z' : TemplateZone) :
  connectRoads canMoveBetween Position_ltb fuel z = Some z' ->
  roadNodes z' = roadNodes z
  /\ exists added, roads z' = roads z ++ added
       /\ Forall (fun road => roadSource road ∈ roadNodes z
                              /\ roadDestination road ∈ roadNodes z) added.
Proof.
  unfold connectRoads. intros Hrun.
  eapply connectRoadsLoop_nodes; [| |exact Hrun].
  - intros p Hp. apply fold_setInsert_In in Hp.
    apply elem_of_elements, list_elem_of_In. exact Hp.
  - intros p [].
Qed.

(** X6. A zone with no road node or a single one gets no road:
    [connectRoads] returns at once and leaves the zone as it is, whatever the
    fuel. *)
Theorem connectRoads_needs_two_nodes
    (canMoveBetween : MapGenerator -> Position -> Position -> bool)
    (Position_ltb : Position -> Position -> bool) (fuel : nat) (z : TemplateZone) :
  (base.size (roadNodes z) <= 1)%nat ->
  connectRoads canMoveBetween Position_ltb fuel z = Some z.
Proof.
  intros Hsize. unfold connectRoads.
  assert (Hlen : length (elements (roadNodes z)) = base.size (roadNodes z)) by reflexivity.
  destruct (elements (roadNodes z)) as [|p [|q l]]; simpl in Hlen; [reflexivity | reflexivity | lia].
Qed.

(** A run of the statement on a sample. *)
Lemma connectRoads_links_road_nodes_witness :
  roadNodes roadZoneLinked = roadNodes roadZone
  /\ exists added, roads roadZoneLinked = roads roadZone ++ added
       /\ Forall (fun road => roadSource road ∈ roadNodes roadZone
                              /\ roadDestination road ∈ roadNodes roadZone) added.
Proof.
  apply (connectRoads_links_road_nodes (fun _ _ _ => true) columnOrder 50
           roadZone roadZoneLinked).
  vm_compute. reflexivity.
Defined.

(** A run of the statement on a sample. *)
Lemma connectRoads_needs_two_nodes_witness :
  connectRoads (fun _ _ _ => false) columnOrder 0 (withRoadNodes roadZone {[ (1, 1) ]})
  = Some (withRoadNodes roadZone {[ (1, 1) ]}).
Proof.
  apply (connectRoads_needs_two_nodes (fun _ _ _ => false) columnOrder 0
           (withRoadNodes roadZone {[ (1, 1) ]})).
  vm_compute. lia.
Defined.

(** ** Loot *)

Lemma ItemType_eqb_eq (a b : ItemType) : ItemType_eqb a b = true <-> a = b.
Proof. destruct a, b; simpl; split; congruence. Qed.

(** What the filters of [createLoot] leave through. *)
Definition allowedItem (gi : GameInfo) (loot : LootInfo) (forMerchant : bool)
    (item : ItemInfo) : Prop :=
  In item (getItems gi)
  /\ (forMerchant = true -> getItemType item <> Valuable)
  /\ (itemTypes loot <> [] -> In (getItemType item) (itemTypes loot))
  /\ (rvSet (itemValue loot) = true ->
      rvMin (itemValue loot) <= getItemValue item <= rvMax (itemValue loot))
  /\ noSpecialItem gi item = false
  /\ containsId (forbiddenItems gi) (getItemId item) = false
  /\ noForbiddenItem gi item = false.

Lemma pickItem_allowed gi loot forMerchant remainingValue r item :
  fst (pickItem gi (lootFilters gi loot forMerchant remainingValue) r) = Some item ->
  allowedItem gi loot forMerchant item.
Proof.
  intros H. apply pick_Some in H as [Hin Hacc].
  assert (Hf : forall f, In f (lootFilters gi loot forMerchant remainingValue) ->
             f item = false) by (intros f; apply accepted_In; exact Hacc).
  unfold lootFilters in Hf.
  pose proof (Hf _ (or_introl eq_refl)) as Htype.
  pose proof (Hf _ (or_intror (or_introl eq_refl))) as Hvalue.
  pose proof (Hf _ (or_intror (or_intror (or_introl eq_refl)))) as Hspecial.
  pose proof (Hf _ (or_intror (or_intror (or_intror (or_introl eq_refl))))) as Hforb.
  pose proof (Hf _ (or_intror (or_intror (or_intror (or_intror (or_introl eq_refl))))))
    as Hglobal.
  unfold noWrongType in Htype. unfold noWrongItemValue in Hvalue.
  unfold noForbiddenItemOnTemplate in Hforb.
  split; [exact Hin|]. split; [|split; [|split; [|split; [|split]]]]; try assumption.
  - intros -> Hv. apply ItemType_eqb_eq in Hv. rewrite Hv in Htype. discriminate.
  - intros Hne.
    destruct (forMerchant && ItemType_eqb (getItemType item) Valuable); [discriminate|].
    destruct (itemTypes loot) as [|t types]; [contradiction|].
    apply negb_false_iff, existsb_exists in Htype as (x & Hx & Heq).
    apply ItemType_eqb_eq in Heq. subst x. exact Hx.
  - intros Hset. rewrite Hset in Hvalue. cbn [andb] in Hvalue.
    destruct ((getItemValue item <? rvMin (itemValue loot))
              || (rvMax (itemValue loot) <? getItemValue item)) eqn:E; [discriminate|].
    apply orb_false_iff in E as [E1 E2]. apply Z.ltb_ge in E1, E2. lia.
Qed.

Lemma createRandomItems_allowed gi loot forMerchant desiredValue (fuel : nat) :
  forall currentValue r picked res r',
  createRandomItems fuel gi loot forMerchant desiredValue currentValue r picked
    = Some (res, r') ->
  Forall (allowedItem gi loot forMerchant) picked ->
  Forall (allowedItem gi loot forMerchant) res.
Proof.
  induction fuel as [|fuel IH]; intros currentValue r picked res r' H Hall; simpl in H;
    [discriminate|].
  destruct (currentValue <=? desiredValue); [|inversion H; subst; exact Hall].
  destruct (pickItem gi _ r) as [[item|] r1] eqn:Hp; [|inversion H; subst; exact Hall].
  eapply IH; [exact H|]. apply Forall_app. split; [exact Hall|].
  constructor; [|constructor].
  eapply pickItem_allowed. rewrite Hp. reflexivity.
Qed.

(** X7. The items that [createLoot] draws at random pass every filter: each
    is a catalog item, no [Valuable] when the loot is for a merchant, of one
    of the loot's item types when any are given, with a value inside the
    loot's item-value range when one is set, and neither special nor
    forbidden. The required items come first and are not filtered. *)
Theorem createLoot_draws_allowed_items (fuel : nat) (gi : GameInfo) (g g' : MapGenerator)
    (loot : LootInfo) (forMerchant : bool) (items : list (CMidgardID * Z)) :
  createLoot fuel gi g loot forMerchant = Some (items, g') ->
  exists drawn,
    items = fst (createRequiredItems (requiredItems loot) (randomGenerator g) [])
            ++ map lootEntry drawn
    /\ Forall (allowedItem gi loot forMerchant) drawn.
Proof.
  unfold createLoot. intros H.
  destruct (createRequiredItems (requiredItems loot) (randomGenerator g) []) as [req r].
  cbn [fst]. destruct (rvSet (lootValue loot)).
  - destruct (pickValue (lootValue loot) r) as [desiredValue r1].
    destruct (createRandomItems fuel gi loot forMerchant desiredValue 0 r1 [])
      as [[picked r2]|] eqn:Hrun; [|discriminate].
    inversion H; subst. exists picked. split; [reflexivity|].
    eapply createRandomItems_allowed; [exact Hrun | constructor].
  - inversion H; subst. exists []. rewrite app_nil_r. split; [reflexivity | constructor].
Qed.

(** A run of the statement on a sample. *)
Lemma createLoot_draws_allowed_items_witness :
  exists drawn,
    [((IdType.ItemGlobal, 2), 1); ((IdType.ItemGlobal, 2), 1)]
    = fst (createRequiredItems (requiredItems pickyLoot)
             (randomGenerator (withRandom (blankGenerator 3 1) [5; 1; 4; 1; 3])) [])
      ++ map lootEntry drawn
    /\ Forall (allowedItem sampleGameInfo pickyLoot true) drawn.
Proof.
  apply (createLoot_draws_allowed_items 200 sampleGameInfo
           (withRandom (blankGenerator 3 1) [5; 1; 4; 1; 3])
           (withRandom (blankGenerator 3 1) [3]) pickyLoot true).
  vm_compute. reflexivity.
Defined.

(** ** Accessibility of a map element *)

(** A loop that overwrites its result at every element that passes a test:
    the result is the value at some passing element, or the initial one when
    no element passes. *)
Lemma fold_left_last_match {A R : Type} (c : A -> bool) (f : A -> R) (l : list A) :
  forall init,
  let r := fold_left (fun result x => if c x then f x else result) l init in
  (exists x, In x l /\ c x = true /\ r = f x)
  \/ (r = init /\ forall x, In x l -> c x = false).
Proof.
  induction l as [|a l IH]; intros init; simpl.
  - right. split; [reflexivity | intros x []].
  - destruct (IH (if c a then f a else init)) as [(x & Hx & Hc & Hr)|[Hr Hnone]].
    + left. exists x. auto.
    + destruct (c a) eqn:Hca.
      * left. exists a. auto.
      * right. split; [exact Hr|]. intros x [<-|Hx]; auto.
Qed.

(** The test of one offset around the entrance in [getAccessibleOffset]. *)
Definition accessibleFrom (z : TemplateZone) (e : MapElement) (p xy : Position) : Prop :=
  let nearbyPos := padd p (padd xy (entranceOffset e)) in
  xy <> (0, 0)
  /\ (padd xy (entranceOffset e) ∉ blockedOffsets e)
  /\ isInTheMap (mapGenerator z) nearbyPos = true
  /\ isVisitableFrom e xy = true
  /\ isBlocked (mapGenerator z) nearbyPos = false
  /\ isInTheZone z nearbyPos = true.

Definition accessibleFromb (z : TemplateZone) (e : MapElement) (p xy : Position) : bool :=
  let nearbyPos := padd p (padd xy (entranceOffset e)) in
  negb ((fst xy =? 0) && (snd xy =? 0))
  && negb (bool_decide (padd xy (entranceOffset e) ∈ blockedOffsets e))
  && isInTheMap (mapGenerator z) nearbyPos
  && (isVisitableFrom e xy && negb (isBlocked (mapGenerator z) nearbyPos)
      && isInTheZone z nearbyPos).

Lemma accessibleFromb_spec z e p xy :
  accessibleFromb z e p xy = true <-> accessibleFrom z e p xy.
Proof.
  unfold accessibleFromb, accessibleFrom. cbv zeta.
  rewrite !andb_true_iff, !negb_true_iff, bool_decide_eq_false.
  destruct xy as [x y]. cbn [fst snd].
  split.
  - intros [[[H0 Hb] Hm] [[Hv Hn] Hz]].
    split; [|tauto].
    intros E. inversion E; subst. discriminate.
  - intros (H0 & Hb & Hm & Hv & Hn & Hz).
    split; [split; [split|]|]; auto.
    apply andb_false_iff.
    destruct (Z.eqb_spec x 0); [|auto]. destruct (Z.eqb_spec y 0); [|auto].
    subst. contradiction.
Qed.

Lemma getAccessibleOffset_fold z e p :
  getAccessibleOffset z e p
  = fold_left (fun result xy =>
                 if accessibleFromb z e p xy then padd p (padd xy (entranceOffset e))
                 else result)
      aroundOffsets invalidPosition.
Proof.
  unfold getAccessibleOffset. generalize invalidPosition.
  induction aroundOffsets as [|xy l IH]; intros init; [reflexivity|].
  cbn [fold_left]. rewrite IH. f_equal.
  unfold accessibleFromb. cbv zeta.
  destruct ((fst xy =? 0) && (snd xy =? 0)); [reflexivity|].
  destruct (bool_decide _); [reflexivity|].
  destruct (isInTheMap _ _); reflexivity.
Qed.

Lemma getAccessibleOffset_cases (z : TemplateZone) (e : MapElement) (p : Position) :
  if isAccessibleFromSomewhere z e p
  then exists xy, In xy aroundOffsets /\ accessibleFrom z e p xy
         /\ getAccessibleOffset z e p = padd p (padd xy (entranceOffset e))
  else getAccessibleOffset z e p = invalidPosition
       /\ forall xy, In xy aroundOffsets -> ~ accessibleFrom z e p xy.
Proof.
  unfold isAccessibleFromSomewhere. rewrite getAccessibleOffset_fold.
  destruct (fold_left_last_match (accessibleFromb z e p)
              (fun xy => padd p (padd xy (entranceOffset e)))
              aroundOffsets invalidPosition) as [(xy & Hin & Hc & Hr)|[Hr Hnone]];
    cbv zeta in *; rewrite Hr.
  - apply accessibleFromb_spec in Hc.
    assert (Hv : isValid (padd p (padd xy (entranceOffset e))) = true).
    { destruct Hc as (_ & _ & Hm & _). eapply isInTheMap_isValid. exact Hm. }
    rewrite Hv. exists xy. auto.
  - cbn. split; [reflexivity|].
    intros xy Hin Hacc. apply accessibleFromb_spec in Hacc.
    rewrite (Hnone xy Hin) in Hacc. discriminate.
Qed.

(** X8. [isAccessibleFromSomewhere] holds exactly when one of the eight
    offsets around the entrance passes the test of [getAccessibleOffset]:
    the tile is not blocked by the element itself, lies in the map and in
    the zone, is neither Blocked nor Used, and the element can be visited
    from that side. [getAccessibleOffset] then returns such a tile, and the
    invalid position (-1, -1) when there is none. *)
Theorem getAccessibleOffset_spec (z : TemplateZone) (e : MapElement) (p : Position) :
  if isAccessibleFromSomewhere z e p
  then exists xy, In xy aroundOffsets /\ accessibleFrom z e p xy
         /\ getAccessibleOffset z e p = padd p (padd xy (entranceOffset e))
  else getAccessibleOffset z e p = invalidPosition
       /\ forall xy, In xy aroundOffsets -> ~ accessibleFrom z e p xy.
Proof. apply getAccessibleOffset_cases. Qed.

(** ** The budget of the stack composer *)

Lemma sumValues_take_S (l : list Z) (k : nat) v :
  l !! k = Some v -> sumValues (take (S k) l) = sumValues (take k l) + v.
Proof.
  revert k. induction l as [|a l IH]; intros k H; [discriminate|].
  destruct k as [|k]; simpl in *.
  - inversion H; subst. unfold sumValues. simpl. lia.
  - unfold sumValues in *. cbn [take fold_right]. rewrite (IH k H). simpl. lia.
Qed.

Lemma createStackLeaderPass_budget gi allowedSubraces minValueCoeff canPlaceBig
    (unitValues : list Z) : forall i unused r leaderInfo unused' consumed r',
  createStackLeaderPass gi allowedSubraces minValueCoeff canPlaceBig unitValues i unused r
  = (Some (leaderInfo, (unused', consumed)), r') ->
  exists k, (k < length unitValues)%nat /\ consumed = (i + k + 1)%nat
    /\ unused' + getValue leaderInfo = unused + sumValues (take (S k) unitValues)
    /\ 0 <= unused'
    /\ subraceRejected allowedSubraces leaderInfo = false
    /\ (isBig leaderInfo = true -> canPlaceBig = true)
    /\ containsId (forbiddenUnits gi) (getUnitId leaderInfo) = false
    /\ noForbiddenUnit gi leaderInfo = false.
Proof.
  induction unitValues as [|v rest IH]; intros i unused r leaderInfo unused' consumed r' H;
    simpl in H; [discriminate|].
  destruct (pickLeader gi _ r) as [[picked|] r1] eqn:Hp.
  - inversion H; subst. clear H.
    apply pickLeader_Some in Hp as [_ Hacc].
    pose proof (accepted_In _ _ _ Hacc (or_introl eq_refl)) as Hf.
    pose proof (accepted_In _ _ _ Hacc (or_intror (or_introl eq_refl))) as Hforb.
    pose proof (accepted_In _ _ _ Hacc (or_intror (or_intror (or_introl eq_refl)))) as Hg.
    unfold leaderFilter in Hf. unfold noForbiddenUnitOnTemplate in Hforb.
    destruct (subraceRejected allowedSubraces leaderInfo) eqn:Hs; [discriminate|].
    destruct (negb canPlaceBig && isBig leaderInfo) eqn:Hb; [discriminate|].
    apply orb_false_iff in Hf as [_ Hle]. apply Z.ltb_ge in Hle.
    exists 0%nat. unfold sumValues. simpl.
    split; [lia|]. split; [lia|]. split; [lia|]. split; [lia|].
    split; [reflexivity|]. split; [|split; assumption].
    intros Hbig. rewrite Hbig in Hb. destruct canPlaceBig; [reflexivity | discriminate].
  - apply IH in H as (k & Hk & -> & Hsum & Hrest).
    exists (S k). simpl. split; [lia|]. split; [lia|]. split; [|exact Hrest].
    rewrite Hsum. unfold sumValues. cbn [take fold_right]. lia.
Qed.

Lemma createStackLeaderLoop_budget gi allowedSubraces (attempts : nat) :
  forall minValueCoeff unused unitValues r leaderInfo unused' consumed r',
  createStackLeaderLoop gi allowedSubraces attempts minValueCoeff unused unitValues r
  = (Some (leaderInfo, (unused', consumed)), r') ->
  exists k, (k < length unitValues)%nat /\ consumed = S k
    /\ unused' + getValue leaderInfo = unused + sumValues (take (S k) unitValues)
    /\ 0 <= unused'
    /\ subraceRejected allowedSubraces leaderInfo = false
    /\ (isBig leaderInfo = true -> (length unitValues < 6)%nat)
    /\ containsId (forbiddenUnits gi) (getUnitId leaderInfo) = false
    /\ noForbiddenUnit gi leaderInfo = false.
Proof.
  induction attempts as [|attempts IH];
    intros minValueCoeff unused unitValues r leaderInfo unused' consumed r' H;
    simpl in H; [discriminate|].
  destruct (createStackLeaderPass gi allowedSubraces minValueCoeff _ unitValues 0 unused r)
    as [[res|] r1] eqn:Hpass.
  - inversion H; subst. clear H.
    apply createStackLeaderPass_budget in Hpass
      as (k & Hk & -> & Hsum & Hpos & Hs & Hbig & Hf & Hg).
    exists k. split; [exact Hk|]. split; [lia|]. split; [exact Hsum|].
    split; [exact Hpos|]. split; [exact Hs|]. split; [|split; assumption].
    intros Hb. apply Hbig in Hb. apply Nat.ltb_lt in Hb. exact Hb.
  - eapply IH. exact H.
Qed.

(** X9. A leader that [createStackLeader] picks in one of its five rounds
    costs no more than the unit values consumed for it: the value left over
    is the unused value plus the consumed unit values minus the leader's
    value, and it is not negative, so the unsigned subtraction cannot wrap.
    Such a leader is of an allowed subrace, not forbidden, and big only when
    there are fewer than six unit values. Otherwise the result is a leader of
    the least value, with nothing left over and nothing consumed. *)
Theorem createStackLeader_budget (gi : GameInfo) (unusedValue : Z) (valuesConsumed : nat)
    (unitValues allowedSubraces : list Z) (r r' : Random.Rng) (leaderInfo : UnitInfo)
    (unused' : Z) (consumed : nat) :
  createStackLeader gi unusedValue valuesConsumed unitValues allowedSubraces r
  = (Some leaderInfo, (unused', consumed), r') ->
  In leaderInfo (getLeaders gi)
  /\ 0 <= unused'
  /\ (consumed <= length unitValues)%nat
  /\ ((unused' = 0 /\ consumed = 0%nat /\ getValue leaderInfo = getMinLeaderValue gi)
      \/ ((1 <= consumed)%nat
          /\ unused' + getValue leaderInfo
             = unusedValue + sumValues (take consumed unitValues)
          /\ subraceRejected allowedSubraces leaderInfo = false
          /\ (isBig leaderInfo = true -> (length unitValues < 6)%nat)
          /\ containsId (forbiddenUnits gi) (getUnitId leaderInfo) = false
          /\ noForbiddenUnit gi leaderInfo = false)).
Proof.
  intros H. split; [eapply createStackLeader_In; exact H|].
  unfold createStackLeader in H.
  destruct (createStackLeaderLoop gi allowedSubraces 5 _ unusedValue unitValues r)
    as [[[picked res]|] r1] eqn:Hloop.
  - inversion H; subst. clear H.
    apply createStackLeaderLoop_budget in Hloop
      as (k & Hk & -> & Hsum & Hpos & Hrest).
    split; [exact Hpos|]. split; [lia|]. right.
    split; [lia|]. split; [exact Hsum | exact Hrest].
  - destruct (find _ (getLeaders gi)) as [weakest|] eqn:Hfind; [|discriminate].
    inversion H; subst. clear H.
    apply find_some in Hfind as [_ Hv]. apply Z.eqb_eq in Hv.
    split; [lia|]. split; [lia|]. left. auto.
Qed.

(** A run of the statement on a sample. *)
Lemma createStackLeader_budget_witness :
  In sampleLeader (getLeaders stackGameInfo)
  /\ 0 <= 10
  /\ (2 <= length [20; 40; 40])%nat
  /\ ((10 = 0 /\ 2%nat = 0%nat /\ getValue sampleLeader = getMinLeaderValue stackGameInfo)
      \/ ((1 <= 2)%nat
          /\ 10 + getValue sampleLeader = 0 + sumValues (take 2 [20; 40; 40])
          /\ subraceRejected [] sampleLeader = false
          /\ (isBig sampleLeader = true -> (length [20; 40; 40] < 6)%nat)
          /\ containsId (forbiddenUnits stackGameInfo) (getUnitId sampleLeader) = false
          /\ noForbiddenUnit stackGameInfo sampleLeader = false)).
Proof.
  apply (createStackLeader_budget stackGameInfo 0 0 [20; 40; 40] [] [0; 0; 0; 0] [0; 0]
           sampleLeader 10 2).
  vm_compute. reflexivity.
Defined.

Lemma groupValueFrom_insert (units : GroupUnits) : forall i q old new,
  units !! q = Some old ->
  groupValueFrom i (<[q := new]> units)
  = groupValueFrom i units - slotValue (i + q) old + slotValue (i + q) new.
Proof.
  induction units as [|slot rest IH]; intros i q old new H; [discriminate|].
  destruct q as [|q]; simpl in *.
  - inversion H; subst. rewrite Nat.add_0_r. lia.
  - rewrite (IH (S i) q old new H). replace (S i + q)%nat with (i + S q)%nat by lia. lia.
Qed.

Lemma groupValue_insert (units : GroupUnits) q info :
  units !! q = Some None ->
  groupValue (<[q := Some info]> units) = groupValue units + slotValue q (Some info).
Proof.
  intros H. unfold groupValue. rewrite (groupValueFrom_insert units 0 q None _ H).
  simpl. lia.
Qed.

Lemma even_secondPositionOf p : Nat.even (secondPositionOf p) = negb (Nat.even p).
Proof.
  unfold secondPositionOf. destruct (Nat.even p) eqn:E.
  - rewrite Nat.even_succ, <- Nat.negb_even, E. reflexivity.
  - destruct p as [|q]; [discriminate|]. cbn [Nat.pred].
    rewrite Nat.even_succ, <- Nat.negb_even in E. apply negb_false_iff in E.
    rewrite E. reflexivity.
Qed.

Lemma placePicked_value gi reserved free units canPlaceBig frontline p info free' units' :
  composerInv gi reserved free units -> In p free ->
  (canPlaceBig = true -> In (secondPositionOf p) free) ->
  (isBig info = true -> canPlaceBig = true) ->
  placePicked canPlaceBig frontline p (secondPositionOf p) info free units
  = (free', units') ->
  groupValue units' = groupValue units + getValue info.
Proof.
  intros Hinv Hp Hsecond Hbig. unfold placePicked.
  destruct (isBig info) eqn:Hb.
  - intros H. inversion H; subst. clear H.
    destruct (ci_free _ _ _ _ Hinv p Hp) as [_ Hnone].
    destruct (ci_free _ _ _ _ Hinv _ (Hsecond (Hbig eq_refl))) as [_ Hnone2].
    rewrite groupValue_insert.
    2:{ rewrite list_lookup_insert_ne; [exact Hnone2|].
        intros E. symmetry in E. exact (secondPositionOf_neq p E). }
    rewrite groupValue_insert by exact Hnone.
    unfold slotValue. rewrite Hb, even_secondPositionOf. cbn [andb].
    destruct (Nat.even p); simpl; lia.
  - assert (Hfinal : forall q, In q free -> (erase q free, <[q := Some info]> units)
                       = (free', units') ->
              groupValue units' = groupValue units + getValue info).
    { intros q Hq H. inversion H; subst.
      destruct (ci_free _ _ _ _ Hinv q Hq) as [_ Hnone].
      rewrite groupValue_insert by exact Hnone.
      unfold slotValue. rewrite Hb. reflexivity. }
    destruct canPlaceBig; cbn [andb].
    + specialize (Hsecond eq_refl).
      destruct frontline; cbn [andb negb];
        destruct (ReachType_eqb (getAttackReach info) ReachAdjacent); cbn [negb];
        apply Hfinal; assumption.
    + apply Hfinal. exact Hp.
Qed.

Lemma groupFilters_value gi allowedSubraces canPlaceBig frontline minValue v r info r' :
  pickUnit gi (groupFilters gi allowedSubraces canPlaceBig frontline minValue v) r
  = (Some info, r') ->
  getValue info <= v.
Proof.
  intros H. apply pickUnit_Some in H as [_ Hacc].
  pose proof (accepted_In _ _ _ Hacc (or_intror (or_introl eq_refl))) as Hv.
  unfold noWrongValue in Hv. apply orb_false_iff in Hv as [_ Hv].
  apply Z.ltb_ge in Hv. exact Hv.
Qed.

Lemma createGroupLoop_value gi allowedSubraces reserved total (unitValues : list Z) :
  forall st,
  composerInv gi reserved (positions st) (groupUnits st) ->
  let st' := createGroupLoop gi allowedSubraces total unitValues st in
  exists k, (k <= length unitValues)%nat
    /\ groupValue (groupUnits st') + unusedValue st'
       = groupValue (groupUnits st) + unusedValue st + sumValues (take k unitValues)
    /\ (k = length unitValues \/ positions st' = [])
    /\ (0 <= unusedValue st -> Forall (fun v => 0 <= v) unitValues -> 0 <= unusedValue st').
Proof.
  induction unitValues as [|v rest IH]; intros st Hinv; cbv zeta.
  - exists 0%nat. simpl. unfold sumValues. simpl.
    split; [lia|]. split; [lia|]. split; [left; reflexivity | auto].
  - cbn [createGroupLoop].
    destruct (positions st) as [|p0 free0] eqn:Hpos.
    { exists 0%nat. unfold sumValues. simpl. split; [lia|]. split; [lia|].
      split; [right; exact Hpos | auto]. }
    rewrite <- Hpos in Hinv |- *.
    destruct (Random.getRandomElement (positions st) (rand st)) as [[p|] r] eqn:Hrand.
    2:{ exfalso.
        destruct (getRandomElement_nonempty (positions st) (rand st)) as [x Hx];
          [rewrite Hpos; discriminate|].
        rewrite Hrand in Hx. discriminate. }
    assert (Hp : In p (positions st)).
    { apply (getRandomElement_In _ (rand st)). rewrite Hrand. reflexivity. }
    set (canPlaceBig := inPositions p (positions st)
                        && inPositions (secondPositionOf p) (positions st)
                        && (total <? length (positions st))%nat).
    destruct (pickUnit gi _ r) as [[info|] r1] eqn:Hpick.
    + pose proof (groupFilters_accepted _ _ _ _ _ _ _ _ _ Hpick) as [Hin Hbig].
      pose proof (groupFilters_value _ _ _ _ _ _ _ _ _ Hpick) as Hle.
      destruct (placePicked canPlaceBig (Nat.even p) p (secondPositionOf p) info
                  (positions st) (groupUnits st)) as [free units] eqn:Hplace.
      assert (Hsecond : canPlaceBig = true -> In (secondPositionOf p) (positions st)).
      { unfold canPlaceBig. intros E. apply andb_true_iff in E as [E _].
        apply andb_true_iff in E as [_ E]. apply inPositions_In. exact E. }
      pose proof (placePicked_value _ _ _ _ _ _ _ _ _ _ Hinv Hp Hsecond Hbig Hplace) as Hval.
      pose proof (placePicked_inv _ _ _ _ _ _ _ _ _ _ Hinv Hp Hsecond Hin Hbig Hplace)
        as [Hinv' _].
      destruct (IH {| unusedValue := v + unusedValue st - getValue info; positions := free;
                      groupUnits := units; rand := r1 |} Hinv')
        as (k & Hk & Hsum & Hend & Hnonneg).
      cbn [unusedValue positions groupUnits] in *.
      exists (S k). split; [simpl; lia|]. split.
      * rewrite Hsum, Hval. unfold sumValues. cbn [take fold_right]. lia.
      * split; [destruct Hend as [->|Hend]; [left; reflexivity | right; exact Hend]|].
        intros H0 Hall. inversion Hall; subst. apply Hnonneg; [lia | assumption].
    + destruct (IH {| unusedValue := unusedValue st + v; positions := positions st;
                      groupUnits := groupUnits st; rand := r1 |} Hinv)
        as (k & Hk & Hsum & Hend & Hnonneg).
      cbn [unusedValue positions groupUnits] in *.
      exists (S k). split; [simpl; lia|]. split.
      * rewrite Hsum. unfold sumValues. cbn [take fold_right]. lia.
      * split; [destruct Hend as [->|Hend]; [left; reflexivity | right; exact Hend]|].
        intros H0 Hall. inversion Hall; subst. apply Hnonneg; [lia | assumption].
Qed.

Lemma tightenGroupLoop_value gi allowedSubraces reserved (fuel : nat) :
  forall minValueCoeff failedAttempts st st',
  composerInv gi reserved (positions st) (groupUnits st) ->
  tightenGroupLoop fuel gi allowedSubraces minValueCoeff failedAttempts st = Some st' ->
  groupValue (groupUnits st') + unusedValue st'
  = groupValue (groupUnits st) + unusedValue st
  /\ (0 <= unusedValue st -> 0 <= unusedValue st')
  /\ (positions st = [] -> positions st' = [])
  /\ composerInv gi reserved (positions st') (groupUnits st')
  /\ (length (positions st') <= length (positions st))%nat.
Proof.
  induction fuel as [|fuel IH]; intros minValueCoeff failedAttempts st st' Hinv H;
    simpl in H; [discriminate|].
  destruct ((failedAttempts <? 200)
            && negb (match positions st with [] => true | _ => false end)
            && (getMinSoldierValue gi <=? unusedValue st)) eqn:Hcond.
  2:{ inversion H; subst. auto 6. }
  destruct (Random.getRandomElement (positions st) (rand st)) as [[p|] r] eqn:Hrand.
  2:{ inversion H; subst. auto 6. }
  assert (Hp : In p (positions st)).
  { apply (getRandomElement_In _ (rand st)). rewrite Hrand. reflexivity. }
  assert (Hne : positions st <> []).
  { intros E. rewrite E in Hp. destruct Hp. }
  set (canPlaceBig := inPositions p (positions st)
                      && inPositions (secondPositionOf p) (positions st)) in *.
  destruct (pickUnit gi _ r) as [[info|] r1] eqn:Hpick.
  - pose proof (groupFilters_accepted _ _ _ _ _ _ _ _ _ Hpick) as [Hin Hbig].
    pose proof (groupFilters_value _ _ _ _ _ _ _ _ _ Hpick) as Hle.
    destruct (placePicked canPlaceBig (Nat.even p) p (secondPositionOf p) info
                (positions st) (groupUnits st)) as [free units] eqn:Hplace.
    assert (Hsecond : canPlaceBig = true -> In (secondPositionOf p) (positions st)).
    { unfold canPlaceBig. intros E. apply andb_true_iff in E as [_ E].
      apply inPositions_In. exact E. }
    pose proof (placePicked_value _ _ _ _ _ _ _ _ _ _ Hinv Hp Hsecond Hbig Hplace) as Hval.
    pose proof (placePicked_inv _ _ _ _ _ _ _ _ _ _ Hinv Hp Hsecond Hin Hbig Hplace)
      as [Hinv' Hlen].
    apply IH in H as (Hsum & Hnonneg & _ & Hinv'' & Hlen'); [|exact Hinv'].
    cbn [unusedValue positions groupUnits] in *.
    split; [lia|]. split; [intros _; apply Hnonneg; lia|].
    split; [intros E; contradiction|]. split; [exact Hinv'' | lia].
  - apply IH in H as (Hsum & Hnonneg & Hempty & Hinv'' & Hlen'); [|exact Hinv].
    cbn [unusedValue positions groupUnits] in *. auto 6.
Qed.

(** X10. The soldiers of a stack are paid from the value left by the leader
    and the unit values that follow: after [createGroup] and [tightenGroup],
    run as [createStack] runs them on the positions left by the leader, the
    value of the soldiers placed plus the unused value equals the initial
    unused value plus the unit values that [createGroup] consumed, and every
    unit value is consumed unless the group is full. With unsigned inputs
    the unused value never goes below zero. *)
Theorem soldiers_paid_from_budget (fuel : nat) (gi : GameInfo) (leaderInfo : UnitInfo)
    (unused : Z) (unitValues allowedSubraces : list Z) (r : Random.Rng) (st' : Composer) :
  tightenGroup fuel gi
    (createGroup gi {| unusedValue := unused; positions := snd (placeLeader leaderInfo);
                       groupUnits := noUnits; rand := r |} unitValues allowedSubraces)
    allowedSubraces = Some st' ->
  exists k, (k <= length unitValues)%nat
    /\ groupValue (groupUnits st') + unusedValue st' = unused + sumValues (take k unitValues)
    /\ (k = length unitValues \/ positions st' = [])
    /\ (0 <= unused -> Forall (fun v => 0 <= v) unitValues -> 0 <= unusedValue st')
    /\ (forall i info, groupUnits st' !! i = Some (Some info) -> In info (getSoldiers gi)).
Proof.
  destruct (placeLeader_inv gi leaderInfo) as (Hinv & _).
  set (st0 := {| unusedValue := unused; positions := snd (placeLeader leaderInfo);
                 groupUnits := noUnits; rand := r |}) in *.
  set (reserved := if isBig leaderInfo then [2; 3]%nat else [fst (placeLeader leaderInfo)])
    in *.
  intros H.
  assert (Hinv0 : composerInv gi reserved (positions st0) (groupUnits st0)) by exact Hinv.
  destruct (createGroupLoop_value gi allowedSubraces reserved (length unitValues)
              unitValues st0 Hinv0) as (k & Hk & Hsum & Hend & Hnonneg).
  destruct (createGroupLoop_inv gi allowedSubraces reserved (length unitValues)
              unitValues st0 Hinv0) as [Hinv1 _].
  fold (createGroup gi st0 unitValues allowedSubraces) in Hsum, Hend, Hnonneg, Hinv1.
  unfold tightenGroup in H.
  apply (tightenGroupLoop_value gi allowedSubraces reserved) in H
    as (Hsum' & Hnonneg' & Hempty & Hinv2 & _); [|exact Hinv1].
  exists k. split; [exact Hk|]. split.
  - rewrite Hsum', Hsum. cbn. lia.
  - split; [destruct Hend as [->|Hend]; [left; reflexivity | right; auto]|].
    split; [intros H0 Hall; apply Hnonneg'; apply Hnonneg; assumption|].
    intros i info Hi. eapply ci_soldiers; [exact Hinv2 | exact Hi].
Qed.

(** A run of the statement on a sample. *)
Lemma soldiers_paid_from_budget_witness :
  exists k, (k <= length [40; 40])%nat
    /\ groupValue (groupUnits sampleComposed) + unusedValue sampleComposed
       = 10 + sumValues (take k [40; 40])
    /\ (k = length [40; 40] \/ positions sampleComposed = [])
    /\ (0 <= 10 -> Forall (fun v => 0 <= v) [40; 40] -> 0 <= unusedValue sampleComposed)
    /\ (forall i info, groupUnits sampleComposed !! i = Some (Some info) ->
          In info (getSoldiers stackGameInfo)).
Proof.
  apply (soldiers_paid_from_budget 1407 stackGameInfo sampleLeader 10 [40; 40] []
           [1; 0; 3; 1; 2; 0; 0] sampleComposed).
  vm_compute. reflexivity.
Defined.

(** X11. [tightenGroup] ends: after the leader is placed at most five
    positions are free, every pick takes one and at most 200 picks in a row
    fail, so 1206 iterations of its loop suffice whatever the random source
    yields. *)
Theorem tightenGroup_terminates (fuel : nat) (gi : GameInfo) (leaderInfo : UnitInfo)
    (unused : Z) (unitValues allowedSubraces : list Z) (r : Random.Rng) :
  (1206 <= fuel)%nat ->
  exists st',
    tightenGroup fuel gi
      (createGroup gi {| unusedValue := unused; positions := snd (placeLeader leaderInfo);
                         groupUnits := noUnits; rand := r |} unitValues allowedSubraces)
      allowedSubraces = Some st'
    /\ (length (positions st') <= 5)%nat.
Proof.
  intros Hfuel.
  destruct (placeLeader_inv gi leaderInfo) as (Hinv & Hlen & _).
  set (st0 := {| unusedValue := unused; positions := snd (placeLeader leaderInfo);
                 groupUnits := noUnits; rand := r |}).
  set (reserved := if isBig leaderInfo then [2; 3]%nat else [fst (placeLeader leaderInfo)])
    in *.
  assert (Hinv0 : composerInv gi reserved (positions st0) (groupUnits st0)) by exact Hinv.
  destruct (createGroupLoop_inv gi allowedSubraces reserved (length unitValues)
              unitValues st0 Hinv0) as [Hinv1 Hlen1].
  fold (createGroup gi st0 unitValues allowedSubraces) in Hinv1, Hlen1.
  cbn [positions st0] in Hlen1.
  unfold tightenGroup.
  destruct (tightenGroupLoop_total gi allowedSubraces reserved fuel
              (relaxedCoeff (positions (createGroup gi st0 unitValues allowedSubraces)))
              0 _ Hinv1 ltac:(lia) ltac:(lia)) as (st' & Hrun & Hinv').
  exists st'. split; [exact Hrun|].
  apply (tightenGroupLoop_value gi allowedSubraces reserved) in Hrun; [|exact Hinv1].
  destruct Hrun as (_ & _ & _ & _ & Hlen2). lia.
Qed.

(** A run of the statement on a sample. *)
Lemma tightenGroup_terminates_witness :
  exists st',
    tightenGroup 1206 stackGameInfo
      (createGroup stackGameInfo
         {| unusedValue := 10; positions := snd (placeLeader sampleLeader);
            groupUnits := noUnits; rand := [1; 0; 3; 1; 2; 0; 0] |} [40; 40] [])
      [] = Some st'
    /\ (length (positions st') <= 5)%nat.
Proof.
  apply (tightenGroup_terminates 1206 stackGameInfo sampleLeader 10 [40; 40] []
           [1; 0; 3; 1; 2; 0; 0]).
  lia.
Defined.

(** The loop stops at the first value after which the sum exceeds the
    leader's value; the first value of all does not stop a big leader. *)
Lemma consumeValues_stops leaderInfo (unitValues : list Z) :
  forall i unused consumed unused' consumed',
  unitValues <> [] ->
  consumeValues leaderInfo unitValues i unused consumed = (unused', consumed') ->
  exists k, (1 <= k <= length unitValues)%nat /\ consumed' = (i + k)%nat
    /\ unused' = unused + sumValues (take k unitValues)
    /\ (forall j, (1 <= j < k)%nat ->
          ((i + j)%nat = 1%nat /\ isBig leaderInfo = true)
          \/ unused + sumValues (take j unitValues) <= getValue leaderInfo)
    /\ (k = length unitValues
        \/ (getValue leaderInfo < unused'
            /\ ((i + k)%nat = 1%nat -> isBig leaderInfo = false))).
Proof.
  induction unitValues as [|v rest IH]; intros i unused consumed unused' consumed' Hne H;
    [contradiction|].
  cbn [consumeValues] in H.
  assert (Hrec : consumeValues leaderInfo rest (S i) (unused + v) (S i)
                 = (unused', consumed') ->
            (((i + 1)%nat = 1%nat /\ isBig leaderInfo = true)
             \/ unused + v <= getValue leaderInfo) ->
            exists k, (1 <= k <= length (v :: rest))%nat /\ consumed' = (i + k)%nat
              /\ unused' = unused + sumValues (take k (v :: rest))
              /\ (forall j, (1 <= j < k)%nat ->
                    ((i + j)%nat = 1%nat /\ isBig leaderInfo = true)
                    \/ unused + sumValues (take j (v :: rest)) <= getValue leaderInfo)
              /\ (k = length (v :: rest)
                  \/ (getValue leaderInfo < unused'
                      /\ ((i + k)%nat = 1%nat -> isBig leaderInfo = false)))).
  { intros Hrun Hfirst. destruct rest as [|v' rest'].
    - simpl in Hrun. inversion Hrun; subst. exists 1%nat. unfold sumValues. simpl.
      split; [lia|]. split; [lia|]. split; [lia|].
      split; [intros j Hj; lia | left; reflexivity].
    - apply IH in Hrun as (k & Hk & -> & -> & Hbefore & Hstop); [|discriminate].
      exists (S k). unfold sumValues in *. cbn [take fold_right length] in *.
      split; [lia|]. split; [lia|]. split; [lia|]. split.
      + intros j Hj. destruct j as [|j]; [lia|]. destruct j as [|j].
        * cbn [take foldr].
          destruct Hfirst as [[H1 H2]|H1]; [left; split; [lia | exact H2]|].
          right. lia.
        * destruct (Hbefore (S j) ltac:(lia)) as [[H1 _]|H1]; [lia|].
          right. cbn [take foldr] in *. lia.
      + destruct Hstop as [->|[Hstop Hnb]]; [left; reflexivity|].
        right. split; [exact Hstop|]. intros; lia. }
  destruct ((i =? 0)%nat && isBig leaderInfo) eqn:Hskip.
  - apply andb_true_iff in Hskip as [Hi Hb]. apply Nat.eqb_eq in Hi.
    apply (Hrec H). left. split; [lia | exact Hb].
  - destruct (getValue leaderInfo <? unused + v) eqn:Hlt.
    + inversion H; subst. apply Z.ltb_lt in Hlt.
      exists 1%nat. unfold sumValues. simpl.
      split; [lia|]. split; [lia|]. split; [lia|].
      split; [intros j Hj; lia|]. right. split; [lia|].
      intros Hi. apply andb_false_iff in Hskip as [Hs|Hs]; [|exact Hs].
      apply Nat.eqb_neq in Hs. lia.
    + apply Z.ltb_ge in Hlt. apply (Hrec H). right. exact Hlt.
Qed.

(** X12. A required leader is one of the identifiers listed for the stack;
    [pickStackLeader] pays it from the unit values in order. It stops
    consuming at the first value after which the sum with the unused value
    exceeds the leader's value, except that the first value never stops a
    big leader, or when no value is left. What is left over is the
    difference, or zero when the leader costs more than everything consumed.
    With no unit value at all the count of consumed values is left as it
    was. *)
Theorem pickStackLeader_pays_required_leader (gi : GameInfo) (unusedValue : Z)
    (valuesConsumed : nat) (unitValues : list Z) (ids : list CMidgardID)
    (r r' : Random.Rng) (leaderInfo : UnitInfo) (unused' : Z) (consumed : nat) :
  pickStackLeader gi unusedValue valuesConsumed unitValues ids r
  = (Some leaderInfo, (unused', consumed), r') ->
  In leaderInfo (getLeaders gi)
  /\ containsId ids (getUnitId leaderInfo) = true
  /\ unused'
     = Z.max 0 (unusedValue + sumValues (take consumed unitValues) - getValue leaderInfo)
  /\ match unitValues with
     | [] => consumed = valuesConsumed
     | _ => (1 <= consumed <= length unitValues)%nat
            /\ (forall k, (1 <= k < consumed)%nat ->
                  (k = 1%nat /\ isBig leaderInfo = true)
                  \/ unusedValue + sumValues (take k unitValues) <= getValue leaderInfo)
            /\ (consumed = length unitValues
                \/ (getValue leaderInfo
                    < unusedValue + sumValues (take consumed unitValues)
                    /\ (consumed = 1%nat -> isBig leaderInfo = false)))
     end.
Proof.
  intros H. split; [eapply pickStackLeader_In; exact H|].
  unfold pickStackLeader in H.
  destruct (pickLeader gi _ r) as [[picked|] r1] eqn:Hpick; [|discriminate].
  destruct (consumeValues picked unitValues 0 unusedValue valuesConsumed)
    as [unused n] eqn:Hrun.
  inversion H; subst. clear H.
  apply pickLeader_Some in Hpick as [_ Hacc].
  pose proof (accepted_In _ _ _ Hacc (or_introl eq_refl)) as Hid.
  apply negb_false_iff in Hid. split; [exact Hid|].
  destruct unitValues as [|v rest].
  - simpl in Hrun. inversion Hrun; subst. unfold sumValues. rewrite take_nil. simpl.
    split; [|reflexivity].
    destruct (unused <? getValue leaderInfo) eqn:E;
      [apply Z.ltb_lt in E | apply Z.ltb_ge in E]; lia.
  - apply consumeValues_stops in Hrun as (k & Hk & -> & -> & Hbefore & Hstop);
      [|discriminate].
    cbn [Nat.add]. split.
    + destruct (_ <? getValue leaderInfo) eqn:E;
        [apply Z.ltb_lt in E | apply Z.ltb_ge in E]; lia.
    + split; [exact Hk|]. split; [exact Hbefore | exact Hstop].
Qed.
(** A run of the statement on a sample. *)
Lemma pickStackLeader_pays_required_leader_witness :
  In sampleLeader (getLeaders stackGameInfo)
  /\ containsId [(IdType.UnitGlobal, 1)] (getUnitId sampleLeader) = true
  /\ 10 = Z.max 0 (0 + sumValues (take 2 [20; 40; 40]) - getValue sampleLeader)
  /\ (1 <= 2 <= length [20; 40; 40])%nat
     /\ (forall k, (1 <= k < 2)%nat ->
           (k = 1%nat /\ isBig sampleLeader = true)
           \/ 0 + sumValues (take k [20; 40; 40]) <= getValue sampleLeader)
     /\ (2%nat = length [20; 40; 40]
         \/ (getValue sampleLeader < 0 + sumValues (take 2 [20; 40; 40])
             /\ (2%nat = 1%nat -> isBig sampleLeader = false))).
Proof.
  apply (pickStackLeader_pays_required_leader stackGameInfo 0 0 [20; 40; 40]
           [(IdType.UnitGlobal, 1)] [0; 7] [7] sampleLeader 10 2).
  vm_compute. reflexivity.
Defined.

(** ** Entrances and forests *)

Lemma isOffsetBlocked_false g entrance offset :
  isOffsetBlocked g entrance offset = false <->
  shouldBeBlocked g (padd entrance offset) = false
  /\ (isRoad g (padd entrance offset) = true
      \/ isUsed g (padd entrance offset) = false
      \/ ground (mapTiles g (padd entrance offset)) = Forest).
Proof.
  unfold isOffsetBlocked. cbv zeta.
  destruct (shouldBeBlocked g _); [split; [discriminate | intros [? _]; discriminate]|].
  destruct (isRoad g _); [split; auto|].
  destruct (isUsed g _); cbn [andb]; [|split; auto].
  destruct (ground (mapTiles g _)); simpl; split; auto;
    intros [_ [?|[?|?]]]; discriminate.
Qed.

Lemma forallb_false {A : Type} (f : A -> bool) (l : list A) :
  forallb f l = false <-> exists x, In x l /\ f x = false.
Proof.
  induction l as [|a l IH]; simpl.
  - split; [discriminate | intros (x & [] & _)].
  - rewrite andb_false_iff, IH. split.
    + intros [H|(x & Hx & Hf)]; eauto.
    + intros (x & [<-|Hx] & Hf); eauto.
Qed.

Lemma isEntranceBlocked_false (e : MapElement) (g : MapGenerator) :
  isEntranceBlocked e g = false <->
  exists offset, In offset (entranceOffsets e)
    /\ shouldBeBlocked g (padd (getEntrance e) offset) = false
    /\ (isRoad g (padd (getEntrance e) offset) = true
        \/ isUsed g (padd (getEntrance e) offset) = false
        \/ ground (mapTiles g (padd (getEntrance e) offset)) = Forest).
Proof.
  unfold isEntranceBlocked. rewrite forallb_false. split.
  - intros (offset & Hin & Hf). apply isOffsetBlocked_false in Hf. eauto.
  - intros (offset & Hin & Hf). exists offset. split; [exact Hin|].
    apply isOffsetBlocked_false. exact Hf.
Qed.

(** X13. An entrance counts as blocked exactly when every tile near it is
    blocked: [isEntranceBlocked] answers no when some tile near the entrance
    is not Blocked and carries a road, is not Used, or is a forest. An element
    without tiles near its entrance is reported as blocked. *)
Theorem isEntranceBlocked_spec (e : MapElement) (g : MapGenerator) :
  (isEntranceBlocked e g = false <->
   exists offset, In offset (entranceOffsets e)
     /\ shouldBeBlocked g (padd (getEntrance e) offset) = false
     /\ (isRoad g (padd (getEntrance e) offset) = true
         \/ isUsed g (padd (getEntrance e) offset) = false
         \/ ground (mapTiles g (padd (getEntrance e) offset)) = Forest))
  /\ (entranceOffsets e = [] -> isEntranceBlocked e g = true).
Proof.
  split; [apply isEntranceBlocked_false|].
  intros H. unfold isEntranceBlocked. rewrite H. reflexivity.
Qed.

(** X14. An element placed where [isEntranceAccessible] holds is not
    reported by [isEntranceBlocked], provided it has tiles near its entrance:
    the placement test and the debug check agree at that moment. *)
Theorem accessible_entrance_is_not_blocked (z : TemplateZone) (e : MapElement)
    (p : Position) :
  isEntranceAccessible z e p = true ->
  entranceOffsets e <> [] ->
  isEntranceBlocked (setPosition e p) (mapGenerator z) = false.
Proof.
  intros Hacc Hne. apply isEntranceBlocked_false.
  destruct (entranceOffsets e) as [|offset rest] eqn:Hoff; [contradiction|].
  exists offset. cbn [setPosition entranceOffsets]. rewrite Hoff.
  split; [left; reflexivity|].
  unfold isEntranceAccessible in Hacc. cbv zeta in Hacc. rewrite Hoff in Hacc.
  cbn [forallb] in Hacc. apply andb_true_iff in Hacc as [Hacc _].
  apply andb_true_iff in Hacc as [_ Hacc]. apply negb_true_iff in Hacc.
  unfold isBlocked in Hacc. apply orb_false_iff in Hacc as [Hb Hu].
  unfold getEntrance. cbn [position entranceOffset]. auto.
Qed.

(** A run of the statement on a sample. *)
Lemma accessible_entrance_is_not_blocked_witness :
  isEntranceBlocked
    (setPosition {| position := (0, 0); size := (1, 1); blockedOffsets := [(0, 0)];
                    entranceOffset := (0, 0); entranceOffsets := [(0, 1)];
                    isVisitableFrom := fun _ => true |} (1, 1))
    (mapGenerator roadZone) = false.
Proof.
  apply (accessible_entrance_is_not_blocked roadZone
           {| position := (0, 0); size := (1, 1); blockedOffsets := [(0, 0)];
              entranceOffset := (0, 0); entranceOffsets := [(0, 1)];
              isVisitableFrom := fun _ => true |} (1, 1)).
  - vm_compute. reflexivity.
  - discriminate.
Defined.

(** A loop over the tiles of the zone whose body changes the tile it visits
    only, and only while that tile is Possible. *)
Section TileLoop.

Variable step : MapGenerator -> Position -> MapGenerator.

Hypothesis step_other : forall g a q, q <> a ->
  tiles (step g a) q = tiles g q /\ mapTiles (step g a) q = mapTiles g q.
Hypothesis step_skip : forall g a, isPossible g a = false ->
  tiles (step g a) a = tiles g a /\ mapTiles (step g a) a = mapTiles g a.
Hypothesis step_done : forall g a, isPossible g a = true ->
  isPossible (step g a) a = false.

Lemma tileLoop_untouched (l : list Position) : forall g t,
  ~ In t l \/ isPossible g t = false ->
  tiles (fold_left step l g) t = tiles g t
  /\ mapTiles (fold_left step l g) t = mapTiles g t.
Proof.
  induction l as [|a l IH]; intros g t H; simpl; [auto|].
  assert (Hstep : tiles (step g a) t = tiles g t /\ mapTiles (step g a) t = mapTiles g t).
  { destruct (decide (t = a)) as [->|Hne].
    - destruct H as [H|H]; [exfalso; apply H; left; reflexivity|].
      apply step_skip. exact H.
    - apply step_other. exact Hne. }
  destruct Hstep as [Ht Hm].
  destruct (IH (step g a) t) as [Ht' Hm'].
  - destruct H as [H|H]; [left; intros Hin; apply H; right; exact Hin|].
    right. unfold isPossible in *. rewrite Ht. exact H.
  - rewrite Ht', Hm'. auto.
Qed.

Lemma tileLoop_visited (l : list Position) : forall g t,
  In t l -> isPossible g t = true ->
  exists g1, tiles g1 t = tiles g t /\ mapTiles g1 t = mapTiles g t
    /\ tiles (fold_left step l g) t = tiles (step g1 t) t
    /\ mapTiles (fold_left step l g) t = mapTiles (step g1 t) t.
Proof.
  induction l as [|a l IH]; intros g t Hin Hp; [destruct Hin|]. simpl.
  destruct (decide (t = a)) as [->|Hne].
  - exists g. split; [reflexivity|]. split; [reflexivity|].
    apply tileLoop_untouched. right. apply step_done. exact Hp.
  - destruct Hin as [->|Hin]; [contradiction|].
    destruct (step_other g a t Hne) as [Ht Hm].
    destruct (IH (step g a) t Hin) as (g1 & Ht1 & Hm1 & Hres).
    + unfold isPossible in *. rewrite Ht. exact Hp.
    + exists g1. rewrite Ht1, Hm1. auto.
Qed.

End TileLoop.

Lemma setOccupied_tiles_other g p s q : q <> p -> tiles (setOccupied g p s) q = tiles g q.
Proof. intros H. unfold setOccupied. simpl. apply fupd_other. exact H. Qed.

Lemma isPossible_setOccupied g p s :
  isPossible (setOccupied g p s) p = TileType_eqb s Possible.
Proof. unfold isPossible. rewrite setOccupied_occupied, Position_eqb_refl. reflexivity. Qed.

Lemma clearPosition_other g a q : q <> a ->
  tiles (clearPosition g a) q = tiles g q
  /\ mapTiles (clearPosition g a) q = mapTiles g q.
Proof.
  intros H. unfold clearPosition. destruct (isPossible g a); [|auto].
  split; [apply setOccupied_tiles_other; exact H | reflexivity].
Qed.

Lemma clearPosition_skip g a : isPossible g a = false ->
  tiles (clearPosition g a) a = tiles g a
  /\ mapTiles (clearPosition g a) a = mapTiles g a.
Proof. intros H. unfold clearPosition. rewrite H. auto. Qed.

Lemma clearPosition_done g a : isPossible g a = true ->
  isPossible (clearPosition g a) a = false.
Proof.
  intros H. unfold clearPosition. rewrite H. rewrite isPossible_setOccupied. reflexivity.
Qed.

Section PlaceForestsFacts.

Variable getRandomTreeImageIndex : Random.Rng -> Z * Random.Rng.
Variable forests : Z.

Lemma placeForestAt_other g a q : q <> a ->
  tiles (placeForestAt getRandomTreeImageIndex forests g a) q = tiles g q
  /\ mapTiles (placeForestAt getRandomTreeImageIndex forests g a) q = mapTiles g q.
Proof.
  intros H. unfold placeForestAt. destruct (isPossible g a); [|auto].
  destruct (isRoad g a).
  { split; [apply setOccupied_tiles_other; exact H | reflexivity]. }
  destruct (if forests =? 100 then _ else _) as [shouldPlace r].
  destruct shouldPlace; cbn [negb].
  - destruct (getRandomTreeImageIndex _) as [image r']. cbn.
    split; [apply fupd_other; exact H | apply fupd_other; exact H].
  - cbn. split; [apply fupd_other; exact H | reflexivity].
Qed.

Lemma placeForestAt_skip g a : isPossible g a = false ->
  tiles (placeForestAt getRandomTreeImageIndex forests g a) a = tiles g a
  /\ mapTiles (placeForestAt getRandomTreeImageIndex forests g a) a = mapTiles g a.
Proof. intros H. unfold placeForestAt. rewrite H. auto. Qed.

(** What the body of the loop leaves at the Possible tile it visits: a
    forest when the tile carries no road and the draw says so, the tile set
    free otherwise. *)
Lemma placeForestAt_here g a :
  isPossible g a = true ->
  let shouldPlace :=
    if forests =? 100 then true else fst (Random.chance forests (randomGenerator g)) in
  if negb (isRoad g a) && shouldPlace
  then tiles (placeForestAt getRandomTreeImageIndex forests g a) a
       = tiles (setOccupied g a Used) a
       /\ exists image,
            mapTiles (placeForestAt getRandomTreeImageIndex forests g a) a
            = withTreeImage (setTerrainGround (mapTiles g a) TerrainNeutral Forest) image
  else tiles (placeForestAt getRandomTreeImageIndex forests g a) a
       = tiles (setOccupied g a Free) a
       /\ mapTiles (placeForestAt getRandomTreeImageIndex forests g a) a = mapTiles g a.
Proof.
  intros H. cbv zeta. unfold placeForestAt. rewrite H.
  destruct (isRoad g a); cbn [negb andb]; [auto|].
  destruct (forests =? 100).
  - cbn [fst negb]. destruct (getRandomTreeImageIndex _) as [image r'] eqn:Hi. cbn.
    rewrite !fupd_same. split; [reflexivity|]. exists image. reflexivity.
  - destruct (Random.chance forests (randomGenerator g)) as [shouldPlace r]. cbn [fst].
    destruct shouldPlace; cbn [negb]; [|auto].
    destruct (getRandomTreeImageIndex _) as [image r'] eqn:Hi. cbn.
    rewrite !fupd_same. split; [reflexivity|]. exists image. reflexivity.
Qed.

Lemma placeForestAt_done g a : isPossible g a = true ->
  isPossible (placeForestAt getRandomTreeImageIndex forests g a) a = false.
Proof.
  intros H. pose proof (placeForestAt_here g a H) as Hh. cbv zeta in Hh.
  unfold isPossible.
  destruct (negb (isRoad g a) && _); destruct Hh as [-> _];
    rewrite setOccupied_occupied, Position_eqb_refl; reflexivity.
Qed.

End PlaceForestsFacts.

Lemma setOccupied_tiles_here g g1 t s :
  tiles g1 t = tiles g t -> tiles (setOccupied g1 t s) t = tiles (setOccupied g t s) t.
Proof. intros H. unfold setOccupied. simpl. rewrite !fupd_same, H. reflexivity. Qed.

Lemma createObstacles_forests_tile getRandomTreeImageIndex (z : TemplateZone)
    (t : Position) :
  let g := mapGenerator z in
  let g' := mapGenerator (createObstacles_forests getRandomTreeImageIndex z) in
  if decide (t ∈ tileInfo z /\ isPossible g t = true)
  then (tiles g' t = tiles (setOccupied g t Free) t
        /\ mapTiles g' t = mapTiles g t
        /\ (isRoad g t = false -> forest g <> 100))
       \/ (isRoad g t = false /\ forest g <> 0
           /\ tiles g' t = tiles (setOccupied g t Used) t
           /\ exists image,
                mapTiles g' t
                = withTreeImage (setTerrainGround (mapTiles g t) TerrainNeutral Forest)
                    image)
  else tiles g' t = tiles g t /\ mapTiles g' t = mapTiles g t.
Proof.
  cbv zeta. unfold createObstacles_forests. cbv zeta.
  destruct (decide (t ∈ tileInfo z /\ isPossible (mapGenerator z) t = true))
    as [[Hin Hp]|Hno].
  - apply list_elem_of_In in Hin.
    destruct (forest (mapGenerator z) =? 0) eqn:Hf; cbn [mapGenerator withGenerator].
    + apply Z.eqb_eq in Hf.
      destruct (tileLoop_visited clearPosition clearPosition_other clearPosition_skip
                  clearPosition_done (tileInfo z) (mapGenerator z) t Hin Hp)
        as (g1 & Ht1 & Hm1 & Ht & Hm).
      left. rewrite Ht, Hm. unfold clearPosition.
      assert (Hp1 : isPossible g1 t = true) by (unfold isPossible in *; rewrite Ht1; exact Hp).
      rewrite Hp1. split; [apply setOccupied_tiles_here; exact Ht1|].
      split; [exact Hm1 | lia].
    + apply Z.eqb_neq in Hf.
      destruct (tileLoop_visited (placeForestAt getRandomTreeImageIndex (forest (mapGenerator z)))
                  (placeForestAt_other _ _) (placeForestAt_skip _ _) (placeForestAt_done _ _)
                  (tileInfo z) (mapGenerator z) t Hin Hp)
        as (g1 & Ht1 & Hm1 & Ht & Hm).
      assert (Hp1 : isPossible g1 t = true) by (unfold isPossible in *; rewrite Ht1; exact Hp).
      pose proof (placeForestAt_here getRandomTreeImageIndex (forest (mapGenerator z))
                    g1 t Hp1) as Hh.
      cbv zeta in Hh. rewrite Ht, Hm.
      assert (Hr : isRoad g1 t = isRoad (mapGenerator z) t)
        by (unfold isRoad; rewrite Ht1; reflexivity).
      rewrite Hr in Hh.
      destruct (isRoad (mapGenerator z) t) eqn:Hroad; cbn [negb andb] in Hh.
      * left. destruct Hh as [-> ->].
        split; [apply setOccupied_tiles_here; exact Ht1|]. split; [exact Hm1 | discriminate].
      * destruct (forest (mapGenerator z) =? 100) eqn:H100.
        -- right. destruct Hh as [-> [image ->]].
           split; [reflexivity|]. split; [exact Hf|].
           split; [apply setOccupied_tiles_here; exact Ht1|].
           exists image. rewrite Hm1. reflexivity.
        -- apply Z.eqb_neq in H100.
           destruct (fst (Random.chance _ _)).
           ++ right. destruct Hh as [-> [image ->]].
              split; [reflexivity|]. split; [exact Hf|].
              split; [apply setOccupied_tiles_here; exact Ht1|].
              exists image. rewrite Hm1. reflexivity.
           ++ left. destruct Hh as [-> ->].
              split; [apply setOccupied_tiles_here; exact Ht1|].
              split; [exact Hm1 | intros _; exact H100].
  - assert (Hside : ~ In t (tileInfo z) \/ isPossible (mapGenerator z) t = false).
    { destruct (isPossible (mapGenerator z) t) eqn:Hp; [|right; reflexivity].
      left. intros Hin. apply Hno. split; [apply list_elem_of_In; exact Hin | reflexivity]. }
    destruct (forest (mapGenerator z) =? 0); cbn [mapGenerator withGenerator].
    + apply (tileLoop_untouched clearPosition clearPosition_other clearPosition_skip).
      exact Hside.
    + apply (tileLoop_untouched _ (placeForestAt_other _ _) (placeForestAt_skip _ _)).
      exact Hside.
Qed.

(** X15. The forest step that ends [createObstacles] touches only the tiles
    of the zone that are still Possible. Each of them is set Free with its
    map tile unchanged, or is marked Used and becomes a forest of neutral
    terrain; a forest is never put on a road tile nor under the forest
    setting 0, and under the setting 100 every such tile without a road
    becomes one. Road flags, zone ids and distances are kept. *)
Theorem createObstacles_forests_outcome
    (getRandomTreeImageIndex : Random.Rng -> Z * Random.Rng) (z : TemplateZone)
    (t : Position) :
  let g := mapGenerator z in
  let g' := mapGenerator (createObstacles_forests getRandomTreeImageIndex z) in
  if decide (t ∈ tileInfo z /\ isPossible g t = true)
  then (tiles g' t = tiles (setOccupied g t Free) t
        /\ mapTiles g' t = mapTiles g t
        /\ (isRoad g t = false -> forest g <> 100))
       \/ (isRoad g t = false /\ forest g <> 0
           /\ tiles g' t = tiles (setOccupied g t Used) t
           /\ exists image,
                mapTiles g' t
                = withTreeImage (setTerrainGround (mapTiles g t) TerrainNeutral Forest)
                    image)
  else tiles g' t = tiles g t /\ mapTiles g' t = mapTiles g t.
Proof. apply createObstacles_forests_tile. Qed.

(** X16. After the forest step no tile of the zone is left Possible. *)
Theorem createObstacles_forests_no_possible_tile
    (getRandomTreeImageIndex : Random.Rng -> Z * Random.Rng) (z : TemplateZone)
    (t : Position) :
  t ∈ tileInfo z ->
  isPossible (mapGenerator (createObstacles_forests getRandomTreeImageIndex z)) t = false.
Proof.
  intros Hin. pose proof (createObstacles_forests_tile getRandomTreeImageIndex z t) as H.
  cbv zeta in H. unfold isPossible.
  destruct (decide (t ∈ tileInfo z /\ isPossible (mapGenerator z) t = true)) as [Hy|Hno].
  - destruct H as [(-> & _)|(_ & _ & -> & _)];
      rewrite setOccupied_occupied, Position_eqb_refl; reflexivity.
  - destruct H as [-> _].
    destruct (TileType_eqb (occupied (tiles (mapGenerator z) t)) Possible) eqn:Hp;
      [|reflexivity].
    exfalso. apply Hno. split; [exact Hin | exact Hp].
Qed.

(** X17. Forests never block an entrance: an element whose entrance is not
    blocked before the forest step is not blocked after it. *)
Theorem createObstacles_forests_keep_entrances_open
    (getRandomTreeImageIndex : Random.Rng -> Z * Random.Rng) (z : TemplateZone)
    (e : MapElement) :
  isEntranceBlocked e (mapGenerator z) = false ->
  isEntranceBlocked e (mapGenerator (createObstacles_forests getRandomTreeImageIndex z))
  = false.
Proof.
  intros H. apply isEntranceBlocked_false in H as (offset & Hin & Hb & Hopen).
  apply isEntranceBlocked_false. exists offset. split; [exact Hin|].
  set (t := padd (getEntrance e) offset) in *.
  pose proof (createObstacles_forests_tile getRandomTreeImageIndex z t) as Ht.
  cbv zeta in Ht. unfold shouldBeBlocked, isRoad, isUsed in *.
  destruct (decide (t ∈ tileInfo z /\ isPossible (mapGenerator z) t = true)) as [[_ Hp]|_].
  - unfold isPossible in Hp. apply TileType_eqb_eq in Hp.
    destruct Ht as [(Hti & Hm & _)|(_ & _ & Hti & image & Hm)]; rewrite Hti.
    + unfold setOccupied. cbn. rewrite fupd_same. cbn. auto.
    + unfold setOccupied. cbn. rewrite fupd_same. cbn. split; [reflexivity|].
      right. right. rewrite Hm. reflexivity.
  - destruct Ht as [-> ->]. auto.
Qed.

(** A run of the statement on a sample. *)
Lemma createObstacles_forests_no_possible_tile_witness :
  isPossible (mapGenerator (createObstacles_forests (Random.nextInteger 0 19) forestZone))
    (1, 2) = false.
Proof.
  apply (createObstacles_forests_no_possible_tile (Random.nextInteger 0 19) forestZone
           (1, 2)).
  apply list_elem_of_In. simpl. auto.
Defined.

(** A run of the statement on a sample. *)
Lemma createObstacles_forests_keep_entrances_open_witness :
  isEntranceBlocked gateElement
    (mapGenerator (createObstacles_forests (Random.nextInteger 0 19) forestZone)) = false.
Proof.
  apply (createObstacles_forests_keep_entrances_open (Random.nextInteger 0 19) forestZone
           gateElement).
  vm_compute. reflexivity.
Defined.

Example createObstacles_forests_sample_run :
  let g' := mapGenerator (createObstacles_forests (Random.nextInteger 0 19) forestZone) in
  map (fun t => (occupied (tiles g' t), ground (mapTiles g' t), treeImage (mapTiles g' t)))
    [(1, 1); (1, 2); (2, 2); (3, 3)]
  = [(Free, Plain, 0); (Used, Forest, 7); (Used, Forest, 11); (Possible, Plain, 0)].
Proof. vm_compute. reflexivity. Qed.

(** ** Mountains *)

Lemma rectangleOffsets_spec size o :
  o ∈ rectangleOffsets size <-> 0 <= fst o < fst size /\ 0 <= snd o < snd size.
Proof.
  unfold rectangleOffsets. rewrite list_elem_of_bind. split.
  - intros (x & Hy & Hx). apply list_elem_of_fmap in Hy as (y & -> & Hy).
    apply elem_of_seqZ in Hx, Hy. simpl. lia.
  - intros [Hx Hy]. exists (fst o). split.
    + apply list_elem_of_fmap. exists (snd o). split; [destruct o; reflexivity|].
      apply elem_of_seqZ. lia.
    + apply elem_of_seqZ. lia.
Qed.

Lemma placeMountainLoop_inside (offsets : list Position) : forall g position,
  isInTheMap g position = true ->
  placeMountainLoop g position offsets = inr (markUsed g (map (padd position) offsets)).
Proof.
  induction offsets as [|o rest IH]; intros g position H; simpl; [reflexivity|].
  rewrite H. cbn [negb]. apply IH. exact H.
Qed.

Lemma inRectangle_offsets position size t :
  inRectangle position size t = true <-> t ∈ map (padd position) (rectangleOffsets size).
Proof.
  unfold inRectangle. rewrite !andb_true_iff, !Z.leb_le, !Z.ltb_lt.
  change (map (padd position) (rectangleOffsets size))
    with (padd position <$> rectangleOffsets size).
  rewrite list_elem_of_fmap. split.
  - intros [[[H1 H2] H3] H4]. exists (psub t position). split.
    + unfold padd, psub. destruct t, position. simpl. f_equal; lia.
    + apply rectangleOffsets_spec. unfold psub. simpl. lia.
  - intros (o & -> & Ho). apply rectangleOffsets_spec in Ho. unfold padd. simpl. lia.
Qed.

Lemma markUsed_sameBesidesOccupied (l : list Position) : forall g,
  sameBesidesOccupied g (markUsed g l).
Proof.
  unfold markUsed. induction l as [|a l IH]; intros g; simpl.
  - unfold sameBesidesOccupied. auto 10.
  - destruct (IH (setOccupied g a Used)) as (H1 & H2 & H3 & H4 & H5 & H6 & H7 & H8).
    unfold sameBesidesOccupied. rewrite H1, H2, H3, H4, H5, H6, H7.
    split; [reflexivity|]. split; [reflexivity|]. split; [reflexivity|].
    split; [reflexivity|]. split; [reflexivity|]. split; [reflexivity|].
    split; [reflexivity|].
    intros t. destruct (H8 t) as (R1 & R2 & R3). rewrite R1, R2, R3.
    unfold setOccupied, fupd. cbn. destruct (Position_eqb t a) eqn:E; [|auto].
    apply Position_eqb_eq in E. subst. auto.
Qed.

(** X18. [placeMountain] tests the origin of the mountain, not the tile at
    hand: with the origin outside the map and a size positive in both
    coordinates it throws at the first tile and leaves the zone as it was; a
    mountain with an empty size is never rejected and marks nothing; a
    mountain that lies in the map, origin and far corner, has every tile of
    its rectangle marked Used, the other tiles keep their state, and the
    mountain is added to the map. *)
Theorem placeMountain_outcome
    (addMountain : MapGenerator -> Position -> Position -> Z -> MapGenerator)
    (z : TemplateZone) (position size : Position) (image : Z) :
  let g := mapGenerator z in
  let outcome := placeMountain addMountain z position size image in
  if (0 <? fst size) && (0 <? snd size)
  then if isInTheMap g position
       then isInTheMap g (padd position (fst size - 1, snd size - 1)) = true ->
            exists g1,
              outcome = (inr tt, withGenerator z (addMountain g1 position size image))
              /\ sameBesidesOccupied g g1
              /\ forall t, occupied (tiles g1 t)
                           = if inRectangle position size t then Used
                             else occupied (tiles g t)
       else outcome = (inl (MountainOutsideMap position), z)
  else outcome = (inr tt, withGenerator z (addMountain g position size image)).
Proof.
  cbv zeta. unfold placeMountain.
  destruct ((0 <? fst size) && (0 <? snd size)) eqn:Hsize.
  - apply andb_true_iff in Hsize as [Hx Hy]. apply Z.ltb_lt in Hx, Hy.
    destruct (isInTheMap (mapGenerator z) position) eqn:Hin.
    + intros _. rewrite placeMountainLoop_inside by exact Hin.
      eexists. split; [reflexivity|]. split; [apply markUsed_sameBesidesOccupied|].
      intros t. rewrite markUsed_occupied.
      destruct (inRectangle position size t) eqn:E.
      * apply inRectangle_offsets in E. rewrite bool_decide_eq_true_2 by exact E.
        reflexivity.
      * rewrite bool_decide_eq_false_2; [reflexivity|].
        intros Hc. apply inRectangle_offsets in Hc. congruence.
    + assert (Hfirst : exists rest, rectangleOffsets size = (0, 0) :: rest).
      { unfold rectangleOffsets.
        destruct (seqZ 0 (fst size)) as [|x xs] eqn:Ex.
        { exfalso. assert (H0 : 0 ∈ seqZ 0 (fst size)) by (apply elem_of_seqZ; lia).
          rewrite Ex in H0. inversion H0. }
        destruct (seqZ 0 (snd size)) as [|y ys] eqn:Ey.
        { exfalso. assert (H0 : 0 ∈ seqZ 0 (snd size)) by (apply elem_of_seqZ; lia).
          rewrite Ey in H0. inversion H0. }
        assert (x = 0).
        { assert (Hl : seqZ 0 (fst size) !! 0%nat = Some x) by (rewrite Ex; reflexivity).
          apply lookup_seqZ in Hl. lia. }
        assert (y = 0).
        { assert (Hl : seqZ 0 (snd size) !! 0%nat = Some y) by (rewrite Ey; reflexivity).
          apply lookup_seqZ in Hl. lia. }
        subst. cbn. eauto. }
      destruct Hfirst as [rest ->]. cbn [placeMountainLoop]. rewrite Hin. cbn [negb].
      unfold padd. simpl. rewrite !Z.add_0_r. destruct position. reflexivity.
  - assert (Hempty : rectangleOffsets size = []).
    { destruct (rectangleOffsets size) as [|o rest] eqn:E; [reflexivity|].
      assert (Ho : o ∈ rectangleOffsets size) by (rewrite E; left).
      apply rectangleOffsets_spec in Ho.
      apply andb_false_iff in Hsize as [H|H]; apply Z.ltb_ge in H; lia. }
    rewrite Hempty. reflexivity.
Qed.

Example placeMountain_sample_run :
  let outcome := placeMountain (fun g _ _ _ => g) forestZone (3, 3) (2, 2) 0 in
  fst outcome = inr tt
  /\ map (fun t => occupied (tiles (mapGenerator (snd outcome)) t))
       [(3, 3); (3, 4); (4, 3); (4, 4); (2, 3)]
     = [Used; Used; Used; Used; Possible]
  /\ placeMountain (fun g _ _ _ => g) forestZone (5, 0) (1, 1) 0
     = (inl (MountainOutsideMap (5, 0)), forestZone).
Proof. cbv zeta. split; [|split]; vm_compute; reflexivity. Qed.

(** ** The tile index *)

Lemma wrapInt_small (x : Z) : - 2 ^ 31 <= x < 2 ^ 31 -> wrapInt x = x.
Proof. intros H. unfold wrapInt. rewrite Z.mod_small by lia. lia. Qed.

(** X19. On a map of size at most 46340, where the [int] arithmetic of
    [posToIndex] cannot overflow, the index of a tile of the map is
    [x + size * y]; it lies below the square of the map size, and two tiles
    of the map with the same index are the same tile. *)
Theorem posToIndex_injective (g : MapGenerator) (p q : Position) :
  mapSize g <= 46340 ->
  isInTheMap g p = true -> isInTheMap g q = true ->
  posToIndex g p = fst p + mapSize g * snd p
  /\ 0 <= posToIndex g p < mapSize g * mapSize g
  /\ (posToIndex g p = posToIndex g q -> p = q).
Proof.
  unfold isInTheMap. destruct p as [px py], q as [qx qy]. cbn [fst snd].
  intros Hsize Hp Hq.
  rewrite !andb_true_iff in Hp, Hq.
  destruct Hp as [[[Hp1 Hp2] Hp3] Hp4]. destruct Hq as [[[Hq1 Hq2] Hq3] Hq4].
  apply Z.leb_le in Hp1, Hp3, Hq1, Hq3. apply Z.ltb_lt in Hp2, Hp4, Hq2, Hq4.
  assert (Hbound : forall x y, 0 <= x < mapSize g -> 0 <= y < mapSize g ->
            0 <= mapSize g * y < 2 ^ 31
            /\ 0 <= x + mapSize g * y < mapSize g * mapSize g
            /\ mapSize g * mapSize g < 2 ^ 31).
  { intros x y Hx Hy.
    assert (mapSize g * mapSize g <= 46340 * 46340) by nia.
    assert (46340 * 46340 < 2 ^ 31) by (vm_compute; reflexivity).
    split; [nia|]. split; [nia | lia]. }
  assert (Hidx : forall x y, 0 <= x < mapSize g -> 0 <= y < mapSize g ->
            posToIndex g (x, y) = x + mapSize g * y).
  { intros x y Hx Hy. destruct (Hbound x y Hx Hy) as (B1 & B2 & B3).
    unfold posToIndex. cbn [fst snd].
    rewrite (wrapInt_small (mapSize g * y)) by lia.
    rewrite wrapInt_small by lia.
    apply Z.mod_small. assert (2 ^ 31 < 2 ^ 64) by (vm_compute; reflexivity). lia. }
  rewrite !Hidx by lia.
  destruct (Hbound px py ltac:(lia) ltac:(lia)) as (_ & Bp & _).
  split; [reflexivity|]. split; [exact Bp|]. intros E.
  assert (py = qy) by nia. subst. assert (px = qx) by lia. subst. reflexivity.
Qed.

(** A run of the statement on a sample. *)
Lemma posToIndex_injective_witness :
  posToIndex forestGenerator (4, 1) = fst (4, 1) + mapSize forestGenerator * snd (4, 1)
  /\ 0 <= posToIndex forestGenerator (4, 1)
       < mapSize forestGenerator * mapSize forestGenerator
  /\ (posToIndex forestGenerator (4, 1) = posToIndex forestGenerator (0, 2)
      -> (4, 1) = (0, 2)).
Proof.
  apply (posToIndex_injective forestGenerator (4, 1) (0, 2)).
  - simpl. lia.
  - vm_compute. reflexivity.
  - vm_compute. reflexivity.
Defined.

(** X20. A tile of the map is at the border exactly when one of its eight
    neighbours lies outside the map. *)
Theorem isAtTheBorder_neighbour_outside (g : MapGenerator) (p : Position) :
  isInTheMap g p = true ->
  (isAtTheBorder g p = true <->
   exists d, In d (directDirs ++ diagonalDirs) /\ isInTheMap g (padd p d) = false).
Proof.
  unfold isInTheMap, isAtTheBorder. destruct p as [x y]. cbn [fst snd].
  intros Hp. rewrite !andb_true_iff in Hp. destruct Hp as [[[H1 H2] H3] H4].
  apply Z.leb_le in H1, H3. apply Z.ltb_lt in H2, H4.
  rewrite !orb_true_iff, !Z.eqb_eq. split.
  - intros [[[Hx|Hx]|Hy]|Hy].
    + exists (-1, 0). split; [simpl; tauto|]. unfold padd. cbn [fst snd].
      rewrite !andb_false_iff, Z.leb_gt. lia.
    + exists (1, 0). split; [simpl; tauto|]. unfold padd. cbn [fst snd].
      rewrite !andb_false_iff, Z.ltb_ge. left. left. right. lia.
    + exists (0, -1). split; [simpl; tauto|]. unfold padd. cbn [fst snd].
      rewrite !andb_false_iff, Z.leb_gt. left. right. lia.
    + exists (0, 1). split; [simpl; tauto|]. unfold padd. cbn [fst snd].
      rewrite !andb_false_iff, Z.ltb_ge. right. lia.
  - intros (d & Hd & Hout). unfold padd in Hout. cbn [fst snd] in Hout.
    rewrite !andb_false_iff, !Z.leb_gt, !Z.ltb_ge in Hout.
    simpl in Hd.
    destruct Hd as [<-|[<-|[<-|[<-|[<-|[<-|[<-|[<-|[]]]]]]]]]; cbn [fst snd] in Hout; lia.
Qed.

(** A run of the statement on a sample. *)
Lemma isAtTheBorder_neighbour_outside_witness :
  isAtTheBorder forestGenerator (4, 1) = true <->
  exists d, In d (directDirs ++ diagonalDirs)
            /\ isInTheMap forestGenerator (padd (4, 1) d) = false.
Proof.
  apply (isAtTheBorder_neighbour_outside forestGenerator (4, 1)).
  vm_compute. reflexivity.
Defined.

(** ** Tiles around a map element *)

Lemma neighbors_offset g p q :
  In q (neighbors g p) <->
  isInTheMap g q = true /\ exists d, In d (directDirs ++ diagonalDirs) /\ q = padd p d.
Proof.
  unfold neighbors. rewrite List.filter_In, in_map_iff. split.
  - intros [(d & <- & Hd) Hm]. eauto.
  - intros [Hm (d & Hd & ->)]. eauto.
Qed.

Lemma padd_inj p a b : padd p a = padd p b -> a = b.
Proof.
  unfold padd. destruct a, b, p. simpl. intros H. inversion H. f_equal; lia.
Qed.

Lemma padd_comm a b : padd a b = padd b a.
Proof. unfold padd. f_equal; lia. Qed.

Lemma padd_assoc p a b : padd (padd p a) b = padd p (padd a b).
Proof. unfold padd. simpl. f_equal; lia. Qed.

Lemma psub_padd p d : psub (padd p d) p = d.
Proof. unfold psub, padd. destruct d. simpl. f_equal; lia. Qed.

(** X21. The tiles of [getAccessibleTiles] are neighbours of the entrance
    inside the map, Possible or Free, not blocked by the element itself, on a
    side from which the element can be visited; the zone they belong to is
    not looked at. Whenever one of them lies in the zone,
    [getAccessibleOffset] finds a tile for the element at its position. *)
Theorem getAccessibleTiles_spec (z : TemplateZone) (e : MapElement) (t : Position) :
  (In t (getAccessibleTiles z e) <->
   In t (neighbors (mapGenerator z) (getEntrance e))
   /\ (isPossible (mapGenerator z) t = true \/ isFree (mapGenerator z) t = true)
   /\ ~ In t (getBlockedPositions e)
   /\ isVisitableFrom e (psub t (getEntrance e)) = true)
  /\ (In t (getAccessibleTiles z e) -> isInTheZone z t = true ->
      isAccessibleFromSomewhere z e (position e) = true).
Proof.
  assert (Hiff : In t (getAccessibleTiles z e) <->
            In t (neighbors (mapGenerator z) (getEntrance e))
            /\ (isPossible (mapGenerator z) t = true \/ isFree (mapGenerator z) t = true)
            /\ ~ In t (getBlockedPositions e)
            /\ isVisitableFrom e (psub t (getEntrance e)) = true).
  { unfold getAccessibleTiles. cbv zeta. rewrite List.filter_In.
    assert (Hstate : isPossible (mapGenerator z) t = true
                     \/ isFree (mapGenerator z) t = true ->
                     isBlocked (mapGenerator z) t = false).
    { unfold isPossible, isFree, isBlocked, shouldBeBlocked, isUsed.
      destruct (occupied (tiles (mapGenerator z) t)); simpl; intros [?|?];
        congruence. }
    split.
    - intros [Hn Hf]. split; [exact Hn|].
      destruct (isPossible (mapGenerator z) t || isFree (mapGenerator z) t) eqn:Hs;
        cbn [negb] in Hf; [|discriminate].
      apply orb_true_iff in Hs.
      destruct (bool_decide (t ∈ getBlockedPositions e)) eqn:Hb; [discriminate|].
      apply bool_decide_eq_false in Hb. apply andb_true_iff in Hf as [Hv _].
      split; [exact Hs|]. split; [|exact Hv].
      intros Hin. apply Hb. apply list_elem_of_In. exact Hin.
    - intros (Hn & Hs & Hb & Hv). split; [exact Hn|].
      rewrite (Hstate Hs). apply orb_true_iff in Hs. rewrite Hs. cbn [negb].
      rewrite bool_decide_eq_false_2.
      + rewrite Hv. reflexivity.
      + intros Hin. apply Hb. apply list_elem_of_In. exact Hin. }
  split; [exact Hiff|].
  intros Hin Hzone. apply Hiff in Hin as (Hn & Hs & Hb & Hv).
  apply neighbors_offset in Hn as (Hm & d & Hd & ->).
  rewrite psub_padd in Hv.
  pose proof (getAccessibleOffset_cases z e (position e)) as Hspec.
  destruct (isAccessibleFromSomewhere z e (position e)); [reflexivity|].
  exfalso. destruct Hspec as [_ Hnone].
  assert (Hd' : In d aroundOffsets /\ d <> (0, 0)).
  { simpl in Hd.
    destruct Hd as [<-|[<-|[<-|[<-|[<-|[<-|[<-|[<-|[]]]]]]]]];
      (split; [simpl; tauto | discriminate]). }
  destruct Hd' as [Hd1 Hd0].
  apply (Hnone d Hd1). unfold accessibleFrom. cbv zeta.
  unfold getEntrance in *. rewrite padd_assoc in *.
  rewrite (padd_comm (entranceOffset e) d) in *.
  split; [exact Hd0|]. split.
  - intros Hc. apply Hb. unfold getBlockedPositions. apply in_map.
    apply list_elem_of_In. exact Hc.
  - split; [exact Hm|]. split; [exact Hv|]. split; [|exact Hzone].
    unfold isPossible, isFree, isBlocked, shouldBeBlocked, isUsed in *.
    destruct (occupied (tiles (mapGenerator z) _)); simpl in *; destruct Hs; congruence.
Qed.

Lemma areaTiles_spec e gapSizeX gapSizeY t :
  t ∈ areaTiles e gapSizeX gapSizeY <->
  fst (position e) - gapSizeX <= fst t < fst (position e) + fst (size e) + gapSizeX
  /\ snd (position e) - gapSizeY <= snd t < snd (position e) + snd (size e) + gapSizeY.
Proof.
  unfold areaTiles. cbv zeta. rewrite list_elem_of_bind. unfold padd. cbn [fst snd]. split.
  - intros (x & Hy & Hx). apply list_elem_of_fmap in Hy as (y & -> & Hy).
    apply elem_of_seqZ in Hx, Hy. simpl. lia.
  - intros [Hx Hy]. exists (fst t). split.
    + apply list_elem_of_fmap. exists (snd t). split; [destruct t; reflexivity|].
      apply elem_of_seqZ. lia.
    + apply elem_of_seqZ. lia.
Qed.

Lemma fold_insert_offsets (entrance : Position) (offsets : list Position) :
  forall (blocked : gset Position) t,
  t ∈ fold_left (fun blocked offset => {[padd entrance offset]} ∪ blocked) offsets blocked
  <-> t ∈ blocked \/ exists offset, In offset offsets /\ t = padd entrance offset.
Proof.
  induction offsets as [|o rest IH]; intros blocked t; simpl.
  - split; [auto | intros [H|(o & [] & _)]; exact H].
  - rewrite IH. rewrite elem_of_union, elem_of_singleton. split.
    + intros [[->|H]|(o' & Hin & ->)]; eauto.
    + intros [H|(o' & [<-|Hin] & ->)]; eauto.
Qed.

Lemma fold_area (skip1 skip2 : Position -> bool) (l : list Position) :
  forall (area : gset Position) t,
  t ∈ fold_left (fun area tile =>
                   if skip1 tile then area
                   else if skip2 tile then area else {[tile]} ∪ area) l area
  <-> t ∈ area \/ (t ∈ l /\ skip1 t = false /\ skip2 t = false).
Proof.
  induction l as [|a l IH]; intros area t; simpl.
  - split; [auto | intros [H|[H _]]; [exact H | inversion H]].
  - rewrite IH. split.
    + intros [H|[Hin Hk]].
      * destruct (skip1 a) eqn:Ha; [auto|]. destruct (skip2 a) eqn:Hb; [auto|].
        apply elem_of_union in H as [H|H]; [|auto].
        apply elem_of_singleton in H. subst. right. split; [left | auto].
      * right. split; [right; exact Hin | exact Hk].
    + intros [H|[Hin [Hk1 Hk2]]].
      * left. destruct (skip1 a); [exact H|].
        destruct (skip2 a); [exact H | apply elem_of_union_r; exact H].
      * apply elem_of_cons in Hin as [->|Hin]; [|auto].
        left. rewrite Hk1, Hk2. apply elem_of_union_l, elem_of_singleton. reflexivity.
Qed.

(** X22. The decoration area of a map element holds exactly the tiles
    within the gap around the element's rectangle that lie in the map, are
    Possible, are not blocked by the element and are neither its entrance nor
    a tile near the entrance: decorations never cover a way in. *)
Theorem getMapElementArea_spec (e : MapElement) (gapSizeX gapSizeY : Z)
    (g : MapGenerator) (t : Position) :
  t ∈ getMapElementArea e gapSizeX gapSizeY g <->
  (fst (position e) - gapSizeX <= fst t < fst (position e) + fst (size e) + gapSizeX
   /\ snd (position e) - gapSizeY <= snd t < snd (position e) + snd (size e) + gapSizeY)
  /\ isInTheMap g t = true /\ isPossible g t = true
  /\ ~ In t (getBlockedPositions e)
  /\ t <> getEntrance e
  /\ ~ exists offset, In offset (entranceOffsets e) /\ t = padd (getEntrance e) offset.
Proof.
  unfold getMapElementArea. cbv zeta.
  set (blocked := fold_left _ (entranceOffsets e) _).
  assert (Hblocked : t ∈ blocked <->
            In t (getBlockedPositions e) \/ t = getEntrance e
            \/ exists offset, In offset (entranceOffsets e)
                              /\ t = padd (getEntrance e) offset).
  { unfold blocked. rewrite fold_insert_offsets, elem_of_union, elem_of_singleton,
      elem_of_list_to_set, list_elem_of_In. tauto. }
  rewrite (fold_area (fun tile => bool_decide (tile ∈ blocked))
             (fun tile => negb (isInTheMap g tile) || negb (isPossible g tile))).
  rewrite areaTiles_spec, orb_false_iff, !negb_false_iff,
    bool_decide_eq_false, Hblocked.
  split.
  - intros [H|H]; [inversion H|]. tauto.
  - intros H. right. tauto.
Qed.

Example getMapElementArea_sample_run :
  map (fun t => bool_decide (t ∈ getMapElementArea gateElement 1 1 forestGenerator))
    [(0, 0); (1, 0); (2, 2); (1, 1); (1, 2); (3, 1); (0, 3)]
  = [true; true; true; false; false; false; false].
Proof. vm_compute. reflexivity. Qed.

(** ** Template reader *)

Lemma clamp_range v lo hi : lo <= hi -> lo <= clamp v lo hi <= hi.
Proof.
  intros H. unfold clamp. destruct (v <? lo) eqn:E1; [lia|].
  apply Z.ltb_ge in E1. destruct (hi <? v) eqn:E2; [lia|].
  apply Z.ltb_ge in E2. lia.
Qed.

Lemma readValue_range field def lo hi : lo <= hi -> lo <= readValue field def lo hi <= hi.
Proof. intros H. unfold readValue. apply clamp_range. exact H. Qed.

(** X23. A random value read from a template is an ordered range inside the
    bounds of its field, in whatever order the template gives its ends, and
    what [pickValue] draws from it lies in that range. *)
Theorem readRandomValue_ordered (fieldMin fieldMax : option Z) (def lo hi : Z)
    (r : Random.Rng) :
  lo <= hi ->
  let value := readRandomValue fieldMin fieldMax def lo hi in
  lo <= rvMin value /\ rvMin value <= rvMax value /\ rvMax value <= hi
  /\ rvMin value <= fst (pickValue value r) <= rvMax value
  /\ (rvMin value = readValue fieldMin def lo hi
      /\ rvMax value = readValue fieldMax def lo hi
      \/ rvMin value = readValue fieldMax def lo hi
         /\ rvMax value = readValue fieldMin def lo hi).
Proof.
  intros H. cbv zeta.
  pose proof (readValue_range fieldMin def lo hi H) as H1.
  pose proof (readValue_range fieldMax def lo hi H) as H2.
  assert (Hord : lo <= rvMin (readRandomValue fieldMin fieldMax def lo hi)
                 /\ rvMin (readRandomValue fieldMin fieldMax def lo hi)
                    <= rvMax (readRandomValue fieldMin fieldMax def lo hi)
                 /\ rvMax (readRandomValue fieldMin fieldMax def lo hi) <= hi
                 /\ (rvMin (readRandomValue fieldMin fieldMax def lo hi)
                     = readValue fieldMin def lo hi
                     /\ rvMax (readRandomValue fieldMin fieldMax def lo hi)
                        = readValue fieldMax def lo hi
                     \/ rvMin (readRandomValue fieldMin fieldMax def lo hi)
                        = readValue fieldMax def lo hi
                        /\ rvMax (readRandomValue fieldMin fieldMax def lo hi)
                           = readValue fieldMin def lo hi)).
  { unfold readRandomValue. cbv zeta.
    destruct (readValue fieldMax def lo hi <? readValue fieldMin def lo hi) eqn:E;
      [apply Z.ltb_lt in E | apply Z.ltb_ge in E]; cbn [rvMin rvMax];
      (split; [lia|]); (split; [lia|]); (split; [lia|]); auto. }
  destruct Hord as (Ha & Hb & Hc & Hd).
  pose proof (pickValue_range (readRandomValue fieldMin fieldMax def lo hi) r) as [P1 P2].
  specialize (P2 Hb).
  split; [exact Ha|]. split; [exact Hb|]. split; [exact Hc|]. split; [lia | exact Hd].
Qed.

(** A run of the statement on a sample. *)
Lemma readRandomValue_ordered_witness :
  let value := readRandomValue (Some 9) (Some 2) 1 0 255 in
  0 <= rvMin value /\ rvMin value <= rvMax value /\ rvMax value <= 255
  /\ rvMin value <= fst (pickValue value [13]) <= rvMax value
  /\ (rvMin value = readValue (Some 9) 1 0 255
      /\ rvMax value = readValue (Some 2) 1 0 255
      \/ rvMin value = readValue (Some 2) 1 0 255
         /\ rvMax value = readValue (Some 9) 1 0 255).
Proof.
  apply (readRandomValue_ordered (Some 9) (Some 2) 1 0 255 [13]). lia.
Defined.

Lemma contentsSettings_inRange s c :
  Settings.inRange s -> Settings.inRange (Settings.contentsSettings s c).
Proof.
  unfold Settings.inRange, Settings.contentsSettings. cbv zeta. cbn.
  intros (H1 & H2 & H3 & H4 & H5 & H6 & H7 & H8).
  pose proof (readValue_range (Settings.cMaxPlayers c) 0 0 4 ltac:(lia)).
  pose proof (readValue_range (Settings.cRoads c) (-1) (-1) 100 ltac:(lia)).
  pose proof (readValue_range (Settings.cForest c) (-1) (-1) 100 ltac:(lia)).
  pose proof (readValue_range (Settings.cStartingGold c) (-1) (-1) 9999 ltac:(lia)).
  pose proof (readValue_range (Settings.cStartingNativeMana c) (-1) (-1) 9999 ltac:(lia)).
  destruct (0 <? readValue (Settings.cMaxPlayers c) 0 0 4) eqn:E1;
    [apply Z.ltb_lt in E1 | clear E1];
  destruct (0 <=? readValue (Settings.cRoads c) (-1) (-1) 100) eqn:E2;
    [apply Z.leb_le in E2 | clear E2 | apply Z.leb_le in E2 | clear E2];
  destruct (0 <=? readValue (Settings.cForest c) (-1) (-1) 100) eqn:E3;
    try apply Z.leb_le in E3;
  destruct (0 <=? readValue (Settings.cStartingGold c) (-1) (-1) 9999) eqn:E4;
    try apply Z.leb_le in E4;
  destruct (0 <=? readValue (Settings.cStartingNativeMana c) (-1) (-1) 9999) eqn:E5;
    try apply Z.leb_le in E5;
  lia.
Qed.

(** X24. [readSettings] throws exactly when there is no [template] table,
    when the table has no [getContents], or when [getContents] is not a
    function. The settings it returns otherwise are in range: 1 to 4
    players, 48 <= sizeMin <= sizeMax <= 144 even when the template gives a
    maximum below the minimum, percentages from 0 to 100; and the settings
    stay in range whatever the contents table replaces. *)
Theorem readSettings_in_range (template : option Settings.TemplateTable) :
  match Settings.readSettings template with
  | inl Settings.NotATemplate => template = None
  | inl Settings.NoGetContents =>
      exists table, template = Some table /\ Settings.tGetContents table = None
  | inl Settings.GetContentsNotAFunction =>
      exists table, template = Some table
                    /\ Settings.tGetContents table = Some Settings.LuaOther
  | inr s =>
      (exists table, template = Some table
                     /\ Settings.tGetContents table = Some Settings.LuaFunction)
      /\ Settings.inRange s
      /\ forall c, Settings.inRange (Settings.contentsSettings s c)
  end.
Proof.
  unfold Settings.readSettings.
  destruct template as [table|]; [|reflexivity].
  destruct (Settings.tGetContents table) as [[|]|] eqn:Hg; [|eauto|eauto].
  assert (Hr : Settings.inRange
                 {| Settings.maxPlayers := readValue (Settings.tMaxPlayers table) 1 1 4;
                    Settings.sizeMin := readValue (Settings.tMinSize table) 48 48 144;
                    Settings.sizeMax :=
                      clamp (readValue (Settings.tMaxSize table) 48 48 144)
                        (readValue (Settings.tMinSize table) 48 48 144) 144;
                    Settings.roads := readValue (Settings.tRoads table) 100 0 100;
                    Settings.startingGold :=
                      readValue (Settings.tStartingGold table) 0 0 9999;
                    Settings.startingNativeMana :=
                      readValue (Settings.tStartingNativeMana table) 0 0 9999;
                    Settings.forest := readValue (Settings.tForest table) 0 0 100;
                    Settings.iterations :=
                      readValue (Settings.tIterations table) 0 0 1000000 |}).
  { unfold Settings.inRange. cbn.
    pose proof (readValue_range (Settings.tMaxPlayers table) 1 1 4 ltac:(lia)).
    pose proof (readValue_range (Settings.tMinSize table) 48 48 144 ltac:(lia)).
    pose proof (clamp_range (readValue (Settings.tMaxSize table) 48 48 144)
                  (readValue (Settings.tMinSize table) 48 48 144) 144 ltac:(lia)).
    pose proof (readValue_range (Settings.tRoads table) 100 0 100 ltac:(lia)).
    pose proof (readValue_range (Settings.tStartingGold table) 0 0 9999 ltac:(lia)).
    pose proof (readValue_range (Settings.tStartingNativeMana table) 0 0 9999 ltac:(lia)).
    pose proof (readValue_range (Settings.tForest table) 0 0 100 ltac:(lia)).
    pose proof (readValue_range (Settings.tIterations table) 0 0 1000000 ltac:(lia)).
    lia. }
  split; [eauto|]. split; [exact Hr|].
  intros c. apply contentsSettings_inRange. exact Hr.
Qed.

(** ** Zone connections *)

Lemma filter_eqb_app_one b (l : list Z) x :
  length (List.filter (Z.eqb b) (l ++ [x]))
  = (length (List.filter (Z.eqb b) l) + if Z.eqb b x then 1 else 0)%nat.
Proof.
  rewrite List.filter_app, length_app. simpl. destruct (b =? x); reflexivity.
Qed.

(** How often the connection between [a] and [b] is listed, in this
    direction. *)
Definition listed (connections : list (Z * Z)) (a b : Z) : nat :=
  length (List.filter (fun c => (fst c =? a) && (snd c =? b)) connections).

Lemma populateConnection_count zones connection zones' :
  populateConnection zones connection = Some zones' ->
  dom zones' = dom zones
  /\ forall a b,
       connectionCount zones' a b
       = (connectionCount zones a b + listed [connection] a b + listed [connection] b a)%nat.
Proof.
  unfold populateConnection. destruct connection as [from to]. cbn [fst snd].
  destruct (zones !! from) as [lf|] eqn:Hf; [|discriminate].
  destruct (zones !! to) as [lt|] eqn:Ht; [|discriminate].
  intros H. inversion H; subst. clear H. split.
  - rewrite !dom_insert_L.
    assert (from ∈ dom zones) by (apply elem_of_dom; eauto).
    assert (to ∈ dom zones) by (apply elem_of_dom; eauto).
    set_solver.
  - intros a b. unfold connectionCount, listed.
    cbn [List.filter fst snd].
    destruct (decide (a = to)) as [->|Hato].
    + rewrite lookup_insert_eq.
      destruct (decide (to = from)) as [->|Hne].
      * rewrite lookup_insert_eq, Hf. cbn [default from_option Datatypes.id].
        rewrite !filter_eqb_app_one.
        repeat match goal with
               | |- context [Z.eqb ?x ?y] => destruct (Z.eqb_spec x y)
               end; subst; simpl; try lia; congruence.
      * rewrite lookup_insert_ne by congruence. rewrite Ht.
        cbn [default from_option Datatypes.id].
        rewrite filter_eqb_app_one.
        repeat match goal with
               | |- context [Z.eqb ?x ?y] => destruct (Z.eqb_spec x y)
               end; subst; simpl; try lia; congruence.
    + rewrite lookup_insert_ne by congruence.
      destruct (decide (a = from)) as [->|Hafrom].
      * rewrite lookup_insert_eq, Hf. cbn [default from_option Datatypes.id].
        rewrite filter_eqb_app_one.
        repeat match goal with
               | |- context [Z.eqb ?x ?y] => destruct (Z.eqb_spec x y)
               end; subst; simpl; try lia; congruence.
      * rewrite lookup_insert_ne by congruence.
        repeat match goal with
               | |- context [Z.eqb ?x ?y] => destruct (Z.eqb_spec x y)
               end; subst; simpl; try lia; congruence.
Qed.

Lemma listed_cons c (l : list (Z * Z)) a b :
  listed (c :: l) a b = (listed [c] a b + listed l a b)%nat.
Proof.
  unfold listed. cbn [List.filter]. destruct ((fst c =? a) && (snd c =? b)); simpl; lia.
Qed.

(** X25. The connections of a template are recorded on both zones: after
    "Populate zone connections" a zone [a] lists [b] once more for every
    connection given between the two, in either direction, so that [a] lists
    [b] as often as [b] lists [a] when that held before. The step fails only
    on a connection that names an absent zone, and adds no zone. *)
Theorem populateConnections_both_ways (zones : gmap Z (list Z))
    (connections : list (Z * Z)) :
  match populateConnections zones connections with
  | Some zones' =>
      dom zones' = dom zones
      /\ (forall a b,
            connectionCount zones' a b
            = (connectionCount zones a b + listed connections a b
               + listed connections b a)%nat)
      /\ ((forall a b, connectionCount zones a b = connectionCount zones b a) ->
          forall a b, connectionCount zones' a b = connectionCount zones' b a)
  | None =>
      exists connection, In connection connections
        /\ (fst connection ∉ dom zones \/ snd connection ∉ dom zones)
  end.
Proof.
  revert zones. induction connections as [|c rest IH]; intros zones.
  - cbn [populateConnections]. split; [reflexivity|]. split; [|auto].
    intros a b. unfold listed. simpl. lia.
  - cbn [populateConnections].
    destruct (populateConnection zones c) as [zones1|] eqn:Hstep.
    + apply populateConnection_count in Hstep as [Hdom Hcount].
      specialize (IH zones1).
      destruct (populateConnections zones1 rest) as [zones'|].
      * destruct IH as (Hdom' & Hcount' & _).
        assert (Hall : forall a b,
                  connectionCount zones' a b
                  = (connectionCount zones a b + listed (c :: rest) a b
                     + listed (c :: rest) b a)%nat).
        { intros a b. rewrite Hcount', Hcount, (listed_cons c rest a b),
            (listed_cons c rest b a). lia. }
        split; [congruence|]. split; [exact Hall|].
        intros Hsym a b. rewrite (Hall a b), (Hall b a), (Hsym a b). lia.
      * destruct IH as (connection & Hin & Hbad).
        exists connection. split; [right; exact Hin|]. rewrite <- Hdom. exact Hbad.
    + exists c. split; [left; reflexivity|].
      unfold populateConnection in Hstep.
      destruct (zones !! fst c) eqn:Hf.
      * destruct (zones !! snd c) eqn:Ht; [discriminate|].
        right. apply not_elem_of_dom. exact Ht.
      * left. apply not_elem_of_dom. exact Hf.
Qed.

Example populateConnections_sample_run :
  option_map (fun zones => map (fun a => default [] (zones !! a)) [0; 1; 2])
    (populateConnections {[ 0 := []; 1 := []; 2 := [] ]} [(0, 1); (1, 2); (2, 2)])
  = Some [[1]; [0; 2]; [1; 2; 2]]
  /\ populateConnections {[ 0 := []; 1 := [] ]} [(0, 1); (1, 2)] = None.
Proof. split; vm_compute; reflexivity. Qed.

(** ** Blocking the tiles far from the passages *)

Lemma fold_blockDistantAt z (l : list Position) : forall g t,
  tiles (fold_left (blockDistantAt z) l g) t
  = if bool_decide (t ∈ l) && isPossible g t && negb (bool_decide (t ∈ freePaths z))
       && negb (closeTileFound z t)
    then tiles (setOccupied g t Blocked) t
    else tiles g t.
Proof.
  induction l as [|a l IH]; intros g t; cbn [fold_left].
  - rewrite bool_decide_eq_false_2 by (intros H; inversion H). reflexivity.
  - rewrite IH. clear IH.
    destruct (decide (t = a)) as [->|Hne].
    + rewrite (bool_decide_eq_true_2 (a ∈ a :: l)) by left. cbn [andb].
      unfold blockDistantAt.
      destruct (isPossible g a) eqn:Hp; cbn [negb andb].
      * destruct (bool_decide (a ∈ freePaths z)) eqn:Hf; cbn [negb andb].
        { rewrite Hp, !andb_false_r. reflexivity. }
        destruct (closeTileFound z a) eqn:Hc; cbn [negb andb].
        { rewrite Hp, !andb_false_r. reflexivity. }
        rewrite isPossible_setOccupied. cbn. rewrite !andb_false_r. reflexivity.
      * rewrite Hp, !andb_false_r. reflexivity.
    + assert (Ht : tiles (blockDistantAt z g a) t = tiles g t).
      { unfold blockDistantAt. destruct (negb (isPossible g a)); [reflexivity|].
        destruct (bool_decide (a ∈ freePaths z)); [reflexivity|].
        destruct (negb (closeTileFound z a)); [|reflexivity].
        apply setOccupied_tiles_other. exact Hne. }
      assert (Hin : bool_decide (t ∈ a :: l) = bool_decide (t ∈ l)).
      { apply bool_decide_ext. rewrite elem_of_cons. tauto. }
      rewrite Hin. unfold isPossible at 1. rewrite Ht. fold (isPossible g t).
      destruct (bool_decide (t ∈ l) && isPossible g t
                && negb (bool_decide (t ∈ freePaths z)) && negb (closeTileFound z t));
        [|reflexivity].
      apply setOccupied_tiles_here. exact Ht.
Qed.

(** X26. The last step of [fractalize] blocks exactly the tiles of the zone
    that are Possible, are no free path and have no free path closer than
    the block distance. No free path is ever blocked, no other tile changes,
    and a tile of the zone left Possible is a free path or close to one. *)
Theorem fractalize_blocks_distant_tiles (z : TemplateZone) (t : Position) :
  let g := mapGenerator z in
  let g' := mapGenerator (fractalize_blockDistant z) in
  (tiles g' t
   = if bool_decide (t ∈ tileInfo z) && isPossible g t
        && negb (bool_decide (t ∈ freePaths z)) && negb (closeTileFound z t)
     then tiles (setOccupied g t Blocked) t
     else tiles g t)
  /\ (t ∈ freePaths z -> tiles g' t = tiles g t)
  /\ (t ∈ tileInfo z -> isPossible g' t = true ->
      t ∈ freePaths z
      \/ exists clearTile, clearTile ∈ freePaths z
           /\ F32.ltb (F32.of_Z (distanceSquared t clearTile)) blockDistance = true).
Proof.
  cbv zeta. unfold fractalize_blockDistant. cbn [mapGenerator withGenerator].
  pose proof (fold_blockDistantAt z (tileInfo z) (mapGenerator z) t) as H.
  split; [exact H|]. split.
  - intros Hf. rewrite H, (bool_decide_eq_true_2 _ Hf). cbn [negb].
    rewrite andb_false_r. reflexivity.
  - intros Hin Hp. unfold isPossible in Hp. rewrite H in Hp.
    rewrite (bool_decide_eq_true_2 _ Hin) in Hp. cbn [andb] in Hp.
    destruct (isPossible (mapGenerator z) t) eqn:Hp0; cbn [andb] in Hp.
    + destruct (bool_decide (t ∈ freePaths z)) eqn:Hf; cbn [negb andb] in Hp.
      { left. apply bool_decide_eq_true in Hf. exact Hf. }
      destruct (closeTileFound z t) eqn:Hc; cbn [negb] in Hp.
      * right. unfold closeTileFound in Hc. apply existsb_exists in Hc as (c & Hc & Hlt).
        exists c. split; [|exact Hlt]. apply elem_of_elements, list_elem_of_In. exact Hc.
      * rewrite setOccupied_occupied, Position_eqb_refl in Hp. discriminate.
    + unfold isPossible in Hp0. congruence.
Qed.

Example blockDistance_value :
  F32.ltb (F32.of_Z 18) blockDistance = true
  /\ F32.ltb (F32.of_Z 19) blockDistance = false.
Proof. split; vm_compute; reflexivity. Qed.

(** ** Free tiles *)

(** X27. After [initFreeTiles] the zone has a free path, and
    [possibleTiles] holds what it held before together with the tiles of the
    zone that were Possible. The copy is taken before the center is set free:
    when the zone had no free path its position becomes a Free tile and a free
    path, and still stands in [possibleTiles] if it was a Possible tile of the
    zone. With a free path at hand nothing but [possibleTiles] changes. *)
Theorem initFreeTiles_spec (z : TemplateZone) :
  let z' := initFreeTiles z in
  freePaths z' <> ∅
  /\ (forall t, t ∈ possibleTiles z' <->
                t ∈ possibleTiles z
                \/ (t ∈ tileInfo z /\ isPossible (mapGenerator z) t = true))
  /\ (if bool_decide (freePaths z = ∅)
      then freePaths z' = {[pos z]}
           /\ mapGenerator z' = setOccupied (mapGenerator z) (pos z) Free
           /\ isFree (mapGenerator z') (pos z) = true
           /\ (pos z ∈ tileInfo z -> isPossible (mapGenerator z) (pos z) = true ->
               pos z ∈ possibleTiles z' /\ isPossible (mapGenerator z') (pos z) = false)
      else freePaths z' = freePaths z /\ mapGenerator z' = mapGenerator z).
Proof.
  cbv zeta. unfold initFreeTiles. cbv zeta.
  cbn [freePaths withPossibleTiles].
  assert (Hposs : forall t,
            t ∈ possibleTiles z
                ∪ list_to_set (List.filter (isPossible (mapGenerator z)) (tileInfo z))
            <-> t ∈ possibleTiles z
                \/ (t ∈ tileInfo z /\ isPossible (mapGenerator z) t = true)).
  { intros t. rewrite elem_of_union, elem_of_list_to_set, list_elem_of_In,
      List.filter_In, <- list_elem_of_In. tauto. }
  destruct (bool_decide (freePaths z = ∅)) eqn:Hempty.
  - apply bool_decide_eq_true in Hempty.
    unfold addFreePath. cbn. rewrite Hempty.
    split; [set_solver|]. split; [exact Hposs|].
    split; [set_solver|]. split; [reflexivity|].
    assert (Hfree : isFree (setOccupied (mapGenerator z) (pos z) Free) (pos z) = true).
    { unfold isFree. rewrite setOccupied_occupied, Position_eqb_refl. reflexivity. }
    split; [exact Hfree|].
    intros Hin Hp. split; [apply Hposs; right; auto|].
    rewrite isPossible_setOccupied. reflexivity.
  - apply bool_decide_eq_false in Hempty. cbn.
    split; [exact Hempty|]. split; [exact Hposs|]. split; reflexivity.
Qed.

(** ** The way out of a fortification *)

Lemma fold_clearPosition (l : list Position) : forall g t,
  tiles (fold_left clearPosition l g) t
  = if bool_decide (t ∈ l) && isPossible g t
    then tiles (setOccupied g t Free) t
    else tiles g t.
Proof.
  induction l as [|a l IH]; intros g t; cbn [fold_left].
  - rewrite bool_decide_eq_false_2 by (intros H; inversion H). reflexivity.
  - rewrite IH. clear IH.
    destruct (decide (t = a)) as [->|Hne].
    + rewrite (bool_decide_eq_true_2 (a ∈ a :: l)) by left. cbn [andb].
      unfold clearPosition.
      destruct (isPossible g a) eqn:Hp.
      * rewrite isPossible_setOccupied. cbn. rewrite andb_false_r. reflexivity.
      * rewrite Hp, andb_false_r. reflexivity.
    + assert (Ht : tiles (clearPosition g a) t = tiles g t).
      { unfold clearPosition. destruct (isPossible g a); [|reflexivity].
        apply setOccupied_tiles_other. exact Hne. }
      assert (Hin : bool_decide (t ∈ a :: l) = bool_decide (t ∈ l)).
      { apply bool_decide_ext. rewrite elem_of_cons. tauto. }
      rewrite Hin. unfold isPossible at 1. rewrite Ht. fold (isPossible g t).
      destruct (bool_decide (t ∈ l) && isPossible g t); [|reflexivity].
      apply setOccupied_tiles_here. exact Ht.
Qed.

(** X28. [clearEntrance] sets free the Possible tiles among the eight
    neighbours of the tile at the entrance plus (1, 1), the entrance itself
    being one of them; that tile itself, the tiles outside the map and every
    tile that is not Possible are left as they are. *)
Theorem clearEntrance_spec (z : TemplateZone) (fort : MapElement) (t : Position) :
  let g := mapGenerator z in
  let below := padd (getEntrance fort) (1, 1) in
  let g' := mapGenerator (clearEntrance z fort) in
  (tiles g' t
   = if bool_decide (t ∈ neighbors g below) && isPossible g t
     then tiles (setOccupied g t Free) t
     else tiles g t)
  /\ tiles g' below = tiles g below
  /\ (isPossible g t = false \/ isInTheMap g t = false -> tiles g' t = tiles g t)
  /\ (isInTheMap g (getEntrance fort) = true ->
      isPossible g (getEntrance fort) = true ->
      isFree g' (getEntrance fort) = true).
Proof.
  cbv zeta. unfold clearEntrance. cbn [mapGenerator withGenerator].
  set (g := mapGenerator z). set (below := padd (getEntrance fort) (1, 1)).
  assert (Hall : forall q,
            tiles (fold_left clearPosition (neighbors g below) g) q
            = if bool_decide (q ∈ neighbors g below) && isPossible g q
              then tiles (setOccupied g q Free) q else tiles g q)
    by (intros q; apply fold_clearPosition).
  split; [apply Hall|]. split.
  - rewrite Hall. rewrite bool_decide_eq_false_2; [reflexivity|].
    intros Hin. apply list_elem_of_In, neighbors_offset in Hin as (_ & d & Hd & Heq).
    unfold padd in Heq. destruct below as [bx b_y]. simpl in Heq, Hd.
    inversion Heq as [[Hx Hy]].
    destruct Hd as [<-|[<-|[<-|[<-|[<-|[<-|[<-|[<-|[]]]]]]]]]; simpl in *; lia.
  - split.
    + intros [Hp|Hm]; rewrite Hall.
      * rewrite Hp, andb_false_r. reflexivity.
      * rewrite bool_decide_eq_false_2; [reflexivity|].
        intros Hin. apply list_elem_of_In, neighbors_inMap in Hin. congruence.
    + intros Hm Hp. unfold isFree. rewrite Hall.
      rewrite bool_decide_eq_true_2.
      * rewrite Hp. cbn [andb]. rewrite setOccupied_occupied, Position_eqb_refl.
        reflexivity.
      * apply list_elem_of_In, neighbors_offset. split; [exact Hm|]. exists (-1, -1).
        split; [simpl; tauto|]. unfold below, padd.
        destruct (getEntrance fort) as [ex ey]. cbn [fst snd]. f_equal; lia.
Qed.

(** ** Paths to the zone center (connectWithCenter) *)

Lemma universe_size_closed (g : MapGenerator) (source : Position) (C : gset Position)
    (cur : Position) :
  cur ∈ tileUniverse g source -> cur ∉ C ->
  base.size (tileUniverse g source ∖ C)
  = S (base.size (tileUniverse g source ∖ ({[cur]} ∪ C))).
Proof.
  intros Hu Hn.
  assert (Heq : tileUniverse g source ∖ C
                = {[cur]} ∪ (tileUniverse g source ∖ ({[cur]} ∪ C))).
  { apply set_eq. intros x. rewrite elem_of_union, !elem_of_difference,
      elem_of_union, elem_of_singleton.
    destruct (decide (x = cur)) as [->|Hne]; [tauto | tauto]. }
  rewrite Heq at 1. rewrite size_union by set_solver. rewrite size_singleton. reflexivity.
Qed.

Section ConnectWithCenterFacts.

Variable z : TemplateZone.
Variable g : MapGenerator.
Variable source : Position.
Variable onlyStraight passThroughBlocked : bool.

Hypothesis universe_small : 3 * Z.of_nat (base.size (tileUniverse g source)) < intMax.

Lemma movementCost_range p k :
  movementCost g passThroughBlocked p = Some k -> 1 <= k <= 3.
Proof.
  unfold movementCost.
  destruct (isFree g p); [intros H; inversion H; lia|].
  destruct (isPossible g p); [intros H; inversion H; lia|].
  destruct (passThroughBlocked && shouldBeBlocked g p); intros H; inversion H; lia.
Qed.

(** The invariant of the search. [X] is the set of the closed tiles whose
    neighbours have been offered to the queue. *)
Record centerInv (X : gset Position) (st : PathSearch) : Prop := mkCenterInv {
  cw_open : forall x, In x (openP st) ->
    fst x ∈ tileUniverse g source /\ is_Some (distancesP st !! fst x);
  cw_closed : closedP st ⊆ tileUniverse g source;
  cw_dist : forall p d, distancesP st !! p = Some d ->
    0 <= d <= 3 * Z.of_nat (base.size (closedP st));
  cw_expanded : forall c n k, c ∈ X -> In n (pathNeighbors g onlyStraight c) ->
    n ∉ closedP st -> getZoneId g n = id z ->
    movementCost g passThroughBlocked n = Some k ->
    exists dn dc, distancesP st !! n = Some dn /\ distancesP st !! c = Some dc
                  /\ dn <= dc + k;
  cw_source : cameFromP st !! source = Some invalidPosition
              /\ distancesP st !! source = Some 0;
  cw_came : forall p c, p <> source -> cameFromP st !! p = Some c ->
    exists dc k, distancesP st !! c = Some dc
                 /\ movementCost g passThroughBlocked p = Some k
                 /\ distancesP st !! p = Some (dc + k)
                 /\ c ∈ closedP st
                 /\ In p (pathNeighbors g onlyStraight c)
                 /\ getZoneId g p = id z;
  cw_closed_dist : forall c, c ∈ closedP st -> is_Some (distancesP st !! c);
  cw_X : X ⊆ closedP st;
  cw_dom : forall p, is_Some (distancesP st !! p) -> is_Some (cameFromP st !! p)
}.

Lemma centerFunctor_closed cur st p :
  closedP (centerFunctor z g passThroughBlocked cur st p) = closedP st.
Proof.
  unfold centerFunctor.
  destruct (bool_decide (p ∈ closedP st)); [reflexivity|].
  destruct (negb (getZoneId g p =? id z)); [reflexivity|].
  destruct (movementCost g passThroughBlocked p); [|reflexivity].
  destruct (_ <? _); reflexivity.
Qed.

(** One application of the lambda during the expansion of [cur]. *)
Lemma centerFunctor_step X st cur p dc :
  centerInv X st -> cur ∈ closedP st -> source ∈ closedP st ->
  p ∈ tileUniverse g source -> In p (pathNeighbors g onlyStraight cur) ->
  distancesP st !! cur = Some dc ->
  dc + 3 <= 3 * Z.of_nat (base.size (closedP st)) ->
  let st' := centerFunctor z g passThroughBlocked cur st p in
  centerInv X st'
  /\ distancesP st' !! cur = Some dc
  /\ (forall k, p ∉ closedP st -> getZoneId g p = id z ->
      movementCost g passThroughBlocked p = Some k ->
      exists dn, distancesP st' !! p = Some dn /\ dn <= dc + k)
  /\ (forall q dq, distancesP st !! q = Some dq ->
      exists dq', distancesP st' !! q = Some dq' /\ dq' <= dq)
  /\ (length (openP st') <= length (openP st) + 1)%nat.
Proof.
  intros Hinv Hcur Hsrc Hp Hnb Hdc Hbound. cbv zeta. unfold centerFunctor.
  destruct (bool_decide (p ∈ closedP st)) eqn:Hc.
  { apply bool_decide_eq_true_1 in Hc.
    split; [exact Hinv|]. split; [exact Hdc|]. split; [intros k Hn; contradiction|].
    split; [eauto with lia | lia]. }
  apply bool_decide_eq_false_1 in Hc.
  destruct (getZoneId g p =? id z) eqn:Hzone; cbn [negb].
  2:{ apply Z.eqb_neq in Hzone.
      split; [exact Hinv|]. split; [exact Hdc|]. split; [intros k _ Hz; contradiction|].
      split; [eauto with lia | lia]. }
  apply Z.eqb_eq in Hzone.
  destruct (movementCost g passThroughBlocked p) as [cost|] eqn:Hcost.
  2:{ split; [exact Hinv|]. split; [exact Hdc|]. split; [intros k _ _ Hk; discriminate|].
      split; [eauto with lia | lia]. }
  pose proof (movementCost_range p cost Hcost) as Hrange.
  rewrite Hdc. cbn [default from_option Datatypes.id].
  pose proof (subseteq_size _ _ (cw_closed X st Hinv)) as Hsz.
  destruct (dc + cost <? default intMax (distancesP st !! p)) eqn:Hlt.
  2:{ apply Z.ltb_ge in Hlt.
      split; [exact Hinv|]. split; [exact Hdc|].
      split; [|split; [eauto with lia | lia]].
      intros k _ _ Hk. inversion Hk; subst k.
      destruct (distancesP st !! p) as [dn|] eqn:Hdn;
        cbn [default from_option Datatypes.id] in Hlt.
      - exists dn. split; [reflexivity | lia].
      - lia. }
  apply Z.ltb_lt in Hlt.
  assert (Hpc : p <> cur) by (intros ->; contradiction).
  assert (Hps : p <> source) by (intros ->; contradiction).
  split; [|split; [|split; [|split]]].
  - destruct Hinv as [Ho Hcl Hd He [Hs1 Hs2] Hcm Hcd HX Hdom].
    constructor; cbn [closedP openP cameFromP distancesP].
    + intros x Hin. unfold pq_push in Hin. apply in_app_or in Hin as [Hin|[<-|[]]].
      * destruct (Ho x Hin) as [Hu [d Hd']]. split; [exact Hu|].
        destruct (decide (p = fst x)) as [<-|Hne].
        -- rewrite lookup_insert_eq. eauto.
        -- rewrite lookup_insert_ne by exact Hne. eauto.
      * cbn [fst]. split; [exact Hp|]. rewrite lookup_insert_eq. eauto.
    + exact Hcl.
    + intros q d Hq. destruct (decide (p = q)) as [<-|Hne].
      * rewrite lookup_insert_eq in Hq. inversion Hq; subst d.
        specialize (Hd cur dc Hdc). lia.
      * rewrite lookup_insert_ne in Hq by exact Hne. eauto.
    + intros c n k HcX Hn Hncl Hzn Hk.
      destruct (He c n k HcX Hn Hncl Hzn Hk) as (dn & dc' & Hdn & Hdc' & Hle).
      assert (Hcp : p <> c) by (intros ->; apply Hc, HX, HcX).
      rewrite (lookup_insert_ne _ p c) by exact Hcp.
      destruct (decide (p = n)) as [<-|Hne].
      * rewrite lookup_insert_eq. exists (dc + cost), dc'.
        split; [reflexivity|]. split; [exact Hdc'|].
        rewrite Hdn in Hlt. cbn [default from_option Datatypes.id] in Hlt. lia.
      * rewrite lookup_insert_ne by exact Hne. eauto.
    + split; [rewrite lookup_insert_ne by exact Hps; exact Hs1
             | rewrite lookup_insert_ne by exact Hps; exact Hs2].
    + intros q c Hq Hl. destruct (decide (p = q)) as [<-|Hne].
      * rewrite lookup_insert_eq in Hl. inversion Hl; subst c.
        rewrite lookup_insert_eq, (lookup_insert_ne _ p cur) by exact Hpc.
        exists dc, cost. auto 7.
      * rewrite lookup_insert_ne in Hl by exact Hne.
        destruct (Hcm q c Hq Hl) as (dc' & k & H1 & H2 & H3 & H4 & H5 & H6).
        assert (Hcp : p <> c) by (intros ->; contradiction).
        rewrite (lookup_insert_ne _ p c) by exact Hcp.
        rewrite (lookup_insert_ne _ p q) by exact Hne.
        exists dc', k. auto 7.
    + intros c Hcc. assert (Hcp : p <> c) by (intros ->; contradiction).
      rewrite lookup_insert_ne by exact Hcp. auto.
    + exact HX.
    + intros q Hq. destruct (decide (p = q)) as [<-|Hne].
      * rewrite lookup_insert_eq. eauto.
      * rewrite lookup_insert_ne in Hq by exact Hne.
        rewrite lookup_insert_ne by exact Hne. auto.
  - cbn [distancesP]. rewrite lookup_insert_ne by exact Hpc. exact Hdc.
  - intros k _ _ Hk. inversion Hk; subst k. cbn [distancesP].
    rewrite lookup_insert_eq. exists (dc + cost). split; [reflexivity | lia].
  - intros q dq Hq. cbn [distancesP]. destruct (decide (p = q)) as [<-|Hne].
    + rewrite lookup_insert_eq. exists (dc + cost). split; [reflexivity|].
      rewrite Hq in Hlt. cbn [default from_option Datatypes.id] in Hlt. lia.
    + rewrite lookup_insert_ne by exact Hne. eauto with lia.
  - cbn [openP]. unfold pq_push. rewrite length_app. simpl. lia.
Qed.

Lemma fold_centerFunctor X cur dc (l : list Position) : forall st,
  centerInv X st -> cur ∈ closedP st -> source ∈ closedP st ->
  (forall p, In p l -> p ∈ tileUniverse g source) ->
  (forall p, In p l -> In p (pathNeighbors g onlyStraight cur)) ->
  distancesP st !! cur = Some dc ->
  dc + 3 <= 3 * Z.of_nat (base.size (closedP st)) ->
  let st' := fold_left (centerFunctor z g passThroughBlocked cur) l st in
  centerInv X st'
  /\ closedP st' = closedP st
  /\ distancesP st' !! cur = Some dc
  /\ (forall p k, In p l -> p ∉ closedP st -> getZoneId g p = id z ->
      movementCost g passThroughBlocked p = Some k ->
      exists dn, distancesP st' !! p = Some dn /\ dn <= dc + k)
  /\ (forall q dq, distancesP st !! q = Some dq ->
      exists dq', distancesP st' !! q = Some dq' /\ dq' <= dq)
  /\ (length (openP st') <= length (openP st) + length l)%nat.
Proof.
  induction l as [|a l IH]; intros st Hinv Hcur Hsrc Hl Hnb Hdc Hb; cbv zeta; simpl.
  - split; [exact Hinv|]. split; [reflexivity|]. split; [exact Hdc|].
    split; [intros p k []|]. split; [eauto with lia | lia].
  - destruct (centerFunctor_step X st cur a dc Hinv Hcur Hsrc (Hl a (or_introl eq_refl))
                (Hnb a (or_introl eq_refl)) Hdc Hb) as (H1 & H2 & H3 & H4 & H5).
    cbv zeta in H1, H2, H3, H4, H5.
    pose proof (centerFunctor_closed cur st a) as Hc.
    assert (HI := IH (centerFunctor z g passThroughBlocked cur st a) H1).
    rewrite Hc in HI.
    specialize (HI Hcur Hsrc (fun p Hp => Hl p (or_intror Hp))
                  (fun p Hp => Hnb p (or_intror Hp)) H2 Hb).
    cbv zeta in HI. destruct HI as (I1 & I2 & I3 & I4 & I5 & I6).
    split; [exact I1|]. split; [exact I2|]. split; [exact I3|].
    split; [|split].
    + intros p k [->|Hin] Hncl Hzone Hk; [|eapply I4; eassumption].
      destruct (H3 k Hncl Hzone Hk) as (dn & Hdn & Hle).
      destruct (I5 p dn Hdn) as (dn' & Hdn' & Hle'). exists dn'. split; [exact Hdn' | lia].
    + intros q dq Hq. destruct (H4 q dq Hq) as (d1 & Hd1 & Hle1).
      destruct (I5 q d1 Hd1) as (d2 & Hd2 & Hle2). exists d2. split; [exact Hd2 | lia].
    + lia.
Qed.

(** Offering the neighbours of a tile a second time changes nothing. *)
Lemma fold_centerFunctor_stale cur dc (l : list Position) : forall st,
  distancesP st !! cur = Some dc ->
  (forall p, In p l ->
     p ∈ closedP st \/ getZoneId g p <> id z
     \/ movementCost g passThroughBlocked p = None
     \/ exists dn k, movementCost g passThroughBlocked p = Some k
                     /\ distancesP st !! p = Some dn /\ dn <= dc + k) ->
  fold_left (centerFunctor z g passThroughBlocked cur) l st = st.
Proof.
  induction l as [|a l IH]; intros st Hdc Hl; simpl; [reflexivity|].
  assert (Ha : centerFunctor z g passThroughBlocked cur st a = st).
  { unfold centerFunctor.
    destruct (Hl a (or_introl eq_refl)) as [H|[H|[H|(dn & k & Hk & Hdn & Hle)]]].
    - rewrite bool_decide_eq_true_2 by exact H. reflexivity.
    - destruct (bool_decide (a ∈ closedP st)); [reflexivity|].
      apply Z.eqb_neq in H. rewrite H. reflexivity.
    - destruct (bool_decide (a ∈ closedP st)); [reflexivity|].
      destruct (negb (getZoneId g a =? id z)); [reflexivity|]. rewrite H. reflexivity.
    - destruct (bool_decide (a ∈ closedP st)); [reflexivity|].
      destruct (negb (getZoneId g a =? id z)); [reflexivity|].
      rewrite Hk, Hdc, Hdn. cbn [default from_option Datatypes.id].
      destruct (dc + k <? dn) eqn:E; [apply Z.ltb_lt in E; lia | reflexivity]. }
  rewrite Ha. apply IH; [exact Hdc|]. intros p Hp. apply Hl. right. exact Hp.
Qed.

Definition centerMeasure (st : PathSearch) : nat :=
  9 * base.size (tileUniverse g source ∖ closedP st) + length (openP st).

Definition centerSearchInv (st : PathSearch) : Prop :=
  centerInv (closedP st) st
  /\ (source ∈ closedP st \/ (closedP st = ∅ /\ openP st = [(source, 0)])).

(** One iteration of the loop away from the center keeps the invariant and
    lowers the measure. *)
Lemma centerSearch_iteration st cur dcur rest :
  centerSearchInv st ->
  pq_pop Z.ltb (openP st) = Some ((cur, dcur), rest) ->
  let st1 := {| closedP := {[cur]} ∪ closedP st; openP := rest;
                cameFromP := cameFromP st; distancesP := distancesP st |} in
  let st2 := fold_left (centerFunctor z g passThroughBlocked cur)
               (pathNeighbors g onlyStraight cur) st1 in
  centerInv (closedP st) st1
  /\ source ∈ closedP st1
  /\ centerSearchInv st2 /\ (centerMeasure st2 < centerMeasure st)%nat.
Proof.
  intros [Hinv Hsrc] Hpop. cbv zeta.
  destruct (pq_pop_Some Z.ltb _ _ _ Hpop) as (Hlen & Hin & Hsub).
  destruct (cw_open _ _ Hinv _ Hin) as [Hu [dc Hdc]]. cbn [fst] in Hu, Hdc.
  assert (Hsrc1 : source ∈ {[cur]} ∪ closedP st).
  { destruct Hsrc as [H|[_ H]]; [set_solver|].
    rewrite H in Hin. destruct Hin as [Heq|[]]. inversion Heq. set_solver. }
  assert (Hinv1 : centerInv (closedP st)
            {| closedP := {[cur]} ∪ closedP st; openP := rest;
               cameFromP := cameFromP st; distancesP := distancesP st |}).
  { destruct Hinv as [Ho Hcl Hd He Hs Hcm Hcd HX Hdom].
    constructor; cbn [closedP openP cameFromP distancesP].
    - intros x Hx. apply Ho, Hsub, Hx.
    - apply union_subseteq. split; [apply singleton_subseteq_l; exact Hu | exact Hcl].
    - intros p d Hp. specialize (Hd p d Hp).
      assert (base.size (closedP st) <= base.size ({[cur]} ∪ closedP st))%nat
        by (apply subseteq_size; set_solver).
      lia.
    - intros c n k Hc Hn Hncl Hzn Hk. apply (He c n k Hc Hn); [set_solver | exact Hzn | exact Hk].
    - exact Hs.
    - intros p c Hp Hl. destruct (Hcm p c Hp Hl) as (d & k & ? & ? & ? & ? & ? & ?).
      exists d, k. split; [assumption|]. split; [assumption|]. split; [assumption|].
      split; [set_solver|]. split; assumption.
    - intros c Hc. apply elem_of_union in Hc as [Hc|Hc]; [|auto].
      apply elem_of_singleton in Hc. subst c. eauto.
    - set_solver.
    - exact Hdom. }
  split; [exact Hinv1|]. split; [exact Hsrc1|].
  destruct (decide (cur ∈ closedP st)) as [Hstale|Hfresh].
  - (* the tile was closed before: nothing is pushed *)
    assert (Hcl : {[cur]} ∪ closedP st = closedP st) by set_solver.
    rewrite Hcl.
    rewrite (fold_centerFunctor_stale cur dc); cbn [distancesP closedP]; [|exact Hdc|].
    + split.
      * split; [|left; rewrite <- Hcl; exact Hsrc1]. cbn [closedP].
        destruct Hinv. constructor; cbn [closedP openP cameFromP distancesP]; auto.
      * unfold centerMeasure. cbn [closedP openP]. lia.
    + intros n Hn. destruct (decide (n ∈ closedP st)) as [?|Hncl]; [left; assumption|].
      destruct (decide (getZoneId g n = id z)) as [Hzn|?]; [|right; left; assumption].
      destruct (movementCost g passThroughBlocked n) as [k|] eqn:Hk;
        [|right; right; left; reflexivity].
      right. right. right.
      destruct (cw_expanded _ _ Hinv cur n k Hstale Hn Hncl Hzn Hk)
        as (dn & dc' & Hdn & Hdc' & Hle).
      exists dn, k. split; [reflexivity|]. split; [exact Hdn|]. congruence.
  - (* the tile is closed now and its neighbours are offered *)
    assert (Hsize : base.size ({[cur]} ∪ closedP st) = S (base.size (closedP st))).
    { rewrite size_union by set_solver. rewrite size_singleton. reflexivity. }
    destruct (fold_centerFunctor (closedP st) cur dc (pathNeighbors g onlyStraight cur) _
                Hinv1) as (F1 & F2 & F3 & F4 & F5 & F6); cbn [closedP distancesP openP].
    + set_solver.
    + exact Hsrc1.
    + intros p Hp. unfold tileUniverse.
      apply elem_of_union_r, elem_of_list_to_set, seqZ_allTiles.
      unfold pathNeighbors in Hp.
      destruct onlyStraight; [eapply directNeighbors_inMap | eapply neighbors_inMap]; eauto.
    + auto.
    + exact Hdc.
    + pose proof (cw_dist _ _ Hinv cur dc Hdc). rewrite Hsize. lia.
    + cbv zeta in F1, F2, F3, F4, F5, F6. cbn [closedP openP] in F2, F4, F6.
      match goal with
      | |- context [fold_left ?f ?l ?s] => set (st2 := fold_left f l s) in *
      end.
      split.
      * split; [|left; rewrite F2; exact Hsrc1].
        destruct F1 as [Ho Hcl Hd He Hs Hcm Hcd HX Hdom].
        constructor;
          [exact Ho | exact Hcl | exact Hd | | exact Hs | exact Hcm | exact Hcd
          | reflexivity | exact Hdom].
        intros c n k Hc Hn Hncl Hzn Hk. rewrite F2 in Hc.
        apply elem_of_union in Hc as [Hc|Hc]; [|apply (He c n k Hc Hn); auto].
        apply elem_of_singleton in Hc. subst c.
        rewrite F2 in Hncl.
        destruct (F4 n k Hn Hncl Hzn Hk) as (dn & Hdn & Hle). eauto.
      * unfold centerMeasure. rewrite F2. cbn [closedP openP].
        rewrite (universe_size_closed g source (closedP st) cur Hu Hfresh).
        assert (length (pathNeighbors g onlyStraight cur) <= 8)%nat.
        { unfold pathNeighbors. destruct onlyStraight;
            [apply directNeighbors_length | apply neighbors_length]. }
        lia.
Qed.

(** What is known of the containers when the center is reached. *)
Definition centerReached (st : PathSearch) : Prop :=
  cameFromP st !! source = Some invalidPosition
  /\ (forall p c, p <> source -> cameFromP st !! p = Some c ->
        exists dc k, distancesP st !! c = Some dc
                     /\ movementCost g passThroughBlocked p = Some k
                     /\ distancesP st !! p = Some (dc + k)
                     /\ c ∈ tileUniverse g source
                     /\ In p (pathNeighbors g onlyStraight c)
                     /\ getZoneId g p = id z
                     /\ is_Some (cameFromP st !! c))
  /\ (forall p d, distancesP st !! p = Some d ->
        0 <= d <= 3 * Z.of_nat (base.size (tileUniverse g source)))
  /\ is_Some (distancesP st !! pos z)
  /\ is_Some (cameFromP st !! pos z).

(** The loop ends within as many iterations as the measure tells. *)
Lemma centerSearch_total : forall fuel st,
  centerSearchInv st -> (centerMeasure st < fuel)%nat ->
  exists e, centerSearch z g passThroughBlocked onlyStraight fuel st = Some e
    /\ match e with
       | Some st' => centerReached st'
       | None => True
       end.
Proof.
  induction fuel as [|fuel IH]; intros st Hinv Hm; [lia|].
  cbn [centerSearch].
  destruct (pq_pop Z.ltb (openP st)) as [[[cur dcur] rest]|] eqn:Hpop.
  - cbv zeta.
    destruct (centerSearch_iteration st cur dcur rest Hinv Hpop)
      as (Hinv1 & Hsrc1 & Hinv2 & Hm2).
    cbv zeta in Hinv2, Hm2.
    destruct (Position_eqb cur (pos z)) eqn:Hgoal.
    + apply Position_eqb_eq in Hgoal. subst cur.
      eexists. split; [reflexivity|].
      destruct Hinv as [Hinv Hsrc].
      destruct (pq_pop_Some Z.ltb _ _ _ Hpop) as (Hlen & Hin & Hsub).
      destruct (cw_open _ _ Hinv _ Hin) as [Hu Hd]. cbn [fst] in Hu, Hd.
      unfold centerReached. cbn [cameFromP distancesP].
      split; [apply (cw_source _ _ Hinv)|]. split; [|split; [|split]].
      * intros p c Hp Hc.
        destruct (cw_came _ _ Hinv p c Hp Hc) as (dc & k & H1 & H2 & H3 & H4 & H5 & H6).
        exists dc, k. split; [exact H1|]. split; [exact H2|]. split; [exact H3|].
        split; [apply (cw_closed _ _ Hinv); exact H4|]. split; [exact H5|].
        split; [exact H6|]. apply (cw_dom _ _ Hinv). eauto.
      * intros p d Hp. pose proof (cw_dist _ _ Hinv p d Hp).
        pose proof (subseteq_size _ _ (cw_closed _ _ Hinv)). lia.
      * exact Hd.
      * apply (cw_dom _ _ Hinv). exact Hd.
    + apply IH; [exact Hinv2 | lia].
  - eexists. split; [reflexivity | exact I].
Qed.

Lemma initialPathSearch_centerInv : centerSearchInv (initialPathSearch source).
Proof.
  split; [|right; split; reflexivity].
  constructor; cbn [initialPathSearch closedP openP cameFromP distancesP].
  - intros x [<-|[]]. cbn [fst]. split.
    + unfold tileUniverse. apply elem_of_union_l, elem_of_singleton. reflexivity.
    + rewrite lookup_singleton_eq. eauto.
  - apply empty_subseteq.
  - intros p d Hp. apply lookup_singleton_Some in Hp as [_ <-].
    rewrite size_empty. lia.
  - intros c n k Hc. apply elem_of_empty in Hc. contradiction.
  - rewrite !lookup_singleton_eq. split; reflexivity.
  - intros p c Hp Hc. apply lookup_singleton_Some in Hc as [<- _]. contradiction.
  - intros c Hc. apply elem_of_empty in Hc. contradiction.
  - reflexivity.
  - intros p [d Hp]. apply lookup_singleton_Some in Hp as [<- _].
    rewrite lookup_singleton_eq. eauto.
Qed.

Lemma initialPathSearch_centerMeasure :
  (centerMeasure (initialPathSearch source) < connectPathFuel g source)%nat.
Proof.
  unfold centerMeasure, connectPathFuel. cbn [initialPathSearch closedP openP].
  rewrite difference_empty_L. simpl. lia.
Qed.

Lemma allTiles_inMap p : p ∈ allTiles g -> isInTheMap g p = true.
Proof.
  unfold allTiles. intros H. apply list_elem_of_bind in H as (x & Hy & Hx).
  apply list_elem_of_fmap in Hy as (y & -> & Hy).
  apply elem_of_seqZ in Hx, Hy. unfold isInTheMap. cbn [fst snd].
  rewrite !andb_true_iff, !Z.leb_le, !Z.ltb_lt. lia.
Qed.

(** The walk back from the center ends at the tile the search started from
    and takes none but tiles of the zone that the search may step on. *)
Lemma backtrack_center st :
  centerReached st -> isValid source = true ->
  forall fuel b d, distancesP st !! b = Some d -> is_Some (cameFromP st !! b) ->
  (Z.to_nat d < fuel)%nat ->
  exists path, backtrack fuel (cameFromP st) b = Some path
    /\ Forall (fun t => t <> source /\ getZoneId g t = id z
                        /\ is_Some (movementCost g passThroughBlocked t)) path
    /\ walked g onlyStraight (path ++ [source])
    /\ match path with
       | [] => b = source
       | first :: _ => first = b
       end.
Proof.
  intros (Hs & Hc & Hd & _ & _) Hvalid.
  induction fuel as [|fuel IH]; intros b d Hb [c Hcb] Hf; [lia|].
  cbn [backtrack]. unfold cameFromOf. rewrite Hcb.
  cbn [default from_option Datatypes.id].
  destruct (decide (b = source)) as [->|Hne].
  { rewrite Hs in Hcb. inversion Hcb; subst c. cbn.
    exists []. split; [reflexivity|]. split; [constructor|]. split; [exact I | reflexivity]. }
  destruct (Hc b c Hne Hcb) as (dc & k & Hdc & Hk & Hdb & Hu & Hnb & Hzone & Hcc).
  assert (Hcv : isValid c = true).
  { unfold tileUniverse in Hu. apply elem_of_union in Hu as [Hu|Hu].
    - apply elem_of_singleton in Hu. subst c. exact Hvalid.
    - apply elem_of_list_to_set in Hu. eapply isInTheMap_isValid, allTiles_inMap. exact Hu. }
  rewrite Hcv.
  pose proof (movementCost_range b k Hk) as Hrange.
  pose proof (Hd c dc Hdc) as Hdcr.
  assert (d = dc + k) by congruence. subst d.
  destruct (IH c dc Hdc Hcc ltac:(lia)) as (rest & -> & Hall & Hwalk & Hend).
  exists (b :: rest). split; [reflexivity|]. split.
  - constructor; [|exact Hall]. split; [exact Hne|]. split; [exact Hzone | eauto].
  - split; [|reflexivity].
    destruct rest as [|first rest']; cbn [app walked].
    + subst c. split; [exact Hnb | exact I].
    + subst first. split; [exact Hnb | exact Hwalk].
Qed.

End ConnectWithCenterFacts.

(** X29. With fewer than [INT_MAX] / 3 tiles and a valid starting tile,
    [connectWithCenter] returns within [connectPathFuel] iterations. When it
    returns [false] the zone is as it was. When it returns [true] nothing but
    the occupancy grid has changed: the tiles walked back from the center are
    Free and every other tile keeps its state. The walk starts at the center,
    each of its tiles is a neighbour of the next and the last one a neighbour
    of the starting tile, straight neighbours when only straight steps are
    asked for; its tiles belong to the zone and were Free, Possible or, when
    passing through blocked tiles is allowed, Blocked; the starting tile is
    not among them and is left as it was. *)
Theorem connectWithCenter_outcome (z : TemplateZone) (position : Position)
    (onlyStraight passThroughBlocked : bool) :
  3 * Z.of_nat (base.size (tileUniverse (mapGenerator z) position)) < intMax ->
  isValid position = true ->
  exists result z',
    connectWithCenter (connectPathFuel (mapGenerator z) position) z position
      onlyStraight passThroughBlocked = Some (result, z')
    /\ if result
       then exists path,
              sameBesidesGrid z z' /\ possibleTiles z' = possibleTiles z
              /\ (forall t, occupied (tiles (mapGenerator z') t)
                            = if bool_decide (t ∈ path) then Free
                              else occupied (tiles (mapGenerator z) t))
              /\ Forall (fun t => t <> position
                                  /\ getZoneId (mapGenerator z) t = id z
                                  /\ is_Some (movementCost (mapGenerator z)
                                                passThroughBlocked t)) path
              /\ walked (mapGenerator z) onlyStraight (path ++ [position])
              /\ match path with
                 | [] => pos z = position
                 | first :: _ => first = pos z
                 end
       else z' = z /\ position <> pos z.
Proof.
  intros Hsmall Hvalid. unfold connectWithCenter.
  destruct (centerSearch_total z (mapGenerator z) position onlyStraight passThroughBlocked
              Hsmall (connectPathFuel (mapGenerator z) position)
              (initialPathSearch position))
    as (e & Hrun & He).
  { apply initialPathSearch_centerInv. }
  { apply initialPathSearch_centerMeasure. }
  rewrite Hrun. destruct e as [st|].
  - pose proof He as (_ & _ & Hd & [d Hdist] & Hcame).
    destruct (backtrack_center z (mapGenerator z) position onlyStraight passThroughBlocked
                st He Hvalid (connectPathFuel (mapGenerator z) position) (pos z) d
                Hdist Hcame) as (path & -> & Hall & Hwalk & Hend).
    { pose proof (Hd _ _ Hdist). unfold connectPathFuel. lia. }
    exists true. eexists. split; [reflexivity|].
    exists path. split.
    + unfold sameBesidesGrid.
      cbn [id borderType gapChance pos center tileInfo freePaths roadNodes roads
           mapGenerator withGenerator].
      pose proof (setFree_sameBesidesOccupied path (mapGenerator z)). tauto.
    + split; [reflexivity|]. split.
      * intros t. cbn [mapGenerator withGenerator]. apply setFree_occupied.
      * split; [exact Hall|]. split; [exact Hwalk|].
        destruct path; exact Hend.
  - exists false, z. split; [reflexivity|]. split; [reflexivity|].
    intros ->. unfold connectPathFuel in Hrun.
    replace (9 * base.size (tileUniverse (mapGenerator z) (pos z)) + 2)%nat
      with (S (9 * base.size (tileUniverse (mapGenerator z) (pos z)) + 1))%nat in Hrun
      by lia.
    cbn [centerSearch initialPathSearch openP pq_pop] in Hrun.
    rewrite Position_eqb_refl in Hrun. discriminate.
Qed.

(** A run of the statement on a sample. *)
Lemma connectWithCenter_outcome_witness :
  exists result z',
    connectWithCenter (connectPathFuel (mapGenerator roadZone) (0, 0)) roadZone (0, 0)
      false false = Some (result, z')
    /\ if result
       then exists path,
              sameBesidesGrid roadZone z' /\ possibleTiles z' = possibleTiles roadZone
              /\ (forall t, occupied (tiles (mapGenerator z') t)
                            = if bool_decide (t ∈ path) then Free
                              else occupied (tiles (mapGenerator roadZone) t))
              /\ Forall (fun t => t <> (0, 0)
                                  /\ getZoneId (mapGenerator roadZone) t = id roadZone
                                  /\ is_Some (movementCost (mapGenerator roadZone) false t))
                   path
              /\ walked (mapGenerator roadZone) false (path ++ [(0, 0)])
              /\ match path with
                 | [] => pos roadZone = (0, 0)
                 | first :: _ => first = pos roadZone
                 end
       else z' = roadZone /\ (0, 0) <> pos roadZone.
Proof.
  apply (connectWithCenter_outcome roadZone (0, 0) false false).
  - vm_compute. reflexivity.
  - reflexivity.
Defined.

Example connectWithCenter_sample_run :
  option_map (fun r => (fst r,
                        map (fun t => occupied (tiles (mapGenerator (snd r)) t))
                          [(0, 0); (1, 1); (2, 2); (1, 2); (2, 1)]))
    (connectWithCenter 50 roadZone (0, 0) false false)
  = Some (true, [Possible; Free; Free; Free; Possible])
  /\ option_map fst (connectWithCenter 50 (pocketZone Possible Blocked ∅) (0, 0) true false)
     = Some false.
Proof. split; vm_compute; reflexivity. Qed.

(** ** Obstacles *)

(** X30. A place accepted by [canObstacleBePlacedHere] lies in the map with
    every tile the element blocks in the map and Blocked; [placeMountain]
    never throws there, whatever the size, and no object fits there: when the
    element blocks a tile at all, [areAllTilesAvailable] is false. *)
Theorem canObstacleBePlacedHere_spec
    (addMountain : MapGenerator -> Position -> Position -> Z -> MapGenerator)
    (z : TemplateZone) (e : MapElement) (p size : Position) (image : Z) :
  canObstacleBePlacedHere z e p = true ->
  isInTheMap (mapGenerator z) p = true
  /\ Forall (fun offset => isInTheMap (mapGenerator z) (padd p offset) = true
                           /\ shouldBeBlocked (mapGenerator z) (padd p offset) = true)
       (blockedOffsets e)
  /\ (exists z', placeMountain addMountain z p size image = (inr tt, z'))
  /\ (blockedOffsets e <> [] -> areAllTilesAvailable z e p (blockedOffsets e) = false).
Proof.
  unfold canObstacleBePlacedHere. cbv zeta. intros H.
  destruct (isInTheMap (mapGenerator z) p) eqn:Hin; cbn [negb] in H; [|discriminate].
  assert (Hall : Forall (fun offset =>
                    isInTheMap (mapGenerator z) (padd p offset) = true
                    /\ shouldBeBlocked (mapGenerator z) (padd p offset) = true)
                   (blockedOffsets e)).
  { apply List.Forall_forall. intros offset Ho.
    rewrite forallb_forall in H. specialize (H offset Ho).
    destruct (isInTheMap (mapGenerator z) (padd p offset)); cbn [negb] in H; [|discriminate].
    destruct (shouldBeBlocked (mapGenerator z) (padd p offset)); cbn [negb] in H;
      [auto | discriminate]. }
  split; [reflexivity|]. split; [exact Hall|]. split.
  - unfold placeMountain. rewrite placeMountainLoop_inside by exact Hin. eauto.
  - intros Hne. destruct (blockedOffsets e) as [|offset rest]; [contradiction|].
    inversion Hall as [|? ? [_ Hb] _]; subst.
    unfold areAllTilesAvailable. cbn [forallb].
    unfold shouldBeBlocked in Hb. apply TileType_eqb_eq in Hb.
    unfold isPossible. rewrite Hb. cbn. rewrite andb_false_r. reflexivity.
Qed.

(** A run of the statement on a sample. *)
Lemma canObstacleBePlacedHere_spec_witness :
  isInTheMap (mapGenerator (pocketZone Possible Blocked ∅)) (0, 0) = true
  /\ Forall (fun offset =>
               isInTheMap (mapGenerator (pocketZone Possible Blocked ∅))
                 (padd (0, 0) offset) = true
               /\ shouldBeBlocked (mapGenerator (pocketZone Possible Blocked ∅))
                    (padd (0, 0) offset) = true)
       (blockedOffsets unitElement)
  /\ (exists z', placeMountain (fun g _ _ _ => g) (pocketZone Possible Blocked ∅)
                   (0, 0) (1, 1) 0 = (inr tt, z'))
  /\ (blockedOffsets unitElement <> [] ->
      areAllTilesAvailable (pocketZone Possible Blocked ∅) unitElement (0, 0)
        (blockedOffsets unitElement) = false).
Proof.
  apply (canObstacleBePlacedHere_spec (fun g _ _ _ => g) (pocketZone Possible Blocked ∅)
           unitElement (0, 0) (1, 1) 0).
  vm_compute. reflexivity.
Defined.
